(** * BG3 damage calculator: the distribution engine and the attack/damage
      domain model, embedded in Rocq.

    Source files embedded here:
    - [packages/prob/src/index.ts]   (the distribution algebra),
    - [packages/domain/src/index.ts] (attack, damage, plan and save models),
    - [packages/rulesets/src/index.ts] (rule effects and attack templates),
    - [packages/dice-parser/src/index.ts] (parsing and formatting of dice
      expressions).

    Numbers.  A JavaScript [number] is modelled as an exact rational [Q]:
    the arithmetic of the source is kept operation by operation, rounding
    of IEEE doubles is not modelled.  Equality of numbers is [Qeq] ([==]).
    Outcomes of a distribution and the values of constant terms are
    integers ([Z]): the dense representation of the source indexes a
    [Float64Array] by [outcome - firstOutcome], and the parser only emits
    integers.  Every other numeric input ([sides], [count], [dieSides],
    [criticalDiceMultiplier], [damageRollCount], [repeat], [armorClass],
    thresholds) stays a rational, so that the [Number.isInteger] guards of
    the source are real tests.  The two optional counts that the source
    passes through [Math.floor], [Math.max] or [Number.isFinite] before
    any integer guard, [damageRollCount] and [repeat], are a [JsNumber]:
    a rational, [NaN], [Infinity] or [-Infinity].  Elsewhere a number is
    finite.

    Errors.  [throw new Error(msg)] is the [Throw msg] case of [Result]. *)

From Stdlib Require Import String Ascii.
From Stdlib Require Import ZArith QArith Qround Qabs Qpower Qminmax.
From Stdlib Require Import List Bool Lia Lqa Sorted Permutation.
From Stdlib Require Import DecimalString DecimalPos DecimalN DecimalZ.
From Stdlib Require Import Morphisms Setoid.
Import ListNotations.

Local Open Scope string_scope.
Local Open Scope list_scope.
Local Open Scope Q_scope.

(* ================================================================== *)
(** ** Results of fallible calls *)

Inductive Result (A : Type) : Type :=
| Ok (value : A)
| Throw (message : string).

Arguments Ok {A} value.
Arguments Throw {A} message.

Definition bind {A B : Type} (r : Result A) (k : A -> Result B) : Result B :=
  match r with
  | Ok a => k a
  | Throw m => Throw m
  end.

Notation "x <- e ;; k" := (bind e (fun x => k))
  (at level 61, e at next level, right associativity).

(* ================================================================== *)
(** ** JavaScript number helpers *)

(** [Number.isInteger(x)] *)
Definition isInteger (x : Q) : bool := Qeq_bool (inject_Z (Qfloor x)) x.

(** The integer held by a number that passed [Number.isInteger]. *)
Definition toInt (x : Q) : Z := Qfloor x.

(** Loop bound of [for (let i = 1; i <= x; i += 1)]: the number of
    iterations is [floor x] when [x >= 1] and [0] otherwise. *)
Definition loopCount (x : Q) : nat := Z.to_nat (Qfloor x).

(** A [number] that may not be finite.  The optional counts of the
    damage model and of the plan are read by [Math.floor], [Math.max] and
    [Number.isFinite] before any [Number.isInteger] guard has seen them,
    so that [NaN] and the infinities take a path of their own there. *)
Inductive JsNumber : Type :=
| Finite (value : Q)
| NaN
| PositiveInfinity
| NegativeInfinity.

(** [Number.isFinite(x)] *)
Definition Number_isFinite (x : JsNumber) : bool :=
  match x with
  | Finite _ => true
  | _ => false
  end.

(** [Math.floor(x)] *)
Definition Math_floor (x : JsNumber) : JsNumber :=
  match x with
  | Finite q => Finite (inject_Z (Qfloor q))
  | other => other
  end.

(** [x <= bound], false when [x] is [NaN]. *)
Definition atMost (x : JsNumber) (bound : Q) : bool :=
  match x with
  | Finite q => Qle_bool q bound
  | NegativeInfinity => true
  | NaN | PositiveInfinity => false
  end.

(** [Math.abs(p) <= PROBABILITY_EPSILON] *)
Definition PROBABILITY_EPSILON : Q := 1 # 1000000000000000.

Definition nearZero (p : Q) : bool := Qle_bool (Qabs p) PROBABILITY_EPSILON.

(** A [Float64Array] write [values[i] = v]: ignored out of range. *)
Fixpoint array_set (values : list Q) (index : nat) (v : Q) : list Q :=
  match values, index with
  | [], _ => []
  | _ :: rest, O => v :: rest
  | x :: rest, S i => x :: array_set rest i v
  end.

(** [values[i] += v]: ignored out of range. *)
Fixpoint array_add (values : list Q) (index : nat) (v : Q) : list Q :=
  match values, index with
  | [], _ => []
  | x :: rest, O => (x + v) :: rest
  | x :: rest, S i => x :: array_add rest i v
  end.

(** A typed-array write at a numeric index: negative indices are ignored. *)
Definition array_setZ (values : list Q) (index : Z) (v : Q) : list Q :=
  if (index <? 0)%Z then values else array_set values (Z.to_nat index) v.

(** The pairs [(index, values[index])] a counting [for] loop visits. *)
Definition indexed (values : list Q) : list (nat * Q) :=
  combine (seq 0 (length values)) values.

(* ================================================================== *)
(** ** packages/prob: the distribution engine *)

Record DistributionEntry : Type := mkEntry {
  outcome : Z;
  probability : Q
}.

(** [map] is the JavaScript [Map] in insertion order, [entries] the same
    pairs sorted by outcome. *)
Record ProbabilityDistribution : Type := mkDistribution {
  distMap : list (Z * Q);
  entries : list DistributionEntry;
  totalProbability : Q
}.

Record DenseDistribution : Type := mkDense {
  offset : Z;
  values : list Q
}.

(** [map.get(key)] *)
Fixpoint map_get (m : list (Z * Q)) (key : Z) : option Q :=
  match m with
  | [] => None
  | (k, v) :: rest => if (k =? key)%Z then Some v else map_get rest key
  end.

(** [map.set(key, v)]: an existing key keeps its place, a new key is
    appended. *)
Fixpoint map_set (m : list (Z * Q)) (key : Z) (v : Q) : list (Z * Q) :=
  match m with
  | [] => [(key, v)]
  | (k, w) :: rest =>
      if (k =? key)%Z then (k, v) :: rest else (k, w) :: map_set rest key v
  end.

(** [.sort((left, right) => left.outcome - right.outcome)], as a stable
    insertion sort. *)
Fixpoint insertEntry (e : DistributionEntry) (sorted : list DistributionEntry)
  : list DistributionEntry :=
  match sorted with
  | [] => [e]
  | x :: rest =>
      if (outcome e <=? outcome x)%Z then e :: x :: rest
      else x :: insertEntry e rest
  end.

Definition sortByOutcome (es : list DistributionEntry) : list DistributionEntry :=
  fold_right insertEntry [] es.

Definition sumProbabilities (es : list DistributionEntry) : Q :=
  fold_left (fun sum entry => sum + probability entry) es 0.

(** The body of the merging loop of [normalize]. *)
Definition accumulateStep (m : list (Z * Q)) (entry : DistributionEntry)
  : list (Z * Q) :=
  let existing := match map_get m (outcome entry) with
                  | Some v => v
                  | None => 0
                  end in
  map_set m (outcome entry) (existing + probability entry).

Definition accumulate (es : list DistributionEntry) : list (Z * Q) :=
  fold_left accumulateStep es [].

Definition normalize (es : list DistributionEntry) : ProbabilityDistribution :=
  let m := accumulate es in
  let sortedEntries :=
    sortByOutcome (List.map (fun kv => mkEntry (fst kv) (snd kv)) m) in
  let total := sumProbabilities sortedEntries in
  mkDistribution m sortedEntries total.

(** [entries] is sorted in every distribution built by [normalize], so the
    array size [lastOutcome - firstOutcome + 1] is at least 1. *)
Definition toDense (distribution : ProbabilityDistribution) : DenseDistribution :=
  match entries distribution with
  | [] => mkDense 0 [0]
  | first :: _ =>
      let firstOutcome := outcome first in
      let lastOutcome := outcome (last (entries distribution) first) in
      let zeros := repeat 0 (Z.to_nat (lastOutcome - firstOutcome + 1)) in
      mkDense firstOutcome
        (fold_left
           (fun vs entry =>
              array_setZ vs (outcome entry - firstOutcome) (probability entry))
           (entries distribution) zeros)
  end.

(** The entries [fromDense] pushes, scanning from [index]. *)
Fixpoint denseEntries (off : Z) (index : Z) (vs : list Q)
  : list DistributionEntry :=
  match vs with
  | [] => []
  | p :: rest =>
      if nearZero p then denseEntries off (index + 1) rest
      else mkEntry (off + index) p :: denseEntries off (index + 1) rest
  end.

Definition fromDense (distribution : DenseDistribution) : ProbabilityDistribution :=
  normalize (denseEntries (offset distribution) 0 (values distribution)).

Definition convolveRow (rightValues : list Q) (leftIndex : nat)
  (leftProbability : Q) (acc : list Q) : list Q :=
  fold_left
    (fun acc ir =>
       let '(rightIndex, rightProbability) := ir in
       if nearZero rightProbability then acc
       else array_add acc (leftIndex + rightIndex)
              (leftProbability * rightProbability))
    (indexed rightValues) acc.

(** Both operands have at least one cell ([toDense] and the unit array of
    [repeatConvolve]), so the size [left + right - 1] is never negative. *)
Definition convolveDense (left right : DenseDistribution) : DenseDistribution :=
  let zeros :=
    repeat 0 (length (values left) + length (values right) - 1)%nat in
  mkDense (offset left + offset right)
    (fold_left
       (fun acc il =>
          let '(leftIndex, leftProbability) := il in
          if nearZero leftProbability then acc
          else convolveRow (values right) leftIndex leftProbability acc)
       (indexed (values left)) zeros).

Definition fromEntries (es : list DistributionEntry) : ProbabilityDistribution :=
  normalize es.

Definition constant (value : Z) : ProbabilityDistribution :=
  normalize [mkEntry value 1].

Definition uniformDie (sides : Q) : Result ProbabilityDistribution :=
  if negb (isInteger sides) || Qle_bool sides 0 then
    Throw "sides must be a positive integer"
  else
    let probability := 1 / sides in
    Ok (normalize
          (List.map (fun face => mkEntry (Z.of_nat face) probability)
             (seq 1 (loopCount sides)))).

Definition shift (distribution : ProbabilityDistribution) (amount : Z)
  : ProbabilityDistribution :=
  normalize
    (List.map (fun entry => mkEntry (outcome entry + amount) (probability entry))
       (entries distribution)).

Definition mapOutcomes (distribution : ProbabilityDistribution)
  (transform : Z -> Z) : ProbabilityDistribution :=
  normalize
    (List.map (fun entry => mkEntry (transform (outcome entry)) (probability entry))
       (entries distribution)).

Definition convolve (left right : ProbabilityDistribution)
  : ProbabilityDistribution :=
  fromDense (convolveDense (toDense left) (toDense right)).

(** The [for (let i = 0; i < times; i += 1)] loop of [repeatConvolve]. *)
Fixpoint repeatDense (denseBase : DenseDistribution) (times : nat)
  (result : DenseDistribution) : DenseDistribution :=
  match times with
  | O => result
  | S n => repeatDense denseBase n (convolveDense result denseBase)
  end.

Definition repeatConvolve (base : ProbabilityDistribution) (times : Q)
  : Result ProbabilityDistribution :=
  if negb (isInteger times) || negb (Qle_bool 0 times) then
    Throw "times must be a non-negative integer"
  else if Qeq_bool times 0 then Ok (constant 0)
  else
    Ok (fromDense (repeatDense (toDense base) (loopCount times) (mkDense 0 [1]))).

Definition expectation (distribution : ProbabilityDistribution) : Q :=
  fold_left
    (fun sum entry => sum + inject_Z (outcome entry) * probability entry)
    (entries distribution) 0.

Definition probabilityAtLeast (distribution : ProbabilityDistribution)
  (threshold : Q) : Q :=
  sumProbabilities
    (filter (fun entry => Qle_bool threshold (inject_Z (outcome entry)))
       (entries distribution)).

Definition probabilityAtMost (distribution : ProbabilityDistribution)
  (threshold : Q) : Q :=
  sumProbabilities
    (filter (fun entry => Qle_bool (inject_Z (outcome entry)) threshold)
       (entries distribution)).

(** [Math.pow(x, count)] for an integer [count]. *)
Definition Math_pow (x : Q) (count : Q) : Q := Qpower x (toInt count).

(** The entries pushed by the loop of [maxOfIndependent], in push order. *)
Fixpoint maxLoop (es : list DistributionEntry) (count : Q)
  (previousCdf cumulative : Q) : list DistributionEntry :=
  match es with
  | [] => []
  | entry :: rest =>
      let cumulative := cumulative + probability entry in
      let currentCdf := cumulative in
      let p := Math_pow currentCdf count - Math_pow previousCdf count in
      mkEntry (outcome entry) p :: maxLoop rest count currentCdf cumulative
  end.

Definition maxOfIndependent (distribution : ProbabilityDistribution) (count : Q)
  : Result ProbabilityDistribution :=
  if negb (isInteger count) || Qle_bool count 0 then
    Throw "count must be a positive integer"
  else if Qeq_bool count 1 then Ok distribution
  else Ok (fromEntries (maxLoop (entries distribution) count 0 0)).

Fixpoint minLoop (es : list DistributionEntry) (count : Q)
  (previousCdf cumulative : Q) : list DistributionEntry :=
  match es with
  | [] => []
  | entry :: rest =>
      let cumulative := cumulative + probability entry in
      let currentCdf := cumulative in
      let p := Math_pow (1 - previousCdf) count - Math_pow (1 - currentCdf) count in
      mkEntry (outcome entry) p :: minLoop rest count currentCdf cumulative
  end.

Definition minOfIndependent (distribution : ProbabilityDistribution) (count : Q)
  : Result ProbabilityDistribution :=
  if negb (isInteger count) || Qle_bool count 0 then
    Throw "count must be a positive integer"
  else if Qeq_bool count 1 then Ok distribution
  else Ok (fromEntries (minLoop (entries distribution) count 0 0)).

(** An order statistic called with a count that may not be finite:
    [Number.isInteger] fails on [NaN] and on the infinities, which the
    guard of [maxOfIndependent] and [minOfIndependent] turns into its
    error. *)
Definition atCount
  (orderStatistic : ProbabilityDistribution -> Q -> Result ProbabilityDistribution)
  (distribution : ProbabilityDistribution) (count : JsNumber)
  : Result ProbabilityDistribution :=
  match count with
  | Finite q => orderStatistic distribution q
  | _ => Throw "count must be a positive integer"
  end.

(* ================================================================== *)
(** ** packages/dice-parser: the expression components consumed here *)

Inductive TermSign : Type := SignPlus | SignMinus.

(** [component.sign < 0] *)
Definition signNegative (s : TermSign) : bool :=
  match s with SignPlus => false | SignMinus => true end.

Inductive ExpressionComponent : Type :=
| Dice (count : Q) (sides : Q) (sign : TermSign)
| Constant (value : Z).

Inductive Expression : Type :=
| Parsed (source normalized : string) (components : list ExpressionComponent)
| Components (components : list ExpressionComponent).

(* ================================================================== *)
(** ** packages/domain: attack, damage, plan and save models *)

Inductive AdvantageState : Type := AdvNormal | AdvAdvantage | AdvDisadvantage.
Inductive DamageModifier : Type := ModNormal | Resistant | Vulnerable | Immune.
Inductive DamageDiceRollMode : Type := RollNormal | RollAdvantage | RollDisadvantage.

Record AttackRollRuleConfig : Type := mkRules {
  dieSides : Q;
  autoMissFaces : list Q;
  autoCritFaces : list Q
}.

Record AttackCheckInput : Type := mkAttack {
  armorClass : Q;
  attackBonusExpression : Expression;
  advantageState : AdvantageState;
  rules : AttackRollRuleConfig;
  halflingLucky : option bool
}.

Record AttackOutcomeProbabilities : Type := mkOutcome {
  miss : Q;
  hit : Q;
  critical : Q
}.

Record DamageModel : Type := mkDamage {
  expression : Expression;
  criticalDiceMultiplier : Q;
  modifier : DamageModifier;
  diceRollMode : option DamageDiceRollMode;
  damageRollCount : option JsNumber;
  rerollLowThreshold : option Q
}.

Record AttackDamageRequest : Type := mkRequest {
  attack : AttackCheckInput;
  damage : DamageModel
}.

Record AttackDamageResult : Type := mkResult {
  probabilities : AttackOutcomeProbabilities;
  hitDamageDistribution : ProbabilityDistribution;
  criticalDamageDistribution : ProbabilityDistribution;
  totalDamageDistribution : ProbabilityDistribution;
  expectedDamageOnHit : Q;
  expectedDamageOnCritical : Q;
  expectedDamagePerAttack : Q
}.

Record AttackDamagePlanStep : Type := mkStep {
  request : AttackDamageRequest;
  repeatOpt : option JsNumber
}.

Record AttackDamagePlanStepResult : Type := mkStepResult {
  stepRequest : AttackDamageRequest;
  stepRepeat : Q;
  stepResult : AttackDamageResult;
  stepTotalDamageDistribution : ProbabilityDistribution;
  expectedDamageTotal : Q
}.

Record AttackDamagePlanResult : Type := mkPlanResult {
  steps : list AttackDamagePlanStepResult;
  planTotalDamageDistribution : ProbabilityDistribution;
  expectedDamagePerPlan : Q
}.

Record SaveCheckInput : Type := mkSave {
  difficultyClass : Q;
  saveBonus : Q
}.

Record SaveDamageResult : Type := mkSaveResult {
  saveSuccessProbability : Q;
  saveFailProbability : Q;
  expectedDamage : Q
}.

Definition asComponents (e : Expression) : list ExpressionComponent :=
  match e with
  | Parsed _ _ components => components
  | Components components => components
  end.

Definition validateAttackRules (config : AttackRollRuleConfig) : Result unit :=
  if negb (isInteger (dieSides config)) || Qle_bool (dieSides config) 1 then
    Throw "dieSides must be an integer greater than 1"
  else Ok tt.

Definition Math_max (a b : Q) : Q := if Qle_bool a b then b else a.
Definition Math_min (a b : Q) : Q := if Qle_bool a b then a else b.

Definition clamp01 (value : Q) : Q := Math_max 0 (Math_min 1 value).

(** [Math.max(bound, x)]: [NaN] when [x] is. *)
Definition Math_max_with (bound : Q) (x : JsNumber) : JsNumber :=
  match x with
  | Finite q => Finite (Math_max bound q)
  | NaN => NaN
  | PositiveInfinity => PositiveInfinity
  | NegativeInfinity => Finite bound
  end.

(** The loop of [probabilityOfFace]: [remaining] is the number of values
    of [value] still to visit, up to [singleDieDistribution.length - 1];
    the result is [(cdfAtFace, cdfBeforeFace)]. *)
Fixpoint cdfLoop (singleDieDistribution : list Q) (face : nat)
  (remaining : nat) (value : nat) (cdfAtFace cdfBeforeFace : Q) : Q * Q :=
  match remaining with
  | O => (cdfAtFace, cdfBeforeFace)
  | S n =>
      let probability := nth value singleDieDistribution 0 in
      let cdfAtFace := cdfAtFace + probability in
      let cdfBeforeFace :=
        if (value <? face)%nat then cdfBeforeFace + probability
        else cdfBeforeFace in
      if (face <=? value)%nat then (cdfAtFace, cdfBeforeFace)
      else cdfLoop singleDieDistribution face n (S value) cdfAtFace cdfBeforeFace
  end.

Definition probabilityOfFace (singleDieDistribution : list Q) (face : nat)
  (advantageState : AdvantageState) : Q :=
  let singleFace := nth face singleDieDistribution 0 in
  match advantageState with
  | AdvNormal => singleFace
  | _ =>
      let '(cdfAtFace, cdfBeforeFace) :=
        cdfLoop singleDieDistribution face
          (length singleDieDistribution - 1) 1 0 0 in
      match advantageState with
      | AdvAdvantage => cdfAtFace * cdfAtFace - cdfBeforeFace * cdfBeforeFace
      | _ =>
          let atLeastFace := 1 - cdfBeforeFace in
          let aboveFace := 1 - cdfAtFace in
          atLeastFace * atLeastFace - aboveFace * aboveFace
      end
  end.

(** [for (let face = from; face <= dieSides; face += 1) distribution[face] = v] *)
Definition fillFaces (distribution : list Q) (from count : nat) (v : Q) : list Q :=
  fold_left (fun d face => array_set d face v) (seq from count) distribution.

(** [new Array(dieSides + 1).fill(0)] and its writes: every index written
    is within the array once [validateAttackRules] has passed. *)
Definition buildSingleDieDistribution (dieSides : Q) (halflingLucky : bool)
  : list Q :=
  let distribution := repeat 0 (loopCount dieSides + 1) in
  let baseProbability := 1 / dieSides in
  if negb halflingLucky then
    fillFaces distribution 1 (loopCount dieSides) baseProbability
  else
    let rerollSameFace := baseProbability * baseProbability in
    let distribution := array_set distribution 1 rerollSameFace in
    fillFaces distribution 2 (loopCount dieSides - 1)
      (baseProbability + rerollSameFace).

Definition attackBonusStep (distribution : ProbabilityDistribution)
  (component : ExpressionComponent) : Result ProbabilityDistribution :=
  match component with
  | Constant value => Ok (shift distribution value)
  | Dice count sides sign =>
      die <- uniformDie sides ;;
      diceDistribution <- repeatConvolve die count ;;
      let diceDistribution :=
        if signNegative sign
        then mapOutcomes diceDistribution (fun outcome => (- outcome)%Z)
        else diceDistribution in
      Ok (convolve distribution diceDistribution)
  end.

(** A [for (const component of components)] loop over a fallible body. *)
Fixpoint foldResult {A B : Type} (body : A -> B -> Result A) (xs : list B)
  (acc : A) : Result A :=
  match xs with
  | [] => Ok acc
  | x :: rest => acc' <- body acc x ;; foldResult body rest acc'
  end.

Definition buildAttackBonusDistribution (expression : Expression)
  : Result ProbabilityDistribution :=
  foldResult attackBonusStep (asComponents expression) (constant 0).

(** [set.has(face)] *)
Definition setHas (faces : list Q) (face : nat) : bool :=
  existsb (fun x => Qeq_bool x (inject_Z (Z.of_nat face))) faces.

Definition faceStep (input : AttackCheckInput)
  (attackBonusDistribution : ProbabilityDistribution)
  (singleDieDistribution : list Q)
  (acc : AttackOutcomeProbabilities) (face : nat) : AttackOutcomeProbabilities :=
  let chance :=
    probabilityOfFace singleDieDistribution face (advantageState input) in
  let isAutoMiss := setHas (autoMissFaces (rules input)) face in
  let isAutoCrit := setHas (autoCritFaces (rules input)) face in
  if isAutoMiss then mkOutcome (miss acc + chance) (hit acc) (critical acc)
  else if isAutoCrit then mkOutcome (miss acc) (hit acc) (critical acc + chance)
  else
    let neededBonus := armorClass input - inject_Z (Z.of_nat face) in
    let hitChanceGivenFace :=
      probabilityAtLeast attackBonusDistribution neededBonus in
    mkOutcome (miss acc + chance * (1 - hitChanceGivenFace))
      (hit acc + chance * hitChanceGivenFace) (critical acc).

Definition isTrue (flag : option bool) : bool :=
  match flag with Some true => true | _ => false end.

Definition calculateAttackOutcomeProbabilities (input : AttackCheckInput)
  : Result AttackOutcomeProbabilities :=
  _ <- validateAttackRules (rules input) ;;
  let halflingLucky := isTrue (halflingLucky input) in
  attackBonusDistribution <-
    buildAttackBonusDistribution (attackBonusExpression input) ;;
  let singleDieDistribution :=
    buildSingleDieDistribution (dieSides (rules input)) halflingLucky in
  Ok (fold_left (faceStep input attackBonusDistribution singleDieDistribution)
        (seq 1 (loopCount (dieSides (rules input)))) (mkOutcome 0 0 0)).

Definition buildRerollLowDieDistribution (sides : Q)
  (rerollLowThreshold : option Q) : Result ProbabilityDistribution :=
  match rerollLowThreshold with
  | None => uniformDie sides
  | Some t =>
      if Qle_bool t 0 then uniformDie sides
      else
        let threshold := Math_min sides (inject_Z (Qfloor t)) in
        Ok (fromEntries
              (List.map
                 (fun face =>
                    let isLow := Qle_bool (inject_Z (Z.of_nat face)) threshold in
                    let probability :=
                      if isLow then threshold / (sides * sides)
                      else 1 / sides + threshold / (sides * sides) in
                    mkEntry (Z.of_nat face) probability)
                 (seq 1 (loopCount sides))))
  end.

(** The result is an integer in every branch, hence the type [Z]. *)
Definition applyDamageModifier (rawDamage : Q) (modifier : DamageModifier) : Z :=
  let sanitized := Z.max 0 (Qfloor rawDamage) in
  match modifier with
  | Immune => 0%Z
  | Resistant => Qfloor (inject_Z sanitized / 2)
  | Vulnerable => (sanitized * 2)%Z
  | ModNormal => sanitized
  end.

Definition buildNonCriticalDamageModel (model : DamageModel) : DamageModel :=
  mkDamage (expression model) 1 (modifier model) (diceRollMode model)
    (damageRollCount model) (rerollLowThreshold model).

Definition buildCriticalDamageModel (model : DamageModel) : DamageModel :=
  mkDamage (expression model) (criticalDiceMultiplier model) (modifier model)
    (diceRollMode model) (damageRollCount model) (rerollLowThreshold model).

Definition damageStep (criticalDiceMultiplier : Q) (rerollLowThreshold : option Q)
  (distribution : ProbabilityDistribution) (component : ExpressionComponent)
  : Result ProbabilityDistribution :=
  match component with
  | Constant value => Ok (shift distribution value)
  | Dice count sides sign =>
      let effectiveCount := count * criticalDiceMultiplier in
      dieDistribution <- buildRerollLowDieDistribution sides rerollLowThreshold ;;
      diceDistribution <- repeatConvolve dieDistribution effectiveCount ;;
      let diceDistribution :=
        if signNegative sign
        then mapOutcomes diceDistribution (fun outcome => (- outcome)%Z)
        else diceDistribution in
      Ok (convolve distribution diceDistribution)
  end.

Definition buildDamageDistribution (expression : Expression)
  (criticalDiceMultiplier : Q) (rerollLowThreshold : option Q)
  : Result ProbabilityDistribution :=
  if negb (isInteger criticalDiceMultiplier) || Qle_bool criticalDiceMultiplier 0
  then Throw "criticalDiceMultiplier must be a positive integer"
  else
    foldResult (damageStep criticalDiceMultiplier rerollLowThreshold)
      (asComponents expression) (constant 0).

Definition applyModifierToDistribution (distribution : ProbabilityDistribution)
  (modifier : DamageModifier) : ProbabilityDistribution :=
  mapOutcomes distribution
    (fun outcome => applyDamageModifier (inject_Z outcome) modifier).

Definition resolveDiceRollMode (mode : option DamageDiceRollMode)
  : DamageDiceRollMode :=
  match mode with Some m => m | None => RollNormal end.

Definition resolveDamageRollCount (mode : DamageDiceRollMode)
  (count : option JsNumber) : JsNumber :=
  match count with
  | Some c => Math_max_with 1 (Math_floor c)
  | None => Finite (match mode with RollNormal => 1 | _ => 2 end)
  end.

(** [Math.floor] of a finite number is finite, so the last case is never
    met. *)
Definition normalizeStepRepeat (repeat : option JsNumber) : Result Q :=
  match repeat with
  | None => Ok 1
  | Some r =>
      if negb (Number_isFinite r) then Throw "repeat must be a finite number"
      else
        match Math_floor r with
        | Finite normalized =>
            if negb (Qle_bool 1 normalized) then Throw "repeat must be at least 1"
            else Ok normalized
        | _ => Throw "repeat must be a finite number"
        end
  end.

(** [rollCount] is optional in the source and defaults to [2]. *)
Definition applyDamageDiceRollMode (distribution : ProbabilityDistribution)
  (mode : DamageDiceRollMode) (rollCount : option JsNumber)
  : Result ProbabilityDistribution :=
  let rollCount := match rollCount with Some c => c | None => Finite 2 end in
  match mode with
  | RollNormal => Ok distribution
  | _ =>
      if atMost rollCount 1 then Ok distribution
      else
        match mode with
        | RollDisadvantage => atCount minOfIndependent distribution rollCount
        | _ => atCount maxOfIndependent distribution rollCount
        end
  end.

Definition calculateSaveSuccessProbability (input : SaveCheckInput) : Q :=
  let threshold := difficultyClass input - saveBonus input in
  clamp01 ((21 - inject_Z (Qceiling threshold)) / 20).

Definition calculateSaveExpectedDamage (input : SaveCheckInput)
  (failDamageMean successDamageMean : Q) : SaveDamageResult :=
  let saveSuccessProbability := calculateSaveSuccessProbability input in
  let saveFailProbability := 1 - saveSuccessProbability in
  mkSaveResult saveSuccessProbability saveFailProbability
    (saveFailProbability * failDamageMean
     + saveSuccessProbability * successDamageMean).

Definition weightEntries (es : list DistributionEntry) (weight : Q)
  : list DistributionEntry :=
  List.map (fun entry => mkEntry (outcome entry) (probability entry * weight)) es.

Definition calculateAttackDamage (request : AttackDamageRequest)
  : Result AttackDamageResult :=
  probabilities <- calculateAttackOutcomeProbabilities (attack request) ;;
  let diceRollMode := resolveDiceRollMode (diceRollMode (damage request)) in
  let damageRollCount :=
    resolveDamageRollCount diceRollMode (damageRollCount (damage request)) in
  let nonCriticalDamageModel := buildNonCriticalDamageModel (damage request) in
  let criticalDamageModel := buildCriticalDamageModel (damage request) in
  rawHit <- buildDamageDistribution (expression nonCriticalDamageModel)
              (criticalDiceMultiplier nonCriticalDamageModel)
              (rerollLowThreshold nonCriticalDamageModel) ;;
  rawHitDistribution <-
    applyDamageDiceRollMode rawHit diceRollMode (Some damageRollCount) ;;
  rawCrit <- buildDamageDistribution (expression criticalDamageModel)
               (criticalDiceMultiplier criticalDamageModel)
               (rerollLowThreshold criticalDamageModel) ;;
  rawCritDistribution <-
    applyDamageDiceRollMode rawCrit diceRollMode (Some damageRollCount) ;;
  let hitDamageDistribution :=
    applyModifierToDistribution rawHitDistribution (modifier (damage request)) in
  let criticalDamageDistribution :=
    applyModifierToDistribution rawCritDistribution (modifier (damage request)) in
  let weightedEntries :=
    mkEntry 0 (miss probabilities)
    :: weightEntries (entries hitDamageDistribution) (hit probabilities)
    ++ weightEntries (entries criticalDamageDistribution) (critical probabilities) in
  let totalDamageDistribution := fromEntries weightedEntries in
  let expectedDamageOnHit := expectation hitDamageDistribution in
  let expectedDamageOnCritical := expectation criticalDamageDistribution in
  let expectedDamagePerAttackBase :=
    hit probabilities * expectedDamageOnHit
    + critical probabilities * expectedDamageOnCritical in
  Ok (mkResult probabilities hitDamageDistribution criticalDamageDistribution
        totalDamageDistribution expectedDamageOnHit expectedDamageOnCritical
        expectedDamagePerAttackBase).

(** The loop of [calculateAttackDamagePlan] over the remaining steps;
    [planTotal] is the running [totalDamageDistribution] of the source. *)
Fixpoint planLoop (remaining : list AttackDamagePlanStep)
  (planTotal : ProbabilityDistribution)
  (resolvedSteps : list AttackDamagePlanStepResult)
  : Result (ProbabilityDistribution * list AttackDamagePlanStepResult) :=
  match remaining with
  | [] => Ok (planTotal, resolvedSteps)
  | step :: rest =>
      repeatCount <- normalizeStepRepeat (repeatOpt step) ;;
      result <- calculateAttackDamage (request step) ;;
      repeatedDistribution <-
        repeatConvolve (totalDamageDistribution result) repeatCount ;;
      let expectedDamageTotal := expectedDamagePerAttack result * repeatCount in
      planLoop rest (convolve planTotal repeatedDistribution)
        (resolvedSteps
         ++ [mkStepResult (request step) repeatCount result repeatedDistribution
               expectedDamageTotal])
  end.

Definition calculateAttackDamagePlan (steps : list AttackDamagePlanStep)
  : Result AttackDamagePlanResult :=
  r <- planLoop steps (constant 0) [] ;;
  let '(planTotal, resolvedSteps) := r in
  Ok (mkPlanResult resolvedSteps planTotal (expectation planTotal)).

(* ================================================================== *)
(** ** Vocabulary of the properties *)

Fixpoint qsum (l : list Q) : Q :=
  match l with
  | [] => 0
  | x :: rest => x + qsum rest
  end.

(** The weight of a list of entries under [w]: [w] constant [1] gives the
    total probability, [w = inject_Z] the expectation. *)
Definition weight (w : Z -> Q) (es : list DistributionEntry) : Q :=
  qsum (List.map (fun e => w (outcome e) * probability e) es).

Definition mapWeight (w : Z -> Q) (m : list (Z * Q)) : Q :=
  qsum (List.map (fun kv => w (fst kv) * snd kv) m).

Definition one : Z -> Q := fun _ => 1.

(** An entry as [normalize] stores it when its outcome is met once: the
    probability is added to the [0] of [map.get(outcome) ?? 0]. *)
Definition zeroPlus (e : DistributionEntry) : DistributionEntry :=
  mkEntry (outcome e) (0 + probability e).

(** The cumulative probability of the faces [1..k] of a single-die array. *)
Definition cdf (dist : list Q) (k : nat) : Q :=
  qsum (List.map (fun v => nth v dist 0) (seq 1 k)).

(** The chance of a face in closed form: the base probability, or the
    difference of squared cumulative (advantage) or survival
    (disadvantage) probabilities. *)
Definition faceChance (dist : list Q) (adv : AdvantageState) (face : nat) : Q :=
  match adv with
  | AdvNormal => cdf dist face - cdf dist (face - 1)
  | AdvAdvantage =>
      cdf dist face * cdf dist face
      - cdf dist (face - 1) * cdf dist (face - 1)
  | AdvDisadvantage =>
      (1 - cdf dist (face - 1)) * (1 - cdf dist (face - 1))
      - (1 - cdf dist face) * (1 - cdf dist face)
  end.

(** The guards an expression meets on its way through [uniformDie] and
    [repeatConvolve]: positive-integer sides, non-negative integer count. *)
Definition validDice (count sides : Q) : bool :=
  isInteger sides && negb (Qle_bool sides 0)
  && isInteger count && Qle_bool 0 count.

Definition validComponent (c : ExpressionComponent) : bool :=
  match c with
  | Dice count sides _ => validDice count sides
  | Constant _ => true
  end.

Definition validExpression (e : Expression) : bool :=
  forallb validComponent (asComponents e).

(** The guard of [validateAttackRules]. *)
Definition validRules (config : AttackRollRuleConfig) : bool :=
  isInteger (dieSides config) && negb (Qle_bool (dieSides config) 1).






(** A component with its dice count multiplied by [m]; a constant term is
    left as it is. *)
Definition scaleDice (m : Q) (c : ExpressionComponent) : ExpressionComponent :=
  match c with
  | Dice count sides sign => Dice (count * m) sides sign
  | Constant value => Constant value
  end.

(** The roll count passes the guard of the order statistic: the dice are
    rolled once, or the count, once coerced, is finite ([NaN] and
    [Infinity] are the counts the coercion leaves as they are). *)
Definition validRollCount (model : DamageModel) : bool :=
  match resolveDiceRollMode (diceRollMode model) with
  | RollNormal => true
  | mode => Number_isFinite (resolveDamageRollCount mode (damageRollCount model))
  end.

(** A count the order statistics accept: an integer of at least 1. *)
Definition integerCount (c : JsNumber) : Prop :=
  exists n, c = Finite n /\ isInteger n = true /\ 1 <= n.

(** The guard of [buildDamageDistribution], the validity of the damage
    expression and of the roll count. *)
Definition validDamage (model : DamageModel) : bool :=
  validExpression (expression model)
  && isInteger (criticalDiceMultiplier model)
  && negb (Qle_bool (criticalDiceMultiplier model) 0)
  && validRollCount model.

Definition validRequest (request : AttackDamageRequest) : bool :=
  validRules (rules (attack request))
  && validExpression (attackBonusExpression (attack request))
  && validDamage (damage request).

(** The same request with another [damageRollCount]. *)
Definition withDamageRollCount (request : AttackDamageRequest)
  (count : option JsNumber) : AttackDamageRequest :=
  mkRequest (attack request)
    (mkDamage (expression (damage request))
       (criticalDiceMultiplier (damage request)) (modifier (damage request))
       (diceRollMode (damage request)) count
       (rerollLowThreshold (damage request))).

(** The weight of a dense array whose first cell holds outcome [pos]. *)
Fixpoint denseWeight (w : Z -> Q) (pos : Z) (vs : list Q) : Q :=
  match vs with
  | [] => 0
  | v :: rest => w pos * v + denseWeight w (pos + 1) rest
  end.

(** A dense array as the loops of [convolveDense] and [fromDense] read
    it: a cell within [PROBABILITY_EPSILON] of zero counts for nothing. *)
Definition prune (vs : list Q) : list Q :=
  List.map (fun v => if nearZero v then 0 else v) vs.

(** The weight of the exact convolution of two dense arrays, the first
    cell of the result holding outcome [pos]. *)
Fixpoint convWeight (w : Z -> Q) (pos : Z) (xs bs : list Q) : Q :=
  match xs with
  | [] => 0
  | x :: rest => x * denseWeight w pos bs + convWeight w (pos + 1) rest bs
  end.

Definition nonnegEntries (es : list DistributionEntry) : Prop :=
  Forall (fun e => 0 <= probability e) es.


(** A dense array of non-negative cells that sum to at most 1. *)
Definition subdense (D : DenseDistribution) : Prop :=
  (1 <= length (values D))%nat /\
  Forall (fun x => 0 <= x) (values D) /\
  qsum (values D) <= 1.


(** The same outcomes with equal probabilities. *)
Definition sameDistribution (d d' : ProbabilityDistribution) : Prop :=
  Forall2 (fun e e' => outcome e = outcome e' /\ probability e == probability e')
    (entries d) (entries d').

(** Unique outcomes, in ascending order. *)
Definition ascending (es : list DistributionEntry) : Prop :=
  StronglySorted Z.lt (List.map outcome es).

(** The derived fields of a distribution agree with its entries. *)
Definition consistent (d : ProbabilityDistribution) : Prop :=
  ascending (entries d) /\ totalProbability d == weight one (entries d).

(** Ascending unique outcomes with non-negative probabilities that sum
    to at most 1. *)
Definition subdist (d : ProbabilityDistribution) : Prop :=
  ascending (entries d) /\
  nonnegEntries (entries d) /\
  weight one (entries d) <= 1.

(** A distribution as the algebra is meant to produce it. *)
Definition normalized (d : ProbabilityDistribution) : Prop :=
  consistent d /\ nonnegEntries (entries d) /\ totalProbability d == 1.

Definition nonnegOutcomes (es : list DistributionEntry) : Prop :=
  Forall (fun e => (0 <= outcome e)%Z) es.

(** A distribution of damage: no negative outcome. *)
Definition damageDist (d : ProbabilityDistribution) : Prop :=
  subdist d /\ nonnegOutcomes (entries d).

(** The expectation of a dense array, unpruned. *)
Definition denseExpectation (D : DenseDistribution) : Q :=
  denseWeight inject_Z (offset D) (values D).

Definition nonnegOutcome (o : AttackOutcomeProbabilities) : Prop :=
  0 <= miss o /\ 0 <= hit o /\ 0 <= critical o.

(** The guards of [normalizeStepRepeat]: a finite number of at least 1. *)
Definition validRepeat (repeatCount : option JsNumber) : bool :=
  match repeatCount with
  | None => true
  | Some (Finite r) => Qle_bool 1 (inject_Z (Qfloor r))
  | Some _ => false
  end.

Definition validStep (step : AttackDamagePlanStep) : bool :=
  validRequest (request step) && validRepeat (repeatOpt step).

(** The repeat count a valid step resolves to. *)
Definition resolvedRepeat (step : AttackDamagePlanStep) : Q :=
  match repeatOpt step with
  | Some (Finite r) => inject_Z (Qfloor r)
  | _ => 1
  end.

(** What [calculateAttackDamagePlan] records for a step. *)
Definition stepResolved (step : AttackDamagePlanStep)
  (sr : AttackDamagePlanStepResult) : Prop :=
  stepRequest sr = request step /\
  stepRepeat sr = resolvedRepeat step /\
  calculateAttackDamage (request step) = Ok (stepResult sr) /\
  repeatConvolve (totalDamageDistribution (stepResult sr)) (stepRepeat sr)
  = Ok (stepTotalDamageDistribution sr) /\
  expectedDamageTotal sr = expectedDamagePerAttack (stepResult sr) * stepRepeat sr.





(** The largest outcome of a distribution, [0] when it has no entry. *)
Definition topOutcome (d : ProbabilityDistribution) : Z :=
  match entries d with
  | [] => 0%Z
  | first :: rest => outcome (last (first :: rest) first)
  end.

(** The largest total a list of resolved steps can deal: for each step
    the repeat count times the largest outcome of one attack. *)
Definition planCeiling (resolved : list AttackDamagePlanStepResult) : Q :=
  qsum
    (List.map
       (fun sr =>
          stepRepeat sr
          * inject_Z (topOutcome (totalDamageDistribution (stepResult sr))))
       resolved).

(** What a distribution whose outcomes are at most [ceiling] leaves
    below it: the weight of [ceiling - outcome]. *)
Definition headroom (ceiling : Q) (d : ProbabilityDistribution) : Q :=
  ceiling * weight one (entries d) - weight inject_Z (entries d).

Definition denseHeadroom (ceiling : Q) (D : DenseDistribution) : Q :=
  ceiling * qsum (values D) - denseExpectation D.

(** Every cell of a dense array holds an outcome of at most [ceiling]. *)
Definition denseWithin (ceiling : Q) (D : DenseDistribution) : Prop :=
  inject_Z (offset D) + inject_Z (Z.of_nat (length (values D))) <= ceiling + 1.

Definition within (ceiling : Q) (d : ProbabilityDistribution) : Prop :=
  Forall (fun e => inject_Z (outcome e) <= ceiling) (entries d).


(* ================================================================== *)
(** ** packages/prob: the operations no model above calls *)

(** The factor is an integer here, as the outcomes are. *)
Definition scaleOutcomes (distribution : ProbabilityDistribution) (factor : Z)
  : ProbabilityDistribution :=
  normalize
    (List.map (fun entry => mkEntry (outcome entry * factor) (probability entry))
       (entries distribution)).

(** The nested loops push one entry per pair, the right entries varying
    fastest. *)
Definition multiplyIndependent (left right : ProbabilityDistribution)
  : ProbabilityDistribution :=
  normalize
    (flat_map
       (fun leftEntry =>
          List.map
            (fun rightEntry =>
               mkEntry (outcome leftEntry * outcome rightEntry)
                 (probability leftEntry * probability rightEntry))
            (entries right))
       (entries left)).

(* ================================================================== *)
(** ** packages/domain: the closed forms *)

Definition calculateSingleRollAttackProbabilities
  (armorClass attackBonus criticalThreshold : Q) : AttackOutcomeProbabilities :=
  let threshold := armorClass - attackBonus in
  let critChance := clamp01 ((21 - criticalThreshold) / 20) in
  let nonCritChance :=
    clamp01 (Math_max 0 (criticalThreshold - Math_max 2 threshold) / 20) in
  mkOutcome (clamp01 (1 - critChance - nonCritChance)) nonCritChance critChance.

Definition expectedSingleDieMean (sides : Q) : Q := (sides + 1) / 2.

Definition expectedGwfSingleDieMean (sides : Q) : Q :=
  ((sides + 1) * (sides + 2) - 6) / (2 * sides).

Definition expectedMaxOfTwoSingleDieMean (sides : Q) : Q :=
  ((sides + 1) * (4 * sides - 1)) / (6 * sides).

(* ================================================================== *)
(** ** Vocabulary of the further properties *)

(** The probability a list of entries gives to one outcome. *)
Definition massAt (o : Z) (es : list DistributionEntry) : Q :=
  weight (fun o' => if (o' =? o)%Z then 1 else 0) es.

(** The same input against another armor class. *)
Definition withArmorClass (input : AttackCheckInput) (ac : Q) : AttackCheckInput :=
  mkAttack ac (attackBonusExpression input) (advantageState input) (rules input)
    (halflingLucky input).

(** The same input with another attack-bonus expression. *)
Definition withAttackBonus (input : AttackCheckInput) (e : Expression)
  : AttackCheckInput :=
  mkAttack (armorClass input) e (advantageState input) (rules input)
    (halflingLucky input).

(** The same input with another [halflingLucky] flag. *)
Definition withHalflingLucky (input : AttackCheckInput) (flag : option bool)
  : AttackCheckInput :=
  mkAttack (armorClass input) (attackBonusExpression input) (advantageState input)
    (rules input) flag.

(** The chance of a miss once the face is known, as [faceStep] classifies it. *)
Definition missGivenFace (input : AttackCheckInput)
  (bonus : ProbabilityDistribution) (face : nat) : Q :=
  if setHas (autoMissFaces (rules input)) face then 1
  else if setHas (autoCritFaces (rules input)) face then 0
  else 1 - probabilityAtLeast bonus (armorClass input - inject_Z (Z.of_nat face)).

(** Equal outcome probabilities. *)
Definition sameOutcome (o o' : AttackOutcomeProbabilities) : Prop :=
  miss o == miss o' /\ hit o == hit o' /\ critical o == critical o'.

(** Lists of entries with the same outcomes and equal probabilities. *)
Definition sameEntries (es es' : list DistributionEntry) : Prop :=
  Forall2 (fun e e' => outcome e = outcome e' /\ probability e == probability e')
    es es'.

(** An entry the [PROBABILITY_EPSILON] tests keep. *)
Definition significant (e : DistributionEntry) : bool :=
  negb (nearZero (probability e)).

(** The dense cells of ascending entries: [n] cells from outcome [pos] on,
    zero wherever no entry sits. *)
Fixpoint layout (pos : Z) (es : list DistributionEntry) (n : nat) : list Q :=
  match es with
  | [] => repeat 0 n
  | e :: rest =>
      let k := Z.to_nat (outcome e - pos) in
      repeat 0 k ++ probability e :: layout (outcome e + 1) rest (n - k - 1)
  end.

(* ================================================================== *)
(** ** packages/rulesets: effects and attack templates

    A [Partial<T>] patch is a record of optional fields: [None] is a key
    the patch does not hold.  A field that is itself optional in [T] holds,
    when present, a value that may be [undefined].  The [description] of
    an effect, a display string rendered from its numbers, is not
    modelled. *)

Record AttackCheckPatch : Type := mkAttackPatch {
  patchArmorClass : option Q;
  patchAttackBonusExpression : option Expression;
  patchAdvantageState : option AdvantageState;
  patchRules : option AttackRollRuleConfig;
  patchHalflingLucky : option (option bool)
}.

Record DamagePatch : Type := mkDamagePatch {
  patchExpression : option Expression;
  patchCriticalDiceMultiplier : option Q;
  patchModifier : option DamageModifier;
  patchDiceRollMode : option (option DamageDiceRollMode);
  patchDamageRollCount : option (option JsNumber);
  patchRerollLowThreshold : option (option Q)
}.

Record RuleContext : Type := mkContext {
  contextAttack : AttackCheckInput;
  contextDamage : DamageModel
}.

Record RuleMutation : Type := mkMutation {
  mutationAttack : option AttackCheckPatch;
  mutationDamage : option DamagePatch
}.

Record RuleEffect : Type := mkEffect {
  effectId : string;
  apply : RuleContext -> RuleMutation
}.

Record ResolveResult : Type := mkResolveResult {
  resolvedRequest : AttackDamageRequest;
  resolvedEffects : list RuleEffect;
  resolvedResult : AttackDamageResult
}.

Record AttackTemplateStep : Type := mkTemplateStep {
  templateStepId : string;
  templateStepRepeat : option JsNumber;
  templateStepAttack : option AttackCheckPatch;
  templateStepDamage : option DamagePatch;
  templateStepEffects : option (list RuleEffect)
}.

Record AttackTemplate : Type := mkTemplate {
  templateId : string;
  templateName : string;
  templateSteps : list AttackTemplateStep
}.

Record AttackTemplateStepResult : Type := mkTemplateStepResult {
  resultStep : AttackTemplateStep;
  resultContext : RuleContext;
  resultRequest : AttackDamageRequest;
  resultAppliedEffects : list RuleEffect;
  resultRepeat : Q;
  resultResult : AttackDamageResult;
  resultExpectedDamageTotal : Q
}.

Record ResolveTemplateResult : Type := mkResolveTemplateResult {
  resolvedTemplate : AttackTemplate;
  resolvedSteps : list AttackTemplateStepResult;
  totalResult : AttackDamagePlanResult
}.

Record DualWieldTemplateOptions : Type := mkDualWieldOptions {
  mainHandEffects : option (list RuleEffect);
  offHandEffects : option (list RuleEffect);
  offHandAttackPatch : option AttackCheckPatch;
  offHandDamagePatch : option DamagePatch;
  mainHandRepeat : option JsNumber;
  offHandRepeat : option JsNumber
}.

(** The entries of [resolvedContexts] in [resolveBg3AttackTemplate]. *)
Record ResolvedContext : Type := mkResolvedContext {
  rcStep : AttackTemplateStep;
  rcContext : RuleContext;
  rcRequest : AttackDamageRequest;
  rcAppliedEffects : list RuleEffect
}.

Definition bg3AttackRules : AttackRollRuleConfig := mkRules 20 [1] [20].

Definition appendConstant (expression : Expression) (value : Z) : Expression :=
  let nextComponents := asComponents expression ++ [Constant value] in
  match expression with
  | Parsed source normalized _ => Parsed source normalized nextComponents
  | Components _ => Components nextComponents
  end.

(** One key of an object spread [{...current, ...patch}]. *)
Definition spread {A : Type} (current : A) (patch : option A) : A :=
  match patch with
  | Some v => v
  | None => current
  end.

(** [rules: patch.rules ?? current.rules] gives what the spread gives. *)
Definition mergeAttack (current : AttackCheckInput)
  (patch : option AttackCheckPatch) : AttackCheckInput :=
  match patch with
  | None => current
  | Some p =>
      mkAttack (spread (armorClass current) (patchArmorClass p))
        (spread (attackBonusExpression current) (patchAttackBonusExpression p))
        (spread (advantageState current) (patchAdvantageState p))
        (match patchRules p with
         | Some r => r
         | None => rules current
         end)
        (spread (halflingLucky current) (patchHalflingLucky p))
  end.

Definition mergeDamage (current : DamageModel) (patch : option DamagePatch)
  : DamageModel :=
  match patch with
  | None => current
  | Some p =>
      mkDamage (spread (expression current) (patchExpression p))
        (spread (criticalDiceMultiplier current) (patchCriticalDiceMultiplier p))
        (spread (modifier current) (patchModifier p))
        (spread (diceRollMode current) (patchDiceRollMode p))
        (spread (damageRollCount current) (patchDamageRollCount p))
        (spread (rerollLowThreshold current) (patchRerollLowThreshold p))
  end.

Definition applyEffects (base : RuleContext) (effects : list RuleEffect)
  : RuleContext :=
  fold_left
    (fun current effect =>
       let mutation := apply effect current in
       mkContext (mergeAttack (contextAttack current) (mutationAttack mutation))
         (mergeDamage (contextDamage current) (mutationDamage mutation)))
    effects base.

Definition resolveBg3Attack (base : RuleContext) (effects : list RuleEffect)
  : Result ResolveResult :=
  let resolved := applyEffects base effects in
  let request := mkRequest (contextAttack resolved) (contextDamage resolved) in
  result <- calculateAttackDamage request ;;
  Ok (mkResolveResult request effects result).

(** [step.effects ?? []] *)
Definition effectsOf (effects : option (list RuleEffect)) : list RuleEffect :=
  match effects with
  | Some es => es
  | None => []
  end.

Definition normalizeTemplateStep (base : RuleContext) (step : AttackTemplateStep)
  : RuleContext :=
  let patched :=
    mkContext (mergeAttack (contextAttack base) (templateStepAttack step))
      (mergeDamage (contextDamage base) (templateStepDamage step)) in
  applyEffects patched (effectsOf (templateStepEffects step)).

(** The first loop of [resolveBg3AttackTemplate]: one plan step and one
    resolved context per template step. *)
Definition resolveStep (base : RuleContext) (step : AttackTemplateStep)
  : AttackDamagePlanStep * ResolvedContext :=
  let context := normalizeTemplateStep base step in
  let request := mkRequest (contextAttack context) (contextDamage context) in
  let repeatCount :=
    match templateStepRepeat step with
    | None => Finite 1
    | Some r => Math_max_with 1 (Math_floor r)
    end in
  (mkStep request (Some repeatCount),
   mkResolvedContext step context request (effectsOf (templateStepEffects step))).

(** The second loop: [resolvedContexts[index]] with [totalResult.steps[index]]. *)
Definition pairStep (resolvedContexts : list ResolvedContext)
  (planSteps : list AttackDamagePlanStepResult)
  (stepResults : list AttackTemplateStepResult) (index : nat)
  : Result (list AttackTemplateStepResult) :=
  match nth_error resolvedContexts index, nth_error planSteps index with
  | Some resolved, Some planStep =>
      Ok (stepResults
          ++ [mkTemplateStepResult (rcStep resolved) (rcContext resolved)
                (rcRequest resolved) (rcAppliedEffects resolved)
                (stepRepeat planStep) (stepResult planStep)
                (expectedDamageTotal planStep)])
  | _, _ => Throw "template resolution index mismatch"
  end.

Definition resolveBg3AttackTemplate (base : RuleContext) (template : AttackTemplate)
  : Result ResolveTemplateResult :=
  let resolvedPairs := List.map (resolveStep base) (templateSteps template) in
  let planSteps := List.map fst resolvedPairs in
  let resolvedContexts := List.map snd resolvedPairs in
  totalResult <- calculateAttackDamagePlan planSteps ;;
  stepResults <-
    foldResult (pairStep resolvedContexts (steps totalResult))
      (seq 0 (length resolvedContexts)) [] ;;
  Ok (mkResolveTemplateResult template stepResults totalResult).

Definition makeDualWieldTemplate (options : DualWieldTemplateOptions)
  : AttackTemplate :=
  let mainHand :=
    mkTemplateStep "main-hand" (mainHandRepeat options) None None
      (Some (effectsOf (mainHandEffects options))) in
  let offHand :=
    mkTemplateStep "off-hand" (offHandRepeat options)
      (offHandAttackPatch options) (offHandDamagePatch options)
      (Some (effectsOf (offHandEffects options))) in
  let hasOffHand :=
    (0 <? length (effectsOf (offHandEffects options)))%nat
    || match offHandRepeat options with Some _ => true | None => false end in
  mkTemplate "dual-wield" "Dual Wield"
    (if hasOffHand then [mainHand; offHand] else [mainHand]).

(** The patches with no key. *)
Definition noAttackPatch : AttackCheckPatch := mkAttackPatch None None None None None.
Definition noDamagePatch : DamagePatch := mkDamagePatch None None None None None None.

Definition makeAttackBonusEffect (id : string) (bonusDelta : Z) : RuleEffect :=
  mkEffect id
    (fun context =>
       mkMutation
         (Some (mkAttackPatch None
                  (Some (appendConstant
                           (attackBonusExpression (contextAttack context))
                           bonusDelta))
                  None None None))
         None).

Definition makeCriticalDiceMultiplierEffect (id : string) (multiplier : Q)
  : RuleEffect :=
  mkEffect id
    (fun _ =>
       mkMutation None
         (Some (mkDamagePatch None (Some multiplier) None None None None))).

Definition makeDamageModifierEffect (id : string) (modifier : DamageModifier)
  : RuleEffect :=
  mkEffect id
    (fun _ =>
       mkMutation None
         (Some (mkDamagePatch None None (Some modifier) None None None))).

Definition makeDamageDiceRollModeEffect (id : string) (mode : DamageDiceRollMode)
  : RuleEffect :=
  mkEffect id
    (fun _ =>
       mkMutation None
         (Some (mkDamagePatch None None None (Some (Some mode)) None None))).

Definition normalizeCriticalThreshold (threshold : Q) : Q :=
  Math_max 17 (Math_min 20 (inject_Z (Qfloor threshold))).

(** [for (let face = normalized; face <= 20; face += 1) faces.push(face)] *)
Definition buildCriticalFaces (threshold : Q) : list Q :=
  let normalized := normalizeCriticalThreshold threshold in
  List.map (fun i => normalized + inject_Z (Z.of_nat i))
    (seq 0 (Z.to_nat (Qfloor (20 - normalized) + 1))).

Definition applyCriticalThresholdToRules (rules : AttackRollRuleConfig)
  (threshold : Q) : AttackRollRuleConfig :=
  mkRules (dieSides rules) (autoMissFaces rules) (buildCriticalFaces threshold).

Definition makeCriticalThresholdEffect (id : string) (threshold : Q) : RuleEffect :=
  mkEffect id
    (fun context =>
       mkMutation
         (Some (mkAttackPatch None None None
                  (Some (applyCriticalThresholdToRules
                           (rules (contextAttack context)) threshold))
                  None))
         None).

Definition makeHalflingLuckyEffect (id : string) (enabled : bool) : RuleEffect :=
  mkEffect id
    (fun _ =>
       mkMutation (Some (mkAttackPatch None None None None (Some (Some enabled))))
         None).

Definition makeDamageRollCountEffect (id : string) (count : JsNumber)
  : RuleEffect :=
  mkEffect id
    (fun _ =>
       mkMutation None
         (Some (mkDamagePatch None None None None (Some (Some count)) None))).

(** The repeat count the template resolver hands to the plan. *)
Definition templateRepeat (step : AttackTemplateStep) : JsNumber :=
  match templateStepRepeat step with
  | None => Finite 1
  | Some r => Math_max_with 1 (Math_floor r)
  end.

(** The request a template step resolves to. *)
Definition templateRequest (base : RuleContext) (step : AttackTemplateStep)
  : AttackDamageRequest :=
  let context := normalizeTemplateStep base step in
  mkRequest (contextAttack context) (contextDamage context).

(** What [resolveBg3AttackTemplate] records for a template step. *)
Definition templateStepResolved (base : RuleContext) (step : AttackTemplateStep)
  (sr : AttackTemplateStepResult) : Prop :=
  resultStep sr = step /\
  resultContext sr = normalizeTemplateStep base step /\
  resultRequest sr = templateRequest base step /\
  resultAppliedEffects sr = effectsOf (templateStepEffects step) /\
  match templateRepeat step with
  | Finite n => resultRepeat sr == n
  | _ => False
  end /\
  calculateAttackDamage (templateRequest base step) = Ok (resultResult sr) /\
  resultExpectedDamageTotal sr
  = expectedDamagePerAttack (resultResult sr) * resultRepeat sr.

(* ================================================================== *)
(** ** packages/dice-parser: parsing and formatting

    A string is a [string] of Rocq, each [ascii] one code unit of the
    JavaScript string; code units above 255 are outside the model.  The
    numbers read are integers, exact at any size, and the text printed
    for a number is that of an integer, with all its digits: the model
    is the source for the numbers a [number] holds exactly, those up to
    [Number.MAX_SAFE_INTEGER]; it gives no text for a number that is not
    an integer.  The messages of [DiceParseError] are the
    constructors of [ParseMessage]. *)

Inductive ParseMessage : Type :=
| EmptyExpression                      (* the expression is empty *)
| TrailingOperator                     (* the expression ends with an operator *)
| MissingSides                         (* no number of sides after [d] *)
| CountNotPositive                     (* the number of dice is not above 0 *)
| SidesNotPositive                     (* the number of sides is not above 0 *)
| ExpectedTerm                         (* neither a dice term nor a number *)
| IllegalCharacter (operator : ascii)  (* a character that is no operator *)
| UnknownError.                        (* the fallback of [tryParseDiceExpression] *)

Record DiceParseIssue : Type := mkIssue {
  issueMessage : ParseMessage;
  issueIndex : Z
}.

Record ParsedDiceExpression : Type := mkParsed {
  parsedSource : string;
  parsedNormalized : string;
  parsedComponents : list ExpressionComponent
}.

Inductive DiceParseResult : Type :=
| ParseSuccess (value : ParsedDiceExpression)
| ParseFailure (error : DiceParseIssue).

Record IntegerToken : Type := mkToken {
  tokenValue : Z;
  nextIndex : nat
}.


(** [input[index]], [undefined] past the end. *)
Definition charAt (input : string) (index : nat) : option ascii :=
  String.get index input.

(** The characters of [input] from [index] on. *)
Definition stringFrom (input : string) (index : nat) : string :=
  String.substring index (String.length input - index) input.

(** [char !== undefined && char >= "0" && char <= "9"] *)
Definition isDigit (char : option ascii) : bool :=
  match char with
  | Some c => (48 <=? nat_of_ascii c)%nat && (nat_of_ascii c <=? 57)%nat
  | None => false
  end.

(** [/\s/u.test(char)] on code units below 256: tab, line feed, vertical
    tab, form feed, carriage return, space and no-break space. *)
Definition isWhitespace (c : ascii) : bool :=
  let n := nat_of_ascii c in
  ((9 <=? n)%nat && (n <=? 13)%nat) || (n =? 32)%nat || (n =? 160)%nat.

(** The loop of [skipWhitespace] over the characters from [index] on. *)
Fixpoint skipWhitespaceLoop (rest : string) (index : nat) : nat :=
  match rest with
  | String c rest' =>
      if isWhitespace c then skipWhitespaceLoop rest' (S index) else index
  | EmptyString => index
  end.

Definition skipWhitespace (input : string) (startIndex : nat) : nat :=
  skipWhitespaceLoop (stringFrom input startIndex) startIndex.

(** The loop of [readUnsignedInteger] over the characters from
    [endIndex] on. *)
Fixpoint digitLoop (rest : string) (endIndex : nat) : nat :=
  match rest with
  | String c rest' =>
      if isDigit (Some c) then digitLoop rest' (S endIndex) else endIndex
  | EmptyString => endIndex
  end.

(** [Number.parseInt(digits, 10)] on a string of decimal digits. *)
Definition Number_parseInt (digits : string) : Z :=
  match NilEmpty.uint_of_string digits with
  | Some d => Z.of_N (N.of_uint d)
  | None => 0%Z
  end.

Definition readUnsignedInteger (input : string) (startIndex : nat)
  : option IntegerToken :=
  if negb (isDigit (charAt input startIndex)) then None
  else
    let endIndex := digitLoop (stringFrom input startIndex) startIndex in
    Some (mkToken
            (Number_parseInt (String.substring startIndex (endIndex - startIndex) input))
            endIndex).

(** The text of a number that holds an integer, as a template literal
    prints it. *)
Definition integerText (z : Z) : string := NilZero.string_of_int (Z.to_int z).

(** The text a template literal prints for a number.  The model gives
    the text of an integer; [None] stands for the text of any other
    number, a fraction such as [2.5] among them. *)
Definition numberText (x : Q) : option string :=
  if isInteger x then Some (integerText (toInt x)) else None.

Definition formatComponent (component : ExpressionComponent) : option string :=
  match component with
  | Dice count sides _ =>
      match numberText count, numberText sides with
      | Some countText, Some sidesText =>
          Some (countText ++ "d" ++ sidesText)%string
      | _, _ => None
      end
  | Constant value => Some (integerText (Z.abs value))
  end.

(** [component.kind === "dice" ? component.sign < 0 : component.value < 0] *)
Definition isNegative (component : ExpressionComponent) : bool :=
  match component with
  | Dice _ _ sign => signNegative sign
  | Constant value => (value <? 0)%Z
  end.

(** The fragment pushed for the component at [index]. *)
Definition formatFragment (index : nat) (component : ExpressionComponent)
  : option string :=
  match formatComponent component with
  | Some body =>
      Some match index with
           | O => if isNegative component then ("-" ++ body)%string else body
           | S _ => ((if isNegative component then "-" else "+") ++ body)%string
           end
  | None => None
  end.

Fixpoint formatFragments (index : nat) (components : list ExpressionComponent)
  : option string :=
  match components with
  | [] => Some ""
  | component :: rest =>
      match formatFragment index component, formatFragments (S index) rest with
      | Some fragment, Some others => Some (fragment ++ others)%string
      | _, _ => None
      end
  end.

Definition formatDiceExpression (expression : Expression) : option string :=
  match asComponents expression with
  | [] => Some "0"
  | components => formatFragments 0 components
  end.

(** [pendingSign * count] *)
Definition signed (sign : TermSign) (count : Z) : Z :=
  match sign with
  | SignPlus => count
  | SignMinus => (- count)%Z
  end.

Definition isChar (char : option ascii) (c : ascii) : bool :=
  match char with
  | Some x => Ascii.eqb x c
  | None => false
  end.

(** The [while (true)] loop of [parseDiceExpression], one iteration per
    unit of [fuel]; [None] when the fuel runs out.  The result is the
    list of components or the issue of the [DiceParseError] thrown. *)
Fixpoint parseLoop (fuel : nat) (source : string) (index : nat)
  (isFirstTerm : bool) (pendingSign : TermSign)
  (components : list ExpressionComponent)
  : option (list ExpressionComponent + DiceParseIssue) :=
  match fuel with
  | O => None
  | S fuel' =>
      let index := skipWhitespace source index in
      if (String.length source <=? index)%nat then
        if isFirstTerm then Some (inr (mkIssue EmptyExpression 0))
        else Some (inr (mkIssue TrailingOperator
                          (Z.of_nat (String.length source) - 1)))
      else
        let signGiven :=
          isFirstTerm
          && (isChar (charAt source index) "+" || isChar (charAt source index) "-") in
        let pendingSign :=
          if signGiven
          then (if isChar (charAt source index) "-" then SignMinus else SignPlus)
          else pendingSign in
        let index :=
          if signGiven then skipWhitespace source (index + 1) else index in
        let startOfTerm := index in
        let countToken := readUnsignedInteger source index in
        let count := option_map tokenValue countToken in
        let index :=
          match countToken with
          | Some token => nextIndex token
          | None => index
          end in
        let afterTerm (components : list ExpressionComponent) (index : nat) :=
          let index := skipWhitespace source index in
          if (String.length source <=? index)%nat then Some (inl components)
          else
            match charAt source index with
            | Some operator =>
                if negb (Ascii.eqb operator "+" || Ascii.eqb operator "-"
                         || Ascii.eqb operator ",")
                then Some (inr (mkIssue (IllegalCharacter operator)
                                  (Z.of_nat index)))
                else
                  let pendingSign :=
                    if Ascii.eqb operator "-" then SignMinus else SignPlus in
                  let index := skipWhitespace source (index + 1) in
                  if (String.length source <=? index)%nat then
                    Some (inr (mkIssue TrailingOperator
                                 (Z.of_nat (String.length source) - 1)))
                  else parseLoop fuel' source index false pendingSign components
            | None => Some (inl components)
            end in
        if isChar (charAt source index) "d" || isChar (charAt source index) "D" then
          let index := (index + 1)%nat in
          match readUnsignedInteger source index with
          | None => Some (inr (mkIssue MissingSides (Z.of_nat index)))
          | Some sidesToken =>
              let diceCount := match count with Some c => c | None => 1%Z end in
              let diceSides := tokenValue sidesToken in
              if (diceCount <=? 0)%Z then
                Some (inr (mkIssue CountNotPositive (Z.of_nat startOfTerm)))
              else if (diceSides <=? 0)%Z then
                Some (inr (mkIssue SidesNotPositive (Z.of_nat index)))
              else
                afterTerm
                  (components
                   ++ [Dice (inject_Z diceCount) (inject_Z diceSides) pendingSign])
                  (nextIndex sidesToken)
          end
        else
          match count with
          | Some c => afterTerm (components ++ [Constant (signed pendingSign c)]) index
          | None => Some (inr (mkIssue ExpectedTerm (Z.of_nat index)))
          end
  end.

(** The loop runs at most once per character; [None] is the model
    running out of fuel, or a normalized text it does not give, neither
    of which happens: the components the loop builds hold integers. *)
Definition parseDiceExpression (input : string) : option DiceParseResult :=
  match parseLoop (S (String.length input)) input 0 true SignPlus [] with
  | None => None
  | Some (inl components) =>
      match formatDiceExpression (Components components) with
      | Some normalized =>
          Some (ParseSuccess (mkParsed input normalized components))
      | None => None
      end
  | Some (inr issue) => Some (ParseFailure issue)
  end.

(** No error but [DiceParseError] is raised by [parseDiceExpression], so
    the fallback of the [catch] has no counterpart here. *)
Definition tryParseDiceExpression (input : string) : option DiceParseResult :=
  parseDiceExpression input.

Definition isDiceExpression (input : string) : option bool :=
  match tryParseDiceExpression input with
  | Some (ParseSuccess _) => Some true
  | Some (ParseFailure _) => Some false
  | None => None
  end.

(** The text of a component whose numbers are integers. *)
Definition componentText (component : ExpressionComponent) : string :=
  match component with
  | Dice count sides _ =>
      integerText (toInt count) ++ "d" ++ integerText (toInt sides)
  | Constant value => integerText (Z.abs value)
  end.

Definition fragmentText (index : nat) (component : ExpressionComponent) : string :=
  let body := componentText component in
  match index with
  | O => if isNegative component then "-" ++ body else body
  | S _ => (if isNegative component then "-" else "+") ++ body
  end.

Fixpoint fragmentsText (index : nat) (components : list ExpressionComponent)
  : string :=
  match components with
  | [] => ""
  | component :: rest =>
      fragmentText index component ++ fragmentsText (S index) rest
  end.

(** The text [formatDiceExpression] gives for components whose numbers
    are integers. *)
Definition expressionText (expression : Expression) : string :=
  match asComponents expression with
  | [] => "0"
  | components => fragmentsText 0 components
  end.

(** A component as the parser emits it: integers, a dice term with at
    least one die of at least one side. *)
Definition parsedComponent (c : ExpressionComponent) : Prop :=
  match c with
  | Dice count sides _ =>
      exists n s, count = inject_Z n /\ sides = inject_Z s /\ (1 <= n)%Z /\ (1 <= s)%Z
  | Constant _ => True
  end.

(** A string of decimal digits. *)
Fixpoint allDigits (s : string) : bool :=
  match s with
  | EmptyString => true
  | String c rest => isDigit (Some c) && allDigits rest
  end.

(** A string of whitespace only. *)
Fixpoint blank (s : string) : bool :=
  match s with
  | EmptyString => true
  | String c rest => isWhitespace c && blank rest
  end.

(** The sign the parser holds when it reads the term of a component. *)
Definition signOf (c : ExpressionComponent) : TermSign :=
  if isNegative c then SignMinus else SignPlus.

(** [Number.MAX_SAFE_INTEGER] *)
Definition MAX_SAFE_INTEGER : Z := 9007199254740991.

(** A component whose numbers a [number] holds exactly. *)
Definition safeComponent (c : ExpressionComponent) : bool :=
  match c with
  | Dice count sides _ =>
      Qle_bool count (inject_Z MAX_SAFE_INTEGER)
      && Qle_bool sides (inject_Z MAX_SAFE_INTEGER)
  | Constant value => (Z.abs value <=? MAX_SAFE_INTEGER)%Z
  end.

(* ================================================================== *)
(** * Properties *)

(** ** Sums of rationals *)

Lemma fold_left_qsum {A : Type} (f : A -> Q) (l : list A) (a : Q) :
  fold_left (fun sum x => sum + f x) l a == a + qsum (List.map f l).
Proof.
  revert a; induction l as [|x l IH]; intros a; simpl.
  - ring.
  - rewrite IH. ring.
Qed.

Lemma qsum_app (l1 l2 : list Q) : qsum (l1 ++ l2) == qsum l1 + qsum l2.
Proof.
  induction l1 as [|x l1 IH]; simpl.
  - ring.
  - rewrite IH. ring.
Qed.

Lemma qsum_perm (l1 l2 : list Q) : Permutation l1 l2 -> qsum l1 == qsum l2.
Proof.
  induction 1; simpl.
  - reflexivity.
  - rewrite IHPermutation. reflexivity.
  - ring.
  - etransitivity; eassumption.
Qed.

Lemma qsum_nonneg (l : list Q) : Forall (fun x => 0 <= x) l -> 0 <= qsum l.
Proof.
  induction 1; simpl; lra.
Qed.

Lemma qsum_map_ext {A : Type} (f g : A -> Q) (l : list A) :
  (forall x, In x l -> f x == g x) ->
  qsum (List.map f l) == qsum (List.map g l).
Proof.
  induction l as [|x l IH]; intros H; simpl.
  - reflexivity.
  - rewrite (H x (or_introl eq_refl)), IH by (intros; apply H; right; assumption).
    reflexivity.
Qed.

Lemma qsum_map_scale {A : Type} (f : A -> Q) (c : Q) (l : list A) :
  qsum (List.map (fun x => f x * c) l) == qsum (List.map f l) * c.
Proof.
  induction l as [|x l IH]; simpl.
  - ring.
  - rewrite IH. ring.
Qed.

Lemma qsum_repeat (c : Q) (n : nat) : qsum (repeat c n) == inject_Z (Z.of_nat n) * c.
Proof.
  induction n as [|n IH].
  - simpl. ring.
  - cbn [repeat qsum]. rewrite IH, Nat2Z.inj_succ. unfold Z.succ.
    rewrite inject_Z_plus. ring.
Qed.

Lemma sumProbabilities_weight (es : list DistributionEntry) :
  sumProbabilities es == weight one es.
Proof.
  unfold sumProbabilities, weight. rewrite fold_left_qsum.
  rewrite Qplus_0_l. apply qsum_map_ext. intros; unfold one; ring.
Qed.

Lemma expectation_weight (d : ProbabilityDistribution) :
  expectation d == weight inject_Z (entries d).
Proof.
  unfold expectation, weight. rewrite fold_left_qsum. ring.
Qed.

Lemma weight_app (w : Z -> Q) (l1 l2 : list DistributionEntry) :
  weight w (l1 ++ l2) == weight w l1 + weight w l2.
Proof. unfold weight. rewrite map_app. apply qsum_app. Qed.

Lemma weight_cons (w : Z -> Q) (e : DistributionEntry) (l : list DistributionEntry) :
  weight w (e :: l) == w (outcome e) * probability e + weight w l.
Proof. reflexivity. Qed.

Lemma weight_perm (w : Z -> Q) (l1 l2 : list DistributionEntry) :
  Permutation l1 l2 -> weight w l1 == weight w l2.
Proof.
  intros H. unfold weight. apply qsum_perm. apply Permutation_map. exact H.
Qed.

(** ** JavaScript number helpers *)

Lemma isInteger_spec (x : Q) : isInteger x = true <-> inject_Z (Qfloor x) == x.
Proof. unfold isInteger. apply Qeq_bool_iff. Qed.

Lemma isInteger_inject_Z (z : Z) : isInteger (inject_Z z) = true.
Proof. apply isInteger_spec. rewrite Qfloor_Z. reflexivity. Qed.

Lemma Qfloor_half (s : Z) : Qfloor (inject_Z s / 2) = (s / 2)%Z.
Proof.
  unfold Qdiv, Qmult, Qinv, inject_Z, Qfloor. simpl.
  rewrite Z.mul_1_r. reflexivity.
Qed.

Lemma Qle_bool_false (x y : Q) : Qle_bool x y = false <-> y < x.
Proof.
  split; intros H.
  - apply Qnot_le_lt. intros C. apply Qle_bool_iff in C. congruence.
  - destruct (Qle_bool x y) eqn:E; [|reflexivity].
    apply Qle_bool_iff in E. lra.
Qed.

Lemma Math_max_spec (a b : Q) :
  (a <= b /\ Math_max a b = b) \/ (b < a /\ Math_max a b = a).
Proof.
  unfold Math_max. destruct (Qle_bool a b) eqn:E.
  - left. apply Qle_bool_iff in E. auto.
  - right. apply Qle_bool_false in E. auto.
Qed.

Lemma Math_min_spec (a b : Q) :
  (a <= b /\ Math_min a b = a) \/ (b < a /\ Math_min a b = b).
Proof.
  unfold Math_min. destruct (Qle_bool a b) eqn:E.
  - left. apply Qle_bool_iff in E. auto.
  - right. apply Qle_bool_false in E. auto.
Qed.

Lemma clamp01_range (v : Q) : 0 <= clamp01 v <= 1.
Proof.
  unfold clamp01.
  destruct (Math_min_spec 1 v) as [[H1 ->]|[H1 ->]];
    [destruct (Math_max_spec 0 1) as [[H2 ->]|[H2 ->]]
    |destruct (Math_max_spec 0 v) as [[H2 ->]|[H2 ->]]]; lra.
Qed.

Lemma clamp01_cases (v : Q) :
  clamp01 v == (if Qlt_le_dec v 0 then 0 else if Qlt_le_dec 1 v then 1 else v).
Proof.
  unfold clamp01.
  destruct (Qlt_le_dec v 0) as [Hn|Hn].
  - destruct (Math_min_spec 1 v) as [[H1 ->]|[H1 ->]]; [lra|].
    destruct (Math_max_spec 0 v) as [[H2 ->]|[H2 ->]]; lra.
  - destruct (Qlt_le_dec 1 v) as [Hb|Hb].
    + destruct (Math_min_spec 1 v) as [[H1 ->]|[H1 ->]]; [|lra].
      destruct (Math_max_spec 0 1) as [[H2 ->]|[H2 ->]]; lra.
    + destruct (Math_min_spec 1 v) as [[H1 ->]|[H1 ->]].
      * destruct (Math_max_spec 0 1) as [[H2 ->]|[H2 ->]]; lra.
      * destruct (Math_max_spec 0 v) as [[H2 ->]|[H2 ->]]; lra.
Qed.

(* ================================================================== *)
(** ** [normalize]: merging, sorting and the derived total *)

Lemma map_set_weight (w : Z -> Q) (m : list (Z * Q)) (k : Z) (p : Q) :
  mapWeight w
    (map_set m k (match map_get m k with Some v => v | None => 0 end + p))
  == mapWeight w m + w k * p.
Proof.
  unfold mapWeight. induction m as [|[k' v] m IH]; simpl.
  - ring.
  - destruct (Z.eqb_spec k' k) as [->|Hne]; simpl.
    + ring.
    + rewrite IH. ring.
Qed.

Lemma accumulate_from_weight (w : Z -> Q) (es : list DistributionEntry)
  (m : list (Z * Q)) :
  mapWeight w (fold_left accumulateStep es m) == mapWeight w m + weight w es.
Proof.
  revert m; induction es as [|e es IH]; intros m; simpl.
  - unfold weight; simpl. ring.
  - rewrite IH. unfold accumulateStep. rewrite map_set_weight.
    rewrite weight_cons. ring.
Qed.

Lemma map_set_keys (m : list (Z * Q)) (k : Z) (v : Q) :
  List.map fst (map_set m k v)
  = if existsb (Z.eqb k) (List.map fst m) then List.map fst m
    else List.map fst m ++ [k].
Proof.
  induction m as [|[k' w] m IH]; simpl.
  - reflexivity.
  - rewrite (Z.eqb_sym k k'). destruct (Z.eqb_spec k' k) as [->|Hne]; simpl.
    + reflexivity.
    + rewrite IH. destruct (existsb (Z.eqb k) (List.map fst m)); reflexivity.
Qed.

Lemma map_set_NoDup (m : list (Z * Q)) (k : Z) (v : Q) :
  NoDup (List.map fst m) -> NoDup (List.map fst (map_set m k v)).
Proof.
  intros H. rewrite map_set_keys.
  destruct (existsb (Z.eqb k) (List.map fst m)) eqn:E; [assumption|].
  apply NoDup_app; [assumption|repeat constructor; intros []|].
  intros x Hx [->|[]].
  assert (existsb (Z.eqb x) (List.map fst m) = true); [|congruence].
  apply existsb_exists. exists x. split; [assumption|apply Z.eqb_refl].
Qed.

Lemma accumulate_from_NoDup (es : list DistributionEntry) (m : list (Z * Q)) :
  NoDup (List.map fst m) ->
  NoDup (List.map fst (fold_left accumulateStep es m)).
Proof.
  revert m; induction es as [|e es IH]; intros m H; simpl.
  - assumption.
  - apply IH. apply map_set_NoDup. assumption.
Qed.

Lemma insertEntry_perm (e : DistributionEntry) (l : list DistributionEntry) :
  Permutation (insertEntry e l) (e :: l).
Proof.
  induction l as [|x l IH]; simpl.
  - reflexivity.
  - destruct (outcome e <=? outcome x)%Z.
    + reflexivity.
    + rewrite IH. apply perm_swap.
Qed.

Lemma sortByOutcome_perm (l : list DistributionEntry) :
  Permutation (sortByOutcome l) l.
Proof.
  induction l as [|x l IH]; simpl.
  - reflexivity.
  - rewrite insertEntry_perm. constructor. exact IH.
Qed.

Lemma insertEntry_ascending (e : DistributionEntry) (l : list DistributionEntry) :
  ascending l -> ~ In (outcome e) (List.map outcome l) ->
  ascending (insertEntry e l).
Proof.
  unfold ascending. induction l as [|x l IH]; intros Hs Hn; simpl.
  - repeat constructor.
  - simpl in Hs, Hn. inversion Hs as [|? ? Hs' Hall]; subst.
    destruct (Z.leb_spec (outcome e) (outcome x)) as [Hle|Hgt]; simpl.
    + assert (Hlt : (outcome e < outcome x)%Z) by lia.
      constructor; [assumption|].
      constructor; [assumption|].
      eapply Forall_impl; [|exact Hall]. simpl. intros; lia.
    + constructor.
      * apply IH; [assumption|intuition].
      * apply Forall_forall. intros y Hy.
        assert (Hp : In y (List.map outcome (e :: l))).
        { eapply Permutation_in; [|exact Hy].
          apply Permutation_map. apply insertEntry_perm. }
        simpl in Hp. destruct Hp as [<-|Hp]; [lia|].
        rewrite Forall_forall in Hall. auto.
Qed.

Lemma sortByOutcome_ascending (l : list DistributionEntry) :
  NoDup (List.map outcome l) -> ascending (sortByOutcome l).
Proof.
  induction l as [|x l IH]; intros H; simpl.
  - constructor.
  - simpl in H. inversion H as [|? ? Hnot Hnd]; subst.
    apply insertEntry_ascending; [auto|].
    intros Hin. eapply Permutation_in in Hin;
      [|apply Permutation_map; apply sortByOutcome_perm].
    contradiction.
Qed.

Lemma mapEntries_outcome (m : list (Z * Q)) :
  List.map outcome (List.map (fun kv => mkEntry (fst kv) (snd kv)) m)
  = List.map fst m.
Proof. rewrite map_map. reflexivity. Qed.

Lemma mapEntries_weight (w : Z -> Q) (m : list (Z * Q)) :
  weight w (List.map (fun kv => mkEntry (fst kv) (snd kv)) m) == mapWeight w m.
Proof. unfold weight, mapWeight. rewrite map_map. reflexivity. Qed.

Lemma normalize_ascending (es : list DistributionEntry) :
  ascending (entries (normalize es)).
Proof.
  unfold normalize; simpl. apply sortByOutcome_ascending.
  rewrite mapEntries_outcome. apply accumulate_from_NoDup. constructor.
Qed.

Lemma normalize_weight (w : Z -> Q) (es : list DistributionEntry) :
  weight w (entries (normalize es)) == weight w es.
Proof.
  unfold normalize; simpl.
  rewrite (weight_perm w _ _ (sortByOutcome_perm _)).
  rewrite mapEntries_weight. unfold accumulate.
  rewrite accumulate_from_weight. unfold mapWeight; simpl. ring.
Qed.

Lemma normalize_total (es : list DistributionEntry) :
  totalProbability (normalize es) == weight one es.
Proof.
  unfold normalize at 1; simpl. rewrite sumProbabilities_weight.
  apply (normalize_weight one).
Qed.

Lemma normalize_consistent (es : list DistributionEntry) :
  consistent (normalize es).
Proof.
  split; [apply normalize_ascending|].
  unfold normalize; simpl. apply sumProbabilities_weight.
Qed.

Lemma map_get_fresh (m : list (Z * Q)) (k : Z) :
  ~ In k (List.map fst m) -> map_get m k = None.
Proof.
  induction m as [|[k' v] m IH]; simpl; intros H.
  - reflexivity.
  - destruct (Z.eqb_spec k' k) as [->|Hne]; [tauto|]. apply IH. tauto.
Qed.

Lemma map_set_fresh (m : list (Z * Q)) (k : Z) (v : Q) :
  ~ In k (List.map fst m) -> map_set m k v = m ++ [(k, v)].
Proof.
  induction m as [|[k' w] m IH]; simpl; intros H.
  - reflexivity.
  - destruct (Z.eqb_spec k' k) as [->|Hne]; [tauto|]. rewrite IH by tauto.
    reflexivity.
Qed.

Lemma accumulate_from_fresh (es : list DistributionEntry) (m : list (Z * Q)) :
  NoDup (List.map fst m ++ List.map outcome es) ->
  fold_left accumulateStep es m
  = m ++ List.map (fun e => (outcome e, 0 + probability e)) es.
Proof.
  revert m; induction es as [|e es IH]; intros m H; simpl.
  - symmetry; apply app_nil_r.
  - simpl in H. pose proof (NoDup_remove_2 _ _ _ H) as Hfresh.
    assert (Hm : ~ In (outcome e) (List.map fst m)).
    { intros C. apply Hfresh. apply in_or_app. left; exact C. }
    unfold accumulateStep at 2.
    rewrite (map_get_fresh _ _ Hm), (map_set_fresh _ _ _ Hm).
    rewrite IH.
    + rewrite <- app_assoc. reflexivity.
    + rewrite map_app, <- app_assoc. simpl. exact H.
Qed.

Lemma ascending_NoDup (es : list DistributionEntry) :
  ascending es -> NoDup (List.map outcome es).
Proof.
  unfold ascending. induction 1 as [|x l Hs IH Hall]; constructor; auto.
  intros Hin. rewrite Forall_forall in Hall. specialize (Hall _ Hin). lia.
Qed.

Lemma sortByOutcome_id (l : list DistributionEntry) :
  ascending l -> sortByOutcome l = l.
Proof.
  unfold ascending. induction l as [|x l IH]; intros H.
  - reflexivity.
  - simpl in H. inversion H as [|? ? Hs Hall]; subst.
    change (sortByOutcome (x :: l)) with (insertEntry x (sortByOutcome l)).
    rewrite IH by assumption.
    destruct l as [|y l]; simpl.
    + reflexivity.
    + simpl in Hall. inversion Hall; subst.
      destruct (Z.leb_spec (outcome x) (outcome y)); [reflexivity|lia].
Qed.

Lemma normalize_entries (es : list DistributionEntry) :
  ascending es -> entries (normalize es) = List.map zeroPlus es.
Proof.
  intros H. unfold normalize; simpl. unfold accumulate.
  rewrite accumulate_from_fresh by (simpl; apply ascending_NoDup; exact H).
  simpl. rewrite map_map. simpl.
  apply sortByOutcome_id. unfold ascending. rewrite map_map. exact H.
Qed.

(** ** Integer-valued numbers and counting loops *)

Lemma loopCount_integer (x : Q) :
  isInteger x = true -> 0 <= x -> inject_Z (Z.of_nat (loopCount x)) == x.
Proof.
  intros Hi Hp. apply isInteger_spec in Hi. unfold loopCount.
  rewrite Z2Nat.id; [exact Hi|].
  apply Qfloor_resp_le in Hp. exact Hp.
Qed.

Lemma seq_ascending (a n : nat) :
  StronglySorted Z.lt (List.map Z.of_nat (seq a n)).
Proof.
  revert a; induction n as [|n IH]; intros a; simpl.
  - constructor.
  - constructor; [apply IH|].
    apply Forall_forall. intros z Hz. apply in_map_iff in Hz.
    destruct Hz as [k [<- Hk]]. apply in_seq in Hk. lia.
Qed.

Lemma faces_ascending (f : nat -> Q) (a n : nat) :
  ascending (List.map (fun face => mkEntry (Z.of_nat face) (f face)) (seq a n)).
Proof.
  unfold ascending. rewrite map_map. simpl. apply seq_ascending.
Qed.

Lemma qsum_map_const {A : Type} (f : A -> Q) (c : Q) (l : list A) :
  (forall x, In x l -> f x == c) ->
  qsum (List.map f l) == inject_Z (Z.of_nat (length l)) * c.
Proof.
  induction l as [|x l IH]; intros H.
  - simpl. ring.
  - cbn [List.map qsum length]. rewrite Nat2Z.inj_succ. unfold Z.succ.
    rewrite inject_Z_plus, (H x (or_introl eq_refl)), IH
      by (intros; apply H; right; assumption).
    ring.
Qed.

Lemma weight_faces (w : Z -> Q) (f : nat -> Q) (l : list nat) :
  weight w (List.map (fun face => mkEntry (Z.of_nat face) (f face)) l)
  == qsum (List.map (fun face => w (Z.of_nat face) * f face) l).
Proof. unfold weight. rewrite map_map. reflexivity. Qed.

(** ** [uniformDie] *)

Lemma uniformDie_ok (sides : Q) :
  isInteger sides = true -> 0 < sides ->
  uniformDie sides
  = Ok (normalize
          (List.map (fun face => mkEntry (Z.of_nat face) (1 / sides))
             (seq 1 (loopCount sides)))).
Proof.
  intros Hi Hp. unfold uniformDie. rewrite Hi. simpl.
  apply Qle_bool_false in Hp. rewrite Hp. reflexivity.
Qed.

Lemma uniformDie_total (sides : Q) (d : ProbabilityDistribution) :
  uniformDie sides = Ok d -> totalProbability d == 1 /\ consistent d.
Proof.
  unfold uniformDie. intros H.
  destruct (isInteger sides) eqn:Hi; [|discriminate]. simpl in H.
  destruct (Qle_bool sides 0) eqn:Hp; [discriminate|].
  apply Qle_bool_false in Hp. injection H as <-.
  split; [|apply normalize_consistent].
  rewrite normalize_total, weight_faces.
  rewrite (qsum_map_const _ (1 / sides)) by (intros; unfold one; ring).
  rewrite length_seq, loopCount_integer by (auto; lra).
  field. lra.
Qed.

(* ================================================================== *)
(** ** Reroll-low dice *)

Lemma rerollThreshold (sides t : Q) :
  isInteger sides = true -> 0 < sides -> 0 < t ->
  exists k : nat,
    (k <= loopCount sides)%nat /\
    Math_min sides (inject_Z (Qfloor t)) == inject_Z (Z.of_nat k) /\
    (sides <= inject_Z (Qfloor t) -> k = loopCount sides).
Proof.
  intros Hi Hp Ht.
  pose proof (loopCount_integer sides Hi (Qlt_le_weak _ _ Hp)) as Hs.
  assert (Hf : (0 <= Qfloor t)%Z).
  { apply (Qfloor_resp_le 0 t). lra. }
  destruct (Math_min_spec sides (inject_Z (Qfloor t))) as [[Hle ->]|[Hlt ->]].
  - exists (loopCount sides). split; [lia|]. split; [|reflexivity].
    symmetry; exact Hs.
  - exists (Z.to_nat (Qfloor t)). rewrite Z2Nat.id by assumption.
    split; [|split; [reflexivity|intros; lra]].
    rewrite <- Hs in Hlt. rewrite <- Zlt_Qlt in Hlt. lia.
Qed.

Lemma rerollLow_sum (sides threshold : Q) (k : nat) :
  isInteger sides = true -> 0 < sides ->
  (k <= loopCount sides)%nat -> threshold == inject_Z (Z.of_nat k) ->
  qsum
    (List.map
       (fun face =>
          one (Z.of_nat face)
          * (if Qle_bool (inject_Z (Z.of_nat face)) threshold
             then threshold / (sides * sides)
             else 1 / sides + threshold / (sides * sides)))
       (seq 1 (loopCount sides)))
  == 1.
Proof.
  intros Hi Hp Hk Ht.
  pose proof (loopCount_integer sides Hi (Qlt_le_weak _ _ Hp)) as Hs.
  replace (loopCount sides) with (k + (loopCount sides - k))%nat at 1 by lia.
  rewrite seq_app, map_app, qsum_app.
  rewrite (qsum_map_const _ (threshold / (sides * sides))).
  2:{ intros f Hf. apply in_seq in Hf.
      assert (Hb : Qle_bool (inject_Z (Z.of_nat f)) threshold = true).
      { apply Qle_bool_iff. rewrite Ht, <- Zle_Qle. lia. }
      rewrite Hb. unfold one. ring. }
  rewrite (qsum_map_const _ (1 / sides + threshold / (sides * sides))).
  2:{ intros f Hf. apply in_seq in Hf.
      assert (Hb : Qle_bool (inject_Z (Z.of_nat f)) threshold = false).
      { apply Qle_bool_false. rewrite Ht, <- Zlt_Qlt. lia. }
      rewrite Hb. unfold one. ring. }
  rewrite !length_seq, Nat2Z.inj_sub by exact Hk. unfold Z.sub.
  rewrite inject_Z_plus, inject_Z_opp, Hs, Ht. field. lra.
Qed.

Lemma sameDistribution_refl (d : ProbabilityDistribution) :
  sameDistribution d d.
Proof.
  unfold sameDistribution. induction (entries d) as [|e es IH]; constructor.
  - split; reflexivity.
  - exact IH.
Qed.

Lemma Forall2_map_same {A B : Type} (R : B -> B -> Prop) (f g : A -> B)
  (l : list A) :
  (forall x, In x l -> R (f x) (g x)) ->
  Forall2 R (List.map f l) (List.map g l).
Proof.
  induction l as [|x l IH]; intros H; simpl; constructor.
  - apply H. left; reflexivity.
  - apply IH. intros; apply H; right; assumption.
Qed.

(** A threshold and its floor build the same die. *)
Lemma rerollLow_floor (sides x : Q) (d : ProbabilityDistribution) :
  isInteger sides = true -> 0 < sides ->
  buildRerollLowDieDistribution sides (Some x) = Ok d ->
  exists d',
    buildRerollLowDieDistribution sides (Some (inject_Z (Qfloor x))) = Ok d' /\
    sameDistribution d d'.
Proof.
  intros Hi Hp Hd. unfold buildRerollLowDieDistribution in *.
  destruct (Qle_bool x 0) eqn:Hx.
  - apply Qle_bool_iff in Hx.
    assert (Hf : Qle_bool (inject_Z (Qfloor x)) 0 = true).
    { apply Qle_bool_iff. pose proof (Qfloor_le x). lra. }
    rewrite Hf. exists d. split; [exact Hd|apply sameDistribution_refl].
  - apply Qle_bool_false in Hx.
    destruct (Qle_bool (inject_Z (Qfloor x)) 0) eqn:Hf.
    + apply Qle_bool_iff in Hf.
      rewrite (uniformDie_ok sides Hi Hp). eexists. split; [reflexivity|].
      injection Hd as <-. unfold sameDistribution, fromEntries.
      rewrite !normalize_entries by apply faces_ascending.
      rewrite !map_map. apply Forall2_map_same.
      intros f Hin. apply in_seq in Hin. simpl. split; [reflexivity|].
      assert (H0 : (0 <= Qfloor x)%Z) by (apply (Qfloor_resp_le 0 x); lra).
      assert (Hz : inject_Z (Qfloor x) == 0).
      { apply Qle_antisym; [exact Hf|].
        change 0 with (inject_Z 0). rewrite <- Zle_Qle. exact H0. }
      destruct (Math_min_spec sides (inject_Z (Qfloor x))) as [[Hm _]|[_ ->]];
        [lra|].
      assert (Hb : Qle_bool (inject_Z (Z.of_nat f)) (inject_Z (Qfloor x)) = false).
      { apply Qle_bool_false. rewrite Hz. change 0 with (inject_Z 0).
        rewrite <- Zlt_Qlt. lia. }
      rewrite Hb, Hz. field. lra.
    + rewrite Qfloor_Z. exists d. split; [exact Hd|apply sameDistribution_refl].
Qed.

(** C10. For positive-integer [sides] and every reroll-low threshold, the
    per-die distribution is built (no error), carries the faces
    [1..sides] in ascending order and has total probability exactly 1
    (the numbers being exact rationals); an
    absent or non-positive threshold gives the plain uniform die, a
    threshold gives the die of its floor, and a threshold whose floor
    reaches [sides] gives every face [1/sides]. *)
Theorem buildRerollLowDieDistribution_total (sides : Q) (t : option Q) :
  isInteger sides = true -> 0 < sides ->
  exists d,
    buildRerollLowDieDistribution sides t = Ok d /\
    totalProbability d == 1 /\
    consistent d /\
    List.map outcome (entries d) = List.map Z.of_nat (seq 1 (loopCount sides)) /\
    match t with
    | None => uniformDie sides = Ok d
    | Some x =>
        (x <= 0 -> uniformDie sides = Ok d) /\
        (exists d',
            buildRerollLowDieDistribution sides (Some (inject_Z (Qfloor x)))
            = Ok d' /\
            sameDistribution d d') /\
        (sides <= inject_Z (Qfloor x) ->
         Forall (fun e => probability e == 1 / sides) (entries d))
    end.
Proof.
  intros Hi Hp.
  assert (Huni : forall d, uniformDie sides = Ok d ->
            totalProbability d == 1 /\ consistent d /\
            List.map outcome (entries d)
            = List.map Z.of_nat (seq 1 (loopCount sides)) /\
            Forall (fun e => probability e == 1 / sides) (entries d)).
  { intros d Hd. destruct (uniformDie_total _ _ Hd) as [Ht Hc].
    split; [exact Ht|]. split; [exact Hc|].
    rewrite uniformDie_ok in Hd by assumption. injection Hd as <-.
    rewrite normalize_entries by apply faces_ascending.
    rewrite !map_map. simpl. split; [reflexivity|].
    apply Forall_forall. intros e He. apply in_map_iff in He.
    destruct He as [f [<- _]]. simpl. ring. }
  destruct t as [x|].
  2:{ simpl. rewrite (uniformDie_ok sides Hi Hp). eexists.
      split; [reflexivity|].
      destruct (Huni _ (uniformDie_ok sides Hi Hp)) as (H1 & H2 & H3 & _).
      repeat split; try assumption; apply H2. }
  destruct (buildRerollLowDieDistribution sides (Some x)) as [d|msg] eqn:Hd.
  2:{ exfalso. simpl in Hd. rewrite (uniformDie_ok sides Hi Hp) in Hd.
      destruct (Qle_bool x 0); discriminate Hd. }
  exists d. split; [reflexivity|].
  pose proof (rerollLow_floor sides x d Hi Hp Hd) as Hfloor.
  simpl in Hd. destruct (Qle_bool x 0) eqn:Hx.
  - destruct (Huni _ Hd) as (H1 & H2 & H3 & H4).
    split; [exact H1|]. split; [exact H2|]. split; [exact H3|].
    split; [intros _; exact Hd|]. split; [exact Hfloor|intros _; exact H4].
  - apply Qle_bool_false in Hx. injection Hd as <-.
    destruct (rerollThreshold sides x Hi Hp Hx) as (k & Hk & Hth & Hfull).
    unfold fromEntries in *.
    split; [|split; [apply normalize_consistent|split; [|split; [|split]]]].
    + rewrite normalize_total, weight_faces.
      apply (rerollLow_sum sides _ k); assumption.
    + rewrite normalize_entries by apply faces_ascending.
      rewrite !map_map. reflexivity.
    + intros; lra.
    + exact Hfloor.
    + intros Hfl. specialize (Hfull Hfl). subst k.
      rewrite normalize_entries by apply faces_ascending.
      apply Forall_forall. intros e He. apply in_map_iff in He.
      destruct He as [e' [<- He']]. apply in_map_iff in He'.
      destruct He' as [f [<- Hf]]. apply in_seq in Hf. simpl.
      assert (Hb : Qle_bool (inject_Z (Z.of_nat f))
                     (Math_min sides (inject_Z (Qfloor x))) = true).
      { apply Qle_bool_iff. rewrite Hth, <- Zle_Qle. lia. }
      rewrite Hb, Hth.
      rewrite (loopCount_integer sides Hi (Qlt_le_weak _ _ Hp)).
      field. lra.
Qed.

Lemma buildRerollLowDieDistribution_total_witness :
  isInteger 6 = true /\ 0 < 6 /\
  exists d,
    buildRerollLowDieDistribution 6 (Some (5 # 2)) = Ok d /\
    totalProbability d == 1.
Proof.
  split; [reflexivity|]. split; [reflexivity|].
  destruct (buildRerollLowDieDistribution_total 6 (Some (5 # 2)))
    as (d & H1 & H2 & _); [reflexivity|reflexivity|].
  exists d. split; assumption.
Defined.

(* ================================================================== *)
(** ** The attack roll: per-face probabilities *)

Lemma array_set_length (d : list Q) (i : nat) (v : Q) :
  length (array_set d i v) = length d.
Proof.
  revert i; induction d as [|x d IH]; intros [|i]; simpl; auto.
Qed.

Lemma array_set_nth (d : list Q) (i j : nat) (v : Q) :
  nth j (array_set d i v) 0
  = if ((j =? i)%nat && (i <? length d)%nat)%bool then v else nth j d 0.
Proof.
  revert i j; induction d as [|x d IH]; intros i j.
  - destruct i, j; simpl; try reflexivity;
      rewrite ?andb_false_r; reflexivity.
  - destruct i as [|i], j as [|j]; simpl; try reflexivity.
    rewrite IH. reflexivity.
Qed.

Lemma fillFaces_length (d : list Q) (from count : nat) (v : Q) :
  length (fillFaces d from count v) = length d.
Proof.
  unfold fillFaces. revert d from; induction count as [|c IH]; intros d from.
  - reflexivity.
  - simpl. rewrite IH. apply array_set_length.
Qed.

Lemma fillFaces_nth (d : list Q) (from count j : nat) (v : Q) :
  (from + count <= length d)%nat ->
  nth j (fillFaces d from count v) 0
  = if ((from <=? j)%nat && (j <? from + count)%nat)%bool then v else nth j d 0.
Proof.
  unfold fillFaces. revert d from; induction count as [|c IH]; intros d from H.
  - simpl. replace (j <? from + 0)%nat with (j <? from)%nat by (f_equal; lia).
    destruct (Nat.leb_spec from j), (Nat.ltb_spec j from); try reflexivity; lia.
  - simpl. rewrite IH by (rewrite array_set_length; lia).
    rewrite array_set_nth.
    destruct (Nat.leb_spec (S from) j), (Nat.ltb_spec j (S from + c)),
      (Nat.leb_spec from j), (Nat.ltb_spec j (from + S c)),
      (Nat.eqb_spec j from), (Nat.ltb_spec from (length d));
      simpl; try reflexivity; lia.
Qed.

Lemma singleDie_length (dieSides : Q) (lucky : bool) :
  length (buildSingleDieDistribution dieSides lucky) = S (loopCount dieSides).
Proof.
  unfold buildSingleDieDistribution. destruct lucky; simpl;
    rewrite fillFaces_length, ?array_set_length, repeat_length; lia.
Qed.

Lemma nth_repeat_zero (n j : nat) : nth j (repeat 0 n) 0 = 0.
Proof.
  revert j; induction n as [|n IH]; intros [|j]; simpl; auto.
Qed.

Lemma singleDie_nth (dieSides : Q) (lucky : bool) (face : nat) :
  (2 <= loopCount dieSides)%nat -> (1 <= face <= loopCount dieSides)%nat ->
  nth face (buildSingleDieDistribution dieSides lucky) 0
  = if lucky then
      if (face =? 1)%nat then 1 / dieSides * (1 / dieSides)
      else 1 / dieSides + 1 / dieSides * (1 / dieSides)
    else 1 / dieSides.
Proof.
  intros Hn Hf. unfold buildSingleDieDistribution. destruct lucky; simpl.
  - rewrite fillFaces_nth by (rewrite array_set_length, repeat_length; lia).
    rewrite array_set_nth, repeat_length, nth_repeat_zero.
    destruct (Nat.leb_spec 2 face), (Nat.ltb_spec face (2 + (loopCount dieSides - 1))),
      (Nat.eqb_spec face 1), (Nat.ltb_spec 1 (loopCount dieSides + 1));
      simpl; try reflexivity; lia.
  - rewrite fillFaces_nth by (rewrite repeat_length; lia).
    destruct (Nat.leb_spec 1 face), (Nat.ltb_spec face (1 + loopCount dieSides));
      simpl; try reflexivity; lia.
Qed.

Lemma cdf_succ (dist : list Q) (k : nat) :
  cdf dist (S k) == cdf dist k + nth (S k) dist 0.
Proof.
  unfold cdf. rewrite seq_S, map_app, qsum_app. simpl. ring.
Qed.

Lemma cdfLoop_spec (dist : list Q) (face remaining value : nat) (a b : Q) :
  (1 <= value <= face)%nat -> (face < value + remaining)%nat ->
  fst (cdfLoop dist face remaining value a b)
  == a + (cdf dist face - cdf dist (value - 1)) /\
  snd (cdfLoop dist face remaining value a b)
  == b + (cdf dist (face - 1) - cdf dist (value - 1)).
Proof.
  revert value a b; induction remaining as [|n IH]; intros value a b Hv Hr.
  - lia.
  - simpl. destruct (Nat.leb_spec face value) as [Hge|Hlt].
    + assert (value = face) by lia. subst value.
      replace (face <? face)%nat with false by (symmetry; apply Nat.ltb_irrefl).
      simpl. destruct face as [|f]; [lia|].
      replace (S f - 1)%nat with f by lia. rewrite cdf_succ. split; ring.
    + replace (value <? face)%nat with true
        by (symmetry; apply Nat.ltb_lt; exact Hlt).
      destruct (IH (S value) (a + nth value dist 0) (b + nth value dist 0))
        as [H1 H2]; [lia|lia|].
      rewrite H1, H2. replace (S value - 1)%nat with value by lia.
      destruct value as [|v]; [lia|].
      replace (S v - 1)%nat with v by lia. rewrite cdf_succ. split; ring.
Qed.

Lemma probabilityOfFace_spec (dist : list Q) (face : nat) (adv : AdvantageState) :
  (1 <= face < length dist)%nat ->
  probabilityOfFace dist face adv == faceChance dist adv face.
Proof.
  intros Hf. unfold probabilityOfFace, faceChance.
  destruct (cdfLoop_spec dist face (length dist - 1) 1 0 0) as [H1 H2];
    [lia|lia|].
  destruct (cdfLoop dist face (length dist - 1) 1 0 0) as [cdfAt cdfBefore].
  simpl in H1, H2. change (cdf dist 0) with 0 in H1, H2.
  assert (E1 : cdfAt == cdf dist face) by (rewrite H1; ring).
  assert (E2 : cdfBefore == cdf dist (face - 1)) by (rewrite H2; ring).
  destruct adv.
  - destruct face as [|f]; [lia|].
    replace (S f - 1)%nat with f by lia. rewrite cdf_succ. ring.
  - rewrite E1, E2. ring.
  - rewrite E1, E2. ring.
Qed.

Lemma telescope (G : nat -> Q) (n : nat) :
  qsum (List.map (fun f => G f - G (f - 1)%nat) (seq 1 n)) == G n - G 0%nat.
Proof.
  induction n as [|n IH].
  - simpl. ring.
  - rewrite seq_S, map_app, qsum_app, IH. simpl.
    replace (n - 0)%nat with n by lia. ring.
Qed.

Lemma faceChance_sum (dist : list Q) (adv : AdvantageState) (n : nat) :
  cdf dist n == 1 ->
  qsum (List.map (faceChance dist adv) (seq 1 n)) == 1.
Proof.
  intros Hfull. destruct adv; unfold faceChance.
  - rewrite (telescope (cdf dist)), Hfull. change (cdf dist 0) with 0. ring.
  - rewrite (telescope (fun f => cdf dist f * cdf dist f)), Hfull.
    change (cdf dist 0) with 0. ring.
  - rewrite (qsum_map_ext _
      (fun f => (fun k => - ((1 - cdf dist k) * (1 - cdf dist k))) f
                - (fun k => - ((1 - cdf dist k) * (1 - cdf dist k))) (f - 1)%nat))
      by (intros; ring).
    rewrite (telescope (fun k => - ((1 - cdf dist k) * (1 - cdf dist k)))), Hfull.
    change (cdf dist 0) with 0. ring.
Qed.

Lemma singleDie_full (dieSides : Q) (lucky : bool) :
  isInteger dieSides = true -> 1 < dieSides ->
  (2 <= loopCount dieSides)%nat /\
  cdf (buildSingleDieDistribution dieSides lucky) (loopCount dieSides) == 1.
Proof.
  intros Hi Hp.
  assert (Hs : inject_Z (Z.of_nat (loopCount dieSides)) == dieSides)
    by (apply loopCount_integer; [assumption|lra]).
  assert (Hn : (2 <= loopCount dieSides)%nat).
  { assert (H : inject_Z 1 < inject_Z (Z.of_nat (loopCount dieSides)))
      by (rewrite Hs; exact Hp).
    rewrite <- Zlt_Qlt in H. lia. }
  split; [exact Hn|]. unfold cdf.
  rewrite (qsum_map_ext _
    (fun face => if lucky then
                   if (face =? 1)%nat then 1 / dieSides * (1 / dieSides)
                   else 1 / dieSides + 1 / dieSides * (1 / dieSides)
                 else 1 / dieSides)).
  2:{ intros f Hf. apply in_seq in Hf. rewrite singleDie_nth by lia.
      reflexivity. }
  destruct lucky.
  - destruct (loopCount dieSides) as [|m] eqn:En; [lia|].
    cbn [seq List.map qsum]. change (1 =? 1)%nat with true. cbv iota.
    rewrite (qsum_map_const _ (1 / dieSides + 1 / dieSides * (1 / dieSides))).
    2:{ intros f Hf. apply in_seq in Hf.
        destruct (Nat.eqb_spec f 1); [lia|reflexivity]. }
    rewrite length_seq. rewrite Nat2Z.inj_succ in Hs. unfold Z.succ in Hs.
    rewrite inject_Z_plus in Hs.
    assert (Hm : inject_Z (Z.of_nat m) == dieSides - 1) by (rewrite <- Hs; ring).
    rewrite Hm. field. lra.
  - rewrite (qsum_map_const _ (1 / dieSides)) by (intros; reflexivity).
    rewrite length_seq, Hs. field. lra.
Qed.

(** ** The attack roll: classification of the faces *)

Lemma faceStep_sum (input : AttackCheckInput) (bonus : ProbabilityDistribution)
  (dist : list Q) (acc : AttackOutcomeProbabilities) (face : nat) :
  let r := faceStep input bonus dist acc face in
  miss r + hit r + critical r
  == miss acc + hit acc + critical acc
     + probabilityOfFace dist face (advantageState input).
Proof.
  unfold faceStep.
  destruct (setHas (autoMissFaces (rules input)) face); simpl; [ring|].
  destruct (setHas (autoCritFaces (rules input)) face); simpl; ring.
Qed.

Lemma faceLoop_sum (input : AttackCheckInput) (bonus : ProbabilityDistribution)
  (dist : list Q) (faces : list nat) (acc : AttackOutcomeProbabilities) :
  let r := fold_left (faceStep input bonus dist) faces acc in
  miss r + hit r + critical r
  == miss acc + hit acc + critical acc
     + qsum (List.map (fun f => probabilityOfFace dist f (advantageState input))
               faces).
Proof.
  revert acc; induction faces as [|f faces IH]; intros acc; simpl.
  - ring.
  - simpl in IH. rewrite IH, faceStep_sum. ring.
Qed.

Lemma faceChances_total (dieSides : Q) (lucky : bool) (adv : AdvantageState) :
  isInteger dieSides = true -> 1 < dieSides ->
  qsum
    (List.map
       (fun f => probabilityOfFace (buildSingleDieDistribution dieSides lucky) f adv)
       (seq 1 (loopCount dieSides)))
  == 1.
Proof.
  intros Hi Hp. destruct (singleDie_full dieSides lucky Hi Hp) as [Hn Hfull].
  rewrite (qsum_map_ext _
    (faceChance (buildSingleDieDistribution dieSides lucky) adv)).
  - apply faceChance_sum. exact Hfull.
  - intros f Hf. apply in_seq in Hf. apply probabilityOfFace_spec.
    rewrite singleDie_length. lia.
Qed.

(* ================================================================== *)
(** ** Expressions that build without error *)

Lemma repeatConvolve_ok (base : ProbabilityDistribution) (times : Q) :
  isInteger times = true -> 0 <= times ->
  repeatConvolve base times
  = Ok (if Qeq_bool times 0 then constant 0
        else fromDense (repeatDense (toDense base) (loopCount times)
                          (mkDense 0 [1]))).
Proof.
  intros Hi Hp. unfold repeatConvolve. rewrite Hi.
  apply Qle_bool_iff in Hp. rewrite Hp. simpl.
  destruct (Qeq_bool times 0); reflexivity.
Qed.

Lemma validDice_spec (count sides : Q) :
  validDice count sides = true ->
  isInteger sides = true /\ 0 < sides /\ isInteger count = true /\ 0 <= count.
Proof.
  unfold validDice. intros H.
  apply andb_prop in H; destruct H as [H H4].
  apply andb_prop in H; destruct H as [H H3].
  apply andb_prop in H; destruct H as [H1 H2].
  apply negb_true_iff, Qle_bool_false in H2. apply Qle_bool_iff in H4.
  auto.
Qed.

Lemma attackBonusStep_ok (d : ProbabilityDistribution) (c : ExpressionComponent) :
  validComponent c = true -> exists d', attackBonusStep d c = Ok d'.
Proof.
  destruct c as [count sides sign|value]; simpl; intros H.
  - apply validDice_spec in H. destruct H as (H1 & H2 & H3 & H4).
    rewrite (uniformDie_ok sides H1 H2). simpl.
    rewrite (repeatConvolve_ok _ count H3 H4). simpl. eexists; reflexivity.
  - eexists; reflexivity.
Qed.

Lemma foldResult_ok {A B : Type} (body : A -> B -> Result A) (valid : B -> bool)
  (xs : list B) (acc : A) :
  (forall a x, valid x = true -> exists a', body a x = Ok a') ->
  forallb valid xs = true -> exists r, foldResult body xs acc = Ok r.
Proof.
  intros Hbody. revert acc; induction xs as [|x xs IH]; intros acc H; simpl.
  - eexists; reflexivity.
  - simpl in H. apply andb_prop in H. destruct H as [Hx Hxs].
    destruct (Hbody acc x Hx) as [a' ->]. simpl. apply IH. exact Hxs.
Qed.

Lemma buildAttackBonusDistribution_ok (e : Expression) :
  validExpression e = true -> exists d, buildAttackBonusDistribution e = Ok d.
Proof.
  intros H. unfold buildAttackBonusDistribution.
  apply (foldResult_ok _ validComponent); [|exact H].
  intros a x Hx. apply attackBonusStep_ok. exact Hx.
Qed.

Lemma validateAttackRules_ok (config : AttackRollRuleConfig) :
  validRules config = true -> validateAttackRules config = Ok tt.
Proof.
  unfold validRules, validateAttackRules. intros H.
  apply andb_prop in H. destruct H as [H1 H2].
  rewrite H1. apply negb_true_iff in H2. rewrite H2. reflexivity.
Qed.

Lemma validRules_spec (config : AttackRollRuleConfig) :
  validRules config = true ->
  isInteger (dieSides config) = true /\ 1 < dieSides config.
Proof.
  unfold validRules. intros H. apply andb_prop in H. destruct H as [H1 H2].
  apply negb_true_iff, Qle_bool_false in H2. auto.
Qed.

Lemma calculateAttackOutcomeProbabilities_ok (input : AttackCheckInput)
  (bonus : ProbabilityDistribution) :
  validRules (rules input) = true ->
  buildAttackBonusDistribution (attackBonusExpression input) = Ok bonus ->
  calculateAttackOutcomeProbabilities input
  = Ok (fold_left
          (faceStep input bonus
             (buildSingleDieDistribution (dieSides (rules input))
                (isTrue (halflingLucky input))))
          (seq 1 (loopCount (dieSides (rules input)))) (mkOutcome 0 0 0)).
Proof.
  intros Hr Hb. unfold calculateAttackOutcomeProbabilities.
  rewrite (validateAttackRules_ok _ Hr). simpl. rewrite Hb. reflexivity.
Qed.




(* ================================================================== *)
(** ** Advantage against normal against disadvantage *)







Lemma cdf_strict (dist : list Q) (n : nat) :
  (forall f, (1 <= f <= n)%nat -> 0 < nth f dist 0) ->
  forall j k, (j < k <= n)%nat -> cdf dist j < cdf dist k.
Proof.
  intros Hpos j k. induction k as [|k IH]; intros H; [lia|].
  rewrite cdf_succ. specialize (Hpos (S k)).
  destruct (Nat.eq_dec j k) as [->|Hne].
  - assert (0 < nth (S k) dist 0) by (apply Hpos; lia). lra.
  - assert (cdf dist j < cdf dist k) by (apply IH; lia).
    assert (0 < nth (S k) dist 0) by (apply Hpos; lia). lra.
Qed.

Lemma singleDie_positive (dieSides : Q) (lucky : bool) (f : nat) :
  isInteger dieSides = true -> 1 < dieSides ->
  (1 <= f <= loopCount dieSides)%nat ->
  0 < nth f (buildSingleDieDistribution dieSides lucky) 0.
Proof.
  intros Hi Hp Hf. destruct (singleDie_full dieSides lucky Hi Hp) as [Hn _].
  rewrite singleDie_nth by assumption.
  assert (Hinv : 0 < 1 / dieSides).
  { unfold Qdiv. rewrite Qmult_1_l. apply Qinv_lt_0_compat. lra. }
  assert (Hsq : 0 < 1 / dieSides * (1 / dieSides))
    by (apply Qmult_lt_0_compat; assumption).
  destruct lucky; [destruct (f =? 1)%nat|]; lra.
Qed.






(* ================================================================== *)
(** ** Numbers that are equal as rationals take the same branches *)

Lemma Qeq_bool_compat (x x' y y' : Q) :
  x == x' -> y == y' -> Qeq_bool x y = Qeq_bool x' y'.
Proof.
  intros Hx Hy. apply eq_true_iff_eq. rewrite !Qeq_bool_iff, Hx, Hy. tauto.
Qed.

Lemma Qle_bool_compat (x x' y y' : Q) :
  x == x' -> y == y' -> Qle_bool x y = Qle_bool x' y'.
Proof.
  intros Hx Hy. apply eq_true_iff_eq. rewrite !Qle_bool_iff, Hx, Hy. tauto.
Qed.

Lemma isInteger_compat (x y : Q) : x == y -> isInteger x = isInteger y.
Proof.
  intros H. unfold isInteger. apply Qeq_bool_compat; [|exact H].
  rewrite (Qfloor_comp _ _ H). reflexivity.
Qed.

Lemma loopCount_compat (x y : Q) : x == y -> loopCount x = loopCount y.
Proof. intros H. unfold loopCount. rewrite (Qfloor_comp _ _ H). reflexivity. Qed.

Lemma isInteger_mult (a b : Q) :
  isInteger a = true -> isInteger b = true -> isInteger (a * b) = true.
Proof.
  intros Ha Hb. apply isInteger_spec in Ha, Hb.
  rewrite (isInteger_compat _ (inject_Z (Qfloor a * Qfloor b))).
  - apply isInteger_inject_Z.
  - rewrite inject_Z_mult, Ha, Hb. reflexivity.
Qed.

Lemma repeatConvolve_compat (base : ProbabilityDistribution) (t1 t2 : Q) :
  t1 == t2 -> repeatConvolve base t1 = repeatConvolve base t2.
Proof.
  intros H. unfold repeatConvolve.
  rewrite (isInteger_compat _ _ H), (Qle_bool_compat 0 0 t1 t2 (Qeq_refl 0) H),
    (Qeq_bool_compat t1 t2 0 0 H (Qeq_refl 0)), (loopCount_compat _ _ H).
  reflexivity.
Qed.

(* ================================================================== *)
(** ** The damage expression under a critical multiplier *)

Lemma foldResult_ext {A B : Type} (f g : A -> B -> Result A) (xs : list B)
  (acc : A) :
  (forall a x, In x xs -> f a x = g a x) ->
  foldResult f xs acc = foldResult g xs acc.
Proof.
  revert acc; induction xs as [|x xs IH]; intros acc H; simpl.
  - reflexivity.
  - rewrite (H acc x (or_introl eq_refl)).
    destruct (g acc x) as [a'|msg]; simpl; [|reflexivity].
    apply IH. intros; apply H; right; assumption.
Qed.

Lemma foldResult_map {A B C : Type} (f : A -> B -> Result A) (h : C -> B)
  (xs : list C) (acc : A) :
  foldResult f (List.map h xs) acc = foldResult (fun a x => f a (h x)) xs acc.
Proof.
  revert acc; induction xs as [|x xs IH]; intros acc; simpl.
  - reflexivity.
  - destruct (f acc (h x)) as [a'|msg]; simpl; [apply IH|reflexivity].
Qed.

Lemma damageStep_scale (m : Q) (t : option Q) (d : ProbabilityDistribution)
  (c : ExpressionComponent) :
  damageStep m t d c = damageStep 1 t d (scaleDice m c).
Proof.
  destruct c as [count sides sign|value]; simpl; [|reflexivity].
  destruct (buildRerollLowDieDistribution sides t) as [die|msg]; simpl;
    [|reflexivity].
  rewrite (repeatConvolve_compat die (count * m) (count * m * 1))
    by (symmetry; apply Qmult_1_r).
  reflexivity.
Qed.

(** C3. For a positive-integer critical multiplier [m], the damage
    distribution of an expression is the multiplier-1 distribution of the
    expression whose dice counts are multiplied by [m] and whose constant
    terms are left as they are: a constant term shifts the running
    distribution by its value, whatever [m]; a dice term convolves in the
    [count * m]-fold repetition of the per-die distribution.  For [1d6+2]
    the expected damage is 11/2 with multiplier 1 and 9 with multiplier 2. *)
Theorem buildDamageDistribution_multiplier (e : Expression) (m : Q)
  (t : option Q) :
  isInteger m = true -> 0 < m ->
  buildDamageDistribution e m t
  = buildDamageDistribution
      (Components (List.map (scaleDice m) (asComponents e))) 1 t /\
  (forall d value, damageStep m t d (Constant value) = Ok (shift d value)) /\
  (forall d count sides sign,
      damageStep m t d (Dice count sides sign)
      = (die <- buildRerollLowDieDistribution sides t ;;
         dice <- repeatConvolve die (count * m) ;;
         Ok (convolve d
               (if signNegative sign
                then mapOutcomes dice (fun outcome => (- outcome)%Z)
                else dice)))) /\
  (exists d1 d2,
      buildDamageDistribution (Components [Dice 1 6 SignPlus; Constant 2]) 1 None
      = Ok d1 /\
      buildDamageDistribution (Components [Dice 1 6 SignPlus; Constant 2]) 2 None
      = Ok d2 /\
      expectation d1 == 11 # 2 /\ expectation d2 == 9).
Proof.
  intros Hi Hp. split; [|split; [|split]].
  - unfold buildDamageDistribution. rewrite Hi.
    apply Qle_bool_false in Hp. rewrite Hp. simpl.
    rewrite foldResult_map. apply foldResult_ext.
    intros a x _. apply damageStep_scale.
  - reflexivity.
  - reflexivity.
  - do 2 eexists. split; [reflexivity|]. split; [reflexivity|].
    split; vm_compute; reflexivity.
Qed.

Lemma buildDamageDistribution_multiplier_witness :
  isInteger 2 = true /\ 0 < 2 /\
  buildDamageDistribution (Components [Dice 1 6 SignPlus; Constant 2]) 2 None
  = buildDamageDistribution (Components [Dice (1 * 2) 6 SignPlus; Constant 2])
      1 None.
Proof.
  split; [reflexivity|]. split; [reflexivity|].
  apply (buildDamageDistribution_multiplier
           (Components [Dice 1 6 SignPlus; Constant 2]) 2 None);
    reflexivity.
Defined.

(* ================================================================== *)
(** ** Requests that compute without error *)

Lemma buildRerollLowDieDistribution_ok (sides : Q) (t : option Q) :
  isInteger sides = true -> 0 < sides ->
  exists d, buildRerollLowDieDistribution sides t = Ok d.
Proof.
  intros Hi Hp. unfold buildRerollLowDieDistribution.
  destruct t as [x|]; [destruct (Qle_bool x 0)|];
    rewrite ?(uniformDie_ok sides Hi Hp); eexists; reflexivity.
Qed.

Lemma damageStep_ok (m : Q) (t : option Q) (d : ProbabilityDistribution)
  (c : ExpressionComponent) :
  isInteger m = true -> 0 < m -> validComponent c = true ->
  exists d', damageStep m t d c = Ok d'.
Proof.
  intros Hi Hp. destruct c as [count sides sign|value]; simpl; intros H.
  - apply validDice_spec in H. destruct H as (H1 & H2 & H3 & H4).
    destruct (buildRerollLowDieDistribution_ok sides t H1 H2) as [die ->].
    simpl. rewrite repeatConvolve_ok.
    + simpl. eexists; reflexivity.
    + apply isInteger_mult; assumption.
    + apply Qmult_le_0_compat; lra.
  - eexists; reflexivity.
Qed.

Lemma buildDamageDistribution_ok (e : Expression) (m : Q) (t : option Q) :
  isInteger m = true -> 0 < m -> validExpression e = true ->
  exists d, buildDamageDistribution e m t = Ok d.
Proof.
  intros Hi Hp He. unfold buildDamageDistribution. rewrite Hi.
  pose proof Hp as Hp'. apply Qle_bool_false in Hp'. rewrite Hp'. simpl.
  apply (foldResult_ok _ validComponent); [|exact He].
  intros a x Hx. apply damageStep_ok; assumption.
Qed.

Lemma coerced_integer (c : Q) :
  isInteger (Math_max 1 (inject_Z (Qfloor c))) = true /\
  1 <= Math_max 1 (inject_Z (Qfloor c)).
Proof.
  destruct (Math_max_spec 1 (inject_Z (Qfloor c))) as [[H ->]|[H ->]].
  - split; [apply isInteger_inject_Z|exact H].
  - split; [reflexivity|lra].
Qed.

(** A coerced count that is finite is an integer of at least 1. *)
Lemma resolveDamageRollCount_integer (mode : DamageDiceRollMode)
  (count : option JsNumber) :
  Number_isFinite (resolveDamageRollCount mode count) = true ->
  integerCount (resolveDamageRollCount mode count).
Proof.
  destruct count as [[c| | |]|]; simpl; intros H; try discriminate H.
  - eexists. split; [reflexivity|]. apply coerced_integer.
  - exists 1. split; [reflexivity|]. split; [reflexivity|lra].
  - eexists. split; [reflexivity|].
    destruct mode; split; try reflexivity; lra.
Qed.

Lemma resolveDamageRollCount_floor (mode : DamageDiceRollMode) (c : Q) :
  exists n,
    resolveDamageRollCount mode (Some (Finite c)) = Finite n /\
    n == inject_Z (Z.max 1 (Qfloor c)).
Proof.
  eexists. split; [reflexivity|].
  destruct (Math_max_spec 1 (inject_Z (Qfloor c))) as [[H ->]|[H ->]].
  - change 1 with (inject_Z 1) in H. rewrite <- Zle_Qle in H.
    rewrite Z.max_r by exact H. reflexivity.
  - change 1 with (inject_Z 1) in H. rewrite <- Zlt_Qlt in H.
    rewrite Z.max_l by lia. reflexivity.
Qed.

Lemma resolveDamageRollCount_idempotent (mode : DamageDiceRollMode)
  (c : JsNumber) :
  resolveDamageRollCount mode (Some (resolveDamageRollCount mode (Some c)))
  = resolveDamageRollCount mode (Some c).
Proof.
  destruct c as [c| | |]; try reflexivity.
  simpl. unfold Math_max at 2.
  destruct (Qle_bool 1 (inject_Z (Qfloor c))) eqn:E.
  - rewrite Qfloor_Z. unfold Math_max. rewrite E. reflexivity.
  - unfold Math_max. rewrite E. reflexivity.
Qed.

Lemma orderStatistic_throws (d : ProbabilityDistribution) (count : Q) :
  isInteger count = false \/ count <= 0 ->
  maxOfIndependent d count = Throw "count must be a positive integer" /\
  minOfIndependent d count = Throw "count must be a positive integer".
Proof.
  intros H. unfold maxOfIndependent, minOfIndependent.
  assert (E : negb (isInteger count) || Qle_bool count 0 = true).
  { destruct H as [->|H]; [reflexivity|].
    apply Qle_bool_iff in H. rewrite H. apply orb_true_r. }
  rewrite E. split; reflexivity.
Qed.

Lemma orderStatistic_ok (d : ProbabilityDistribution) (count : Q) :
  isInteger count = true -> 0 < count ->
  maxOfIndependent d count
  = Ok (if Qeq_bool count 1 then d
        else fromEntries (maxLoop (entries d) count 0 0)) /\
  minOfIndependent d count
  = Ok (if Qeq_bool count 1 then d
        else fromEntries (minLoop (entries d) count 0 0)).
Proof.
  intros Hi Hp. unfold maxOfIndependent, minOfIndependent. rewrite Hi.
  apply Qle_bool_false in Hp. rewrite Hp. simpl.
  destruct (Qeq_bool count 1); split; reflexivity.
Qed.

Lemma applyDamageDiceRollMode_ok (d : ProbabilityDistribution)
  (mode : DamageDiceRollMode) (c : JsNumber) :
  mode = RollNormal \/ integerCount c ->
  exists d', applyDamageDiceRollMode d mode (Some c) = Ok d'.
Proof.
  intros [->|(n & -> & Hi & Hp)]; [eexists; reflexivity|].
  unfold applyDamageDiceRollMode, atMost, atCount.
  destruct (orderStatistic_ok d n Hi) as [Hmax Hmin]; [lra|].
  destruct mode; [eexists; reflexivity| |];
    (destruct (Qle_bool n 1); [eexists; reflexivity|]);
    rewrite ?Hmax, ?Hmin; eexists; reflexivity.
Qed.

(** What [validRollCount] lets through to the order statistic. *)
Lemma validRollCount_spec (model : DamageModel) :
  validRollCount model = true ->
  resolveDiceRollMode (diceRollMode model) = RollNormal \/
  integerCount
    (resolveDamageRollCount (resolveDiceRollMode (diceRollMode model))
       (damageRollCount model)).
Proof.
  unfold validRollCount.
  destruct (resolveDiceRollMode (diceRollMode model)); intros H;
    [left; reflexivity| |]; right;
    apply resolveDamageRollCount_integer; exact H.
Qed.

Lemma validRequest_spec (request : AttackDamageRequest) :
  validRequest request = true ->
  validRules (rules (attack request)) = true /\
  validExpression (attackBonusExpression (attack request)) = true /\
  validExpression (expression (damage request)) = true /\
  isInteger (criticalDiceMultiplier (damage request)) = true /\
  0 < criticalDiceMultiplier (damage request) /\
  validRollCount (damage request) = true.
Proof.
  unfold validRequest, validDamage. intros H.
  apply andb_prop in H; destruct H as [H H3].
  apply andb_prop in H; destruct H as [H1 H2].
  apply andb_prop in H3; destruct H3 as [H3 H6].
  apply andb_prop in H3; destruct H3 as [H3 H5].
  apply andb_prop in H3; destruct H3 as [H3 H4].
  apply negb_true_iff, Qle_bool_false in H5. auto 10.
Qed.

Lemma calculateAttackDamage_ok (request : AttackDamageRequest) :
  validRequest request = true ->
  exists r, calculateAttackDamage request = Ok r.
Proof.
  intros H. apply validRequest_spec in H.
  destruct H as (Hr & Ha & He & Hi & Hp & Hc).
  apply validRollCount_spec in Hc.
  unfold calculateAttackDamage.
  destruct (buildAttackBonusDistribution_ok _ Ha) as [bonus Hb].
  rewrite (calculateAttackOutcomeProbabilities_ok _ bonus Hr Hb). simpl.
  destruct (buildDamageDistribution_ok (expression (damage request)) 1
              (rerollLowThreshold (damage request)) eq_refl eq_refl He)
    as [rawHit ->]. simpl.
  destruct (applyDamageDiceRollMode_ok rawHit
              (resolveDiceRollMode (diceRollMode (damage request))) _ Hc)
    as [hitD ->]. simpl.
  destruct (buildDamageDistribution_ok (expression (damage request))
              (criticalDiceMultiplier (damage request))
              (rerollLowThreshold (damage request)) Hi Hp He)
    as [rawCrit ->]. simpl.
  destruct (applyDamageDiceRollMode_ok rawCrit
              (resolveDiceRollMode (diceRollMode (damage request))) _ Hc)
    as [critD ->]. simpl.
  eexists; reflexivity.
Qed.

Lemma bind_Ok {A B : Type} (r : Result A) (k : A -> Result B) (b : B) :
  bind r k = Ok b -> exists a, r = Ok a /\ k a = Ok b.
Proof.
  destruct r as [a|msg]; simpl; intros H; [|discriminate].
  exists a. auto.
Qed.

Lemma calculateAttackDamage_inv (request : AttackDamageRequest)
  (r : AttackDamageResult) :
  calculateAttackDamage request = Ok r ->
  calculateAttackOutcomeProbabilities (attack request) = Ok (probabilities r) /\
  totalDamageDistribution r
  = fromEntries
      (mkEntry 0 (miss (probabilities r))
       :: weightEntries (entries (hitDamageDistribution r))
            (hit (probabilities r))
       ++ weightEntries (entries (criticalDamageDistribution r))
            (critical (probabilities r))) /\
  expectedDamageOnHit r = expectation (hitDamageDistribution r) /\
  expectedDamageOnCritical r = expectation (criticalDamageDistribution r) /\
  expectedDamagePerAttack r
  = hit (probabilities r) * expectedDamageOnHit r
    + critical (probabilities r) * expectedDamageOnCritical r.
Proof.
  unfold calculateAttackDamage. intros H.
  apply bind_Ok in H. destruct H as (p & Hp & H).
  apply bind_Ok in H. destruct H as (rawHit & _ & H).
  apply bind_Ok in H. destruct H as (hitD & _ & H).
  apply bind_Ok in H. destruct H as (rawCrit & _ & H).
  apply bind_Ok in H. destruct H as (critD & _ & H).
  injection H as <-. simpl. repeat split; try reflexivity. exact Hp.
Qed.

Lemma calculateAttackDamage_rollCount (request : AttackDamageRequest)
  (count count' : option JsNumber) :
  resolveDamageRollCount (resolveDiceRollMode (diceRollMode (damage request)))
    count
  = resolveDamageRollCount (resolveDiceRollMode (diceRollMode (damage request)))
      count' ->
  calculateAttackDamage (withDamageRollCount request count)
  = calculateAttackDamage (withDamageRollCount request count').
Proof.
  intros H. unfold calculateAttackDamage. simpl. rewrite H. reflexivity.
Qed.

Lemma weightEntries_weight (w : Z -> Q) (es : list DistributionEntry) (c : Q) :
  weight w (weightEntries es c) == c * weight w es.
Proof.
  unfold weight, weightEntries. rewrite map_map. simpl.
  rewrite (qsum_map_ext _
    (fun e => (fun e => w (outcome e) * probability e) e * c))
    by (intros; ring).
  rewrite qsum_map_scale. ring.
Qed.

Lemma withDamageRollCount_valid (request : AttackDamageRequest)
  (count : option JsNumber) :
  validRequest request = true ->
  resolveDiceRollMode (diceRollMode (damage request)) = RollNormal \/
  Number_isFinite
    (resolveDamageRollCount (resolveDiceRollMode (diceRollMode (damage request)))
       count) = true ->
  validRequest (withDamageRollCount request count) = true.
Proof.
  unfold validRequest, validDamage, validRollCount, withDamageRollCount.
  cbn [attack damage expression criticalDiceMultiplier diceRollMode
       damageRollCount].
  intros H Hc.
  apply andb_prop in H; destruct H as [H H3].
  apply andb_prop in H3; destruct H3 as [H3 _].
  rewrite H, H3. cbn [andb].
  destruct Hc as [->|Hc]; [reflexivity|].
  destruct (resolveDiceRollMode (diceRollMode (damage request)));
    [reflexivity|exact Hc|exact Hc].
Qed.

(** A count that the coercion leaves as [NaN] or [Infinity] reaches the
    order statistic, whose guard rejects it. *)
Lemma calculateAttackDamage_nonfinite (request : AttackDamageRequest)
  (c : JsNumber) :
  validRequest request = true ->
  c = NaN \/ c = PositiveInfinity ->
  resolveDiceRollMode (diceRollMode (damage request)) <> RollNormal ->
  calculateAttackDamage (withDamageRollCount request (Some c))
  = Throw "count must be a positive integer".
Proof.
  intros H Hc Hmode. apply validRequest_spec in H.
  destruct H as (Hr & Ha & He & Hi & Hp & _).
  unfold calculateAttackDamage.
  cbn [attack damage withDamageRollCount expression criticalDiceMultiplier
       diceRollMode damageRollCount rerollLowThreshold modifier
       buildNonCriticalDamageModel buildCriticalDamageModel].
  destruct (buildAttackBonusDistribution_ok _ Ha) as [bonus Hb].
  rewrite (calculateAttackOutcomeProbabilities_ok _ bonus Hr Hb). cbn [bind].
  destruct (buildDamageDistribution_ok (expression (damage request)) 1
              (rerollLowThreshold (damage request)) eq_refl eq_refl He)
    as [rawHit ->]. cbn [bind].
  destruct (resolveDiceRollMode (diceRollMode (damage request)));
    [congruence| |]; destruct Hc as [->| ->]; reflexivity.
Qed.

(** C7 (as amended).  With an explicit [damageRollCount], a valid request
    raises no error for any finite count, non-positive and non-integer
    ones included, nor for [-Infinity]: the count is coerced to
    [max(1, floor(count))], the result is the one of the coerced count,
    and a coerced count of 1 leaves a distribution as it is.  The counts
    the coercion leaves untouched are [NaN] and [Infinity]: with the dice
    rolled at advantage or disadvantage they reach [maxOfIndependent] or
    [minOfIndependent], whose guard raises for every count that is not a
    positive integer. *)
Theorem damageRollCount_coerced (request : AttackDamageRequest) :
  validRequest request = true ->
  let mode := resolveDiceRollMode (diceRollMode (damage request)) in
  let run c := calculateAttackDamage (withDamageRollCount request (Some c)) in
  (forall c : Q,
      exists n,
        resolveDamageRollCount mode (Some (Finite c)) = Finite n /\
        n == inject_Z (Z.max 1 (Qfloor c)) /\
        (exists r, run (Finite c) = Ok r) /\
        run (Finite c) = run (Finite n) /\
        (n == 1 ->
         forall d, applyDamageDiceRollMode d mode (Some (Finite n)) = Ok d)) /\
  (resolveDamageRollCount mode (Some NegativeInfinity) = Finite 1 /\
   (exists r, run NegativeInfinity = Ok r) /\
   run NegativeInfinity = run (Finite 1)) /\
  (forall c,
      c = NaN \/ c = PositiveInfinity ->
      resolveDamageRollCount mode (Some c) = c /\
      (mode <> RollNormal -> run c = Throw "count must be a positive integer")) /\
  (forall d k,
      isInteger k = false \/ k <= 0 ->
      maxOfIndependent d k = Throw "count must be a positive integer" /\
      minOfIndependent d k = Throw "count must be a positive integer").
Proof.
  intros Hv mode run. split; [|split; [|split]].
  - intros c. destruct (resolveDamageRollCount_floor mode c) as (n & Hn & Hfloor).
    exists n. split; [exact Hn|]. split; [exact Hfloor|]. split; [|split].
    + apply calculateAttackDamage_ok, withDamageRollCount_valid; [exact Hv|].
      right. fold mode. rewrite Hn. reflexivity.
    + apply calculateAttackDamage_rollCount. fold mode. rewrite <- Hn.
      symmetry. apply resolveDamageRollCount_idempotent.
    + intros H1 d. unfold applyDamageDiceRollMode, atMost.
      assert (E : Qle_bool n 1 = true) by (apply Qle_bool_iff; lra).
      rewrite E. destruct mode; reflexivity.
  - split; [reflexivity|]. split.
    + apply calculateAttackDamage_ok, withDamageRollCount_valid; [exact Hv|].
      right. reflexivity.
    + apply calculateAttackDamage_rollCount. reflexivity.
  - intros c Hc. split; [destruct Hc as [->| ->]; reflexivity|].
    intros Hmode. apply calculateAttackDamage_nonfinite; assumption.
  - apply orderStatistic_throws.
Qed.

Lemma damageRollCount_coerced_witness :
  let request :=
    mkRequest
      (mkAttack 15 (Components [Constant 5]) AdvNormal (mkRules 20 [1] [20]) None)
      (mkDamage (Components [Dice 1 8 SignPlus]) 2 ModNormal (Some RollAdvantage)
         None None) in
  validRequest request = true /\
  (exists r,
      calculateAttackDamage (withDamageRollCount request (Some (Finite (5 # 2))))
      = Ok r) /\
  calculateAttackDamage (withDamageRollCount request (Some (Finite (5 # 2))))
  = calculateAttackDamage (withDamageRollCount request (Some (Finite 2))) /\
  calculateAttackDamage (withDamageRollCount request (Some NaN))
  = Throw "count must be a positive integer" /\
  calculateAttackDamage (withDamageRollCount request (Some PositiveInfinity))
  = Throw "count must be a positive integer".
Proof.
  intros request. split; [reflexivity|].
  destruct (damageRollCount_coerced request eq_refl) as (H1 & _ & H3 & _).
  destruct (H1 (5 # 2)) as (n & Hn & _ & Hr & He & _).
  injection Hn as <-.
  split; [exact Hr|]. split; [exact He|]. split.
  - apply (H3 NaN); [left; reflexivity|discriminate].
  - apply (H3 PositiveInfinity); [right; reflexivity|discriminate].
Defined.

(** C7 fails as stated: with damage dice rolled at advantage, an explicit
    roll count of 0 (non-positive) or 5/2 (non-integer) raises no error;
    [calculateAttackDamage] returns a result. *)
Lemma damageRollCount_no_error :
  let attackInput :=
    mkAttack 15 (Components [Constant 5]) AdvNormal (mkRules 20 [1] [20]) None in
  let model count :=
    mkDamage (Components [Dice 1 8 SignPlus]) 2 ModNormal (Some RollAdvantage)
      (Some (Finite count)) None in
  (exists r, calculateAttackDamage (mkRequest attackInput (model 0)) = Ok r) /\
  (exists r, calculateAttackDamage (mkRequest attackInput (model (5 # 2))) = Ok r) /\
  ~ (forall count,
        isInteger count = false \/ count <= 0 ->
        exists msg,
          calculateAttackDamage (mkRequest attackInput (model count)) = Throw msg).
Proof.
  intros attackInput model.
  assert (H0 : exists r,
             calculateAttackDamage (mkRequest attackInput (model 0)) = Ok r)
    by (apply calculateAttackDamage_ok; reflexivity).
  split; [exact H0|].
  split; [apply calculateAttackDamage_ok; reflexivity|].
  intros C. destruct (C 0) as [msg Hm]; [right; lra|].
  destruct H0 as [r Hr]. rewrite Hr in Hm. discriminate Hm.
Qed.

(** C4. A valid request returns a result whose [expectedDamagePerAttack] is
    [hit * expectedDamageOnHit + critical * expectedDamageOnCritical], the
    two branch expectations being those of the returned hit and critical
    distributions; the combined distribution weighs outcome 0 by [miss],
    the hit outcomes by [hit] and the critical outcomes by [critical]
    (colliding outcomes add up, so this holds for every weighting [w] of
    the outcomes), and its expectation is [expectedDamagePerAttack] (the
    numbers being exact rationals). *)
Theorem expectedDamagePerAttack_spec (request : AttackDamageRequest) :
  validRequest request = true ->
  exists r,
    calculateAttackDamage request = Ok r /\
    calculateAttackOutcomeProbabilities (attack request) = Ok (probabilities r) /\
    expectedDamageOnHit r = expectation (hitDamageDistribution r) /\
    expectedDamageOnCritical r = expectation (criticalDamageDistribution r) /\
    expectedDamagePerAttack r
    = hit (probabilities r) * expectedDamageOnHit r
      + critical (probabilities r) * expectedDamageOnCritical r /\
    (forall w : Z -> Q,
        weight w (entries (totalDamageDistribution r))
        == w 0%Z * miss (probabilities r)
           + hit (probabilities r) * weight w (entries (hitDamageDistribution r))
           + critical (probabilities r)
             * weight w (entries (criticalDamageDistribution r))) /\
    ascending (entries (totalDamageDistribution r)) /\
    expectation (totalDamageDistribution r) == expectedDamagePerAttack r.
Proof.
  intros Hv. destruct (calculateAttackDamage_ok request Hv) as [r Hr].
  exists r. split; [exact Hr|].
  destruct (calculateAttackDamage_inv request r Hr) as (Hp & Ht & Hh & Hc & He).
  assert (Hw : forall w : Z -> Q,
        weight w (entries (totalDamageDistribution r))
        == w 0%Z * miss (probabilities r)
           + hit (probabilities r) * weight w (entries (hitDamageDistribution r))
           + critical (probabilities r)
             * weight w (entries (criticalDamageDistribution r))).
  { intros w. rewrite Ht. unfold fromEntries.
    rewrite normalize_weight, weight_cons, weight_app, !weightEntries_weight.
    simpl. ring. }
  repeat (split; [assumption|]). split.
  - rewrite Ht. apply normalize_ascending.
  - rewrite expectation_weight, Hw, He, Hh, Hc, !expectation_weight.
    simpl. ring.
Qed.

Lemma expectedDamagePerAttack_spec_witness :
  let request :=
    mkRequest
      (mkAttack 10 (Components [Constant 0]) AdvNormal (mkRules 20 [1] [20]) None)
      (mkDamage (Components [Dice 1 4 SignPlus; Constant 1]) 2 ModNormal None
         None None) in
  validRequest request = true /\
  exists r,
    calculateAttackDamage request = Ok r /\
    expectation (totalDamageDistribution r) == expectedDamagePerAttack r.
Proof.
  intros request. split; [reflexivity|].
  destruct (expectedDamagePerAttack_spec request eq_refl)
    as (r & H1 & _ & _ & _ & _ & _ & _ & H8).
  exists r. split; assumption.
Defined.

(* ================================================================== *)
(** ** The dense representation *)

Lemma denseWeight_ext (w w' : Z -> Q) (pos : Z) (vs : list Q) :
  (forall z, w z == w' z) -> denseWeight w pos vs == denseWeight w' pos vs.
Proof.
  intros H. revert pos; induction vs as [|v vs IH]; intros pos; simpl.
  - reflexivity.
  - rewrite H, IH. reflexivity.
Qed.

Lemma denseWeight_one (pos : Z) (vs : list Q) :
  denseWeight one pos vs == qsum vs.
Proof.
  revert pos; induction vs as [|v vs IH]; intros pos; simpl.
  - reflexivity.
  - rewrite IH. unfold one. ring.
Qed.

Lemma denseWeight_zeros (w : Z -> Q) (pos : Z) (n : nat) :
  denseWeight w pos (repeat 0 n) == 0.
Proof.
  revert pos; induction n as [|n IH]; intros pos; simpl.
  - reflexivity.
  - rewrite IH. ring.
Qed.

Lemma denseWeight_shift (p q : Z) (vs : list Q) :
  denseWeight inject_Z (p + q) vs
  == inject_Z p * qsum vs + denseWeight inject_Z q vs.
Proof.
  revert q; induction vs as [|v vs IH]; intros q; simpl.
  - ring.
  - replace (p + q + 1)%Z with (p + (q + 1))%Z by lia.
    rewrite IH, inject_Z_plus. ring.
Qed.

Lemma array_add_length (vs : list Q) (k : nat) (v : Q) :
  length (array_add vs k v) = length vs.
Proof.
  revert k; induction vs as [|x vs IH]; intros [|k]; simpl; auto.
Qed.

Lemma array_add_weight (w : Z -> Q) (pos : Z) (vs : list Q) (k : nat) (v : Q) :
  (k < length vs)%nat ->
  denseWeight w pos (array_add vs k v)
  == denseWeight w pos vs + w (pos + Z.of_nat k)%Z * v.
Proof.
  revert pos k; induction vs as [|x vs IH]; intros pos k H; simpl in H.
  - lia.
  - destruct k as [|k]; simpl.
    + replace (pos + 0)%Z with pos by lia. ring.
    + rewrite IH by lia.
      replace (pos + 1 + Z.of_nat k)%Z with (pos + Z.pos (Pos.of_succ_nat k))%Z
        by lia.
      ring.
Qed.

Lemma array_add_nonneg (vs : list Q) (k : nat) (v : Q) :
  0 <= v -> Forall (fun x => 0 <= x) vs ->
  Forall (fun x => 0 <= x) (array_add vs k v).
Proof.
  intros Hv. revert k; induction vs as [|x vs IH]; intros k H.
  - destruct k; constructor.
  - inversion H; subst. destruct k as [|k]; simpl; constructor; auto. lra.
Qed.

Lemma prune_length (vs : list Q) : length (prune vs) = length vs.
Proof. apply length_map. Qed.

(** The row loop of [convolveDense], from right index [a] on. *)
Lemma convolveRow_from (w : Z -> Q) (pos : Z) (li : nat) (lp : Q)
  (rs : list Q) (a : nat) (acc : list Q) :
  (li + a + length rs <= length acc)%nat ->
  let acc' :=
    fold_left
      (fun acc ir =>
         let '(rightIndex, rightProbability) := ir in
         if nearZero rightProbability then acc
         else array_add acc (li + rightIndex) (lp * rightProbability))
      (combine (seq a (length rs)) rs) acc in
  length acc' = length acc /\
  denseWeight w pos acc'
  == denseWeight w pos acc
     + lp * denseWeight w (pos + Z.of_nat li + Z.of_nat a) (prune rs).
Proof.
  revert a acc; induction rs as [|r rs IH]; intros a acc H; simpl.
  - split; [reflexivity|ring].
  - simpl in H. destruct (nearZero r) eqn:E.
    + destruct (IH (S a) acc) as [L W]; [lia|]. split; [exact L|].
      rewrite W.
      replace (pos + Z.of_nat li + Z.of_nat a + 1)%Z
        with (pos + Z.of_nat li + Z.of_nat (S a))%Z by lia.
      ring.
    + destruct (IH (S a) (array_add acc (li + a) (lp * r))) as [L W];
        [rewrite array_add_length; lia|].
      rewrite array_add_length in L. split; [exact L|].
      rewrite W, array_add_weight by lia.
      replace (pos + Z.of_nat li + Z.of_nat a + 1)%Z
        with (pos + Z.of_nat li + Z.of_nat (S a))%Z by lia.
      replace (pos + Z.of_nat (li + a))%Z
        with (pos + Z.of_nat li + Z.of_nat a)%Z by lia.
      ring.
Qed.

Lemma convolveRow_weight (w : Z -> Q) (pos : Z) (li : nat) (lp : Q)
  (rs acc : list Q) :
  (li + length rs <= length acc)%nat ->
  length (convolveRow rs li lp acc) = length acc /\
  denseWeight w pos (convolveRow rs li lp acc)
  == denseWeight w pos acc + lp * denseWeight w (pos + Z.of_nat li) (prune rs).
Proof.
  intros H. unfold convolveRow, indexed.
  destruct (convolveRow_from w pos li lp rs 0 acc) as [L W]; [lia|].
  split; [exact L|]. rewrite W.
  replace (pos + Z.of_nat li + Z.of_nat 0)%Z with (pos + Z.of_nat li)%Z by lia.
  reflexivity.
Qed.

Lemma convolveRow_nonneg (li : nat) (lp : Q) (rs acc : list Q) :
  0 <= lp -> Forall (fun x => 0 <= x) rs -> Forall (fun x => 0 <= x) acc ->
  Forall (fun x => 0 <= x) (convolveRow rs li lp acc).
Proof.
  intros Hlp Hrs. unfold convolveRow, indexed. generalize 0%nat as a.
  revert acc; induction Hrs as [|r rs Hr Hrs IH]; intros acc a Hacc; simpl.
  - exact Hacc.
  - destruct (nearZero r); apply IH; auto.
    apply array_add_nonneg; [|exact Hacc]. apply Qmult_le_0_compat; assumption.
Qed.

(** The outer loop of [convolveDense], from left index [a] on. *)
Lemma convolveLoop_from (w : Z -> Q) (pos : Z) (ls rs : list Q) (a : nat)
  (acc : list Q) :
  (a + length ls + length rs <= S (length acc))%nat ->
  let acc' :=
    fold_left
      (fun acc il =>
         let '(leftIndex, leftProbability) := il in
         if nearZero leftProbability then acc
         else convolveRow rs leftIndex leftProbability acc)
      (combine (seq a (length ls)) ls) acc in
  length acc' = length acc /\
  denseWeight w pos acc'
  == denseWeight w pos acc + convWeight w (pos + Z.of_nat a) (prune ls) (prune rs).
Proof.
  revert a acc; induction ls as [|l ls IH]; intros a acc H; simpl.
  - split; [reflexivity|ring].
  - simpl in H.
    replace (pos + Z.of_nat a + 1)%Z with (pos + Z.of_nat (S a))%Z by lia.
    destruct (nearZero l) eqn:E.
    + destruct (IH (S a) acc) as [L W]; [lia|]. split; [exact L|].
      rewrite W. ring.
    + destruct (convolveRow_weight w pos a l rs acc) as [L1 W1]; [lia|].
      destruct (IH (S a) (convolveRow rs a l acc)) as [L W]; [lia|].
      split; [congruence|]. rewrite W, W1. ring.
Qed.

Lemma convolveDense_weight (w : Z -> Q) (left right : DenseDistribution) :
  (1 <= length (values right))%nat ->
  length (values (convolveDense left right))
  = (length (values left) + length (values right) - 1)%nat /\
  denseWeight w (offset (convolveDense left right))
    (values (convolveDense left right))
  == convWeight w (offset left + offset right)
       (prune (values left)) (prune (values right)).
Proof.
  intros H. unfold convolveDense; simpl. unfold indexed.
  destruct (convolveLoop_from w (offset left + offset right) (values left)
              (values right) 0
              (repeat 0 (length (values left) + length (values right) - 1)))
    as [L W]; [rewrite repeat_length; lia|].
  rewrite repeat_length in L. split; [exact L|].
  rewrite W, denseWeight_zeros.
  replace (offset left + offset right + Z.of_nat 0)%Z
    with (offset left + offset right)%Z by lia.
  ring.
Qed.

Lemma convolveLoop_nonneg (ls rs : list Q) (a : nat) (acc : list Q) :
  Forall (fun x => 0 <= x) ls -> Forall (fun x => 0 <= x) rs ->
  Forall (fun x => 0 <= x) acc ->
  Forall (fun x => 0 <= x)
    (fold_left
       (fun acc il =>
          let '(leftIndex, leftProbability) := il in
          if nearZero leftProbability then acc
          else convolveRow rs leftIndex leftProbability acc)
       (combine (seq a (length ls)) ls) acc).
Proof.
  intros Hl Hr. revert a acc.
  induction Hl as [|l ls Hl0 Hl IH]; intros a acc Hacc; simpl.
  - exact Hacc.
  - destruct (nearZero l); apply IH; auto.
    apply convolveRow_nonneg; assumption.
Qed.

Lemma convolveDense_nonneg (left right : DenseDistribution) :
  Forall (fun x => 0 <= x) (values left) ->
  Forall (fun x => 0 <= x) (values right) ->
  Forall (fun x => 0 <= x) (values (convolveDense left right)).
Proof.
  intros Hl Hr. unfold convolveDense; simpl. unfold indexed.
  apply convolveLoop_nonneg; try assumption.
  apply Forall_forall. intros x Hx. apply repeat_spec in Hx. subst. lra.
Qed.

Lemma convWeight_one (pos : Z) (xs bs : list Q) :
  convWeight one pos xs bs == qsum xs * qsum bs.
Proof.
  revert pos; induction xs as [|x xs IH]; intros pos; simpl.
  - ring.
  - rewrite IH, denseWeight_one. ring.
Qed.

Lemma convWeight_expectation (p q : Z) (xs bs : list Q) :
  convWeight inject_Z (p + q) xs bs
  == denseWeight inject_Z p xs * qsum bs + qsum xs * denseWeight inject_Z q bs.
Proof.
  revert p; induction xs as [|x xs IH]; intros p; simpl.
  - ring.
  - replace (p + q + 1)%Z with ((p + 1) + q)%Z by lia.
    rewrite IH, denseWeight_shift. ring.
Qed.

(** *** [fromDense] *)

Lemma denseEntries_weight (w : Z -> Q) (off idx : Z) (vs : list Q) :
  weight w (denseEntries off idx vs) == denseWeight w (off + idx) (prune vs).
Proof.
  revert idx; induction vs as [|v vs IH]; intros idx; simpl.
  - reflexivity.
  - replace (off + idx + 1)%Z with (off + (idx + 1))%Z by lia.
    destruct (nearZero v).
    + rewrite IH. ring.
    + rewrite weight_cons, IH. simpl. ring.
Qed.

Lemma denseEntries_lower (off idx : Z) (vs : list Q) :
  Forall (fun o => (off + idx <= o)%Z) (List.map outcome (denseEntries off idx vs)).
Proof.
  revert idx; induction vs as [|v vs IH]; intros idx; simpl.
  - constructor.
  - assert (H : Forall (fun o => (off + idx <= o)%Z)
              (List.map outcome (denseEntries off (idx + 1) vs))).
    { eapply Forall_impl; [|apply IH]. simpl. intros; lia. }
    destruct (nearZero v); [exact H|].
    simpl. constructor; [lia|exact H].
Qed.

Lemma denseEntries_ascending (off idx : Z) (vs : list Q) :
  ascending (denseEntries off idx vs).
Proof.
  unfold ascending. revert idx; induction vs as [|v vs IH]; intros idx; simpl.
  - constructor.
  - destruct (nearZero v); [apply IH|].
    simpl. constructor; [apply IH|].
    eapply Forall_impl; [|apply (denseEntries_lower off (idx + 1) vs)].
    simpl. intros; lia.
Qed.

Lemma denseEntries_Forall (P : Q -> Prop) (off idx : Z) (vs : list Q) :
  Forall P vs -> Forall (fun e => P (probability e)) (denseEntries off idx vs).
Proof.
  intros H. revert idx; induction H as [|v vs Hv H IH]; intros idx; simpl.
  - constructor.
  - destruct (nearZero v); [apply IH|]. constructor; [exact Hv|apply IH].
Qed.

Lemma fromDense_weight (w : Z -> Q) (D : DenseDistribution) :
  weight w (entries (fromDense D)) == denseWeight w (offset D) (prune (values D)).
Proof.
  unfold fromDense. rewrite normalize_weight, denseEntries_weight.
  replace (offset D + 0)%Z with (offset D) by lia. reflexivity.
Qed.

Lemma fromDense_entries (D : DenseDistribution) :
  entries (fromDense D)
  = List.map zeroPlus (denseEntries (offset D) 0 (values D)).
Proof. unfold fromDense. apply normalize_entries, denseEntries_ascending. Qed.

Lemma fromDense_nonneg (D : DenseDistribution) :
  Forall (fun x => 0 <= x) (values D) -> nonnegEntries (entries (fromDense D)).
Proof.
  intros H. rewrite fromDense_entries. unfold nonnegEntries.
  apply Forall_forall. intros e He. apply in_map_iff in He.
  destruct He as [e' [<- He']]. simpl.
  pose proof (denseEntries_Forall (fun x => 0 <= x) (offset D) 0 _ H) as HF.
  rewrite Forall_forall in HF. specialize (HF _ He'). simpl in HF. lra.
Qed.

(** *** Pruning *)

Lemma nearZero_small (v : Q) :
  nearZero v = true -> v <= PROBABILITY_EPSILON.
Proof.
  unfold nearZero. intros H. apply Qle_bool_iff in H.
  eapply Qle_trans; [apply Qle_Qabs|exact H].
Qed.

Lemma prune_nonneg (vs : list Q) :
  Forall (fun x => 0 <= x) vs -> Forall (fun x => 0 <= x) (prune vs).
Proof.
  induction 1 as [|v vs Hv H IH]; simpl; constructor; auto.
  destruct (nearZero v); lra.
Qed.

Lemma prune_sum_bounds (vs : list Q) :
  Forall (fun x => 0 <= x) vs ->
  qsum vs - PROBABILITY_EPSILON * inject_Z (Z.of_nat (length vs))
  <= qsum (prune vs) /\
  qsum (prune vs) <= qsum vs.
Proof.
  induction 1 as [|v vs Hv H [IH1 IH2]].
  - cbn [prune List.map qsum length]. change (inject_Z (Z.of_nat 0)) with 0.
    unfold PROBABILITY_EPSILON. split; lra.
  - cbn [prune List.map qsum length]. fold (prune vs).
    rewrite Nat2Z.inj_succ. unfold Z.succ. rewrite inject_Z_plus.
    change (inject_Z 1) with 1.
    assert (Hlen : 0 <= inject_Z (Z.of_nat (length vs))).
    { change 0 with (inject_Z 0). rewrite <- Zle_Qle. lia. }
    destruct (nearZero v) eqn:E.
    + apply nearZero_small in E. unfold PROBABILITY_EPSILON in *. split; lra.
    + unfold PROBABILITY_EPSILON in *. split; lra.
Qed.

Lemma prune_expectation_le (pos : Z) (vs : list Q) :
  (0 <= pos)%Z -> Forall (fun x => 0 <= x) vs ->
  0 <= denseWeight inject_Z pos (prune vs) /\
  denseWeight inject_Z pos (prune vs) <= denseWeight inject_Z pos vs.
Proof.
  intros Hp H. revert pos Hp; induction H as [|v vs Hv H IH]; intros pos Hp.
  - simpl. split; lra.
  - cbn [prune List.map denseWeight]. fold (prune vs).
    destruct (IH (pos + 1)%Z) as [I1 I2]; [lia|].
    assert (Hpos : 0 <= inject_Z pos).
    { change 0 with (inject_Z 0). rewrite <- Zle_Qle. exact Hp. }
    assert (0 <= inject_Z pos * v) by (apply Qmult_le_0_compat; assumption).
    destruct (nearZero v); split; lra.
Qed.


(** *** [toDense] *)

Lemma array_set_weight (w : Z -> Q) (pos : Z) (vs : list Q) (k : nat) (v : Q) :
  (k < length vs)%nat ->
  denseWeight w pos (array_set vs k v)
  == denseWeight w pos vs + w (pos + Z.of_nat k)%Z * (v - nth k vs 0).
Proof.
  revert pos k; induction vs as [|x vs IH]; intros pos k H; simpl in H.
  - lia.
  - destruct k as [|k]; simpl.
    + replace (pos + 0)%Z with pos by lia. ring.
    + rewrite IH by lia.
      replace (pos + 1 + Z.of_nat k)%Z with (pos + Z.pos (Pos.of_succ_nat k))%Z
        by lia.
      ring.
Qed.

Lemma array_set_Forall (P : Q -> Prop) (vs : list Q) (k : nat) (v : Q) :
  P v -> Forall P vs -> Forall P (array_set vs k v).
Proof.
  intros Hv. revert k; induction vs as [|x vs IH]; intros k H.
  - destruct k; constructor.
  - inversion H; subst. destruct k as [|k]; simpl; constructor; auto.
Qed.

(** The writing loop of [toDense] over ascending entries that fit the
    array: every entry lands in a cell that still holds [0]. *)
Lemma toDense_loop (w : Z -> Q) (first : Z) (es : list DistributionEntry)
  (lo : Z) (vs : list Q) :
  ascending es ->
  (first <= lo)%Z ->
  Forall (fun o => (lo <= o < first + Z.of_nat (length vs))%Z)
    (List.map outcome es) ->
  (forall j, (Z.to_nat (lo - first) <= j)%nat -> nth j vs 0 = 0) ->
  let vs' :=
    fold_left
      (fun vs entry =>
         array_setZ vs (outcome entry - first) (probability entry))
      es vs in
  length vs' = length vs /\
  denseWeight w first vs' == denseWeight w first vs + weight w es.
Proof.
  unfold ascending.
  revert lo vs; induction es as [|e es IH]; intros lo vs Hs Hlo Hr Hz; simpl.
  - split; [reflexivity|]. unfold weight; simpl. ring.
  - simpl in Hs, Hr. inversion Hs as [|? ? Hs' Hall]; subst.
    inversion Hr as [|? ? Hre Hr']; subst.
    assert (Hidx : array_setZ vs (outcome e - first) (probability e)
                   = array_set vs (Z.to_nat (outcome e - first)) (probability e)).
    { unfold array_setZ.
      destruct (Z.ltb_spec (outcome e - first) 0); [lia|reflexivity]. }
    rewrite Hidx.
    destruct (IH (outcome e + 1)%Z
                (array_set vs (Z.to_nat (outcome e - first)) (probability e)))
      as [L W].
    + exact Hs'.
    + lia.
    + rewrite array_set_length. rewrite Forall_forall in Hall, Hr'.
      apply Forall_forall. intros o Ho.
      specialize (Hall _ Ho). specialize (Hr' _ Ho). lia.
    + intros j Hj. rewrite array_set_nth.
      destruct (Nat.eqb_spec j (Z.to_nat (outcome e - first))) as [->|Hne];
        [lia|].
      simpl. apply Hz. lia.
    + rewrite array_set_length in L. split; [exact L|].
      rewrite W, array_set_weight by lia.
      rewrite Hz by lia. rewrite Z2Nat.id by lia.
      replace (first + (outcome e - first))%Z with (outcome e) by lia.
      rewrite weight_cons. ring.
Qed.

Lemma toDense_loop_Forall (P : Q -> Prop) (first : Z)
  (es : list DistributionEntry) (vs : list Q) :
  Forall (fun e => P (probability e)) es -> Forall P vs ->
  Forall P
    (fold_left
       (fun vs entry =>
          array_setZ vs (outcome entry - first) (probability entry))
       es vs).
Proof.
  intros H. revert vs; induction H as [|e es He H IH]; intros vs Hvs; simpl.
  - exact Hvs.
  - apply IH. unfold array_setZ.
    destruct (outcome e - first <? 0)%Z; [exact Hvs|].
    apply array_set_Forall; assumption.
Qed.

Lemma last_default {A : Type} (y a b : A) (l : list A) :
  last (y :: l) a = last (y :: l) b.
Proof.
  revert y; induction l as [|z l IH]; intros y.
  - reflexivity.
  - change (last (z :: l) a = last (z :: l) b). apply IH.
Qed.

Lemma ascending_last (x : DistributionEntry) (l : list DistributionEntry) :
  ascending (x :: l) ->
  Forall (fun o => (outcome x <= o <= outcome (last (x :: l) x))%Z)
    (List.map outcome (x :: l)).
Proof.
  unfold ascending. revert x; induction l as [|y l IH]; intros x H.
  - simpl. repeat constructor; lia.
  - simpl in H. inversion H as [|? ? Hs Hall]; subst.
    specialize (IH y Hs). inversion Hall as [|? ? Hxy _]; subst.
    change (last (x :: y :: l) x) with (last (y :: l) x).
    rewrite (last_default y x y l).
    pose proof IH as IH'. rewrite Forall_forall in IH'.
    assert (Hyl : (outcome y <= outcome (last (y :: l) y))%Z).
    { apply (IH' (outcome y)). simpl. left; reflexivity. }
    constructor; [lia|].
    eapply Forall_impl; [|exact IH]. simpl. intros; lia.
Qed.

Lemma toDense_Forall (P : Q -> Prop) (d : ProbabilityDistribution) :
  P 0 -> Forall (fun e => P (probability e)) (entries d) ->
  Forall P (values (toDense d)).
Proof.
  intros H0 H. unfold toDense. destruct (entries d) as [|first rest] eqn:E.
  - simpl. repeat constructor. exact H0.
  - cbv zeta. cbn [values]. apply toDense_loop_Forall; [exact H|].
    apply Forall_forall. intros x Hx. apply repeat_spec in Hx. subst. exact H0.
Qed.

Lemma toDense_weight (w : Z -> Q) (d : ProbabilityDistribution) :
  ascending (entries d) ->
  (1 <= length (values (toDense d)))%nat /\
  denseWeight w (offset (toDense d)) (values (toDense d))
  == weight w (entries d).
Proof.
  intros Hs. unfold toDense. destruct (entries d) as [|first rest] eqn:E.
  - simpl. split; [lia|]. unfold weight; simpl. ring.
  - cbv zeta. cbn [offset values].
    pose proof (ascending_last first rest Hs) as Hr.
    set (lastOutcome := outcome (last (first :: rest) first)) in *.
    assert (Hfl : (outcome first <= lastOutcome)%Z).
    { rewrite Forall_forall in Hr. apply (Hr (outcome first)).
      simpl. left; reflexivity. }
    destruct (toDense_loop w (outcome first) (first :: rest) (outcome first)
                (repeat 0 (Z.to_nat (lastOutcome - outcome first + 1))))
      as [L W].
    + exact Hs.
    + lia.
    + rewrite repeat_length. eapply Forall_impl; [|exact Hr].
      simpl. intros; lia.
    + intros j _. apply nth_repeat_zero.
    + rewrite repeat_length in L. split; [rewrite L; lia|].
      rewrite W, denseWeight_zeros. ring.
Qed.

(* ================================================================== *)
(** ** Non-negative probabilities and totals through the algebra *)

Lemma map_get_Forall (P : Q -> Prop) (m : list (Z * Q)) (k : Z) (v : Q) :
  Forall (fun kv => P (snd kv)) m -> map_get m k = Some v -> P v.
Proof.
  induction 1 as [|[k' w] m Hw H IH]; simpl; intros E.
  - discriminate.
  - destruct (k' =? k)%Z; [injection E as <-; exact Hw|auto].
Qed.

Lemma map_set_Forall (P : Q -> Prop) (m : list (Z * Q)) (k : Z) (v : Q) :
  P v -> Forall (fun kv => P (snd kv)) m ->
  Forall (fun kv => P (snd kv)) (map_set m k v).
Proof.
  intros Hv. induction 1 as [|[k' w] m Hw H IH]; simpl.
  - repeat constructor. exact Hv.
  - destruct (k' =? k)%Z; constructor; auto.
Qed.

Lemma accumulate_from_nonneg (es : list DistributionEntry) (m : list (Z * Q)) :
  nonnegEntries es -> Forall (fun kv => 0 <= snd kv) m ->
  Forall (fun kv => 0 <= snd kv) (fold_left accumulateStep es m).
Proof.
  intros H. revert m; induction H as [|e es He H IH]; intros m Hm; simpl.
  - exact Hm.
  - apply IH. unfold accumulateStep.
    apply (map_set_Forall (fun x => 0 <= x)); [|exact Hm].
    destruct (map_get m (outcome e)) as [v|] eqn:E.
    + pose proof (map_get_Forall (fun x => 0 <= x) m _ _ Hm E). simpl in *. lra.
    + lra.
Qed.

Lemma normalize_nonneg (es : list DistributionEntry) :
  nonnegEntries es -> nonnegEntries (entries (normalize es)).
Proof.
  intros H. unfold normalize; simpl. unfold nonnegEntries.
  eapply Permutation_Forall; [symmetry; apply sortByOutcome_perm|].
  apply Forall_forall. intros e He. apply in_map_iff in He.
  destruct He as [[k v] [<- Hkv]]. simpl.
  pose proof (accumulate_from_nonneg es [] H (Forall_nil _)) as HF.
  rewrite Forall_forall in HF. apply (HF (k, v)). exact Hkv.
Qed.

Lemma normalized_subdist (d : ProbabilityDistribution) :
  normalized d -> subdist d.
Proof.
  intros [[Ha Hc] [Hn Ht]]. repeat split; try assumption.
  rewrite <- Hc, Ht. lra.
Qed.

Lemma normalize_normalized (es : list DistributionEntry) :
  nonnegEntries es -> weight one es == 1 -> normalized (normalize es).
Proof.
  intros Hn Ht. split; [apply normalize_consistent|].
  split; [apply normalize_nonneg; exact Hn|].
  rewrite normalize_total. exact Ht.
Qed.

Lemma normalize_subdist (es : list DistributionEntry) :
  nonnegEntries es -> weight one es <= 1 -> subdist (normalize es).
Proof.
  intros Hn Ht. split; [apply normalize_ascending|].
  split; [apply normalize_nonneg; exact Hn|].
  rewrite normalize_weight. exact Ht.
Qed.

Lemma relabel_nonneg (f : Z -> Z) (es : list DistributionEntry) :
  nonnegEntries es ->
  nonnegEntries
    (List.map (fun entry => mkEntry (f (outcome entry)) (probability entry)) es).
Proof.
  unfold nonnegEntries. intros H. apply Forall_forall. intros e He.
  apply in_map_iff in He. destruct He as [e' [<- He']]. simpl.
  rewrite Forall_forall in H. auto.
Qed.

Lemma relabel_weight_one (f : Z -> Z) (es : list DistributionEntry) :
  weight one
    (List.map (fun entry => mkEntry (f (outcome entry)) (probability entry)) es)
  == weight one es.
Proof. unfold weight. rewrite map_map. reflexivity. Qed.

Lemma constant_normalized (v : Z) : normalized (constant v).
Proof.
  unfold constant. apply normalize_normalized.
  - repeat constructor. simpl. lra.
  - unfold weight, one. simpl. ring.
Qed.

Lemma uniformDie_normalized (sides : Q) :
  isInteger sides = true -> 0 < sides ->
  exists d, uniformDie sides = Ok d /\ normalized d.
Proof.
  intros Hi Hp. eexists. split; [apply uniformDie_ok; assumption|].
  pose proof (uniformDie_total sides _ (uniformDie_ok sides Hi Hp)) as [Ht Hc].
  split; [exact Hc|]. split; [|exact Ht].
  apply normalize_nonneg. apply Forall_forall. intros e He.
  apply in_map_iff in He. destruct He as [f [<- _]]. simpl.
  apply Qlt_le_weak. unfold Qdiv. rewrite Qmult_1_l.
  apply Qinv_lt_0_compat. exact Hp.
Qed.


Lemma mapOutcomes_subdist (d : ProbabilityDistribution) (f : Z -> Z) :
  subdist d -> subdist (mapOutcomes d f).
Proof.
  intros (Ha & Hn & Ht). unfold mapOutcomes. apply normalize_subdist.
  - apply relabel_nonneg. exact Hn.
  - rewrite relabel_weight_one. exact Ht.
Qed.


Lemma shift_subdist (d : ProbabilityDistribution) (k : Z) :
  subdist d -> subdist (shift d k).
Proof. apply (mapOutcomes_subdist d (fun o => (o + k)%Z)). Qed.

(** *** Convolution *)

Lemma toDense_subdense (d : ProbabilityDistribution) :
  subdist d -> subdense (toDense d).
Proof.
  intros (Ha & Hn & Ht). destruct (toDense_weight one d Ha) as [Hl Hw].
  split; [exact Hl|]. split.
  - apply toDense_Forall; [lra|exact Hn].
  - rewrite <- denseWeight_one with (pos := offset (toDense d)), Hw. exact Ht.
Qed.

Lemma convolveDense_sum (left right : DenseDistribution) :
  (1 <= length (values right))%nat ->
  qsum (values (convolveDense left right))
  == qsum (prune (values left)) * qsum (prune (values right)).
Proof.
  intros H. destruct (convolveDense_weight one left right H) as [_ W].
  rewrite denseWeight_one, convWeight_one in W. exact W.
Qed.

Lemma pruned_sum_range (vs : list Q) :
  Forall (fun x => 0 <= x) vs -> qsum vs <= 1 ->
  0 <= qsum (prune vs) <= 1.
Proof.
  intros Hn Hs. destruct (prune_sum_bounds vs Hn) as [_ Hle].
  pose proof (qsum_nonneg _ (prune_nonneg vs Hn)). lra.
Qed.

Lemma convolveDense_subdense (left right : DenseDistribution) :
  subdense left -> subdense right -> subdense (convolveDense left right).
Proof.
  intros (Ll & Nl & Sl) (Lr & Nr & Sr).
  destruct (convolveDense_weight one left right Lr) as [L _].
  split; [lia|]. split; [apply convolveDense_nonneg; assumption|].
  rewrite convolveDense_sum by exact Lr.
  pose proof (pruned_sum_range _ Nl Sl). pose proof (pruned_sum_range _ Nr Sr).
  nra.
Qed.

Lemma fromDense_subdist (D : DenseDistribution) :
  subdense D -> subdist (fromDense D) /\ consistent (fromDense D).
Proof.
  intros (L & N & S). split; [|apply normalize_consistent].
  split; [apply normalize_ascending|]. split; [apply fromDense_nonneg; exact N|].
  rewrite fromDense_weight, denseWeight_one.
  destruct (prune_sum_bounds _ N). lra.
Qed.

Lemma convolve_subdist (a b : ProbabilityDistribution) :
  subdist a -> subdist b ->
  subdist (convolve a b) /\ consistent (convolve a b).
Proof.
  intros Ha Hb. unfold convolve. apply fromDense_subdist.
  apply convolveDense_subdense; apply toDense_subdense; assumption.
Qed.

Lemma repeatDense_subdense (B : DenseDistribution) (n : nat)
  (X : DenseDistribution) :
  subdense B -> subdense X -> subdense (repeatDense B n X).
Proof.
  intros HB. revert X; induction n as [|n IH]; intros X HX; simpl.
  - exact HX.
  - apply IH. apply convolveDense_subdense; assumption.
Qed.

Lemma unit_subdense : subdense (mkDense 0 [1]).
Proof.
  split; [simpl; lia|]. split; [repeat constructor; lra|simpl; lra].
Qed.

Lemma repeatConvolve_subdist (base : ProbabilityDistribution) (times : Q) :
  subdist base -> isInteger times = true -> 0 <= times ->
  exists d,
    repeatConvolve base times = Ok d /\ subdist d /\ consistent d.
Proof.
  intros Hb Hi Hp. rewrite (repeatConvolve_ok base times Hi Hp).
  eexists. split; [reflexivity|].
  destruct (Qeq_bool times 0).
  - pose proof (constant_normalized 0) as Hc.
    split; [apply normalized_subdist; exact Hc|apply Hc].
  - apply fromDense_subdist. apply repeatDense_subdense;
      [apply toDense_subdense; exact Hb|apply unit_subdense].
Qed.

(** *** Order statistics *)

Lemma Qpower_base_le (a b : Q) (n : Z) :
  0 <= a -> a <= b -> (0 <= n)%Z -> a ^ n <= b ^ n.
Proof.
  intros Ha Hab Hn. pattern n. apply natlike_ind; [|clear n Hn|exact Hn].
  - simpl. lra.
  - intros n Hn IH. unfold Z.succ.
    rewrite !Qpower_plus' by lia. rewrite !Qpower_1_r.
    pose proof (Qpower_0_le a n Ha). nra.
Qed.

Lemma integer_positive (n : Q) :
  isInteger n = true -> 0 < n -> (0 < toInt n)%Z.
Proof.
  intros Hi Hp. apply isInteger_spec in Hi. unfold toInt.
  rewrite <- Hi in Hp. change 0 with (inject_Z 0) in Hp.
  rewrite <- Zlt_Qlt in Hp. exact Hp.
Qed.

Lemma weight_one_sum (es : list DistributionEntry) :
  weight one es == qsum (List.map probability es).
Proof.
  unfold weight. apply qsum_map_ext. intros; unfold one; ring.
Qed.

Lemma probabilities_nonneg (es : list DistributionEntry) :
  nonnegEntries es -> 0 <= qsum (List.map probability es).
Proof.
  intros H. apply qsum_nonneg. apply Forall_forall. intros x Hx.
  apply in_map_iff in Hx. destruct Hx as [e [<- He]].
  unfold nonnegEntries in H. rewrite Forall_forall in H. auto.
Qed.

Lemma weight_one_nonneg (es : list DistributionEntry) :
  nonnegEntries es -> 0 <= weight one es.
Proof. intros H. rewrite weight_one_sum. apply probabilities_nonneg, H. Qed.

Lemma maxLoop_outcomes (es : list DistributionEntry) (count c c' : Q) :
  List.map outcome (maxLoop es count c c') = List.map outcome es.
Proof.
  revert c c'; induction es as [|e es IH]; intros c c'; simpl.
  - reflexivity.
  - rewrite IH. reflexivity.
Qed.

Lemma minLoop_outcomes (es : list DistributionEntry) (count c c' : Q) :
  List.map outcome (minLoop es count c c') = List.map outcome es.
Proof.
  revert c c'; induction es as [|e es IH]; intros c c'; simpl.
  - reflexivity.
  - rewrite IH. reflexivity.
Qed.

Lemma maxLoop_weight (es : list DistributionEntry) (count c : Q) :
  weight one (maxLoop es count c c)
  == Math_pow (c + qsum (List.map probability es)) count - Math_pow c count.
Proof.
  unfold Math_pow. revert c; induction es as [|e es IH]; intros c; simpl.
  - unfold weight; simpl. rewrite Qplus_0_r.
    generalize (c ^ toInt count). intros; ring.
  - rewrite weight_cons, IH. simpl. unfold one, Math_pow.
    rewrite (Qplus_assoc c (probability e)).
    generalize ((c + probability e + qsum (List.map probability es))
                ^ toInt count),
      ((c + probability e) ^ toInt count), (c ^ toInt count).
    intros; ring.
Qed.

Lemma minLoop_weight (es : list DistributionEntry) (count c : Q) :
  weight one (minLoop es count c c)
  == Math_pow (1 - c) count
     - Math_pow (1 - (c + qsum (List.map probability es))) count.
Proof.
  unfold Math_pow. revert c; induction es as [|e es IH]; intros c; simpl.
  - unfold weight; simpl. rewrite Qplus_0_r.
    generalize ((1 - c) ^ toInt count). intros; ring.
  - rewrite weight_cons, IH. simpl. unfold one, Math_pow.
    rewrite (Qplus_assoc c (probability e)).
    generalize ((1 - (c + probability e + qsum (List.map probability es)))
                ^ toInt count),
      ((1 - (c + probability e)) ^ toInt count), ((1 - c) ^ toInt count).
    intros; ring.
Qed.

Lemma maxLoop_nonneg (es : list DistributionEntry) (count c : Q) :
  (0 <= toInt count)%Z -> 0 <= c -> nonnegEntries es ->
  nonnegEntries (maxLoop es count c c).
Proof.
  intros Hn Hc H. revert c Hc; induction H as [|e es He H IH]; intros c Hc; simpl.
  - constructor.
  - constructor.
    + simpl. unfold Math_pow.
      assert (c ^ toInt count <= (c + probability e) ^ toInt count)
        by (apply Qpower_base_le; [assumption|lra|assumption]).
      lra.
    + apply IH. lra.
Qed.

Lemma minLoop_nonneg (es : list DistributionEntry) (count c : Q) :
  (0 <= toInt count)%Z -> 0 <= c -> nonnegEntries es ->
  c + qsum (List.map probability es) <= 1 ->
  nonnegEntries (minLoop es count c c).
Proof.
  intros Hn Hc H. revert c Hc; induction H as [|e es He H IH];
    intros c Hc Hs; simpl.
  - constructor.
  - simpl in Hs.
    pose proof (probabilities_nonneg es H) as Hrest.
    constructor.
    + simpl. unfold Math_pow.
      assert ((1 - (c + probability e)) ^ toInt count <= (1 - c) ^ toInt count)
        by (apply Qpower_base_le; [lra|lra|assumption]).
      lra.
    + apply IH; lra.
Qed.

Lemma orderStatistic_entries (d : ProbabilityDistribution) (count : Q) :
  isInteger count = true -> 0 < count -> subdist d ->
  nonnegEntries (maxLoop (entries d) count 0 0) /\
  nonnegEntries (minLoop (entries d) count 0 0) /\
  weight one (maxLoop (entries d) count 0 0)
  == Math_pow (weight one (entries d)) count /\
  weight one (minLoop (entries d) count 0 0)
  == 1 - Math_pow (1 - weight one (entries d)) count.
Proof.
  intros Hi Hp (Ha & Hn & Ht).
  pose proof (integer_positive count Hi Hp) as Hz.
  rewrite weight_one_sum in Ht.
  split; [apply maxLoop_nonneg; [lia|lra|exact Hn]|].
  split; [apply minLoop_nonneg; [lia|lra|exact Hn|lra]|].
  rewrite maxLoop_weight, minLoop_weight. unfold Math_pow.
  rewrite weight_one_sum, Qplus_0_l. split.
  - rewrite (Qpower_0 (toInt count)) by lia. ring.
  - assert (E : 1 - 0 == 1) by ring. rewrite E, Qpower_1. reflexivity.
Qed.

Lemma orderStatistic_subdist (d : ProbabilityDistribution) (count : Q) :
  isInteger count = true -> 0 < count -> subdist d ->
  exists dmax dmin,
    maxOfIndependent d count = Ok dmax /\
    minOfIndependent d count = Ok dmin /\
    subdist dmax /\ subdist dmin.
Proof.
  intros Hi Hp Hd. destruct (orderStatistic_ok d count Hi Hp) as [-> ->].
  do 2 eexists. split; [reflexivity|]. split; [reflexivity|].
  destruct (Qeq_bool count 1); [split; exact Hd|].
  destruct (orderStatistic_entries d count Hi Hp Hd) as (N1 & N2 & W1 & W2).
  pose proof (integer_positive count Hi Hp) as Hz.
  destruct Hd as (Ha & Hn & Ht).
  pose proof (weight_one_nonneg (entries d) Hn) as H0.
  unfold fromEntries. split; apply normalize_subdist; try assumption.
  - rewrite W1. unfold Math_pow.
    assert (weight one (entries d) ^ toInt count <= 1 ^ toInt count)
      by (apply Qpower_base_le; [assumption|assumption|lia]).
    rewrite Qpower_1 in *. assumption.
  - rewrite W2. unfold Math_pow.
    assert (0 <= (1 - weight one (entries d)) ^ toInt count)
      by (apply Qpower_0_le; lra).
    lra.
Qed.


(** *** Dice pools: the mass lost to pruning *)



Lemma toDense_length (d : ProbabilityDistribution) (first : DistributionEntry)
  (rest : list DistributionEntry) :
  ascending (entries d) -> entries d = first :: rest ->
  length (values (toDense d))
  = Z.to_nat (outcome (last (first :: rest) first) - outcome first + 1).
Proof.
  intros Hs E. unfold toDense. rewrite E in *. cbv zeta. cbn [values].
  pose proof (ascending_last first rest Hs) as Hr.
  set (lastOutcome := outcome (last (first :: rest) first)) in *.
  assert (Hfl : (outcome first <= lastOutcome)%Z).
  { rewrite Forall_forall in Hr. apply (Hr (outcome first)).
    simpl. left; reflexivity. }
  destruct (toDense_loop one (outcome first) (first :: rest) (outcome first)
              (repeat 0 (Z.to_nat (lastOutcome - outcome first + 1))))
    as [L _].
  - exact Hs.
  - lia.
  - rewrite repeat_length. eapply Forall_impl; [|exact Hr]. simpl. intros; lia.
  - intros j _. apply nth_repeat_zero.
  - rewrite L. apply repeat_length.
Qed.



(* ================================================================== *)
(** ** Expectations through convolution *)

Lemma accumulate_from_keys (P : Z -> Prop) (es : list DistributionEntry)
  (m : list (Z * Q)) :
  Forall P (List.map fst m) -> Forall P (List.map outcome es) ->
  Forall P (List.map fst (fold_left accumulateStep es m)).
Proof.
  revert m; induction es as [|e es IH]; intros m Hm Hes; simpl.
  - exact Hm.
  - simpl in Hes. inversion Hes as [|? ? He Hes']; subst.
    apply IH; [|exact Hes']. unfold accumulateStep. rewrite map_set_keys.
    destruct (existsb (Z.eqb (outcome e)) (List.map fst m)); [exact Hm|].
    apply Forall_app. split; [exact Hm|repeat constructor; exact He].
Qed.

Lemma normalize_outcomes (P : Z -> Prop) (es : list DistributionEntry) :
  Forall P (List.map outcome es) ->
  Forall P (List.map outcome (entries (normalize es))).
Proof.
  intros H. unfold normalize; simpl.
  eapply Permutation_Forall;
    [symmetry; apply Permutation_map; apply sortByOutcome_perm|].
  rewrite mapEntries_outcome. apply accumulate_from_keys; [constructor|exact H].
Qed.

Lemma nonnegOutcomes_map (es : list DistributionEntry) :
  nonnegOutcomes es <-> Forall (fun o => (0 <= o)%Z) (List.map outcome es).
Proof. unfold nonnegOutcomes. rewrite Forall_map. tauto. Qed.

Lemma denseWeight_nonneg (pos : Z) (vs : list Q) :
  (0 <= pos)%Z -> Forall (fun x => 0 <= x) vs ->
  0 <= denseWeight inject_Z pos vs.
Proof.
  intros Hp H. revert pos Hp; induction H as [|v vs Hv H IH]; intros pos Hp;
    simpl.
  - lra.
  - assert (0 <= inject_Z pos)
      by (change 0 with (inject_Z 0); rewrite <- Zle_Qle; exact Hp).
    assert (0 <= inject_Z pos * v) by (apply Qmult_le_0_compat; assumption).
    specialize (IH (pos + 1)%Z). assert (0 <= denseWeight inject_Z (pos + 1) vs)
      by (apply IH; lia).
    lra.
Qed.

Lemma toDense_offset (d : ProbabilityDistribution) :
  nonnegOutcomes (entries d) -> (0 <= offset (toDense d))%Z.
Proof.
  unfold toDense, nonnegOutcomes. intros H.
  destruct (entries d) as [|first rest]; simpl; [lia|].
  inversion H; subst. assumption.
Qed.

Lemma toDense_expectation (d : ProbabilityDistribution) :
  ascending (entries d) -> denseExpectation (toDense d) == expectation d.
Proof.
  intros Ha. unfold denseExpectation.
  destruct (toDense_weight inject_Z d Ha) as [_ W].
  rewrite W, expectation_weight. reflexivity.
Qed.

Lemma convolveDense_expectation (X B : DenseDistribution) :
  subdense X -> subdense B -> (0 <= offset X)%Z -> (0 <= offset B)%Z ->
  0 <= denseExpectation X ->
  denseExpectation (convolveDense X B)
  <= denseExpectation X + denseExpectation B.
Proof.
  intros (LX & NX & SX) (LB & NB & SB) OX OB EX. unfold denseExpectation in *.
  destruct (convolveDense_weight inject_Z X B LB) as [_ W].
  rewrite W, convWeight_expectation.
  destruct (prune_expectation_le (offset X) (values X) OX NX) as [A1 A2].
  destruct (prune_expectation_le (offset B) (values B) OB NB) as [B1 B2].
  pose proof (pruned_sum_range _ NX SX) as [A3 A4].
  pose proof (pruned_sum_range _ NB SB) as [B3 B4].
  nra.
Qed.

Lemma repeatDense_expectation (B : DenseDistribution) (k : nat)
  (X : DenseDistribution) :
  subdense B -> (0 <= offset B)%Z -> subdense X -> (0 <= offset X)%Z ->
  let R := repeatDense B k X in
  subdense R /\ (0 <= offset R)%Z /\
  denseExpectation R
  <= denseExpectation X + inject_Z (Z.of_nat k) * denseExpectation B.
Proof.
  intros HB OB. revert X; induction k as [|k IH]; intros X HX OX;
    cbn [repeatDense].
  - split; [exact HX|]. split; [exact OX|].
    change (inject_Z (Z.of_nat 0)) with 0. lra.
  - destruct (IH (convolveDense X B)) as (SR & OR & ER).
    + apply convolveDense_subdense; assumption.
    + simpl. lia.
    + split; [exact SR|]. split; [exact OR|].
      assert (EX : 0 <= denseExpectation X).
      { apply denseWeight_nonneg; [exact OX|apply HX]. }
      pose proof (convolveDense_expectation X B HX HB OX OB EX) as Hc.
      rewrite Nat2Z.inj_succ. unfold Z.succ. rewrite inject_Z_plus.
      change (inject_Z 1) with 1. lra.
Qed.

Lemma fromDense_damage (D : DenseDistribution) :
  subdense D -> (0 <= offset D)%Z ->
  damageDist (fromDense D) /\ consistent (fromDense D) /\
  0 <= expectation (fromDense D) /\
  expectation (fromDense D) <= denseExpectation D.
Proof.
  intros HD OD. destruct (fromDense_subdist D HD) as [Hs Hc].
  destruct HD as (L & N & S).
  split; [split; [exact Hs|]|].
  - apply nonnegOutcomes_map. unfold fromDense. apply normalize_outcomes.
    eapply Forall_impl; [|apply (denseEntries_lower (offset D) 0)].
    simpl. intros; lia.
  - split; [exact Hc|].
    rewrite expectation_weight, fromDense_weight. unfold denseExpectation.
    apply prune_expectation_le; assumption.
Qed.

Lemma damageDist_dense (d : ProbabilityDistribution) :
  damageDist d ->
  subdense (toDense d) /\ (0 <= offset (toDense d))%Z /\
  denseExpectation (toDense d) == expectation d /\ 0 <= expectation d.
Proof.
  intros [Hs Ho]. pose proof (toDense_subdense d Hs) as HD.
  pose proof (toDense_offset d Ho) as OD.
  destruct Hs as (Ha & _ & _).
  pose proof (toDense_expectation d Ha) as E.
  repeat split; try assumption; try apply HD.
  rewrite <- E. apply denseWeight_nonneg; [exact OD|apply HD].
Qed.

Lemma convolve_damage (a b : ProbabilityDistribution) :
  damageDist a -> damageDist b ->
  damageDist (convolve a b) /\ consistent (convolve a b) /\
  expectation (convolve a b) <= expectation a + expectation b.
Proof.
  intros Ha Hb.
  destruct (damageDist_dense a Ha) as (SA & OA & EA & PA).
  destruct (damageDist_dense b Hb) as (SB & OB & EB & PB).
  unfold convolve.
  destruct (fromDense_damage (convolveDense (toDense a) (toDense b)))
    as (Hd & Hc & _ & He).
  - apply convolveDense_subdense; assumption.
  - simpl. lia.
  - split; [exact Hd|]. split; [exact Hc|].
    pose proof (convolveDense_expectation (toDense a) (toDense b) SA SB OA OB).
    rewrite EA, EB in *. lra.
Qed.

Lemma repeatConvolve_damage (base : ProbabilityDistribution) (times : Q) :
  damageDist base -> isInteger times = true -> 1 <= times ->
  exists d,
    repeatConvolve base times = Ok d /\ damageDist d /\ consistent d /\
    expectation d <= times * expectation base.
Proof.
  intros Hb Hi Hp. rewrite (repeatConvolve_ok base times Hi) by lra.
  assert (E0 : Qeq_bool times 0 = false).
  { destruct (Qeq_bool times 0) eqn:E; [|reflexivity].
    apply Qeq_bool_iff in E. lra. }
  rewrite E0. eexists. split; [reflexivity|].
  destruct (damageDist_dense base Hb) as (SB & OB & EB & PB).
  destruct (repeatDense_expectation (toDense base) (loopCount times)
              (mkDense 0 [1]) SB OB unit_subdense) as (SR & OR & ER);
    [simpl; lia|].
  destruct (fromDense_damage _ SR OR) as (Hd & Hc & _ & He).
  split; [exact Hd|]. split; [exact Hc|].
  rewrite loopCount_integer, EB in ER by (auto; lra).
  assert (E1 : denseExpectation (mkDense 0 [1]) == 0) by reflexivity.
  rewrite E1 in ER. lra.
Qed.

(* ================================================================== *)
(** ** Convolutions in which nothing is pruned *)







(* ================================================================== *)
(** ** Totals through the algebra *)

(** *** The mass lost along a composition *)

Lemma cells_nonneg (n : nat) : 0 <= inject_Z (Z.of_nat n).
Proof. change 0 with (inject_Z 0). rewrite <- Zle_Qle. lia. Qed.




(** *** Powers of a probability *)

Lemma Qpower_unit_range (t : Q) (k : Z) :
  0 <= t -> t <= 1 -> (0 <= k)%Z -> 0 <= t ^ k <= 1.
Proof.
  intros H0 H1 Hk. split; [apply Qpower_0_le; exact H0|].
  rewrite <- (Qpower_1 k). apply Qpower_base_le; assumption.
Qed.

Lemma Qpower_bernoulli (t : Q) (k : Z) :
  0 <= t -> t <= 1 -> (0 <= k)%Z -> 1 - inject_Z k * (1 - t) <= t ^ k.
Proof.
  intros H0 H1 Hk. pattern k. apply natlike_ind; [|clear k Hk|exact Hk].
  - change (inject_Z 0) with 0. cbn [Qpower]. lra.
  - intros k Hk IH. unfold Z.succ.
    rewrite Qpower_plus' by lia. rewrite Qpower_1_r, inject_Z_plus.
    change (inject_Z 1) with 1.
    pose proof (Qpower_unit_range t k H0 H1 Hk) as R.
    cbv beta in IH.
    set (x := t ^ k) in *. set (kk := inject_Z k) in *.
    assert (E : x * t == x - (1 - t) + (1 - x) * (1 - t)) by ring.
    assert (0 <= (1 - x) * (1 - t)) by (apply Qmult_le_0_compat; lra).
    rewrite E. lra.
Qed.

Lemma Qpower_decay (e : Q) (k : Z) :
  0 <= e -> e <= 1 -> (0 <= k)%Z ->
  (1 - e) ^ k * (1 + inject_Z k * e) <= 1.
Proof.
  intros H0 H1 Hk. pattern k. apply natlike_ind; [|clear k Hk|exact Hk].
  - change (inject_Z 0) with 0. cbn [Qpower]. lra.
  - intros k Hk IH. unfold Z.succ.
    rewrite Qpower_plus' by lia. rewrite Qpower_1_r, inject_Z_plus.
    change (inject_Z 1) with 1.
    assert (R : 0 <= (1 - e) ^ k) by (apply Qpower_0_le; lra).
    cbv beta in IH.
    assert (K : 0 <= inject_Z k)
      by (change 0 with (inject_Z 0); rewrite <- Zle_Qle; exact Hk).
    set (x := (1 - e) ^ k) in *. set (kk := inject_Z k) in *.
    assert (E : x * (1 - e) * (1 + (kk + 1) * e)
                == x * (1 + kk * e) - x * ((kk + 1) * (e * e))) by ring.
    rewrite E.
    assert (0 <= x * ((kk + 1) * (e * e))).
    { apply Qmult_le_0_compat; [exact R|].
      apply Qmult_le_0_compat; [lra|]. apply Qmult_le_0_compat; exact H0. }
    lra.
Qed.

(** *** Order statistics of a distribution whose total is short of 1 *)




(** *** Chains of convolutions with a single-entry distribution *)

Lemma nearZero_false (x : Q) : PROBABILITY_EPSILON < x -> nearZero x = false.
Proof.
  intros H. unfold nearZero. apply Qle_bool_false.
  rewrite Qabs_pos; [exact H|]. unfold PROBABILITY_EPSILON in H. lra.
Qed.

Lemma toDense_single (d : ProbabilityDistribution) (k : Z) (p : Q) :
  entries d = [mkEntry k p] -> toDense d = mkDense k [p].
Proof.
  intros E. unfold toDense. rewrite E. cbn [last outcome probability].
  replace (k - k + 1)%Z with 1%Z by lia.
  cbn [fold_left outcome probability]. replace (k - k)%Z with 0%Z by lia.
  reflexivity.
Qed.

Lemma convolve_single (a b : ProbabilityDistribution) (k m : Z) (p q : Q) :
  entries a = [mkEntry k p] -> entries b = [mkEntry m q] ->
  PROBABILITY_EPSILON < p -> PROBABILITY_EPSILON < q ->
  PROBABILITY_EPSILON < p * q ->
  exists r, entries (convolve a b) = [mkEntry (k + m) r] /\ r == p * q.
Proof.
  intros Ea Eb Hp Hq Hpq. unfold convolve.
  rewrite (toDense_single a k p Ea), (toDense_single b m q Eb).
  rewrite fromDense_entries. unfold convolveDense, convolveRow, indexed.
  cbn [values offset length Nat.add Nat.sub repeat seq combine fold_left].
  rewrite (nearZero_false p Hp), (nearZero_false q Hq).
  cbn [array_add denseEntries].
  assert (Hz : PROBABILITY_EPSILON < 0 + p * q) by lra.
  rewrite (nearZero_false _ Hz). cbn [List.map zeroPlus outcome probability].
  rewrite Z.add_0_r. exists (0 + (0 + p * q)). split; [reflexivity|]. ring.
Qed.

Lemma iterate_convolve_single (term : ProbabilityDistribution) (m : Z) (q : Q)
  (n : nat) :
  entries term = [mkEntry m q] -> 1 # 2 <= q -> q <= 1 ->
  1 # 2 <= q ^ Z.of_nat n ->
  exists p,
    entries (Nat.iter n (fun sum => convolve sum term) (constant 0))
    = [mkEntry (Z.of_nat n * m) p] /\
    p == q ^ Z.of_nat n.
Proof.
  intros E Hlo Hhi. induction n as [|n IH]; intros Hn.
  - exists (0 + 1). split; [reflexivity|]. simpl. ring.
  - assert (S1 : q ^ Z.of_nat (S n) == q ^ Z.of_nat n * q).
    { rewrite Nat2Z.inj_succ. unfold Z.succ.
      rewrite Qpower_plus' by lia. rewrite Qpower_1_r. reflexivity. }
    pose proof (Qpower_unit_range q (Z.of_nat n)) as R.
    destruct R as [R0 R1]; [lra|lra|lia|].
    rewrite S1 in Hn.
    assert (Hn' : 1 # 2 <= q ^ Z.of_nat n).
    { set (x := q ^ Z.of_nat n) in *. nra. }
    destruct (IH Hn') as (p & Ep & Hp).
    rewrite Nat.iter_succ.
    destruct (convolve_single _ term (Z.of_nat n * m) m p q Ep E)
      as (r & Er & Hr).
    + unfold PROBABILITY_EPSILON. lra.
    + unfold PROBABILITY_EPSILON. lra.
    + rewrite Hp. unfold PROBABILITY_EPSILON. lra.
    + exists r. split.
      * rewrite Er. f_equal. f_equal. lia.
      * rewrite Hr, Hp, S1. reflexivity.
Qed.





(* ================================================================== *)
(** ** Signs: outcome probabilities and built distributions *)

Lemma filter_weight_range (f : DistributionEntry -> bool)
  (es : list DistributionEntry) :
  nonnegEntries es ->
  0 <= weight one (filter f es) /\ weight one (filter f es) <= weight one es.
Proof.
  induction 1 as [|e es He H [IH1 IH2]]; simpl.
  - unfold weight; simpl. split; lra.
  - cbv beta in He.
    destruct (f e); rewrite !weight_cons; change (one (outcome e)) with 1;
      split; lra.
Qed.

Lemma probabilityAtLeast_range (bonus : ProbabilityDistribution) (threshold : Q) :
  subdist bonus ->
  0 <= probabilityAtLeast bonus threshold /\
  probabilityAtLeast bonus threshold <= 1.
Proof.
  intros (_ & Hn & Ht). unfold probabilityAtLeast.
  rewrite sumProbabilities_weight.
  destruct (filter_weight_range
              (fun entry => Qle_bool threshold (inject_Z (outcome entry)))
              (entries bonus) Hn).
  split; lra.
Qed.

Lemma cdf_range (dist : list Q) (n f : nat) :
  cdf dist n == 1 ->
  (forall k, (1 <= k <= n)%nat -> 0 < nth k dist 0) ->
  (1 <= f <= n)%nat ->
  0 <= cdf dist (f - 1) /\ cdf dist (f - 1) < cdf dist f /\ cdf dist f <= 1.
Proof.
  intros Hfull Hpos Hf. split; [|split].
  - destruct (f - 1)%nat as [|j] eqn:E.
    + change (cdf dist 0) with 0. lra.
    + assert (cdf dist 0 < cdf dist (S j))
        by (apply (cdf_strict dist n Hpos); lia).
      change (cdf dist 0) with 0 in *. lra.
  - apply (cdf_strict dist n Hpos). lia.
  - destruct (Nat.eq_dec f n) as [->|Hne]; [lra|].
    assert (cdf dist f < cdf dist n) by (apply (cdf_strict dist n Hpos); lia).
    lra.
Qed.

Lemma faceChance_nonneg (dist : list Q) (adv : AdvantageState) (n f : nat) :
  cdf dist n == 1 ->
  (forall k, (1 <= k <= n)%nat -> 0 < nth k dist 0) ->
  (1 <= f <= n)%nat -> 0 <= faceChance dist adv f.
Proof.
  intros Hfull Hpos Hf.
  destruct (cdf_range dist n f Hfull Hpos Hf) as (H0 & H1 & H2).
  destruct adv; unfold faceChance; nra.
Qed.

Lemma faceStep_nonneg (input : AttackCheckInput) (bonus : ProbabilityDistribution)
  (dist : list Q) (acc : AttackOutcomeProbabilities) (face : nat) :
  subdist bonus ->
  0 <= probabilityOfFace dist face (advantageState input) ->
  nonnegOutcome acc -> nonnegOutcome (faceStep input bonus dist acc face).
Proof.
  intros Hb Hc (Hm & Hh & Hk). unfold faceStep, nonnegOutcome.
  destruct (setHas (autoMissFaces (rules input)) face); simpl;
    [repeat split; lra|].
  destruct (setHas (autoCritFaces (rules input)) face); simpl;
    [repeat split; lra|].
  destruct (probabilityAtLeast_range bonus
              (armorClass input - inject_Z (Z.of_nat face)) Hb) as [P0 P1].
  repeat split; nra.
Qed.

Lemma faceLoop_nonneg (input : AttackCheckInput) (bonus : ProbabilityDistribution)
  (dist : list Q) (faces : list nat) (acc : AttackOutcomeProbabilities) :
  subdist bonus ->
  (forall f, In f faces ->
             0 <= probabilityOfFace dist f (advantageState input)) ->
  nonnegOutcome acc ->
  nonnegOutcome (fold_left (faceStep input bonus dist) faces acc).
Proof.
  intros Hb. revert acc; induction faces as [|f faces IH]; intros acc Hc Ha;
    simpl.
  - exact Ha.
  - apply IH; [intros; apply Hc; right; assumption|].
    apply faceStep_nonneg; [exact Hb|apply Hc; left; reflexivity|exact Ha].
Qed.

Lemma foldResult_invariant {A B : Type} (P : A -> Prop)
  (body : A -> B -> Result A) (valid : B -> bool) (xs : list B) (acc r : A) :
  (forall a x a', valid x = true -> P a -> body a x = Ok a' -> P a') ->
  forallb valid xs = true -> P acc -> foldResult body xs acc = Ok r -> P r.
Proof.
  intros Hbody. revert acc; induction xs as [|x xs IH]; intros acc Hv Ha H;
    simpl in *.
  - injection H as <-. exact Ha.
  - apply andb_prop in Hv. destruct Hv as [Hx Hxs].
    apply bind_Ok in H. destruct H as (a' & H1 & H2).
    apply (IH a'); [exact Hxs| |exact H2].
    apply (Hbody acc x a'); assumption.
Qed.

Lemma diceTerm_subdist (d die : ProbabilityDistribution) (count : Q)
  (sign : TermSign) (r : ProbabilityDistribution) :
  subdist d -> normalized die -> isInteger count = true -> 0 <= count ->
  (dice <- repeatConvolve die count ;;
   Ok (convolve d
         (if signNegative sign
          then mapOutcomes dice (fun outcome => (- outcome)%Z)
          else dice))) = Ok r ->
  subdist r.
Proof.
  intros Hd Hdie Hi Hp H.
  destruct (repeatConvolve_subdist die count (normalized_subdist die Hdie) Hi Hp)
    as (dice & Hdice & Hs & _).
  rewrite Hdice in H. simpl in H. injection H as <-.
  apply convolve_subdist; [exact Hd|].
  destruct (signNegative sign); [apply mapOutcomes_subdist|]; exact Hs.
Qed.

Lemma attackBonusStep_subdist (d : ProbabilityDistribution)
  (c : ExpressionComponent) (d' : ProbabilityDistribution) :
  validComponent c = true -> subdist d -> attackBonusStep d c = Ok d' ->
  subdist d'.
Proof.
  destruct c as [count sides sign|value]; simpl; intros Hv Hd H.
  - apply validDice_spec in Hv. destruct Hv as (H1 & H2 & H3 & H4).
    destruct (uniformDie_normalized sides H1 H2) as (die & Hdie & Hn).
    rewrite Hdie in H. simpl in H.
    apply (diceTerm_subdist d die count sign d' Hd Hn H3 H4).
    destruct (repeatConvolve die count) as [dice|msg]; simpl in *; exact H.
  - injection H as <-. apply shift_subdist. exact Hd.
Qed.

Lemma buildAttackBonusDistribution_subdist (e : Expression)
  (bonus : ProbabilityDistribution) :
  validExpression e = true -> buildAttackBonusDistribution e = Ok bonus ->
  subdist bonus.
Proof.
  intros Hv H. unfold buildAttackBonusDistribution in H.
  apply (foldResult_invariant subdist attackBonusStep validComponent
           (asComponents e) (constant 0) bonus); try assumption.
  - intros a x a' Hx Ha Hs. apply (attackBonusStep_subdist a x a'); assumption.
  - apply normalized_subdist, constant_normalized.
Qed.

Lemma attackOutcome_nonneg (input : AttackCheckInput)
  (o : AttackOutcomeProbabilities) :
  validRules (rules input) = true ->
  validExpression (attackBonusExpression input) = true ->
  calculateAttackOutcomeProbabilities input = Ok o ->
  nonnegOutcome o /\ miss o + hit o + critical o == 1.
Proof.
  intros Hr He H.
  destruct (buildAttackBonusDistribution_ok _ He) as [bonus Hb].
  rewrite (calculateAttackOutcomeProbabilities_ok input bonus Hr Hb) in H.
  injection H as <-.
  destruct (validRules_spec _ Hr) as [Hi Hp].
  destruct (singleDie_full (dieSides (rules input))
              (isTrue (halflingLucky input)) Hi Hp) as [Hn Hfull].
  split.
  - apply faceLoop_nonneg.
    + apply (buildAttackBonusDistribution_subdist _ _ He Hb).
    + intros f Hf. apply in_seq in Hf.
      rewrite probabilityOfFace_spec by (rewrite singleDie_length; lia).
      apply (faceChance_nonneg _ _ (loopCount (dieSides (rules input))));
        [exact Hfull| |lia].
      intros k Hk. apply singleDie_positive; assumption.
    + unfold nonnegOutcome; simpl. repeat split; lra.
  - rewrite faceLoop_sum. simpl.
    rewrite faceChances_total by assumption. ring.
Qed.

Lemma buildRerollLowDieDistribution_normalized (sides : Q) (t : option Q) :
  isInteger sides = true -> 0 < sides ->
  exists d, buildRerollLowDieDistribution sides t = Ok d /\ normalized d.
Proof.
  intros Hi Hp. unfold buildRerollLowDieDistribution.
  destruct t as [x|]; [|apply uniformDie_normalized; assumption].
  destruct (Qle_bool x 0) eqn:Hx; [apply uniformDie_normalized; assumption|].
  apply Qle_bool_false in Hx.
  destruct (rerollThreshold sides x Hi Hp Hx) as (k & Hk & Hth & _).
  eexists. split; [reflexivity|]. unfold fromEntries.
  apply normalize_normalized.
  - apply Forall_forall. intros e He. apply in_map_iff in He.
    destruct He as [f [<- _]]. simpl.
    assert (Hk0 : 0 <= inject_Z (Z.of_nat k))
      by (change 0 with (inject_Z 0); rewrite <- Zle_Qle; lia).
    assert (Hinv : 0 < 1 / sides).
    { unfold Qdiv. rewrite Qmult_1_l. apply Qinv_lt_0_compat. exact Hp. }
    assert (Hq : 0 <= Math_min sides (inject_Z (Qfloor x)) / (sides * sides)).
    { rewrite Hth. apply Qle_shift_div_l; [nra|]. lra. }
    destruct (Qle_bool (inject_Z (Z.of_nat f))
                (Math_min sides (inject_Z (Qfloor x)))); lra.
  - rewrite weight_faces. apply (rerollLow_sum sides _ k); assumption.
Qed.

Lemma damageStep_subdist (m : Q) (t : option Q) (d : ProbabilityDistribution)
  (c : ExpressionComponent) (d' : ProbabilityDistribution) :
  isInteger m = true -> 0 < m ->
  validComponent c = true -> subdist d -> damageStep m t d c = Ok d' ->
  subdist d'.
Proof.
  intros Hmi Hmp. destruct c as [count sides sign|value]; simpl; intros Hv Hd H.
  - apply validDice_spec in Hv. destruct Hv as (H1 & H2 & H3 & H4).
    destruct (buildRerollLowDieDistribution_normalized sides t H1 H2)
      as (die & Hdie & Hn).
    rewrite Hdie in H. simpl in H.
    apply (diceTerm_subdist d die (count * m) sign d' Hd Hn).
    + apply isInteger_mult; assumption.
    + apply Qmult_le_0_compat; lra.
    + destruct (repeatConvolve die (count * m)) as [dice|msg]; simpl in *;
        exact H.
  - injection H as <-. apply shift_subdist. exact Hd.
Qed.

Lemma buildDamageDistribution_subdist (e : Expression) (m : Q) (t : option Q) :
  isInteger m = true -> 0 < m -> validExpression e = true ->
  exists d, buildDamageDistribution e m t = Ok d /\ subdist d.
Proof.
  intros Hi Hp He.
  destruct (buildDamageDistribution_ok e m t Hi Hp He) as [d Hd].
  exists d. split; [exact Hd|].
  unfold buildDamageDistribution in Hd. rewrite Hi in Hd.
  pose proof Hp as Hp'. apply Qle_bool_false in Hp'. rewrite Hp' in Hd.
  simpl in Hd.
  apply (foldResult_invariant subdist (damageStep m t) validComponent
           (asComponents e) (constant 0) d); try assumption.
  - intros a x a' Hx Ha Hs. apply (damageStep_subdist m t a x a'); assumption.
  - apply normalized_subdist, constant_normalized.
Qed.

(* ================================================================== *)
(** ** Advantage: the order of the three states *)

Lemma probabilityAtLeast_antitone (d : ProbabilityDistribution) (t1 t2 : Q) :
  nonnegEntries (entries d) -> t1 <= t2 ->
  probabilityAtLeast d t2 <= probabilityAtLeast d t1.
Proof.
  intros Hn Ht. unfold probabilityAtLeast. rewrite !sumProbabilities_weight.
  induction Hn as [|e es He Hn IH]; simpl.
  - lra.
  - cbv beta in He.
    destruct (Qle_bool t2 (inject_Z (outcome e))) eqn:E2.
    + apply Qle_bool_iff in E2.
      assert (E1 : Qle_bool t1 (inject_Z (outcome e)) = true)
        by (apply Qle_bool_iff; lra).
      rewrite E1, !weight_cons. lra.
    + destruct (Qle_bool t1 (inject_Z (outcome e))).
      * rewrite weight_cons. change (one (outcome e)) with 1. lra.
      * exact IH.
Qed.






(* ================================================================== *)
(** ** One attack: the combined damage distribution *)

Lemma applyDamageDiceRollMode_subdist (d : ProbabilityDistribution)
  (mode : DamageDiceRollMode) (c : JsNumber) :
  mode = RollNormal \/ integerCount c -> subdist d ->
  exists d', applyDamageDiceRollMode d mode (Some c) = Ok d' /\ subdist d'.
Proof.
  intros [->|(n & -> & Hi & Hp)] Hd; [exists d; auto|].
  unfold applyDamageDiceRollMode, atMost, atCount.
  destruct (orderStatistic_subdist d n Hi) as (dmax & dmin & E1 & E2 & S1 & S2);
    [lra|exact Hd|].
  destruct mode; [exists d; auto| |];
    (destruct (Qle_bool n 1); [exists d; auto|]);
    rewrite ?E1, ?E2; eexists; split; try reflexivity; assumption.
Qed.

Lemma applyDamageModifier_nonneg (rawDamage : Q) (m : DamageModifier) :
  (0 <= applyDamageModifier rawDamage m)%Z.
Proof.
  unfold applyDamageModifier. destruct m; try lia.
  rewrite Qfloor_half. apply Z.div_pos; lia.
Qed.

Lemma applyModifierToDistribution_damage (d : ProbabilityDistribution)
  (m : DamageModifier) :
  subdist d -> damageDist (applyModifierToDistribution d m).
Proof.
  intros Hd. unfold applyModifierToDistribution.
  split; [apply mapOutcomes_subdist; exact Hd|].
  apply nonnegOutcomes_map. unfold mapOutcomes. apply normalize_outcomes.
  rewrite map_map. simpl. apply Forall_forall. intros o Ho.
  apply in_map_iff in Ho. destruct Ho as [e [<- _]].
  apply applyDamageModifier_nonneg.
Qed.

Lemma combined_weight (w : Z -> Q) (p : AttackOutcomeProbabilities)
  (hitD critD : ProbabilityDistribution) :
  weight w
    (entries
       (fromEntries
          (mkEntry 0 (miss p)
           :: weightEntries (entries hitD) (hit p)
           ++ weightEntries (entries critD) (critical p))))
  == w 0%Z * miss p + hit p * weight w (entries hitD)
     + critical p * weight w (entries critD).
Proof.
  unfold fromEntries.
  rewrite normalize_weight, weight_cons, weight_app, !weightEntries_weight.
  simpl. ring.
Qed.

Lemma weightEntries_nonneg (es : list DistributionEntry) (c : Q) :
  0 <= c -> nonnegEntries es -> nonnegEntries (weightEntries es c).
Proof.
  intros Hc H. unfold nonnegEntries, weightEntries.
  apply Forall_forall. intros e He. apply in_map_iff in He.
  destruct He as [e' [<- He']]. simpl.
  unfold nonnegEntries in H. rewrite Forall_forall in H.
  apply Qmult_le_0_compat; auto.
Qed.

Lemma weightEntries_outcomes (es : list DistributionEntry) (c : Q) :
  List.map outcome (weightEntries es c) = List.map outcome es.
Proof. unfold weightEntries. rewrite map_map. reflexivity. Qed.

Lemma combined_damage (p : AttackOutcomeProbabilities)
  (hitD critD : ProbabilityDistribution) :
  nonnegOutcome p -> miss p + hit p + critical p == 1 ->
  damageDist hitD -> damageDist critD ->
  damageDist
    (fromEntries
       (mkEntry 0 (miss p)
        :: weightEntries (entries hitD) (hit p)
        ++ weightEntries (entries critD) (critical p))).
Proof.
  intros (Pm & Ph & Pc) Psum [(Ah & Nh & Th) Oh] [(Ac & Nc & Tc) Oc].
  unfold fromEntries. split.
  - apply normalize_subdist.
    + constructor; [exact Pm|]. apply Forall_app. split;
        apply weightEntries_nonneg; assumption.
    + pose proof (combined_weight one p hitD critD) as W.
      unfold fromEntries in W. rewrite normalize_weight in W. rewrite W.
      pose proof (weight_one_nonneg (entries hitD) Nh) as H0h.
      pose proof (weight_one_nonneg (entries critD) Nc) as H0c.
      unfold one at 1. nra.
  - apply nonnegOutcomes_map. apply normalize_outcomes. simpl.
    constructor; [lia|]. rewrite map_app, !weightEntries_outcomes.
    apply Forall_app. split; apply nonnegOutcomes_map; assumption.
Qed.

Lemma calculateAttackDamage_damage (request : AttackDamageRequest) :
  validRequest request = true ->
  exists r,
    calculateAttackDamage request = Ok r /\
    damageDist (totalDamageDistribution r) /\
    consistent (totalDamageDistribution r) /\
    expectation (totalDamageDistribution r) == expectedDamagePerAttack r.
Proof.
  intros Hv. destruct (calculateAttackDamage_ok request Hv) as [r Hr].
  exists r. split; [exact Hr|].
  destruct (calculateAttackDamage_inv request r Hr) as (Hp & Ht & Hh & Hc & He).
  assert (Hcons : consistent (totalDamageDistribution r))
    by (rewrite Ht; apply normalize_consistent).
  apply validRequest_spec in Hv. destruct Hv as (Vr & Va & Ve & Vi & Vp & Vc).
  apply validRollCount_spec in Vc.
  destruct (attackOutcome_nonneg _ _ Vr Va Hp) as [Pn Ps].
  assert (Hbranches : damageDist (hitDamageDistribution r) /\
                      damageDist (criticalDamageDistribution r)).
  { unfold calculateAttackDamage in Hr.
    apply bind_Ok in Hr. destruct Hr as (p & _ & Hr).
    destruct (buildDamageDistribution_subdist (expression (damage request)) 1
                (rerollLowThreshold (damage request)) eq_refl eq_refl Ve)
      as (rawHit & E1 & S1).
    simpl in Hr. rewrite E1 in Hr. simpl in Hr.
    destruct (applyDamageDiceRollMode_subdist rawHit
                (resolveDiceRollMode (diceRollMode (damage request))) _
                Vc S1) as (hitD & E2 & S2).
    rewrite E2 in Hr. simpl in Hr.
    destruct (buildDamageDistribution_subdist (expression (damage request))
                (criticalDiceMultiplier (damage request))
                (rerollLowThreshold (damage request)) Vi Vp Ve)
      as (rawCrit & E3 & S3).
    rewrite E3 in Hr. simpl in Hr.
    destruct (applyDamageDiceRollMode_subdist rawCrit
                (resolveDiceRollMode (diceRollMode (damage request))) _
                Vc S3) as (critD & E4 & S4).
    rewrite E4 in Hr. simpl in Hr. injection Hr as <-. simpl.
    split; apply applyModifierToDistribution_damage; assumption. }
  destruct Hbranches as [Dh Dc]. split; [|split; [exact Hcons|]].
  - rewrite Ht. apply combined_damage; assumption.
  - rewrite expectation_weight, Ht, combined_weight, He, Hh, Hc,
      !expectation_weight.
    simpl. ring.
Qed.

(* ================================================================== *)
(** ** What pruning leaves below the largest outcome *)

Lemma prune_headroom (ceiling : Q) (pos : Z) (vs : list Q) :
  Forall (fun x => 0 <= x) vs ->
  inject_Z pos + inject_Z (Z.of_nat (length vs)) <= ceiling + 1 ->
  0 <= ceiling * qsum (prune vs) - denseWeight inject_Z pos (prune vs) /\
  ceiling * qsum (prune vs) - denseWeight inject_Z pos (prune vs)
  <= ceiling * qsum vs - denseWeight inject_Z pos vs.
Proof.
  intros H. revert pos; induction H as [|v vs Hv H IH]; intros pos Hb.
  - cbn [prune List.map qsum denseWeight]. split; lra.
  - cbn [prune List.map qsum denseWeight length] in *. fold (prune vs).
    rewrite Nat2Z.inj_succ in Hb. unfold Z.succ in Hb.
    rewrite inject_Z_plus in Hb. change (inject_Z 1) with 1 in Hb.
    destruct (IH (pos + 1)%Z) as [I1 I2].
    { rewrite inject_Z_plus. change (inject_Z 1) with 1. lra. }
    pose proof (cells_nonneg (length vs)) as Hl.
    assert (0 <= (ceiling - inject_Z pos) * v)
      by (apply Qmult_le_0_compat; lra).
    destruct (nearZero v); split; lra.
Qed.

Lemma convolveDense_headroom (X B : DenseDistribution) (cx cb : Q) :
  subdense X -> subdense B -> denseWithin cx X -> denseWithin cb B ->
  denseWithin (cx + cb) (convolveDense X B) /\
  denseHeadroom (cx + cb) (convolveDense X B)
  <= denseHeadroom cx X + denseHeadroom cb B.
Proof.
  intros (LX & NX & SX) (LB & NB & SB) WX WB.
  destruct (convolveDense_weight inject_Z X B LB) as [Len W].
  unfold denseWithin, denseHeadroom, denseExpectation in *. split.
  - rewrite Len. change (offset (convolveDense X B)) with (offset X + offset B)%Z.
    assert (E : Z.of_nat (length (values X) + length (values B) - 1)
                = (Z.of_nat (length (values X)) + Z.of_nat (length (values B)) - 1)%Z)
      by lia.
    rewrite E. unfold Zminus. rewrite !inject_Z_plus.
    change (inject_Z (- (1))) with (- (1)). lra.
  - rewrite W, convWeight_expectation, convolveDense_sum by exact LB.
    destruct (prune_headroom cx (offset X) (values X) NX WX) as [A1 A2].
    destruct (prune_headroom cb (offset B) (values B) NB WB) as [B1 B2].
    pose proof (pruned_sum_range _ NX SX) as [A3 A4].
    pose proof (pruned_sum_range _ NB SB) as [B3 B4].
    set (x := qsum (prune (values X))) in *.
    set (y := qsum (prune (values B))) in *.
    set (ex := denseWeight inject_Z (offset X) (prune (values X))) in *.
    set (eb := denseWeight inject_Z (offset B) (prune (values B))) in *.
    assert (0 <= (cx * x - ex) * (1 - y)) by (apply Qmult_le_0_compat; lra).
    assert (0 <= (cb * y - eb) * (1 - x)) by (apply Qmult_le_0_compat; lra).
    lra.
Qed.

Lemma repeatDense_headroom (B : DenseDistribution) (k : nat)
  (X : DenseDistribution) (cb cx : Q) :
  subdense B -> denseWithin cb B -> subdense X -> denseWithin cx X ->
  denseWithin (cx + inject_Z (Z.of_nat k) * cb) (repeatDense B k X) /\
  denseHeadroom (cx + inject_Z (Z.of_nat k) * cb) (repeatDense B k X)
  <= denseHeadroom cx X + inject_Z (Z.of_nat k) * denseHeadroom cb B.
Proof.
  intros HB WB. revert X cx; induction k as [|k IH]; intros X cx HX WX;
    cbn [repeatDense].
  - change (inject_Z (Z.of_nat 0)) with 0.
    unfold denseWithin, denseHeadroom in *. split; lra.
  - destruct (convolveDense_headroom X B cx cb HX HB WX WB) as [Wc Hc].
    destruct (IH (convolveDense X B) (cx + cb)
                (convolveDense_subdense X B HX HB) Wc) as [Wr Hr].
    rewrite Nat2Z.inj_succ. unfold Z.succ. rewrite inject_Z_plus.
    change (inject_Z 1) with 1.
    unfold denseWithin, denseHeadroom in *. split; lra.
Qed.

Lemma denseEntries_upper (off idx : Z) (vs : list Q) :
  Forall (fun e => (outcome e < off + idx + Z.of_nat (length vs))%Z)
    (denseEntries off idx vs).
Proof.
  revert idx; induction vs as [|v vs IH]; intros idx; cbn [denseEntries length].
  - constructor.
  - specialize (IH (idx + 1)%Z).
    assert (IH' : Forall
                    (fun e => (outcome e < off + idx + Z.of_nat (S (length vs)))%Z)
                    (denseEntries off (idx + 1) vs)).
    { eapply Forall_impl; [|exact IH]. simpl. intros; lia. }
    destruct (nearZero v); [exact IH'|].
    constructor; [simpl; lia|exact IH'].
Qed.

Lemma fromDense_headroom (D : DenseDistribution) (ceiling : Q) :
  subdense D -> denseWithin ceiling D ->
  within ceiling (fromDense D) /\
  headroom ceiling (fromDense D) <= denseHeadroom ceiling D.
Proof.
  intros (L & N & S) W. split.
  - unfold within. rewrite fromDense_entries. apply Forall_forall.
    intros e He. apply in_map_iff in He. destruct He as [e' [<- He']].
    pose proof (denseEntries_upper (offset D) 0 (values D)) as U.
    rewrite Forall_forall in U. specialize (U e' He').
    unfold denseWithin in W. cbn [zeroPlus outcome].
    assert (Hz : inject_Z (outcome e') + 1
                 <= inject_Z (offset D) + inject_Z (Z.of_nat (length (values D)))).
    { change 1 with (inject_Z 1). rewrite <- !inject_Z_plus, <- Zle_Qle. lia. }
    lra.
  - unfold headroom, denseHeadroom, denseExpectation.
    rewrite !fromDense_weight, denseWeight_one.
    apply (prune_headroom ceiling (offset D) (values D) N W).
Qed.

Lemma last_In {A : Type} (x : A) (l : list A) : In (last (x :: l) x) (x :: l).
Proof.
  revert x; induction l as [|y l IH]; intros x.
  - left; reflexivity.
  - right. change (last (x :: y :: l) x) with (last (y :: l) x).
    rewrite (last_default y x y l). apply IH.
Qed.

Lemma toDense_headroom (d : ProbabilityDistribution) (ceiling : Q) :
  ascending (entries d) -> 0 <= ceiling -> within ceiling d ->
  denseWithin ceiling (toDense d) /\
  denseHeadroom ceiling (toDense d) == headroom ceiling d.
Proof.
  intros Ha Hc Hw. split.
  - unfold denseWithin. destruct (entries d) as [|first rest] eqn:E.
    + unfold toDense. rewrite E. cbn [offset values length].
      change (inject_Z 0) with 0. change (inject_Z (Z.of_nat 1)) with 1. lra.
    + assert (Ha' : ascending (entries d)) by (rewrite E; exact Ha).
      rewrite (toDense_length d first rest Ha' E).
      assert (Ho : offset (toDense d) = outcome first)
        by (unfold toDense; rewrite E; reflexivity).
      rewrite Ho.
      pose proof (ascending_last first rest Ha) as Hr.
      rewrite Forall_forall in Hr.
      assert (Hfl : (outcome first <= outcome (last (first :: rest) first))%Z).
      { apply (Hr (outcome first)). left; reflexivity. }
      unfold within in Hw. rewrite E, Forall_forall in Hw.
      specialize (Hw _ (last_In first rest)).
      rewrite Z2Nat.id by lia.
      rewrite <- inject_Z_plus.
      replace (outcome first
               + (outcome (last (first :: rest) first) - outcome first + 1))%Z
        with (outcome (last (first :: rest) first) + 1)%Z by lia.
      rewrite inject_Z_plus. change (inject_Z 1) with 1. lra.
  - unfold denseHeadroom, headroom, denseExpectation.
    destruct (toDense_weight one d Ha) as [_ W1].
    destruct (toDense_weight inject_Z d Ha) as [_ W2].
    rewrite denseWeight_one in W1. rewrite W1, W2. reflexivity.
Qed.

Lemma convolve_headroom (a b : ProbabilityDistribution) (ca cb : Q) :
  subdist a -> subdist b -> 0 <= ca -> 0 <= cb ->
  within ca a -> within cb b ->
  within (ca + cb) (convolve a b) /\
  headroom (ca + cb) (convolve a b) <= headroom ca a + headroom cb b.
Proof.
  intros Sa Sb Hca Hcb Wa Wb.
  destruct (toDense_headroom a ca (proj1 Sa) Hca Wa) as [Da Ea].
  destruct (toDense_headroom b cb (proj1 Sb) Hcb Wb) as [Db Eb].
  pose proof (toDense_subdense a Sa) as SA.
  pose proof (toDense_subdense b Sb) as SB.
  destruct (convolveDense_headroom _ _ ca cb SA SB Da Db) as [Wc Hc].
  destruct (fromDense_headroom _ (ca + cb)
              (convolveDense_subdense _ _ SA SB) Wc) as [Wf Hf].
  split; [exact Wf|]. unfold convolve. lra.
Qed.

Lemma repeatConvolve_headroom (base d : ProbabilityDistribution)
  (times ceiling : Q) :
  subdist base -> 0 <= ceiling -> within ceiling base ->
  isInteger times = true -> 1 <= times ->
  repeatConvolve base times = Ok d ->
  within (times * ceiling) d /\
  headroom (times * ceiling) d <= times * headroom ceiling base.
Proof.
  intros Sb Hc Wb Hi Hp Hd. rewrite (repeatConvolve_ok base times Hi) in Hd by lra.
  assert (E0 : Qeq_bool times 0 = false).
  { destruct (Qeq_bool times 0) eqn:E; [|reflexivity].
    apply Qeq_bool_iff in E. lra. }
  rewrite E0 in Hd. injection Hd as <-.
  destruct (toDense_headroom base ceiling (proj1 Sb) Hc Wb) as [Db Eb].
  pose proof (toDense_subdense base Sb) as SB.
  assert (W1 : denseWithin 0 (mkDense 0 [1])).
  { unfold denseWithin. cbn [offset values length].
    change (inject_Z 0) with 0. change (inject_Z (Z.of_nat 1)) with 1. lra. }
  destruct (repeatDense_headroom (toDense base) (loopCount times)
              (mkDense 0 [1]) ceiling 0 SB Db unit_subdense W1) as [Wr Hr].
  destruct (fromDense_headroom _ _
              (repeatDense_subdense _ (loopCount times) _ SB unit_subdense) Wr)
    as [Wf Hf].
  pose proof (loopCount_integer times Hi) as Hk.
  assert (Hk' : inject_Z (Z.of_nat (loopCount times)) == times) by (apply Hk; lra).
  assert (H1 : denseHeadroom 0 (mkDense 0 [1]) == 0) by reflexivity.
  set (R := fromDense (repeatDense (toDense base) (loopCount times) (mkDense 0 [1]))) in *.
  split.
  - unfold within in *. eapply Forall_impl; [|exact Wf]. cbv beta.
    intros e He. rewrite Hk' in He. lra.
  - rewrite H1, Eb in Hr. unfold headroom, denseHeadroom in *.
    set (w1 := weight one (entries R)) in *.
    set (w2 := weight inject_Z (entries R)) in *.
    set (dr := denseExpectation
                 (repeatDense (toDense base) (loopCount times) (mkDense 0 [1])))
      in *.
    set (qr := qsum (values
                 (repeatDense (toDense base) (loopCount times) (mkDense 0 [1]))))
      in *.
    rewrite Hk' in Hr, Hf. lra.
Qed.

Lemma topOutcome_within (d : ProbabilityDistribution) :
  damageDist d ->
  0 <= inject_Z (topOutcome d) /\ within (inject_Z (topOutcome d)) d.
Proof.
  intros [(Ha & _ & _) Ho]. unfold topOutcome, within, nonnegOutcomes in *.
  destruct (entries d) as [|first rest] eqn:E.
  - split; [change (inject_Z 0) with 0; lra|constructor].
  - pose proof (ascending_last first rest Ha) as Hr.
    rewrite Forall_forall in Hr. split.
    + inversion Ho as [|? ? H0 _]; subst.
      assert ((outcome first <= outcome (last (first :: rest) first))%Z).
      { apply (Hr (outcome first)). left; reflexivity. }
      change 0 with (inject_Z 0). rewrite <- Zle_Qle. lia.
    + apply Forall_forall. intros e He. rewrite <- Zle_Qle.
      apply (Hr (outcome e)). apply in_map. exact He.
Qed.

(* ================================================================== *)
(** ** The plan aggregator *)

Lemma normalizeStepRepeat_ok (step : AttackDamagePlanStep) :
  validRepeat (repeatOpt step) = true ->
  normalizeStepRepeat (repeatOpt step) = Ok (resolvedRepeat step) /\
  isInteger (resolvedRepeat step) = true /\ 1 <= resolvedRepeat step.
Proof.
  unfold validRepeat, normalizeStepRepeat, resolvedRepeat.
  destruct (repeatOpt step) as [[r| | |]|]; intros H; try discriminate H.
  - cbn [Number_isFinite negb Math_floor]. rewrite H. simpl.
    split; [reflexivity|].
    split; [apply isInteger_inject_Z|apply Qle_bool_iff; exact H].
  - split; [reflexivity|]. split; [reflexivity|lra].
Qed.

Lemma planLoop_spec (remaining : list AttackDamagePlanStep)
  (total : ProbabilityDistribution)
  (resolved : list AttackDamagePlanStepResult) :
  forallb validStep remaining = true -> damageDist total -> consistent total ->
  exists total' new,
    planLoop remaining total resolved = Ok (total', resolved ++ new) /\
    Forall2 stepResolved remaining new /\
    total' = fold_left convolve (List.map stepTotalDamageDistribution new) total /\
    damageDist total' /\ consistent total' /\
    expectation total'
    <= expectation total + qsum (List.map expectedDamageTotal new) /\
    (forall ceiling,
        0 <= ceiling -> within ceiling total ->
        0 <= planCeiling new /\
        within (ceiling + planCeiling new) total' /\
        headroom (ceiling + planCeiling new) total'
        <= headroom ceiling total
           + (planCeiling new - qsum (List.map expectedDamageTotal new))).
Proof.
  revert total resolved; induction remaining as [|step rest IH];
    intros total resolved Hv Ht Hc.
  - exists total, []. cbn [planLoop List.map fold_left qsum planCeiling].
    rewrite app_nil_r. split; [reflexivity|]. split; [constructor|].
    split; [reflexivity|]. split; [exact Ht|]. split; [exact Hc|].
    split; [lra|]. intros ceiling H0 Hw. split; [lra|].
    unfold within, headroom in *. split.
    + eapply Forall_impl; [|exact Hw]. cbv beta. intros; lra.
    + lra.
  - simpl in Hv. apply andb_prop in Hv. destruct Hv as [Hs Hrest].
    unfold validStep in Hs. apply andb_prop in Hs. destruct Hs as [Hreq Hrep].
    destruct (normalizeStepRepeat_ok step Hrep) as (E1 & Ri & Rp).
    destruct (calculateAttackDamage_damage (request step) Hreq)
      as (res & E2 & Dres & Cres & Eres).
    destruct (repeatConvolve_damage (totalDamageDistribution res)
                (resolvedRepeat step) Dres Ri Rp)
      as (rep & E3 & Drep & Crep & Erep).
    destruct (convolve_damage total rep Ht Drep) as (Dconv & Cconv & Econv).
    set (sr := mkStepResult (request step) (resolvedRepeat step) res rep
                 (expectedDamagePerAttack res * resolvedRepeat step)).
    destruct (IH (convolve total rep) (resolved ++ [sr]) Hrest Dconv Cconv)
      as (total' & new & E4 & F & Efold & Dtotal & Ctotal & Etotal & Hroom).
    exists total', (sr :: new). simpl. rewrite E1. simpl. rewrite E2. simpl.
    rewrite E3. simpl. fold sr. rewrite E4, <- app_assoc. simpl.
    split; [reflexivity|]. split.
    + constructor; [|exact F]. unfold stepResolved. simpl. auto.
    + split; [exact Efold|]. split; [exact Dtotal|]. split; [exact Ctotal|].
      split; [rewrite Eres in Erep; nra|].
      intros ceiling H0 Hw.
      destruct (topOutcome_within (totalDamageDistribution res) Dres)
        as [Htop Wres].
      set (top := inject_Z (topOutcome (totalDamageDistribution res))) in *.
      destruct (repeatConvolve_headroom (totalDamageDistribution res) rep
                  (resolvedRepeat step) top (proj1 Dres) Htop Wres Ri Rp E3)
        as [Wrep Hrep'].
      assert (Hrt : 0 <= resolvedRepeat step * top)
        by (apply Qmult_le_0_compat; lra).
      destruct (convolve_headroom total rep ceiling
                  (resolvedRepeat step * top) (proj1 Ht) (proj1 Drep)
                  H0 Hrt Hw Wrep) as [Wconv Hconv].
      destruct (Hroom (ceiling + resolvedRepeat step * top)) as (P0 & Wt & Hh);
        [lra|exact Wconv|].
      unfold planCeiling in *. cbn [List.map qsum stepRepeat stepResult sr].
      fold top.
      set (pc := qsum
                   (List.map
                      (fun sr0 =>
                         stepRepeat sr0
                         * inject_Z
                             (topOutcome (totalDamageDistribution (stepResult sr0))))
                      new)) in *.
      split; [lra|]. split.
      * unfold within in *. eapply Forall_impl; [|exact Wt]. cbv beta.
        intros; lra.
      * destruct Dres as [(_ & Nres & Tres) _].
        rewrite expectation_weight in Eres.
        unfold headroom in *.
        set (w1 := weight one (entries total')) in *.
        set (w2 := weight inject_Z (entries total')) in *.
        set (s := weight one (entries (totalDamageDistribution res))) in *.
        set (r := resolvedRepeat step) in *.
        rewrite Eres in Hrep'.
        assert (r * (top * s) <= r * top).
        { assert (0 <= r * top * (1 - s)) by (apply Qmult_le_0_compat; lra).
          lra. }
        lra.
Qed.

(** A plan whose requests are valid stops at the first repeat count that
    is not finite. *)
Lemma planLoop_nonfinite (remaining : list AttackDamagePlanStep)
  (total : ProbabilityDistribution)
  (resolved : list AttackDamagePlanStepResult) :
  Forall
    (fun step =>
       validRequest (request step) = true /\
       (validRepeat (repeatOpt step) = true \/
        normalizeStepRepeat (repeatOpt step)
        = Throw "repeat must be a finite number"))
    remaining ->
  forallb validStep remaining = false ->
  damageDist total -> consistent total ->
  planLoop remaining total resolved = Throw "repeat must be a finite number".
Proof.
  revert total resolved; induction remaining as [|step rest IH];
    intros total resolved Hall Hv Ht Hc.
  - discriminate Hv.
  - inversion Hall as [|? ? [Hreq Hrep] Hall']; subst.
    cbn [planLoop]. destruct Hrep as [Hrep|Hrep].
    + cbn [forallb] in Hv. unfold validStep at 1 in Hv.
      rewrite Hreq, Hrep in Hv. cbn [andb] in Hv.
      destruct (normalizeStepRepeat_ok step Hrep) as (E1 & Ri & Rp).
      destruct (calculateAttackDamage_damage (request step) Hreq)
        as (res & E2 & Dres & Cres & Eres).
      destruct (repeatConvolve_damage (totalDamageDistribution res)
                  (resolvedRepeat step) Dres Ri Rp)
        as (rep & E3 & Drep & Crep & Erep).
      destruct (convolve_damage total rep Ht Drep) as (Dconv & Cconv & Econv).
      rewrite E1. cbn [bind]. rewrite E2. cbn [bind]. rewrite E3. cbn [bind].
      apply IH; assumption.
    + rewrite Hrep. reflexivity.
Qed.

(** C5 (as amended).  For a plan whose steps are valid, the call returns;
    each resolved step carries its request, its repeat count (1 when
    absent, the floor of the given value otherwise), the single-attack
    result, the [repeat]-fold [repeatConvolve] of that result's total
    distribution, and [expectedDamageTotal = expectedDamagePerAttack *
    repeat]; the plan's distribution is the convolution, in step order,
    of these repeated distributions, and [expectedDamagePerPlan] is its
    expectation, which is non-negative.  That expectation is the sum of
    the steps' [expectedDamageTotal] only up to the probability mass the
    convolutions drop: the two differ by at most [planCeiling], the sum
    over the steps of the repeat count times the largest outcome of one
    attack, times what the total probability of the plan's distribution
    is short of 1; they are equal when that total is 1. *)
Theorem plan_expectation (plan : list AttackDamagePlanStep) :
  forallb validStep plan = true ->
  exists r,
    calculateAttackDamagePlan plan = Ok r /\
    Forall2 stepResolved plan (steps r) /\
    planTotalDamageDistribution r
    = fold_left convolve (List.map stepTotalDamageDistribution (steps r))
        (constant 0) /\
    expectedDamagePerPlan r = expectation (planTotalDamageDistribution r) /\
    0 <= expectedDamagePerPlan r /\
    Qabs (qsum (List.map expectedDamageTotal (steps r)) - expectedDamagePerPlan r)
    <= planCeiling (steps r)
       * (1 - totalProbability (planTotalDamageDistribution r)) /\
    (totalProbability (planTotalDamageDistribution r) == 1 ->
     expectedDamagePerPlan r == qsum (List.map expectedDamageTotal (steps r))).
Proof.
  intros Hv.
  assert (D0 : damageDist (constant 0)).
  { split; [apply normalized_subdist, constant_normalized|].
    repeat constructor. simpl. lia. }
  assert (E0 : expectation (constant 0) == 0) by reflexivity.
  destruct (planLoop_spec plan (constant 0) [] Hv D0
              (proj1 (constant_normalized 0)))
    as (total' & new & E & F & Efold & Dtotal & Ctotal & Etotal & Hroom).
  unfold calculateAttackDamagePlan. rewrite E. cbn [bind app].
  eexists. split; [reflexivity|].
  cbn [steps planTotalDamageDistribution expectedDamagePerPlan].
  split; [exact F|]. split; [exact Efold|]. split; [reflexivity|].
  split; [apply (damageDist_dense total' Dtotal)|].
  assert (W0 : within 0 (constant 0)).
  { unfold within. change (entries (constant 0)) with [mkEntry 0 (0 + 1)].
    constructor; [cbn [outcome]; change (inject_Z 0) with 0; lra|constructor]. }
  destruct (Hroom 0) as (P0 & _ & Hh); [lra|exact W0|].
  assert (H0 : headroom 0 (constant 0) == 0) by reflexivity.
  rewrite H0 in Hh. unfold headroom in Hh. rewrite <- expectation_weight in Hh.
  destruct Ctotal as [_ Ctotal]. rewrite <- Ctotal in Hh.
  destruct Dtotal as [(_ & _ & Tle) _]. rewrite <- Ctotal in Tle.
  rewrite E0 in Etotal.
  set (sum := qsum (List.map expectedDamageTotal new)) in *.
  set (pc := planCeiling new) in *.
  set (t := totalProbability total') in *.
  set (e := expectation total') in *.
  assert (Hb : sum - e <= pc * (1 - t)) by lra.
  split.
  - apply (proj2 (Qabs_Qle_condition _ _)). split; [|exact Hb].
    assert (0 <= pc * (1 - t)) by (apply Qmult_le_0_compat; lra). lra.
  - intros Ht. rewrite Ht in Hb. lra.
Qed.

Lemma plan_expectation_witness :
  let single :=
    mkRequest
      (mkAttack 0 (Components []) AdvNormal (mkRules 2 [] []) None)
      (mkDamage (Components [Dice 1 2 SignPlus]) 1 ModNormal None None None) in
  let plan := [mkStep single (Some (Finite 3)); mkStep single None] in
  forallb validStep plan = true /\
  exists r,
    calculateAttackDamagePlan plan = Ok r /\
    Forall2 stepResolved plan (steps r) /\
    planCeiling (steps r) == 8 /\
    totalProbability (planTotalDamageDistribution r) == 1 /\
    expectedDamagePerPlan r == qsum (List.map expectedDamageTotal (steps r)).
Proof.
  intros single plan. split; [reflexivity|].
  destruct (plan_expectation plan eq_refl)
    as (r & H1 & H2 & _ & _ & _ & _ & H7).
  exists r. split; [exact H1|]. split; [exact H2|].
  assert (Hx : planCeiling (steps r) == 8 /\
               totalProbability (planTotalDamageDistribution r) == 1).
  { match eval vm_compute in (calculateAttackDamagePlan plan) with
    | Ok ?r0 =>
        assert (Hr : Ok r = Ok r0) by (rewrite <- H1; vm_compute; reflexivity)
    end.
    injection Hr as ->. split; vm_compute; reflexivity. }
  destruct Hx as [Hc Ht]. split; [exact Hc|]. split; [exact Ht|exact (H7 Ht)].
Defined.

Lemma forallb_repeat {A : Type} (f : A -> bool) (x : A) (n : nat) :
  f x = true -> forallb f (repeat x n) = true.
Proof.
  intros H. induction n as [|n IH]; cbn [repeat forallb].
  - reflexivity.
  - rewrite H, IH. reflexivity.
Qed.

(** A plan of [n] copies of a step without repeat count. *)
Lemma planLoop_repeat (step : AttackDamagePlanStep) (res : AttackDamageResult)
  (rep : ProbabilityDistribution) (n : nat) (total : ProbabilityDistribution)
  (resolved : list AttackDamagePlanStepResult) :
  repeatOpt step = None ->
  calculateAttackDamage (request step) = Ok res ->
  repeatConvolve (totalDamageDistribution res) 1 = Ok rep ->
  planLoop (repeat step n) total resolved
  = Ok (Nat.iter n (fun sum => convolve sum rep) total,
        resolved
        ++ repeat
             (mkStepResult (request step) 1 res rep
                (expectedDamagePerAttack res * 1))
             n).
Proof.
  intros E1 E2 E3. revert total resolved.
  induction n as [|n IH]; intros total resolved.
  - cbn [repeat planLoop Nat.iter nat_rect]. rewrite app_nil_r. reflexivity.
  - cbn [repeat planLoop]. rewrite E1. cbn [normalizeStepRepeat bind].
    rewrite E2. cbn [bind]. rewrite E3. cbn [bind].
    rewrite IH, <- app_assoc, Nat.iter_succ_r. reflexivity.
Qed.

(** C5 fails as stated: the plan expectation is not always the sum of the
    steps' expected totals, and not to the 10 digits its test compares.
    A plan of [2^17] steps, each one attack that always hits for damage
    [1d2] kept highest of 50 rolls: outcome 1 has probability [2^-50] in
    every step's distribution and is dropped by the dense convolutions,
    so the plan's distribution has the single outcome [2^18] with
    probability [(1 - 2^-50)^(2^17)].  The plan expects more than 1e-5
    less than the sum of the steps' expected totals, which is more than
    one part in [10^10] of that sum. *)
Lemma plan_expectation_drifts :
  let step :=
    mkStep
      (mkRequest
         (mkAttack 0 (Components []) AdvNormal (mkRules 2 [] []) None)
         (mkDamage (Components [Dice 1 2 SignPlus]) 1 ModNormal
            (Some RollAdvantage) (Some (Finite 50)) None))
      None in
  let plan := repeat step (2 ^ 17) in
  forallb validStep plan = true /\
  exists r,
    calculateAttackDamagePlan plan = Ok r /\
    expectedDamagePerPlan r + (1 # 100000)
    < qsum (List.map expectedDamageTotal (steps r)) /\
    expectedDamagePerPlan r
    < (1 - (1 # 10000000000)) * qsum (List.map expectedDamageTotal (steps r)).
Proof.
  intros step plan. split; [apply forallb_repeat; reflexivity|].
  destruct (calculateAttackDamage (request step)) as [res|msg] eqn:E2;
    [|vm_compute in E2; discriminate E2].
  destruct (repeatConvolve (totalDamageDistribution res) 1) as [rep|msg] eqn:E3;
    [|vm_compute in E2; injection E2 as <-; vm_compute in E3; discriminate E3].
  assert (F : exists q,
             entries rep = [mkEntry 2 q] /\ q == 1 - (1 # 1125899906842624) /\
             expectedDamagePerAttack res * 1 == 2 - (1 # 1125899906842624)).
  { clear plan. vm_compute in E2. injection E2 as <-.
    vm_compute in E3. injection E3 as <-.
    eexists. split; [reflexivity|]. split; vm_compute; reflexivity. }
  destruct F as (q & Erep & Hq & Hedt).
  unfold calculateAttackDamagePlan, plan.
  rewrite (planLoop_repeat step res rep (2 ^ 17) (constant 0) [] eq_refl E2 E3).
  cbn [bind app]. eexists. split; [reflexivity|].
  cbn [expectedDamagePerPlan steps].
  remember (2 ^ 17)%nat as n eqn:En.
  assert (Hn : inject_Z (Z.of_nat n) == 131072).
  { subst n. rewrite Nat2Z.inj_pow. reflexivity. }
  clear En plan.
  rewrite map_repeat, qsum_repeat. cbn [expectedDamageTotal].
  pose proof (Qpower_bernoulli q (Z.of_nat n)) as B.
  pose proof (Qpower_decay (1 - q) (Z.of_nat n)) as D.
  assert (Hqq : 1 - (1 - q) == q) by ring.
  rewrite Hqq in D. rewrite Hn in B, D.
  destruct (iterate_convolve_single rep 2 q n Erep) as (p & Ep & Hp).
  - lra.
  - lra.
  - eapply Qle_trans; [|apply B; [lra|lra|lia]]. lra.
  - rewrite expectation_weight, Ep. unfold weight.
    cbn [List.map qsum outcome probability].
    rewrite inject_Z_mult, Hn, Hp, Hedt.
    assert (Dn : q ^ Z.of_nat n * (1 + 131072 * (1 - q)) <= 1)
      by (apply D; [lra|lra|lia]).
    set (x := q ^ Z.of_nat n) in *. change (inject_Z 2) with 2.
    split; nra.
Qed.

(* ================================================================== *)
(** ** Damage modifiers and saving throws *)

(** C8. [applyDamageModifier] floors the raw damage to the non-negative
    integer [s = max(0, floor(rawDamage))] and returns [0] for immune,
    [floor(s/2)] for resistant, [s * 2] for vulnerable and [s] for normal;
    on raw damage 5 this gives 2, 10 and 0 for resistant, vulnerable and
    immune. *)
Theorem applyDamageModifier_spec (rawDamage : Q) :
  let s := Z.max 0 (Qfloor rawDamage) in
  (0 <= s)%Z /\
  (s = 0%Z \/ (inject_Z s <= rawDamage /\ rawDamage < inject_Z s + 1)) /\
  applyDamageModifier rawDamage Immune = 0%Z /\
  applyDamageModifier rawDamage Resistant = (s / 2)%Z /\
  applyDamageModifier rawDamage Vulnerable = (s * 2)%Z /\
  applyDamageModifier rawDamage ModNormal = s /\
  applyDamageModifier 5 Resistant = 2%Z /\
  applyDamageModifier 5 Vulnerable = 10%Z /\
  applyDamageModifier 5 Immune = 0%Z.
Proof.
  intros s. split; [subst s; lia|]. split.
  - subst s. destruct (Z.max_spec 0 (Qfloor rawDamage)) as [[_ ->]|[_ ->]].
    + right. split; [apply Qfloor_le|].
      generalize (Qlt_floor rawDamage). rewrite inject_Z_plus. auto.
    + left; reflexivity.
  - repeat split; try reflexivity.
    unfold applyDamageModifier. fold s. apply Qfloor_half.
Qed.

(** C9. The save success probability is the net threshold's ceiling put
    through [(21 - c) / 20] and clamped to [[0, 1]]; the expected damage is
    the scalar average of the two given means, weighted by the fail and
    success probabilities.  No distribution is involved: the result is a
    function of four rationals. *)
Theorem calculateSave_spec (input : SaveCheckInput)
  (failDamageMean successDamageMean : Q) :
  let v := (21 - inject_Z (Qceiling (difficultyClass input - saveBonus input))) / 20 in
  let p := calculateSaveSuccessProbability input in
  let r := calculateSaveExpectedDamage input failDamageMean successDamageMean in
  p = clamp01 v /\
  p == (if Qlt_le_dec v 0 then 0 else if Qlt_le_dec 1 v then 1 else v) /\
  0 <= p <= 1 /\
  saveSuccessProbability r = p /\
  saveFailProbability r = 1 - p /\
  expectedDamage r = (1 - p) * failDamageMean + p * successDamageMean /\
  calculateSaveSuccessProbability (mkSave 16 3) == 2 # 5 /\
  expectedDamage (calculateSaveExpectedDamage (mkSave 16 3) 20 10) == 16.
Proof.
  intros v p r. split; [reflexivity|]. split; [apply clamp01_cases|].
  split; [apply clamp01_range|].
  repeat split; reflexivity.
Qed.

(* ================================================================== *)
(** * Further properties of the distribution engine *)

(** ** Merging by [normalize] *)

Lemma map_get_In (m : list (Z * Q)) (o : Z) (p : Q) :
  NoDup (List.map fst m) -> (map_get m o = Some p <-> In (o, p) m).
Proof.
  induction m as [|[k v] m IH]; simpl; intros Hnd.
  - split; [discriminate|tauto].
  - inversion Hnd as [|? ? Hfresh Hnd']; subst.
    destruct (Z.eqb_spec k o) as [->|Hne].
    + split.
      * intros [= ->]. left; reflexivity.
      * intros [[= ->]|Hin]; [reflexivity|].
        exfalso. apply Hfresh. apply (in_map fst) in Hin. exact Hin.
    + rewrite (IH Hnd'). split.
      * intros Hin; right; exact Hin.
      * intros [[= -> ->]|Hin]; [congruence|exact Hin].
Qed.

Lemma massAt_normalize (o : Z) (es : list DistributionEntry) :
  massAt o (entries (normalize es)) == massAt o es.
Proof. apply normalize_weight. Qed.

Lemma zeroPlus_same (es : list DistributionEntry) :
  Forall2 (fun e e' => outcome e = outcome e' /\ probability e == probability e')
    (List.map zeroPlus es) es.
Proof.
  induction es as [|e es IH]; simpl; constructor; auto.
  split; [reflexivity|]. simpl. ring.
Qed.

(** X1.  [fromEntries] merges the entries of equal outcome: the result
    lists every outcome once, in ascending order, with the sum of the
    probabilities given for it; its [map] holds the same pairs as its
    [entries], its [totalProbability] is the sum of all the probabilities
    given, and building again from its own entries changes nothing. *)
Theorem fromEntries_merges (es : list DistributionEntry) :
  let d := fromEntries es in
  ascending (entries d) /\
  (forall o, massAt o (entries d) == massAt o es) /\
  (forall o p, map_get (distMap d) o = Some p <-> In (mkEntry o p) (entries d)) /\
  totalProbability d == qsum (List.map probability es) /\
  sameDistribution (fromEntries (entries d)) d.
Proof.
  cbv zeta. unfold fromEntries. repeat split.
  - apply normalize_ascending.
  - intros o. apply massAt_normalize.
  - intros H. unfold normalize in *; simpl in *.
    apply (Permutation_in _ (Permutation_sym (sortByOutcome_perm _))).
    apply in_map_iff. exists (o, p). split; [reflexivity|].
    apply map_get_In; [|exact H].
    apply accumulate_from_NoDup. constructor.
  - intros H. unfold normalize in *; simpl in *.
    apply (Permutation_in _ (sortByOutcome_perm _)) in H.
    apply in_map_iff in H. destruct H as [[k v] [Heq Hin]].
    simpl in Heq. injection Heq as -> ->.
    apply map_get_In; [|exact Hin].
    apply accumulate_from_NoDup. constructor.
  - rewrite normalize_total. apply weight_one_sum.
  - unfold sameDistribution.
    rewrite (normalize_entries _ (normalize_ascending es)).
    apply zeroPlus_same.
Qed.

(** ** Thresholds *)

Lemma weight_filter (w : Z -> Q) (f : DistributionEntry -> bool)
  (es : list DistributionEntry) :
  weight w (filter f es)
  == weight (fun _ => 1) (List.map (fun e => mkEntry (outcome e)
        (if f e then w (outcome e) * probability e else 0)) es).
Proof.
  induction es as [|e es IH]; simpl.
  - reflexivity.
  - destruct (f e); rewrite ?weight_cons, IH; simpl; ring.
Qed.

Lemma weight_filter_split (w : Z -> Q) (f : DistributionEntry -> bool)
  (es : list DistributionEntry) :
  weight w (filter f es) + weight w (filter (fun e => negb (f e)) es)
  == weight w es.
Proof.
  induction es as [|e es IH]; simpl.
  - reflexivity.
  - destruct (f e); simpl; rewrite ?weight_cons, <- IH; ring.
Qed.

Lemma filter_ext_in {A : Type} (f g : A -> bool) (l : list A) :
  (forall x, In x l -> f x = g x) -> filter f l = filter g l.
Proof.
  induction l as [|x l IH]; intros H; simpl.
  - reflexivity.
  - rewrite (H x (or_introl eq_refl)), IH; [reflexivity|].
    intros y Hy. apply H. right; exact Hy.
Qed.

Lemma Qle_bool_succ (a b : Z) :
  Qle_bool (inject_Z a + 1) (inject_Z b) = negb (Qle_bool (inject_Z b) (inject_Z a)).
Proof.
  destruct (Qle_bool (inject_Z b) (inject_Z a)) eqn:Hba; simpl.
  - apply Qle_bool_iff in Hba. rewrite <- Zle_Qle in Hba.
    apply Qle_bool_false. change 1 with (inject_Z 1).
    rewrite <- inject_Z_plus, <- Zlt_Qlt. lia.
  - apply Qle_bool_false in Hba. rewrite <- Zlt_Qlt in Hba.
    apply Qle_bool_iff. change 1 with (inject_Z 1).
    rewrite <- inject_Z_plus, <- Zle_Qle. lia.
Qed.

(** X2.  For an integer threshold [t], the chance of an outcome of at
    least [t + 1] and the chance of an outcome of at most [t] add up to
    the total probability of the distribution. *)
Theorem probabilityAtLeast_complement (d : ProbabilityDistribution) (t : Z) :
  consistent d ->
  probabilityAtLeast d (inject_Z t + 1) + probabilityAtMost d (inject_Z t)
  == totalProbability d.
Proof.
  intros [_ Htotal]. unfold probabilityAtLeast, probabilityAtMost.
  rewrite !sumProbabilities_weight, Htotal.
  rewrite <- (weight_filter_split one
                (fun e => Qle_bool (inject_Z (outcome e)) (inject_Z t))
                (entries d)).
  rewrite Qplus_comm. apply Qplus_comp; [reflexivity|].
  rewrite (filter_ext_in
             (fun e => Qle_bool (inject_Z t + 1) (inject_Z (outcome e)))
             (fun e => negb (Qle_bool (inject_Z (outcome e)) (inject_Z t)))).
  - reflexivity.
  - intros e _. apply Qle_bool_succ.
Qed.

Lemma probabilityAtLeast_complement_witness :
  consistent (constant 3) /\
  probabilityAtLeast (constant 3) (inject_Z 2 + 1)
  + probabilityAtMost (constant 3) (inject_Z 2)
  == totalProbability (constant 3).
Proof.
  assert (H : consistent (constant 3)) by apply (constant_normalized 3).
  split; [exact H|]. apply (probabilityAtLeast_complement (constant 3) 2 H).
Defined.

(** ** Order statistics: the highest and the lowest of [count] rolls *)

Lemma Math_pow_compat (x y n : Q) : x == y -> Math_pow x n == Math_pow y n.
Proof. intros H. unfold Math_pow. rewrite H. reflexivity. Qed.

Lemma Math_pow_one_r (x n : Q) : n == 1 -> Math_pow x n == x.
Proof.
  intros H. unfold Math_pow, toInt. rewrite (Qfloor_comp _ _ H).
  change (Qfloor 1) with 1%Z. apply Qpower_1_r.
Qed.

Lemma Math_pow_zero (n : Q) : (1 <= toInt n)%Z -> Math_pow 0 n == 0.
Proof. intros H. unfold Math_pow. apply Qpower_0. lia. Qed.

Lemma Math_pow_le_self (c n : Q) :
  0 <= c -> c <= 1 -> (1 <= toInt n)%Z -> Math_pow c n <= c.
Proof.
  intros H0 H1 Hn. unfold Math_pow.
  replace (toInt n) with (1 + (toInt n - 1))%Z by lia.
  rewrite Qpower_plus' by lia. rewrite Qpower_1_r.
  assert (Hp : c ^ (toInt n - 1) <= 1).
  { rewrite <- (Qpower_1 (toInt n - 1)). apply Qpower_base_le; [assumption..|lia]. }
  assert (Hq : 0 <= c ^ (toInt n - 1)) by (apply Qpower_0_le; assumption).
  nra.
Qed.

(** The weight of the entries a predicate on the outcome keeps. *)
Lemma filter_weight_indicator (g : Z -> bool) (es : list DistributionEntry) :
  weight one (filter (fun e => g (outcome e)) es)
  == weight (fun o => if g o then 1 else 0) es.
Proof.
  induction es as [|e es IH]; simpl.
  - reflexivity.
  - destruct (g (outcome e)) eqn:Hg; rewrite ?weight_cons, IH, ?Hg.
    + unfold one at 1. reflexivity.
    + ring.
Qed.

Lemma filter_normalize (g : Z -> bool) (es : list DistributionEntry) :
  sumProbabilities (filter (fun e => g (outcome e)) (entries (normalize es)))
  == weight one (filter (fun e => g (outcome e)) es).
Proof.
  rewrite sumProbabilities_weight, !filter_weight_indicator.
  apply normalize_weight.
Qed.

Lemma filter_none {A : Type} (f : A -> bool) (l : list A) :
  (forall x, In x l -> f x = false) -> filter f l = [].
Proof.
  induction l as [|x l IH]; intros H; simpl.
  - reflexivity.
  - rewrite (H x (or_introl eq_refl)). apply IH.
    intros y Hy; apply H; right; exact Hy.
Qed.

Lemma filter_all {A : Type} (f : A -> bool) (l : list A) :
  (forall x, In x l -> f x = true) -> filter f l = l.
Proof.
  induction l as [|x l IH]; intros H; simpl.
  - reflexivity.
  - rewrite (H x (or_introl eq_refl)). f_equal. apply IH.
    intros y Hy; apply H; right; exact Hy.
Qed.

Lemma ascending_tail (e : DistributionEntry) (es : list DistributionEntry) :
  ascending (e :: es) ->
  ascending es /\ forall x, In x es -> (outcome e < outcome x)%Z.
Proof.
  unfold ascending; simpl. intros H. inversion H as [|? ? Hs Hall]; subst.
  split; [exact Hs|]. intros x Hx. rewrite Forall_forall in Hall.
  apply Hall. apply in_map. exact Hx.
Qed.

Lemma maxLoop_in (es : list DistributionEntry) (count c c' : Q) (x : DistributionEntry) :
  In x (maxLoop es count c c') -> In (outcome x) (List.map outcome es).
Proof.
  intros H. rewrite <- (maxLoop_outcomes es count c c'). apply in_map. exact H.
Qed.

Lemma minLoop_in (es : list DistributionEntry) (count c c' : Q) (x : DistributionEntry) :
  In x (minLoop es count c c') -> In (outcome x) (List.map outcome es).
Proof.
  intros H. rewrite <- (minLoop_outcomes es count c c'). apply in_map. exact H.
Qed.

Lemma atMost_false_after (t : Q) (e : DistributionEntry) (o : Z) :
  Qle_bool (inject_Z (outcome e)) t = false -> (outcome e < o)%Z ->
  Qle_bool (inject_Z o) t = false.
Proof.
  intros H Hlt. apply Qle_bool_false in H. apply Qle_bool_false.
  rewrite Zlt_Qlt in Hlt. lra.
Qed.

Lemma atLeast_true_after (t : Q) (e : DistributionEntry) (o : Z) :
  Qle_bool t (inject_Z (outcome e)) = true -> (outcome e < o)%Z ->
  Qle_bool t (inject_Z o) = true.
Proof.
  intros H Hlt. apply Qle_bool_iff in H. apply Qle_bool_iff.
  rewrite Zlt_Qlt in Hlt. lra.
Qed.

(** The entries of [maxLoop] up to a threshold telescope. *)
Lemma maxLoop_atMost (t : Q) (es : list DistributionEntry) (count c : Q) :
  ascending es ->
  weight one
    (filter (fun e => Qle_bool (inject_Z (outcome e)) t) (maxLoop es count c c))
  == Math_pow
       (c + weight one (filter (fun e => Qle_bool (inject_Z (outcome e)) t) es))
       count
     - Math_pow c count.
Proof.
  revert c. induction es as [|e es IH]; intros c Hasc.
  - simpl. change (weight one []) with 0.
    rewrite (Math_pow_compat (c + 0) c) by ring. ring.
  - destruct (ascending_tail _ _ Hasc) as [Hasc' Hlt].
    cbn [maxLoop filter outcome].
    destruct (Qle_bool (inject_Z (outcome e)) t) eqn:He.
    + rewrite !weight_cons, IH by exact Hasc'. cbn [outcome probability].
      unfold one at 1 3.
      rewrite (Math_pow_compat
                 (c + (1 * probability e
                       + weight one
                           (filter (fun e0 => Qle_bool (inject_Z (outcome e0)) t) es)))
                 (c + probability e
                  + weight one
                      (filter (fun e0 => Qle_bool (inject_Z (outcome e0)) t) es)))
        by ring.
      ring.
    + rewrite !filter_none.
      * change (weight one []) with 0.
        rewrite (Math_pow_compat (c + 0) c) by ring. ring.
      * intros x Hx. apply (atMost_false_after t e); [exact He|]. apply Hlt, Hx.
      * intros x Hx. apply maxLoop_in in Hx. apply in_map_iff in Hx.
        destruct Hx as [y [Hy Hin]]. rewrite <- Hy.
        apply (atMost_false_after t e); [exact He|]. apply Hlt, Hin.
Qed.

(** The entries of [minLoop] from a threshold on telescope. *)
Lemma minLoop_atLeast (t : Q) (es : list DistributionEntry) (count c : Q) :
  ascending es ->
  weight one
    (filter (fun e => Qle_bool t (inject_Z (outcome e))) (minLoop es count c c))
  == Math_pow
       (1 - (c + (weight one es
                  - weight one
                      (filter (fun e => Qle_bool t (inject_Z (outcome e))) es))))
       count
     - Math_pow (1 - (c + weight one es)) count.
Proof.
  revert c. induction es as [|e es IH]; intros c Hasc.
  - simpl. change (weight one []) with 0.
    rewrite (Math_pow_compat (1 - (c + (0 - 0))) (1 - (c + 0))) by ring. ring.
  - destruct (ascending_tail _ _ Hasc) as [Hasc' Hlt].
    destruct (Qle_bool t (inject_Z (outcome e))) eqn:He.
    + rewrite !filter_all.
      * rewrite minLoop_weight.
        apply Qplus_comp; [|apply Qopp_comp]; apply Math_pow_compat.
        -- ring.
        -- rewrite weight_one_sum. reflexivity.
      * intros x [<-|Hx]; [exact He|].
        apply (atLeast_true_after t e); [exact He|]. apply Hlt, Hx.
      * intros x Hx. apply minLoop_in in Hx. apply in_map_iff in Hx.
        destruct Hx as [y [Hy Hin]]. rewrite <- Hy.
        destruct Hin as [<-|Hin]; [exact He|].
        apply (atLeast_true_after t e); [exact He|]. apply Hlt, Hin.
    + cbn [minLoop filter outcome]. rewrite He.
      rewrite IH by exact Hasc'.
      apply Qplus_comp; [|apply Qopp_comp]; apply Math_pow_compat;
        rewrite !weight_cons; unfold one; ring.
Qed.

(** X3.  The highest of [count] independent rolls is at most [t] exactly
    when every roll is: the cumulative probability of [maxOfIndependent]
    at any threshold is the [count]-th power of that of the distribution
    rolled. *)
Theorem maxOfIndependent_cdf (d : ProbabilityDistribution) (count t : Q) :
  ascending (entries d) ->
  isInteger count = true ->
  0 < count ->
  exists dmax,
    maxOfIndependent d count = Ok dmax /\
    probabilityAtMost dmax t == Math_pow (probabilityAtMost d t) count.
Proof.
  intros Hasc Hint Hpos.
  destruct (orderStatistic_ok d count Hint Hpos) as [Hmax _].
  rewrite Hmax. eexists; split; [reflexivity|].
  destruct (Qeq_bool count 1) eqn:H1.
  - apply Qeq_bool_iff in H1. rewrite (Math_pow_one_r _ _ H1). reflexivity.
  - unfold probabilityAtMost at 1, fromEntries.
    rewrite (filter_normalize (fun o => Qle_bool (inject_Z o) t)).
    rewrite (maxLoop_atMost t) by exact Hasc.
    rewrite Math_pow_zero by (pose proof (integer_positive _ Hint Hpos); lia).
    unfold Qminus. change (- 0) with 0. rewrite Qplus_0_r.
    apply Math_pow_compat. unfold probabilityAtMost.
    rewrite sumProbabilities_weight. ring.
Qed.

Lemma maxOfIndependent_cdf_witness :
  exists die dmax,
    uniformDie 6 = Ok die /\
    maxOfIndependent die 2 = Ok dmax /\
    probabilityAtMost dmax 3 == Math_pow (probabilityAtMost die 3) 2 /\
    probabilityAtMost die 3 == 1 # 2 /\
    probabilityAtMost dmax 3 == 1 # 4.
Proof.
  destruct (uniformDie_normalized 6 eq_refl eq_refl) as (die & Hdie & Hn).
  destruct (maxOfIndependent_cdf die 2 3 (proj1 (proj1 Hn)) eq_refl eq_refl)
    as (dmax & Hmax & Hcdf).
  exists die, dmax. split; [exact Hdie|]. split; [exact Hmax|].
  split; [exact Hcdf|].
  injection Hdie as <-. injection Hmax as <-.
  split; vm_compute; reflexivity.
Defined.

(** X4.  The lowest of [count] independent rolls is at least [t] exactly
    when every roll is: for a distribution of total probability 1, the
    chance that [minOfIndependent] reaches a threshold is the [count]-th
    power of the chance that one roll does. *)
Theorem minOfIndependent_survival (d : ProbabilityDistribution) (count t : Q) :
  normalized d ->
  isInteger count = true ->
  0 < count ->
  exists dmin,
    minOfIndependent d count = Ok dmin /\
    probabilityAtLeast dmin t == Math_pow (probabilityAtLeast d t) count.
Proof.
  intros [[Hasc Htot] [_ Hone]] Hint Hpos.
  destruct (orderStatistic_ok d count Hint Hpos) as [_ Hmin].
  rewrite Hmin. eexists; split; [reflexivity|].
  destruct (Qeq_bool count 1) eqn:H1.
  - apply Qeq_bool_iff in H1. rewrite (Math_pow_one_r _ _ H1). reflexivity.
  - unfold probabilityAtLeast at 1, fromEntries.
    rewrite (filter_normalize (fun o => Qle_bool t (inject_Z o))).
    rewrite (minLoop_atLeast t) by exact Hasc.
    assert (Hw : weight one (entries d) == 1) by (rewrite <- Htot; exact Hone).
    rewrite (Math_pow_compat (1 - (0 + weight one (entries d))) 0)
      by (rewrite Hw; ring).
    rewrite Math_pow_zero by (pose proof (integer_positive _ Hint Hpos); lia).
    unfold Qminus at 1. change (- 0) with 0. rewrite Qplus_0_r.
    apply Math_pow_compat. unfold probabilityAtLeast.
    rewrite sumProbabilities_weight, Hw. ring.
Qed.

Lemma minOfIndependent_survival_witness :
  exists die dmin,
    uniformDie 4 = Ok die /\
    minOfIndependent die 2 = Ok dmin /\
    probabilityAtLeast dmin 3 == Math_pow (probabilityAtLeast die 3) 2 /\
    probabilityAtLeast die 3 == 1 # 2 /\
    probabilityAtLeast dmin 3 == 1 # 4.
Proof.
  destruct (uniformDie_normalized 4 eq_refl eq_refl) as (die & Hdie & Hn).
  destruct (minOfIndependent_survival die 2 3 Hn eq_refl eq_refl)
    as (dmin & Hmin & Hsurvival).
  exists die, dmin. split; [exact Hdie|]. split; [exact Hmin|].
  split; [exact Hsurvival|].
  injection Hdie as <-. injection Hmin as <-.
  split; vm_compute; reflexivity.
Defined.

(** ** Keeping the highest or the lowest roll and the expected value *)

(** With [g c = c^n - c], which is never positive on [0, 1]: the gain of
    the highest roll over one roll, from cumulative probability [c] on. *)
Lemma maxLoop_dominates (es : list DistributionEntry) (count c : Q) (b : Z) :
  (1 <= toInt count)%Z ->
  ascending es ->
  nonnegEntries es ->
  0 <= c ->
  c + weight one es == 1 ->
  Forall (fun e => (b <= outcome e)%Z) es ->
  0 <= weight inject_Z (maxLoop es count c c) - weight inject_Z es
       + inject_Z b * (Math_pow c count - c).
Proof.
  intros Hn. revert c b. induction es as [|e es IH]; intros c b Hasc Hnn Hc Hsum Hb.
  - change (weight one []) with 0 in Hsum.
    assert (Hc1 : c == 1) by lra.
    change (weight inject_Z (maxLoop [] count c c)) with 0.
    change (weight inject_Z []) with 0.
    rewrite (Math_pow_compat c 1 count Hc1). unfold Math_pow.
    rewrite Qpower_1, Hc1. ring_simplify. apply Qle_refl.
  - destruct (ascending_tail _ _ Hasc) as [Hasc' Hlt].
    inversion Hnn as [|? ? Hp Hnn']; subst.
    inversion Hb as [|? ? Hbe Hb']; subst.
    rewrite weight_cons in Hsum. unfold one at 1 in Hsum.
    assert (Hrest : 0 <= weight one es) by (apply weight_one_nonneg; exact Hnn').
    assert (Hstep : 0 <= weight inject_Z (maxLoop es count (c + probability e)
                                            (c + probability e))
                         - weight inject_Z es
                         + inject_Z (outcome e)
                           * (Math_pow (c + probability e) count
                              - (c + probability e))).
    { apply IH; try assumption.
      - lra.
      - lra.
      - apply Forall_forall. intros x Hx. apply Z.lt_le_incl, Hlt, Hx. }
    cbn [maxLoop]. rewrite !weight_cons. cbn [outcome probability].
    assert (Hpow : Math_pow c count <= c) by (apply Math_pow_le_self; [lra|lra|exact Hn]).
    assert (Hgap : 0 <= (inject_Z (outcome e) - inject_Z b) * (c - Math_pow c count)).
    { apply Qmult_le_0_compat; [|lra]. rewrite Zle_Qle in Hbe. lra. }
    generalize dependent (Math_pow (c + probability e) count).
    generalize dependent (Math_pow c count).
    intros X HX HX' Y HY. lra.
Qed.

Lemma minLoop_dominated (es : list DistributionEntry) (count c : Q) (b : Z) :
  (1 <= toInt count)%Z ->
  ascending es ->
  nonnegEntries es ->
  0 <= c ->
  c + weight one es == 1 ->
  Forall (fun e => (b <= outcome e)%Z) es ->
  weight inject_Z (minLoop es count c c) - weight inject_Z es
  <= inject_Z b * (Math_pow (1 - c) count - (1 - c)).
Proof.
  intros Hn. revert c b. induction es as [|e es IH]; intros c b Hasc Hnn Hc Hsum Hb.
  - change (weight one []) with 0 in Hsum.
    assert (Hc1 : 1 - c == 0) by lra.
    change (weight inject_Z (minLoop [] count c c)) with 0.
    change (weight inject_Z []) with 0.
    rewrite (Math_pow_compat (1 - c) 0 count Hc1).
    rewrite Math_pow_zero by exact Hn. rewrite Hc1. ring_simplify. apply Qle_refl.
  - destruct (ascending_tail _ _ Hasc) as [Hasc' Hlt].
    inversion Hnn as [|? ? Hp Hnn']; subst.
    inversion Hb as [|? ? Hbe Hb']; subst.
    rewrite weight_cons in Hsum. unfold one at 1 in Hsum.
    assert (Hrest : 0 <= weight one es) by (apply weight_one_nonneg; exact Hnn').
    assert (Hstep : weight inject_Z (minLoop es count (c + probability e)
                                       (c + probability e))
                    - weight inject_Z es
                    <= inject_Z (outcome e)
                       * (Math_pow (1 - (c + probability e)) count
                          - (1 - (c + probability e)))).
    { apply IH; try assumption.
      - lra.
      - lra.
      - apply Forall_forall. intros x Hx. apply Z.lt_le_incl, Hlt, Hx. }
    cbn [minLoop]. rewrite !weight_cons. cbn [outcome probability].
    assert (Hpow : Math_pow (1 - c) count <= 1 - c)
      by (apply Math_pow_le_self; [lra|lra|exact Hn]).
    assert (Hgap : 0 <= (inject_Z (outcome e) - inject_Z b)
                        * ((1 - c) - Math_pow (1 - c) count)).
    { apply Qmult_le_0_compat; [|lra]. rewrite Zle_Qle in Hbe. lra. }
    generalize dependent (Math_pow (1 - (c + probability e)) count).
    generalize dependent (Math_pow (1 - c) count).
    intros X HX HX' Y HY. lra.
Qed.

Lemma ascending_lower_bound (es : list DistributionEntry) :
  ascending es -> exists b, Forall (fun e => (b <= outcome e)%Z) es.
Proof.
  destruct es as [|e es]; intros Hasc.
  - exists 0%Z. constructor.
  - exists (outcome e). destruct (ascending_tail _ _ Hasc) as [_ Hlt].
    constructor; [lia|]. apply Forall_forall. intros x Hx.
    apply Z.lt_le_incl, Hlt, Hx.
Qed.

(** X5.  Rolling the damage dice several times and keeping the highest
    result never lowers the expected value, keeping the lowest never
    raises it: for a distribution of total probability 1 and an integer
    roll count of at least 1, both modes of [applyDamageDiceRollMode]
    return, and the expectation of the lowest, of one roll and of the
    highest are ordered. *)
Theorem applyDamageDiceRollMode_expectation (d : ProbabilityDistribution)
  (rollCount : Q) :
  normalized d ->
  isInteger rollCount = true ->
  1 <= rollCount ->
  exists high low,
    applyDamageDiceRollMode d RollAdvantage (Some (Finite rollCount)) = Ok high /\
    applyDamageDiceRollMode d RollDisadvantage (Some (Finite rollCount)) = Ok low /\
    applyDamageDiceRollMode d RollNormal (Some (Finite rollCount)) = Ok d /\
    expectation low <= expectation d /\
    expectation d <= expectation high.
Proof.
  intros [[Hasc Htot] [Hnn Hone]] Hint Hge.
  assert (Hpos : 0 < rollCount) by lra.
  destruct (orderStatistic_ok d rollCount Hint Hpos) as [Hmax Hmin].
  unfold applyDamageDiceRollMode, atMost, atCount.
  destruct (Qle_bool rollCount 1) eqn:Hle.
  - exists d, d. repeat split; try reflexivity; apply Qle_refl.
  - rewrite Hmax, Hmin.
    assert (H1 : Qeq_bool rollCount 1 = false).
    { apply Qle_bool_false in Hle. destruct (Qeq_bool rollCount 1) eqn:E; [|reflexivity].
      apply Qeq_bool_iff in E. lra. }
    rewrite H1. do 2 eexists. repeat split; try reflexivity.
    + rewrite !expectation_weight. unfold fromEntries. rewrite normalize_weight.
      destruct (ascending_lower_bound _ Hasc) as [b Hb].
      assert (Hn : (1 <= toInt rollCount)%Z)
        by (pose proof (integer_positive _ Hint Hpos); lia).
      assert (Hw : 0 + weight one (entries d) == 1) by (rewrite <- Htot, Hone; ring).
      pose proof (minLoop_dominated (entries d) rollCount 0 b Hn Hasc Hnn
                    (Qle_refl 0) Hw Hb) as H.
      rewrite (Math_pow_compat (1 - 0) 1) in H by ring.
      unfold Math_pow in H. rewrite Qpower_1 in H. lra.
    + rewrite !expectation_weight. unfold fromEntries. rewrite normalize_weight.
      destruct (ascending_lower_bound _ Hasc) as [b Hb].
      assert (Hn : (1 <= toInt rollCount)%Z)
        by (pose proof (integer_positive _ Hint Hpos); lia).
      assert (Hw : 0 + weight one (entries d) == 1) by (rewrite <- Htot, Hone; ring).
      pose proof (maxLoop_dominates (entries d) rollCount 0 b Hn Hasc Hnn
                    (Qle_refl 0) Hw Hb) as H.
      rewrite Math_pow_zero in H by exact Hn. lra.
Qed.

Lemma applyDamageDiceRollMode_expectation_witness :
  exists die high low,
    uniformDie 4 = Ok die /\
    applyDamageDiceRollMode die RollAdvantage (Some (Finite 2)) = Ok high /\
    applyDamageDiceRollMode die RollDisadvantage (Some (Finite 2)) = Ok low /\
    applyDamageDiceRollMode die RollNormal (Some (Finite 2)) = Ok die /\
    expectation low <= expectation die /\
    expectation die <= expectation high /\
    expectation low == 15 # 8 /\
    expectation die == 5 # 2 /\
    expectation high == 25 # 8.
Proof.
  destruct (uniformDie_normalized 4 eq_refl eq_refl) as (die & Hdie & Hn).
  destruct (applyDamageDiceRollMode_expectation die 2 Hn eq_refl)
    as (high & low & Hhigh & Hlow & Hsame & Hle1 & Hle2);
    [discriminate|].
  exists die, high, low. split; [exact Hdie|]. split; [exact Hhigh|].
  split; [exact Hlow|]. split; [exact Hsame|]. split; [exact Hle1|].
  split; [exact Hle2|].
  injection Hdie as <-. injection Hhigh as <-. injection Hlow as <-.
  repeat split; vm_compute; reflexivity.
Defined.

(** ** The closed-form means of a die *)

Lemma inject_nat_succ (n : nat) :
  inject_Z (Z.of_nat (S n)) == inject_Z (Z.of_nat n) + 1.
Proof.
  rewrite Nat2Z.inj_succ. unfold Z.succ. rewrite inject_Z_plus. reflexivity.
Qed.

(** The faces [a, a + 1, ..., a + k - 1] add up to [k a + k (k - 1) / 2]. *)
Lemma sum_faces (a k : nat) :
  qsum (List.map (fun f => inject_Z (Z.of_nat f)) (seq a k))
  == inject_Z (Z.of_nat k) * inject_Z (Z.of_nat a)
     + inject_Z (Z.of_nat k) * (inject_Z (Z.of_nat k) - 1) / 2.
Proof.
  revert a. induction k as [|k IH]; intros a.
  - simpl. field.
  - cbn [seq List.map qsum]. rewrite IH, !inject_nat_succ. field.
Qed.

Lemma uniformDie_entries (sides : Q) :
  isInteger sides = true ->
  0 < sides ->
  exists d,
    uniformDie sides = Ok d /\
    entries d
    = List.map zeroPlus
        (List.map (fun face => mkEntry (Z.of_nat face) (1 / sides))
           (seq 1 (loopCount sides))).
Proof.
  intros Hint Hpos. rewrite (uniformDie_ok _ Hint Hpos).
  eexists; split; [reflexivity|].
  apply normalize_entries. apply faces_ascending.
Qed.

(** X6.  [uniformDie] of a positive integer number of sides lists the
    faces [1..sides] in order, each with probability [1 / sides], and its
    expectation is the closed form [expectedSingleDieMean], [(sides + 1) / 2]. *)
Theorem uniformDie_mean (sides : Q) :
  isInteger sides = true ->
  0 < sides ->
  exists d,
    uniformDie sides = Ok d /\
    List.map outcome (entries d) = List.map Z.of_nat (seq 1 (loopCount sides)) /\
    Forall (fun e => probability e == 1 / sides) (entries d) /\
    expectation d == expectedSingleDieMean sides.
Proof.
  intros Hint Hpos.
  destruct (uniformDie_entries sides Hint Hpos) as [d [Hd He]].
  exists d. split; [exact Hd|]. repeat split.
  - rewrite He, !map_map. reflexivity.
  - rewrite He, !map_map. apply Forall_forall. intros e Hin.
    apply in_map_iff in Hin. destruct Hin as [f [<- _]]. simpl. ring.
  - rewrite (uniformDie_ok _ Hint Hpos) in Hd. injection Hd as <-.
    rewrite expectation_weight, normalize_weight, weight_faces.
    rewrite (qsum_map_scale (fun f => inject_Z (Z.of_nat f))).
    rewrite sum_faces. unfold expectedSingleDieMean.
    rewrite (loopCount_integer sides Hint) by lra.
    change (inject_Z (Z.of_nat 1)) with 1. field. lra.
Qed.

Lemma uniformDie_mean_witness :
  exists d,
    uniformDie 6 = Ok d /\
    List.map outcome (entries d) = List.map Z.of_nat (seq 1 (loopCount 6)) /\
    Forall (fun e => probability e == 1 / 6) (entries d) /\
    expectation d == expectedSingleDieMean 6.
Proof.
  apply (uniformDie_mean 6); reflexivity.
Defined.

Lemma Math_pow_two (x : Q) : Math_pow x 2 == x * x.
Proof. unfold Math_pow, toInt. simpl. reflexivity. Qed.

(** The faces [m + 1 .. m + k], each of probability [q], when the faces
    [1 .. m] came before. *)
Lemma maxLoop_faces (q : Q) (k m : nat) (c : Q) (es : list DistributionEntry) :
  List.map outcome es = List.map Z.of_nat (seq (S m) k) ->
  Forall (fun e => probability e == q) es ->
  c == inject_Z (Z.of_nat m) * q ->
  weight inject_Z (maxLoop es 2 c c)
  == q * q
     * (inject_Z (Z.of_nat (m + k)) * (inject_Z (Z.of_nat (m + k)) + 1)
        * (4 * inject_Z (Z.of_nat (m + k)) - 1) / 6
        - inject_Z (Z.of_nat m) * (inject_Z (Z.of_nat m) + 1)
          * (4 * inject_Z (Z.of_nat m) - 1) / 6).
Proof.
  revert m c es. induction k as [|k IH]; intros m c es Ho Hp Hc.
  - destruct es; [|discriminate]. rewrite Nat.add_0_r.
    change (weight inject_Z (maxLoop [] 2 c c)) with 0. clear Ho. field.
  - destruct es as [|e es]; [discriminate|].
    cbn [seq List.map] in Ho. injection Ho as Hoe Ho.
    inversion Hp as [|? ? Hpe Hp']; subst.
    cbn [maxLoop]. rewrite weight_cons. cbn [outcome probability].
    rewrite (IH (S m) (c + probability e) es Ho Hp')
      by (rewrite Hc, Hpe, inject_nat_succ; ring).
    rewrite !Math_pow_two, Hoe, Hc, Hpe.
    change (Z.pos (Pos.of_succ_nat m)) with (Z.of_nat (S m)).
    replace (m + S k)%nat with (S m + k)%nat by lia.
    rewrite !inject_nat_succ. clear. field.
Qed.

(** X7.  The closed form [expectedMaxOfTwoSingleDieMean] is the
    expectation of the higher of two rolls of the die as the engine
    computes it: [maxOfIndependent (uniformDie sides) 2]. *)
Theorem expectedMaxOfTwoSingleDieMean_spec (sides : Q) :
  isInteger sides = true ->
  0 < sides ->
  exists die best,
    uniformDie sides = Ok die /\
    maxOfIndependent die 2 = Ok best /\
    expectation best == expectedMaxOfTwoSingleDieMean sides.
Proof.
  intros Hint Hpos.
  destruct (uniformDie_entries sides Hint Hpos) as [d [Hd He]].
  exists d. eexists. split; [exact Hd|]. split; [reflexivity|].
  unfold fromEntries.
  rewrite expectation_weight, normalize_weight.
  rewrite (maxLoop_faces (1 / sides) (loopCount sides) 0 0).
  - simpl (0 + loopCount sides)%nat.
    rewrite (loopCount_integer sides Hint) by lra.
    unfold expectedMaxOfTwoSingleDieMean.
    change (inject_Z (Z.of_nat 0)) with 0. field. lra.
  - rewrite He, !map_map. reflexivity.
  - rewrite He, !map_map. apply Forall_forall. intros e Hin.
    apply in_map_iff in Hin. destruct Hin as [f [<- _]]. simpl. ring.
  - change (inject_Z (Z.of_nat 0)) with 0. ring.
Qed.

Lemma expectedMaxOfTwoSingleDieMean_spec_witness :
  exists die best,
    uniformDie 8 = Ok die /\
    maxOfIndependent die 2 = Ok best /\
    expectation best == expectedMaxOfTwoSingleDieMean 8.
Proof.
  apply (expectedMaxOfTwoSingleDieMean_spec 8); reflexivity.
Defined.

(** X8.  The closed form [expectedGwfSingleDieMean] is the expectation
    of the die that rerolls a 1 or a 2 once, as the damage model builds
    it: [buildRerollLowDieDistribution sides 2], for a die of at least two
    sides. *)
Theorem expectedGwfSingleDieMean_spec (sides : Q) :
  isInteger sides = true ->
  2 <= sides ->
  exists die,
    buildRerollLowDieDistribution sides (Some 2) = Ok die /\
    expectation die == expectedGwfSingleDieMean sides.
Proof.
  intros Hint Hge.
  assert (Hn : inject_Z (Z.of_nat (loopCount sides)) == sides)
    by (apply loopCount_integer; [exact Hint|lra]).
  assert (Hn2 : (2 <= loopCount sides)%nat).
  { assert (H : inject_Z 2 <= inject_Z (Z.of_nat (loopCount sides)))
      by (rewrite Hn; exact Hge).
    rewrite <- Zle_Qle in H. lia. }
  unfold buildRerollLowDieDistribution.
  change (Qle_bool 2 0) with false. cbv iota.
  change (inject_Z (Qfloor 2)) with 2.
  eexists; split; [reflexivity|].
  assert (Hthr : Math_min sides 2 == 2).
  { destruct (Math_min_spec sides 2) as [[Hle ->]|[_ ->]]; lra. }
  unfold fromEntries. rewrite expectation_weight, normalize_weight, weight_faces.
  replace (loopCount sides) with (2 + (loopCount sides - 2))%nat at 1 by lia.
  rewrite seq_app, map_app, qsum_app.
  cbn [seq List.map qsum Nat.add].
  rewrite !(Qle_bool_compat _ _ (Math_min sides 2) 2 (Qeq_refl _) Hthr).
  change (Qle_bool (inject_Z (Z.of_nat 1)) 2) with true.
  change (Qle_bool (inject_Z (Z.of_nat 2)) 2) with true. cbv iota.
  rewrite (qsum_map_ext _
             (fun f => inject_Z (Z.of_nat f) * (1 / sides + 2 / (sides * sides)))).
  - rewrite (qsum_map_scale (fun f => inject_Z (Z.of_nat f))), sum_faces.
    rewrite Hthr. unfold expectedGwfSingleDieMean.
    assert (Hk : inject_Z (Z.of_nat (loopCount sides - 2)) == sides - 2).
    { rewrite Nat2Z.inj_sub by exact Hn2. unfold Z.sub.
      rewrite inject_Z_plus, inject_Z_opp, Hn. reflexivity. }
    rewrite Hk.
    change (inject_Z (Z.of_nat 1)) with 1.
    change (inject_Z (Z.of_nat 2)) with 2.
    change (inject_Z (Z.of_nat 3)) with 3.
    field. lra.
  - intros f Hin. apply in_seq in Hin.
    rewrite (Qle_bool_compat _ _ (Math_min sides 2) 2 (Qeq_refl _) Hthr).
    assert (Hf : Qle_bool (inject_Z (Z.of_nat f)) 2 = false).
    { apply Qle_bool_false. change 2 with (inject_Z 2). rewrite <- Zlt_Qlt. lia. }
    rewrite Hf, Hthr. reflexivity.
Qed.

Lemma expectedGwfSingleDieMean_spec_witness :
  exists die,
    buildRerollLowDieDistribution 6 (Some 2) = Ok die /\
    expectation die == expectedGwfSingleDieMean 6.
Proof.
  apply (expectedGwfSingleDieMean_spec 6); [reflexivity|discriminate].
Defined.

(** ** Relabelling the outcomes: [shift], [scaleOutcomes], [multiplyIndependent] *)

Lemma relabel_weight (w : Z -> Q) (f : Z -> Z) (es : list DistributionEntry) :
  weight w (List.map (fun e => mkEntry (f (outcome e)) (probability e)) es)
  == weight (fun o => w (f o)) es.
Proof.
  unfold weight. rewrite map_map. reflexivity.
Qed.

Lemma weight_ext (w w' : Z -> Q) (es : list DistributionEntry) :
  (forall o, w o == w' o) -> weight w es == weight w' es.
Proof.
  intros H. unfold weight. apply qsum_map_ext. intros e _. rewrite H. reflexivity.
Qed.

Lemma weight_plus (w w' : Z -> Q) (es : list DistributionEntry) :
  weight (fun o => w o + w' o) es == weight w es + weight w' es.
Proof.
  induction es as [|e es IH].
  - reflexivity.
  - rewrite !weight_cons, IH. ring.
Qed.

Lemma weight_scale (w : Z -> Q) (c : Q) (es : list DistributionEntry) :
  weight (fun o => c * w o) es == c * weight w es.
Proof.
  induction es as [|e es IH].
  - unfold weight; simpl. ring.
  - rewrite !weight_cons, IH. ring.
Qed.

Lemma ascending_shift (amount : Z) (es : list DistributionEntry) :
  ascending es ->
  ascending
    (List.map (fun e => mkEntry (outcome e + amount) (probability e)) es).
Proof.
  unfold ascending. rewrite map_map. cbn [outcome].
  induction es as [|e es IH]; simpl; intros H.
  - constructor.
  - inversion H as [|? ? Hs Hall]; subst. constructor; [apply IH; exact Hs|].
    rewrite Forall_forall in *. intros o Ho. apply in_map_iff in Ho.
    destruct Ho as [x [<- Hx]]. specialize (Hall (outcome x) (in_map outcome _ _ Hx)).
    lia.
Qed.

Lemma probabilityAtLeast_shift (d : ProbabilityDistribution) (amount : Z) (t : Q) :
  probabilityAtLeast (shift d amount) (t + inject_Z amount)
  == probabilityAtLeast d t.
Proof.
  unfold shift, probabilityAtLeast.
  rewrite (filter_normalize (fun o => Qle_bool (t + inject_Z amount) (inject_Z o))).
  rewrite sumProbabilities_weight.
  rewrite (filter_weight_indicator
             (fun o => Qle_bool (t + inject_Z amount) (inject_Z o))).
  rewrite (filter_weight_indicator (fun o => Qle_bool t (inject_Z o))).
  rewrite (relabel_weight
             (fun o => if Qle_bool (t + inject_Z amount) (inject_Z o) then 1 else 0)
             (fun o => (o + amount)%Z)).
  apply weight_ext. intros o.
  rewrite inject_Z_plus.
  assert (H : Qle_bool (t + inject_Z amount) (inject_Z o + inject_Z amount)
              = Qle_bool t (inject_Z o)).
  { destruct (Qle_bool t (inject_Z o)) eqn:E.
    - apply Qle_bool_iff in E. apply Qle_bool_iff. lra.
    - apply Qle_bool_false in E. apply Qle_bool_false. lra. }
  rewrite H. reflexivity.
Qed.

(** X9.  [shift] moves every outcome by [amount] and nothing else: the
    entries keep their order and their probabilities, the total is kept,
    the expectation moves by [amount] times the total, and a threshold
    moved along with the outcomes is reached with the same probability. *)
Theorem shift_translates (d : ProbabilityDistribution) (amount : Z) (t : Q) :
  consistent d ->
  Forall2
    (fun e e' =>
       outcome e' = (outcome e + amount)%Z /\ probability e' == probability e)
    (entries d) (entries (shift d amount)) /\
  totalProbability (shift d amount) == totalProbability d /\
  expectation (shift d amount)
  == expectation d + inject_Z amount * totalProbability d /\
  probabilityAtLeast (shift d amount) (t + inject_Z amount)
  == probabilityAtLeast d t.
Proof.
  intros [Hasc Htot]. unfold shift. repeat split.
  - rewrite (normalize_entries _ (ascending_shift amount _ Hasc)).
    rewrite map_map. clear. induction (entries d) as [|e es IH]; simpl; constructor.
    + split; [reflexivity|]. simpl. ring.
    + exact IH.
  - rewrite normalize_total, Htot.
    apply (relabel_weight_one (fun o => (o + amount)%Z)).
  - rewrite !expectation_weight, normalize_weight, Htot.
    rewrite (relabel_weight inject_Z (fun o => (o + amount)%Z)).
    rewrite (weight_ext _ (fun o => inject_Z o + inject_Z amount * one o)).
    + rewrite weight_plus, weight_scale. reflexivity.
    + intros o. unfold one. rewrite inject_Z_plus. ring.
  - apply probabilityAtLeast_shift.
Qed.

Lemma shift_translates_witness :
  consistent (constant 3) /\
  Forall2
    (fun e e' =>
       outcome e' = (outcome e + 2)%Z /\ probability e' == probability e)
    (entries (constant 3)) (entries (shift (constant 3) 2)) /\
  totalProbability (shift (constant 3) 2) == totalProbability (constant 3) /\
  expectation (shift (constant 3) 2)
  == expectation (constant 3) + inject_Z 2 * totalProbability (constant 3) /\
  probabilityAtLeast (shift (constant 3) 2) (4 + inject_Z 2)
  == probabilityAtLeast (constant 3) 4.
Proof.
  assert (H : consistent (constant 3)) by apply (constant_normalized 3).
  split; [exact H|]. apply (shift_translates (constant 3) 2 4 H).
Defined.

Lemma accumulate_keeps_keys (es : list DistributionEntry) (m : list (Z * Q)) (k : Z) :
  In k (List.map fst m) \/ In k (List.map outcome es) ->
  In k (List.map fst (fold_left accumulateStep es m)).
Proof.
  revert m. induction es as [|e es IH]; intros m H; simpl.
  - destruct H as [H|[]]. exact H.
  - apply IH. unfold accumulateStep. rewrite map_set_keys.
    destruct (existsb (Z.eqb (outcome e)) (List.map fst m)) eqn:Hex.
    + destruct H as [H|[H|H]]; [left; exact H| |right; exact H].
      left. apply existsb_exists in Hex. destruct Hex as [x [Hx Heq]].
      apply Z.eqb_eq in Heq. subst. exact Hx.
    + destruct H as [H|[H|H]]; [| |right; exact H]; left; apply in_or_app.
      * left; exact H.
      * right; left; exact H.
Qed.

Lemma normalize_keeps_outcome (es : list DistributionEntry) (o : Z) :
  In o (List.map outcome es) -> In o (List.map outcome (entries (normalize es))).
Proof.
  intros H. unfold normalize; simpl.
  apply (Permutation_in _ (Permutation_map outcome
                             (Permutation_sym (sortByOutcome_perm _)))).
  rewrite mapEntries_outcome. apply accumulate_keeps_keys. right; exact H.
Qed.

Lemma ascending_single (es : list DistributionEntry) (o : Z) :
  ascending es -> Forall (fun x => x = o) (List.map outcome es) ->
  In o (List.map outcome es) -> List.map outcome es = [o].
Proof.
  intros Hasc Hall Hin. destruct es as [|e es]; [destruct Hin|].
  destruct (ascending_tail _ _ Hasc) as [_ Hlt].
  simpl in Hall. inversion Hall as [|? ? He Hall']; subst.
  destruct es as [|e' es]; [reflexivity|]. exfalso.
  simpl in Hall'. inversion Hall' as [|? ? He' _]; subst.
  specialize (Hlt e' (or_introl eq_refl)). lia.
Qed.

(** X10.  [scaleOutcomes] multiplies every outcome by the factor: the
    total probability is kept and the expectation is multiplied by the
    factor.  Scaling a distribution that is not empty by [0] merges all
    its entries into the single outcome [0]. *)
Theorem scaleOutcomes_scales (d : ProbabilityDistribution) (factor : Z) :
  consistent d ->
  totalProbability (scaleOutcomes d factor) == totalProbability d /\
  expectation (scaleOutcomes d factor) == inject_Z factor * expectation d /\
  (entries d <> [] ->
   exists p, entries (scaleOutcomes d 0) = [mkEntry 0 p] /\
             p == totalProbability d).
Proof.
  intros [Hasc Htot]. unfold scaleOutcomes. repeat split.
  - rewrite normalize_total, Htot.
    apply (relabel_weight_one (fun o => (o * factor)%Z)).
  - rewrite !expectation_weight, normalize_weight.
    rewrite (relabel_weight inject_Z (fun o => (o * factor)%Z)).
    rewrite <- weight_scale. apply weight_ext. intros o.
    rewrite inject_Z_mult. ring.
  - intros Hne.
    set (l := List.map (fun entry => mkEntry (outcome entry * 0) (probability entry))
                (entries d)).
    assert (Hall : Forall (fun x => x = 0%Z) (List.map outcome (entries (normalize l)))).
    { apply normalize_outcomes. unfold l. rewrite map_map. cbn [outcome].
      apply Forall_forall. intros x Hx. apply in_map_iff in Hx.
      destruct Hx as [e [<- _]]. lia. }
    assert (Hin : In 0%Z (List.map outcome (entries (normalize l)))).
    { apply normalize_keeps_outcome. unfold l. rewrite map_map. cbn [outcome].
      destruct (entries d) as [|e es]; [congruence|]. left. lia. }
    pose proof (ascending_single _ 0%Z (normalize_ascending l) Hall Hin) as Hone.
    pose proof (normalize_weight one l) as Hw.
    destruct (entries (normalize l)) as [|[o p] [|e' rest]]; try discriminate.
    simpl in Hone. injection Hone as ->.
    exists p. split; [reflexivity|].
    rewrite Htot, <- (relabel_weight_one (fun o => (o * 0)%Z) (entries d)).
    fold l. rewrite <- Hw. unfold weight, one; simpl. ring.
Qed.

Lemma scaleOutcomes_scales_witness :
  consistent (constant 3) /\
  totalProbability (scaleOutcomes (constant 3) 2) == totalProbability (constant 3) /\
  expectation (scaleOutcomes (constant 3) 2) == inject_Z 2 * expectation (constant 3) /\
  (entries (constant 3) <> [] ->
   exists p, entries (scaleOutcomes (constant 3) 0) = [mkEntry 0 p] /\
             p == totalProbability (constant 3)).
Proof.
  assert (H : consistent (constant 3)) by apply (constant_normalized 3).
  split; [exact H|]. apply (scaleOutcomes_scales (constant 3) 2 H).
Defined.

Lemma weight_products (w : Z -> Q) (ls rs : list DistributionEntry) :
  weight w
    (flat_map
       (fun l =>
          List.map
            (fun r => mkEntry (outcome l * outcome r) (probability l * probability r))
            rs)
       ls)
  == qsum
       (List.map
          (fun l => probability l * weight (fun o => w (outcome l * o)%Z) rs)
          ls).
Proof.
  induction ls as [|l ls IH]; simpl.
  - reflexivity.
  - rewrite weight_app, IH. apply Qplus_comp; [|reflexivity].
    clear IH. induction rs as [|r rs IHr]; simpl.
    + unfold weight; simpl. ring.
    + rewrite !weight_cons, IHr. simpl. ring.
Qed.

(** X11.  [multiplyIndependent] is the distribution of the product of two
    independent draws, with no entry dropped: unique ascending outcomes,
    total probability the product of the totals, expectation the product
    of the expectations. *)
Theorem multiplyIndependent_product (a b : ProbabilityDistribution) :
  consistent a ->
  consistent b ->
  ascending (entries (multiplyIndependent a b)) /\
  totalProbability (multiplyIndependent a b)
  == totalProbability a * totalProbability b /\
  expectation (multiplyIndependent a b) == expectation a * expectation b.
Proof.
  intros [_ Ha] [_ Hb]. unfold multiplyIndependent. repeat split.
  - apply normalize_ascending.
  - rewrite normalize_total, weight_products, Ha, Hb.
    rewrite (qsum_map_ext _ (fun l => one (outcome l) * probability l * weight one (entries b))).
    + rewrite (qsum_map_scale (fun l => one (outcome l) * probability l)).
      reflexivity.
    + intros l _. unfold one. ring.
  - rewrite !expectation_weight, normalize_weight, weight_products.
    rewrite (qsum_map_ext _
               (fun l => inject_Z (outcome l) * probability l
                         * weight inject_Z (entries b))).
    + rewrite (qsum_map_scale (fun l => inject_Z (outcome l) * probability l)).
      reflexivity.
    + intros l _.
      rewrite (weight_ext (fun o => inject_Z (outcome l * o))
                 (fun o => inject_Z (outcome l) * inject_Z o))
        by (intros o; rewrite inject_Z_mult; reflexivity).
      rewrite weight_scale. ring.
Qed.

Lemma multiplyIndependent_product_witness :
  consistent (constant 3) /\ consistent (constant 2) /\
  ascending (entries (multiplyIndependent (constant 3) (constant 2))) /\
  totalProbability (multiplyIndependent (constant 3) (constant 2))
  == totalProbability (constant 3) * totalProbability (constant 2) /\
  expectation (multiplyIndependent (constant 3) (constant 2))
  == expectation (constant 3) * expectation (constant 2).
Proof.
  assert (H3 : consistent (constant 3)) by apply (constant_normalized 3).
  assert (H2 : consistent (constant 2)) by apply (constant_normalized 2).
  split; [exact H3|]. split; [exact H2|].
  apply (multiplyIndependent_product (constant 3) (constant 2) H3 H2).
Defined.

(** ** The dense form and back *)

Lemma sameEntries_refl (es : list DistributionEntry) : sameEntries es es.
Proof.
  induction es; constructor; auto. split; reflexivity.
Qed.

Lemma sameEntries_sym (es es' : list DistributionEntry) :
  sameEntries es es' -> sameEntries es' es.
Proof.
  induction 1 as [|e e' es es' [Ho Hp] _ IH]; constructor; auto.
  split; [symmetry; exact Ho|symmetry; exact Hp].
Qed.

Lemma sameEntries_trans (es1 es2 es3 : list DistributionEntry) :
  sameEntries es1 es2 -> sameEntries es2 es3 -> sameEntries es1 es3.
Proof.
  intros H. revert es3. induction H as [|e e' es es' [Ho Hp] _ IH]; intros es3 H3.
  - inversion H3; constructor.
  - inversion H3 as [|? e3 ? es3' [Ho' Hp'] H3']; subst. constructor.
    + split; [congruence|]. rewrite Hp. exact Hp'.
    + apply IH. exact H3'.
Qed.

Lemma sameEntries_zeroPlus (es : list DistributionEntry) :
  sameEntries (List.map zeroPlus es) es.
Proof. apply zeroPlus_same. Qed.

Lemma sameEntries_map (f g : DistributionEntry -> DistributionEntry)
  (es es' : list DistributionEntry) :
  (forall e e', outcome e = outcome e' -> probability e == probability e' ->
                outcome (f e) = outcome (g e')
                /\ probability (f e) == probability (g e')) ->
  sameEntries es es' -> sameEntries (List.map f es) (List.map g es').
Proof.
  intros Hfg. induction 1 as [|e e' es es' [Ho Hp] _ IH]; simpl; constructor; auto.
Qed.

Lemma sameEntries_weight (w : Z -> Q) (es es' : list DistributionEntry) :
  sameEntries es es' -> weight w es == weight w es'.
Proof.
  induction 1 as [|e e' es es' [Ho Hp] _ IH].
  - reflexivity.
  - rewrite !weight_cons, IH, Ho, Hp. reflexivity.
Qed.

Lemma array_set_app (l1 l2 : list Q) (x v : Q) :
  array_set (l1 ++ x :: l2) (length l1) v = l1 ++ v :: l2.
Proof.
  induction l1 as [|y l1 IH]; simpl.
  - reflexivity.
  - rewrite IH. reflexivity.
Qed.

Lemma toDense_layout (first : Z) (es : list DistributionEntry) (pos : Z)
  (pre : list Q) (n : nat) :
  ascending es ->
  (first <= pos)%Z ->
  length pre = Z.to_nat (pos - first) ->
  Forall (fun e => (pos <= outcome e < pos + Z.of_nat n)%Z) es ->
  fold_left
    (fun vs entry => array_setZ vs (outcome entry - first) (probability entry))
    es (pre ++ repeat 0 n)
  = pre ++ layout pos es n.
Proof.
  revert pos pre n. induction es as [|e es IH]; intros pos pre n Hasc Hpos Hlen Hrange.
  - reflexivity.
  - destruct (ascending_tail _ _ Hasc) as [Hasc' Hlt].
    inversion Hrange as [|? ? He Hrange']; subst.
    cbn [fold_left layout].
    set (k := Z.to_nat (outcome e - pos)).
    assert (Hk : (k < n)%nat) by (unfold k; lia).
    unfold array_setZ at 2.
    destruct (Z.ltb_spec (outcome e - first) 0) as [Hneg|_]; [lia|].
    replace (Z.to_nat (outcome e - first)) with (length (pre ++ repeat 0 k))
      by (rewrite length_app, repeat_length, Hlen; unfold k; lia).
    replace n with (k + S (n - k - 1))%nat at 1 by lia.
    rewrite repeat_app. cbn [repeat]. rewrite app_assoc, array_set_app.
    replace ((pre ++ repeat 0 k) ++ probability e :: repeat 0 (n - k - 1))
      with ((pre ++ repeat 0 k ++ [probability e]) ++ repeat 0 (n - k - 1))
      by (rewrite <- !app_assoc; reflexivity).
    rewrite (IH (outcome e + 1)%Z).
    + rewrite <- !app_assoc. reflexivity.
    + exact Hasc'.
    + lia.
    + rewrite !length_app, repeat_length, Hlen. cbn [length]. unfold k. lia.
    + apply Forall_forall. intros x Hx.
      rewrite Forall_forall in Hrange'. specialize (Hrange' x Hx).
      specialize (Hlt x Hx). unfold k in *. lia.
Qed.

Lemma denseEntries_zeros (off idx : Z) (k : nat) (vs : list Q) :
  denseEntries off idx (repeat 0 k ++ vs)
  = denseEntries off (idx + Z.of_nat k) vs.
Proof.
  revert idx. induction k as [|k IH]; intros idx.
  - simpl. rewrite Z.add_0_r. reflexivity.
  - cbn [repeat app denseEntries]. change (nearZero 0) with true. cbv iota.
    rewrite IH. f_equal. lia.
Qed.

Lemma denseEntries_layout (off idx pos : Z) (es : list DistributionEntry) (n : nat) :
  ascending es ->
  Forall (fun e => (pos <= outcome e)%Z) es ->
  (off + idx = pos)%Z ->
  denseEntries off idx (layout pos es n) = filter significant es.
Proof.
  revert idx pos n. induction es as [|e es IH]; intros idx pos n Hasc Hlow Hpos.
  - cbn [layout filter]. rewrite <- (app_nil_r (repeat 0 n)).
    rewrite denseEntries_zeros. reflexivity.
  - destruct (ascending_tail _ _ Hasc) as [Hasc' Hlt].
    inversion Hlow as [|? ? He _]; subst.
    cbn [layout filter]. rewrite denseEntries_zeros. cbn [denseEntries].
    assert (Hrest : denseEntries off (idx + Z.of_nat (Z.to_nat (outcome e - (off + idx))) + 1)
                      (layout (outcome e + 1) es
                         (n - Z.to_nat (outcome e - (off + idx)) - 1))
                    = filter significant es).
    { apply IH.
      - exact Hasc'.
      - apply Forall_forall. intros x Hx. specialize (Hlt x Hx). lia.
      - lia. }
    rewrite Hrest.
    change (significant e) with (negb (nearZero (probability e))).
    destruct (nearZero (probability e)); cbn [negb]; [reflexivity|].
    f_equal. destruct e as [o p]. cbn [outcome probability] in *.
    f_equal. lia.
Qed.

Lemma toDense_entries (d : ProbabilityDistribution) :
  ascending (entries d) ->
  denseEntries (offset (toDense d)) 0 (values (toDense d))
  = filter significant (entries d).
Proof.
  intros Hasc. unfold toDense. destruct (entries d) as [|first rest] eqn:He.
  - reflexivity.
  - cbv zeta. cbn [offset values].
    pose proof (ascending_last first rest Hasc) as Hrange.
    assert (Hin : forall x, In x (first :: rest) ->
                    (outcome first <= outcome x
                     <= outcome (last (first :: rest) first))%Z).
    { intros x Hx. rewrite Forall_forall in Hrange.
      apply (Hrange (outcome x) (in_map outcome _ _ Hx)). }
    pose proof (toDense_layout (outcome first) (first :: rest) (outcome first) []
                  (Z.to_nat (outcome (last (first :: rest) first)
                             - outcome first + 1))) as HL.
    cbn [app] in HL. rewrite HL.
    + apply denseEntries_layout.
      * exact Hasc.
      * apply Forall_forall. intros x Hx. specialize (Hin x Hx). lia.
      * lia.
    + exact Hasc.
    + lia.
    + rewrite Z.sub_diag. reflexivity.
    + apply Forall_forall. intros x Hx. specialize (Hin x Hx). lia.
Qed.

Lemma ascending_filter (f : DistributionEntry -> bool) (es : list DistributionEntry) :
  ascending es -> ascending (filter f es).
Proof.
  induction es as [|e es IH]; intros Hasc.
  - constructor.
  - destruct (ascending_tail _ _ Hasc) as [Hasc' Hlt]. simpl.
    destruct (f e); [|apply IH; exact Hasc'].
    unfold ascending; simpl. constructor; [apply IH; exact Hasc'|].
    apply Forall_forall. intros o Ho. apply in_map_iff in Ho.
    destruct Ho as [x [<- Hx]]. apply filter_In in Hx. apply Hlt. tauto.
Qed.

(** X12.  Passing a distribution through the dense form and back keeps
    exactly the entries whose probability exceeds [PROBABILITY_EPSILON]
    in magnitude, in their order and with their probabilities. *)
Theorem dense_round_trip (d : ProbabilityDistribution) :
  ascending (entries d) ->
  sameDistribution (fromDense (toDense d))
    (fromEntries (filter significant (entries d))).
Proof.
  intros Hasc. unfold sameDistribution, fromEntries.
  rewrite fromDense_entries, (toDense_entries d Hasc).
  rewrite (normalize_entries _ (ascending_filter significant _ Hasc)).
  apply sameEntries_refl.
Qed.

Lemma dense_round_trip_witness :
  sameDistribution (fromDense (toDense (constant 3)))
    (fromEntries (filter significant (entries (constant 3)))).
Proof.
  apply (dense_round_trip (constant 3)). apply (constant_normalized 3).
Defined.

(** ** The algebra of [convolve] *)

Lemma convWeight_nil_r (w : Z -> Q) (pos : Z) (xs : list Q) :
  convWeight w pos xs [] == 0.
Proof.
  revert pos. induction xs as [|x xs IH]; intros pos; simpl.
  - reflexivity.
  - rewrite IH. ring.
Qed.

Lemma convWeight_cons_r (w : Z -> Q) (pos : Z) (bs xs : list Q) (x : Q) :
  convWeight w pos bs (x :: xs)
  == x * denseWeight w pos bs + convWeight w (pos + 1) bs xs.
Proof.
  revert pos. induction bs as [|b bs IH]; intros pos; simpl.
  - ring.
  - rewrite IH. ring.
Qed.

Lemma convWeight_comm (w : Z -> Q) (pos : Z) (xs bs : list Q) :
  convWeight w pos xs bs == convWeight w pos bs xs.
Proof.
  revert pos. induction xs as [|x xs IH]; intros pos.
  - rewrite convWeight_nil_r. reflexivity.
  - rewrite convWeight_cons_r. simpl. rewrite IH. reflexivity.
Qed.

Lemma denseWeight_below (t pos : Z) (vs : list Q) :
  (t < pos)%Z ->
  denseWeight (fun z => if (z =? t)%Z then 1 else 0) pos vs == 0.
Proof.
  revert pos. induction vs as [|v vs IH]; intros pos Hlt; simpl.
  - reflexivity.
  - rewrite IH by lia. destruct (Z.eqb_spec pos t); [lia|]. ring.
Qed.

(** Two dense arrays of the same length that every weight function
    weighs alike hold equal cells. *)
Lemma cells_equal (off : Z) (vs vs' : list Q) :
  length vs = length vs' ->
  (forall w, denseWeight w off vs == denseWeight w off vs') ->
  Forall2 Qeq vs vs'.
Proof.
  revert off vs'. induction vs as [|v vs IH]; intros off [|v' vs'] Hlen Hw;
    try discriminate.
  - constructor.
  - assert (Hv : v == v').
    { specialize (Hw (fun z => if (z =? off)%Z then 1 else 0)). simpl in Hw.
      rewrite !denseWeight_below in Hw by lia.
      rewrite Z.eqb_refl in Hw. lra. }
    constructor; [exact Hv|].
    apply (IH (off + 1)%Z).
    + simpl in Hlen. lia.
    + intros w. specialize (Hw w). simpl in Hw. rewrite Hv in Hw. lra.
Qed.

Lemma nearZero_compat (v v' : Q) : v == v' -> nearZero v = nearZero v'.
Proof.
  intros H. unfold nearZero. apply Qle_bool_compat; [|reflexivity].
  rewrite H. reflexivity.
Qed.

Lemma denseEntries_compat (off idx : Z) (vs vs' : list Q) :
  Forall2 Qeq vs vs' ->
  sameEntries (denseEntries off idx vs) (denseEntries off idx vs').
Proof.
  intros H. revert idx. induction H as [|v v' vs vs' Hv _ IH]; intros idx; simpl.
  - constructor.
  - rewrite (nearZero_compat v v' Hv).
    destruct (nearZero v'); [apply IH|].
    constructor; [|apply IH]. split; [reflexivity|exact Hv].
Qed.

Lemma denseEntries_prune (off idx : Z) (vs : list Q) :
  denseEntries off idx (prune vs) = denseEntries off idx vs.
Proof.
  revert idx. induction vs as [|v vs IH]; intros idx; simpl.
  - reflexivity.
  - destruct (nearZero v) eqn:Hv.
    + change (nearZero 0) with true. cbv iota. apply IH.
    + rewrite Hv, IH. reflexivity.
Qed.

Lemma denseEntries_offset (off k idx : Z) (vs : list Q) :
  denseEntries (off + k) idx vs
  = List.map (fun e => mkEntry (outcome e + k) (probability e))
      (denseEntries off idx vs).
Proof.
  revert idx. induction vs as [|v vs IH]; intros idx; simpl.
  - reflexivity.
  - destruct (nearZero v); rewrite IH; [reflexivity|].
    simpl. f_equal. f_equal. lia.
Qed.

Lemma fromDense_compat (D D' : DenseDistribution) :
  offset D = offset D' ->
  Forall2 Qeq (values D) (values D') ->
  sameDistribution (fromDense D) (fromDense D').
Proof.
  intros Hoff Hv. unfold sameDistribution. rewrite !fromDense_entries, Hoff.
  apply (sameEntries_map zeroPlus zeroPlus).
  - intros e e' Ho Hp. simpl. split; [exact Ho|]. rewrite Hp. reflexivity.
  - apply denseEntries_compat. exact Hv.
Qed.

Lemma sameDistribution_weight (w : Z -> Q) (d d' : ProbabilityDistribution) :
  sameDistribution d d' -> weight w (entries d) == weight w (entries d').
Proof. apply sameEntries_weight. Qed.

Lemma fromDense_consistent (D : DenseDistribution) : consistent (fromDense D).
Proof. apply normalize_consistent. Qed.

(** X13.  [convolve] is commutative: the sum of two independent draws
    does not depend on the order of the operands (the numbers being exact
    rationals).  Both orders give the same outcomes with equal
    probabilities, hence the same total and the same expectation. *)
Theorem convolve_commutative (a b : ProbabilityDistribution) :
  ascending (entries a) ->
  ascending (entries b) ->
  sameDistribution (convolve a b) (convolve b a) /\
  totalProbability (convolve a b) == totalProbability (convolve b a) /\
  expectation (convolve a b) == expectation (convolve b a).
Proof.
  intros Ha Hb.
  destruct (toDense_weight one a Ha) as [Hla _].
  destruct (toDense_weight one b Hb) as [Hlb _].
  assert (Hsame : sameDistribution (convolve a b) (convolve b a)).
  { unfold convolve. apply fromDense_compat.
    - simpl. lia.
    - apply (cells_equal (offset (toDense a) + offset (toDense b))).
      + destruct (convolveDense_weight one (toDense a) (toDense b) Hlb) as [-> _].
        destruct (convolveDense_weight one (toDense b) (toDense a) Hla) as [-> _].
        lia.
      + intros w.
        destruct (convolveDense_weight w (toDense a) (toDense b) Hlb) as [_ Hab].
        destruct (convolveDense_weight w (toDense b) (toDense a) Hla) as [_ Hba].
        change (offset (convolveDense (toDense a) (toDense b)))
          with (offset (toDense a) + offset (toDense b))%Z in Hab.
        change (offset (convolveDense (toDense b) (toDense a)))
          with (offset (toDense b) + offset (toDense a))%Z in Hba.
        rewrite (Z.add_comm (offset (toDense b))) in Hba.
        rewrite Hab, Hba. apply convWeight_comm. }
  split; [exact Hsame|]. split.
  - destruct (fromDense_consistent (convolveDense (toDense a) (toDense b))) as [_ ->].
    destruct (fromDense_consistent (convolveDense (toDense b) (toDense a))) as [_ ->].
    apply (sameDistribution_weight one _ _ Hsame).
  - rewrite !expectation_weight. apply (sameDistribution_weight inject_Z _ _ Hsame).
Qed.

Lemma convolve_commutative_witness :
  sameDistribution (convolve (constant 3) (constant 2))
    (convolve (constant 2) (constant 3)) /\
  totalProbability (convolve (constant 3) (constant 2))
  == totalProbability (convolve (constant 2) (constant 3)) /\
  expectation (convolve (constant 3) (constant 2))
  == expectation (convolve (constant 2) (constant 3)).
Proof.
  apply (convolve_commutative (constant 3) (constant 2)).
  - apply (constant_normalized 3).
  - apply (constant_normalized 2).
Defined.

Lemma toDense_constant (k : Z) : toDense (constant k) = mkDense k [0 + 1].
Proof.
  unfold toDense, constant. cbn [normalize accumulate fold_left accumulateStep
    outcome probability map_get map_set List.map fst snd sortByOutcome fold_right
    insertEntry entries last].
  rewrite Z.sub_diag. reflexivity.
Qed.

Lemma convWeight_single (w : Z -> Q) (pos : Z) (u : Q) (bs : list Q) :
  convWeight w pos [u] bs == u * denseWeight w pos bs.
Proof. simpl. ring. Qed.

(** X14.  Adding a constant by [convolve] is [shift], up to the pruning
    of the dense form: [convolve (constant k) d] holds the entries of [d]
    whose probability exceeds [PROBABILITY_EPSILON] in magnitude, each
    moved by [k].  With [k = 0], the seed of every accumulation loop of
    the domain model, those entries come back as they are. *)
Theorem convolve_constant (d : ProbabilityDistribution) (k : Z) :
  ascending (entries d) ->
  sameDistribution (convolve (constant k) d)
    (shift (fromEntries (filter significant (entries d))) k) /\
  sameDistribution (convolve (constant 0) d)
    (fromEntries (filter significant (entries d))).
Proof.
  intros Hasc.
  destruct (toDense_weight one d Hasc) as [Hld _].
  assert (Hcells : forall c,
             Forall2 Qeq (values (convolveDense (toDense (constant c)) (toDense d)))
               (prune (values (toDense d)))).
  { intros c. apply (cells_equal (c + offset (toDense d))).
    - destruct (convolveDense_weight one (toDense (constant c)) (toDense d) Hld)
        as [-> _].
      rewrite toDense_constant, prune_length. simpl. lia.
    - intros w.
      destruct (convolveDense_weight w (toDense (constant c)) (toDense d) Hld)
        as [_ H].
      rewrite toDense_constant in H. cbn [offset values prune List.map] in H.
      change (nearZero (0 + 1)) with false in H. cbv iota in H.
      rewrite convWeight_single in H.
      rewrite toDense_constant. cbn [offset convolveDense].
      cbn [offset] in H. rewrite H. ring. }
  assert (Hentries : forall c,
             sameEntries (entries (convolve (constant c) d))
               (List.map (fun e => mkEntry (outcome e + c) (probability e))
                  (filter significant (entries d)))).
  { intros c. unfold convolve. rewrite fromDense_entries.
    apply (sameEntries_trans _ _ _ (sameEntries_zeroPlus _)).
    apply (sameEntries_trans _
             (denseEntries (offset (convolveDense (toDense (constant c)) (toDense d)))
                0 (prune (values (toDense d))))).
    - apply denseEntries_compat. apply Hcells.
    - rewrite denseEntries_prune. rewrite toDense_constant. cbn [offset convolveDense].
      rewrite (Z.add_comm c), denseEntries_offset, (toDense_entries d Hasc).
      apply sameEntries_refl. }
  pose proof (ascending_filter significant _ Hasc) as Hf.
  split.
  - unfold sameDistribution, shift, fromEntries.
    apply (sameEntries_trans _ _ _ (Hentries k)).
    rewrite (normalize_entries (filter significant (entries d)) Hf).
    assert (Hz : ascending (List.map zeroPlus (filter significant (entries d)))).
    { rewrite <- (normalize_entries _ Hf). apply normalize_ascending. }
    rewrite (normalize_entries _ (ascending_shift k _ Hz)).
    apply sameEntries_sym.
    apply (sameEntries_trans _ _ _ (sameEntries_zeroPlus _)).
    apply (sameEntries_map
             (fun e => mkEntry (outcome e + k) (probability e))
             (fun e => mkEntry (outcome e + k) (probability e))).
    + intros e e' Ho Hp. simpl. split; [congruence|exact Hp].
    + apply sameEntries_zeroPlus.
  - unfold sameDistribution, fromEntries.
    apply (sameEntries_trans _ _ _ (Hentries 0%Z)).
    rewrite (normalize_entries (filter significant (entries d)) Hf).
    apply sameEntries_sym.
    apply (sameEntries_trans _ _ _ (sameEntries_zeroPlus _)).
    clear. induction (filter significant (entries d)) as [|e es IH]; simpl;
      constructor; auto.
    split; simpl; [lia|reflexivity].
Qed.

Lemma convolve_constant_witness :
  sameDistribution (convolve (constant 2) (constant 3))
    (shift (fromEntries (filter significant (entries (constant 3)))) 2) /\
  sameDistribution (convolve (constant 0) (constant 3))
    (fromEntries (filter significant (entries (constant 3)))).
Proof.
  apply (convolve_constant (constant 3) 2). apply (constant_normalized 3).
Defined.

(* ================================================================== *)
(** * Further properties of the attack roll *)

(** ** When the attack roll returns *)




(** ** The armor class and the attack bonus *)

Lemma faceChance_valid (config : AttackRollRuleConfig) (lucky : bool)
  (adv : AdvantageState) (f : nat) :
  validRules config = true ->
  In f (seq 1 (loopCount (dieSides config))) ->
  0 <= probabilityOfFace (buildSingleDieDistribution (dieSides config) lucky) f adv.
Proof.
  intros Hr Hf. destruct (validRules_spec _ Hr) as [Hi Hp].
  destruct (singleDie_full (dieSides config) lucky Hi Hp) as [Hn Hfull].
  apply in_seq in Hf.
  rewrite probabilityOfFace_spec by (rewrite singleDie_length; lia).
  apply (faceChance_nonneg _ _ (loopCount (dieSides config)));
    [exact Hfull| |lia].
  intros k Hk. apply singleDie_positive; assumption.
Qed.

(** Two runs of the face loop, the second with a chance to hit that is
    nowhere higher. *)
Lemma faceLoop_le (input input' : AttackCheckInput)
  (bonus bonus' : ProbabilityDistribution) (dist : list Q) (faces : list nat)
  (acc acc' : AttackOutcomeProbabilities) :
  rules input' = rules input ->
  advantageState input' = advantageState input ->
  (forall f, In f faces ->
     0 <= probabilityOfFace dist f (advantageState input)) ->
  (forall f, In f faces ->
     probabilityAtLeast bonus' (armorClass input' - inject_Z (Z.of_nat f))
     <= probabilityAtLeast bonus (armorClass input - inject_Z (Z.of_nat f))) ->
  hit acc' <= hit acc -> miss acc <= miss acc' -> critical acc' == critical acc ->
  let r := fold_left (faceStep input bonus dist) faces acc in
  let r' := fold_left (faceStep input' bonus' dist) faces acc' in
  hit r' <= hit r /\ miss r <= miss r' /\ critical r' == critical r.
Proof.
  intros Hrules Hadv. revert acc acc'.
  induction faces as [|f faces IH]; intros acc acc' Hc Hp Hh Hm Hk; simpl.
  - auto.
  - specialize (Hc f (or_introl eq_refl)) as Hcf.
    specialize (Hp f (or_introl eq_refl)) as Hpf.
    apply IH.
    + intros; apply Hc; right; assumption.
    + intros; apply Hp; right; assumption.
    + unfold faceStep. rewrite Hrules, Hadv.
      destruct (setHas (autoMissFaces (rules input)) f); simpl; [exact Hh|].
      destruct (setHas (autoCritFaces (rules input)) f); simpl; [exact Hh|].
      nra.
    + unfold faceStep. rewrite Hrules, Hadv.
      destruct (setHas (autoMissFaces (rules input)) f); simpl; [lra|].
      destruct (setHas (autoCritFaces (rules input)) f); simpl; [exact Hm|].
      nra.
    + unfold faceStep. rewrite Hrules, Hadv.
      destruct (setHas (autoMissFaces (rules input)) f); simpl; [exact Hk|].
      destruct (setHas (autoCritFaces (rules input)) f); simpl; [|exact Hk].
      rewrite Hk. reflexivity.
Qed.

Lemma withArmorClass_ok (input : AttackCheckInput) (ac : Q)
  (bonus : ProbabilityDistribution) :
  validRules (rules input) = true ->
  buildAttackBonusDistribution (attackBonusExpression input) = Ok bonus ->
  calculateAttackOutcomeProbabilities (withArmorClass input ac)
  = Ok (fold_left
          (faceStep (withArmorClass input ac) bonus
             (buildSingleDieDistribution (dieSides (rules input))
                (isTrue (halflingLucky input))))
          (seq 1 (loopCount (dieSides (rules input)))) (mkOutcome 0 0 0)).
Proof.
  intros Hr Hb.
  apply (calculateAttackOutcomeProbabilities_ok (withArmorClass input ac) bonus Hr Hb).
Qed.

(** X16.  A higher armor class never helps the attacker: between two
    inputs that differ in the armor class only, the one with the higher
    armor class has a chance to hit that is not higher, a chance to miss
    that is not lower, and the same chance of a critical hit. *)
Theorem armorClass_monotone (input : AttackCheckInput) (ac ac' : Q) :
  validRules (rules input) = true ->
  validExpression (attackBonusExpression input) = true ->
  ac <= ac' ->
  exists o o',
    calculateAttackOutcomeProbabilities (withArmorClass input ac) = Ok o /\
    calculateAttackOutcomeProbabilities (withArmorClass input ac') = Ok o' /\
    hit o' <= hit o /\ miss o <= miss o' /\ critical o' == critical o.
Proof.
  intros Hr He Hac.
  destruct (buildAttackBonusDistribution_ok _ He) as [bonus Hb].
  rewrite (withArmorClass_ok input ac bonus Hr Hb).
  rewrite (withArmorClass_ok input ac' bonus Hr Hb).
  do 2 eexists. split; [reflexivity|]. split; [reflexivity|].
  apply faceLoop_le; try reflexivity; simpl; try apply Qle_refl.
  - intros f Hf. apply faceChance_valid; assumption.
  - intros f _. apply probabilityAtLeast_antitone.
    + apply (buildAttackBonusDistribution_subdist _ _ He Hb).
    + lra.
Qed.

Lemma armorClass_monotone_witness :
  exists o o',
    calculateAttackOutcomeProbabilities
      (withArmorClass (mkAttack 15 (Components [Constant 5]) AdvNormal
                         (mkRules 20 [1] [20]) None) 12) = Ok o /\
    calculateAttackOutcomeProbabilities
      (withArmorClass (mkAttack 15 (Components [Constant 5]) AdvNormal
                         (mkRules 20 [1] [20]) None) 18) = Ok o' /\
    hit o' <= hit o /\ miss o <= miss o' /\ critical o' == critical o.
Proof.
  apply (armorClass_monotone
           (mkAttack 15 (Components [Constant 5]) AdvNormal (mkRules 20 [1] [20]) None)
           12 18); [reflexivity|reflexivity|discriminate].
Defined.

Lemma foldResult_app {A B : Type} (body : A -> B -> Result A) (xs ys : list B)
  (acc : A) :
  foldResult body (xs ++ ys) acc
  = (r <- foldResult body xs acc ;; foldResult body ys r).
Proof.
  revert acc. induction xs as [|x xs IH]; intros acc; simpl.
  - reflexivity.
  - destruct (body acc x) as [a|m]; simpl; [apply IH|reflexivity].
Qed.

Lemma asComponents_appendConstant (e : Expression) (k : Z) :
  asComponents (appendConstant e k) = asComponents e ++ [Constant k].
Proof. destruct e; reflexivity. Qed.

Lemma probabilityAtLeast_compat (d : ProbabilityDistribution) (t t' : Q) :
  t == t' -> probabilityAtLeast d t = probabilityAtLeast d t'.
Proof.
  intros H. unfold probabilityAtLeast. f_equal. apply filter_ext_in.
  intros e _. apply Qle_bool_compat; [exact H|reflexivity].
Qed.

(** X17.  A constant appended to the attack-bonus expression, which is
    what [makeAttackBonusEffect] does, acts as the same reduction of the
    armor class: both inputs give equal probabilities of a miss, a hit and
    a critical hit. *)
Theorem attackBonus_constant (input : AttackCheckInput) (bonusDelta : Z) :
  validRules (rules input) = true ->
  validExpression (attackBonusExpression input) = true ->
  exists o o',
    calculateAttackOutcomeProbabilities
      (withAttackBonus input
         (appendConstant (attackBonusExpression input) bonusDelta)) = Ok o /\
    calculateAttackOutcomeProbabilities
      (withArmorClass input (armorClass input - inject_Z bonusDelta)) = Ok o' /\
    sameOutcome o o'.
Proof.
  intros Hr He.
  destruct (buildAttackBonusDistribution_ok _ He) as [bonus Hb].
  assert (Hb' : buildAttackBonusDistribution
                  (appendConstant (attackBonusExpression input) bonusDelta)
                = Ok (shift bonus bonusDelta)).
  { unfold buildAttackBonusDistribution in *.
    rewrite asComponents_appendConstant, foldResult_app, Hb. reflexivity. }
  rewrite (withArmorClass_ok input _ bonus Hr Hb).
  rewrite (calculateAttackOutcomeProbabilities_ok
             (withAttackBonus input
                (appendConstant (attackBonusExpression input) bonusDelta))
             (shift bonus bonusDelta) Hr Hb').
  do 2 eexists. split; [reflexivity|]. split; [reflexivity|].
  cbn [rules withAttackBonus withArmorClass halflingLucky].
  assert (Hsame : forall f,
             probabilityAtLeast (shift bonus bonusDelta)
               (armorClass input - inject_Z (Z.of_nat f))
             == probabilityAtLeast bonus
                  (armorClass input - inject_Z bonusDelta - inject_Z (Z.of_nat f))).
  { intros f.
    rewrite (probabilityAtLeast_compat _
               (armorClass input - inject_Z (Z.of_nat f))
               (armorClass input - inject_Z bonusDelta - inject_Z (Z.of_nat f)
                + inject_Z bonusDelta)) by ring.
    apply probabilityAtLeast_shift. }
  assert (Hchance : forall f,
             In f (seq 1 (loopCount (dieSides (rules input)))) ->
             0 <= probabilityOfFace
                    (buildSingleDieDistribution (dieSides (rules input))
                       (isTrue (halflingLucky input))) f (advantageState input))
    by (intros f Hf; apply faceChance_valid; assumption).
  destruct (faceLoop_le
              (withAttackBonus input
                 (appendConstant (attackBonusExpression input) bonusDelta))
              (withArmorClass input (armorClass input - inject_Z bonusDelta))
              (shift bonus bonusDelta) bonus
              (buildSingleDieDistribution (dieSides (rules input))
                 (isTrue (halflingLucky input)))
              (seq 1 (loopCount (dieSides (rules input))))
              (mkOutcome 0 0 0) (mkOutcome 0 0 0) eq_refl eq_refl Hchance)
    as (H1 & H2 & H3); simpl; try apply Qle_refl; try reflexivity.
  { intros f _. rewrite Hsame. apply Qle_refl. }
  destruct (faceLoop_le
              (withArmorClass input (armorClass input - inject_Z bonusDelta))
              (withAttackBonus input
                 (appendConstant (attackBonusExpression input) bonusDelta))
              bonus (shift bonus bonusDelta)
              (buildSingleDieDistribution (dieSides (rules input))
                 (isTrue (halflingLucky input)))
              (seq 1 (loopCount (dieSides (rules input))))
              (mkOutcome 0 0 0) (mkOutcome 0 0 0) eq_refl eq_refl Hchance)
    as (H4 & H5 & H6); simpl; try apply Qle_refl; try reflexivity.
  { intros f _. rewrite Hsame. apply Qle_refl. }
  unfold sameOutcome. repeat split.
  - apply Qle_antisym; assumption.
  - apply Qle_antisym; assumption.
  - symmetry. exact H3.
Qed.

Lemma attackBonus_constant_witness :
  exists o o',
    calculateAttackOutcomeProbabilities
      (withAttackBonus
         (mkAttack 15 (Components [Constant 5]) AdvNormal (mkRules 20 [1] [20]) None)
         (appendConstant (Components [Constant 5]) 2)) = Ok o /\
    calculateAttackOutcomeProbabilities
      (withArmorClass
         (mkAttack 15 (Components [Constant 5]) AdvNormal (mkRules 20 [1] [20]) None)
         (15 - inject_Z 2)) = Ok o' /\
    sameOutcome o o'.
Proof.
  apply (attackBonus_constant
           (mkAttack 15 (Components [Constant 5]) AdvNormal (mkRules 20 [1] [20]) None)
           2); reflexivity.
Defined.

(** ** The single-roll closed form *)

Lemma clamp01_spec (v : Q) :
  (v <= 0 /\ clamp01 v == 0) \/
  (0 <= v <= 1 /\ clamp01 v == v) \/
  (1 <= v /\ clamp01 v == 1).
Proof.
  pose proof (clamp01_cases v) as H.
  destruct (Qlt_le_dec v 0) as [Hneg|Hnn].
  - left. split; [lra|exact H].
  - destruct (Qlt_le_dec 1 v) as [Hbig|Hsmall].
    + right; right. split; [lra|exact H].
    + right; left. split; [lra|exact H].
Qed.

Lemma clamp01_monotone (u v : Q) : u <= v -> clamp01 u <= clamp01 v.
Proof.
  intros H.
  destruct (clamp01_spec u) as [[? ->]|[[? ->]|[? ->]]];
    destruct (clamp01_spec v) as [[? ->]|[[? ->]|[? ->]]]; lra.
Qed.

Lemma singleRoll_sum (armorClass attackBonus criticalThreshold : Q) :
  let o :=
    calculateSingleRollAttackProbabilities armorClass attackBonus criticalThreshold in
  0 <= miss o <= 1 /\ 0 <= hit o <= 1 /\ 0 <= critical o <= 1 /\
  miss o + hit o + critical o == 1.
Proof.
  cbv zeta. unfold calculateSingleRollAttackProbabilities. cbn [miss hit critical].
  set (t := armorClass - attackBonus).
  set (x := (21 - criticalThreshold) / 20).
  set (y := Math_max 0 (criticalThreshold - Math_max 2 t) / 20).
  assert (Hx : 20 * x == 21 - criticalThreshold) by (unfold x; field).
  assert (Hy : 20 * y == Math_max 0 (criticalThreshold - Math_max 2 t))
    by (unfold y; field).
  assert (Hm : 2 <= Math_max 2 t)
    by (destruct (Math_max_spec 2 t) as [[? ->]|[? ->]]; lra).
  assert (Hy' : 0 <= 20 * y /\
                (20 * y == 0 \/ 20 * y == criticalThreshold - Math_max 2 t)).
  { rewrite Hy.
    destruct (Math_max_spec 0 (criticalThreshold - Math_max 2 t))
      as [[H ->]|[H ->]].
    - split; [lra|right; reflexivity].
    - split; [lra|left; reflexivity]. }
  pose proof (clamp01_range (1 - clamp01 x - clamp01 y)) as Hr.
  pose proof (clamp01_range x) as Hrx.
  pose proof (clamp01_range y) as Hry.
  repeat split; try lra.
  destruct (clamp01_spec x) as [[Hx0 Ex]|[[Hx0 Ex]|[Hx0 Ex]]];
    destruct (clamp01_spec y) as [[Hy0 Ey]|[[Hy0 Ey]|[Hy0 Ey]]];
    destruct (clamp01_spec (1 - clamp01 x - clamp01 y))
      as [[Hz0 Ez]|[[Hz0 Ez]|[Hz0 Ez]]];
    rewrite ?Ex, ?Ey, ?Ez in *; destruct Hy' as [Hy1 [Hy2|Hy2]]; lra.
Qed.

(** X18.  The closed form [calculateSingleRollAttackProbabilities] gives
    three probabilities for every armor class, attack bonus and critical
    threshold: each lies in [0, 1] and they add up to 1. *)
Theorem singleRoll_probabilities (armorClass attackBonus criticalThreshold : Q) :
  let o :=
    calculateSingleRollAttackProbabilities armorClass attackBonus criticalThreshold in
  0 <= miss o <= 1 /\ 0 <= hit o <= 1 /\ 0 <= critical o <= 1 /\
  miss o + hit o + critical o == 1.
Proof. apply singleRoll_sum. Qed.

(** ** Damage modifiers on a distribution *)

Lemma weight_le (w w' : Z -> Q) (es : list DistributionEntry) :
  nonnegEntries es -> (forall o, w o <= w' o) -> weight w es <= weight w' es.
Proof.
  intros Hnn Hw. induction Hnn as [|e es He _ IH].
  - apply Qle_refl.
  - rewrite !weight_cons. cbv beta in He. specialize (Hw (outcome e)). nra.
Qed.

Lemma mapOutcomes_expectation (d : ProbabilityDistribution) (f : Z -> Z) :
  expectation (mapOutcomes d f) == weight (fun o => inject_Z (f o)) (entries d).
Proof.
  unfold mapOutcomes. rewrite expectation_weight, normalize_weight.
  apply (relabel_weight inject_Z f).
Qed.

Lemma applyDamageModifier_integer (o : Z) (m : DamageModifier) :
  applyDamageModifier (inject_Z o) m
  = match m with
    | Immune => 0%Z
    | Resistant => (Z.max 0 o / 2)%Z
    | Vulnerable => (Z.max 0 o * 2)%Z
    | ModNormal => Z.max 0 o
    end.
Proof.
  unfold applyDamageModifier. rewrite Qfloor_Z.
  destruct m; try reflexivity. apply Qfloor_half.
Qed.

(** X19.  Applied to a distribution of non-negative probabilities, the
    damage modifiers order the expected damage: an immune target takes 0,
    a resistant one at most what a normal one takes, a vulnerable one
    exactly twice that; none of them changes the total probability, and a
    normal target takes the raw expectation when no outcome is negative. *)
Theorem applyModifierToDistribution_order (d : ProbabilityDistribution) :
  consistent d ->
  nonnegEntries (entries d) ->
  let after := fun m => applyModifierToDistribution d m in
  expectation (after Immune) == 0 /\
  0 <= expectation (after Resistant) /\
  expectation (after Resistant) <= expectation (after ModNormal) /\
  expectation (after Vulnerable) == 2 * expectation (after ModNormal) /\
  (forall m, totalProbability (after m) == totalProbability d) /\
  (nonnegOutcomes (entries d) -> expectation (after ModNormal) == expectation d).
Proof.
  intros [Hasc Htot] Hnn. cbv zeta. unfold applyModifierToDistribution.
  rewrite !mapOutcomes_expectation. repeat split.
  - rewrite (weight_ext _ (fun _ => 0 * one 0%Z)).
    + rewrite weight_scale. ring.
    + intros o. rewrite applyDamageModifier_integer. unfold one. reflexivity.
  - rewrite <- (Qmult_0_l (weight one (entries d))), <- weight_scale.
    apply weight_le; [exact Hnn|]. intros o.
    rewrite applyDamageModifier_integer. unfold one.
    change (0 * 1) with (inject_Z 0). rewrite <- Zle_Qle.
    apply Z.div_pos; lia.
  - apply weight_le; [exact Hnn|]. intros o.
    rewrite !applyDamageModifier_integer. rewrite <- Zle_Qle.
    apply Z.div_le_upper_bound; lia.
  - rewrite <- weight_scale. apply weight_ext. intros o.
    rewrite !applyDamageModifier_integer, inject_Z_mult. ring.
  - intros m. unfold mapOutcomes. rewrite normalize_total, Htot.
    apply (relabel_weight_one (fun o => applyDamageModifier (inject_Z o) m)).
  - intros Hout. rewrite expectation_weight.
    unfold weight. apply qsum_map_ext. intros e He.
    unfold nonnegOutcomes in Hout. rewrite Forall_forall in Hout.
    specialize (Hout e He). rewrite applyDamageModifier_integer.
    rewrite Z.max_r by lia. reflexivity.
Qed.

Lemma applyModifierToDistribution_order_witness :
  consistent (constant 7) /\ nonnegEntries (entries (constant 7)) /\
  let after := fun m => applyModifierToDistribution (constant 7) m in
  expectation (after Immune) == 0 /\
  0 <= expectation (after Resistant) /\
  expectation (after Resistant) <= expectation (after ModNormal) /\
  expectation (after Vulnerable) == 2 * expectation (after ModNormal) /\
  (forall m, totalProbability (after m) == totalProbability (constant 7)) /\
  (nonnegOutcomes (entries (constant 7)) ->
   expectation (after ModNormal) == expectation (constant 7)).
Proof.
  destruct (constant_normalized 7) as [Hc [Hn _]].
  split; [exact Hc|]. split; [exact Hn|].
  apply (applyModifierToDistribution_order (constant 7) Hc Hn).
Defined.

(** ** Saving throws *)

(** X20.  The chance to save lies in [0, 1]; it is 1 as soon as the
    difficulty class exceeds the bonus by at most 1 and 0 as soon as it
    exceeds it by more than 20, with no face of the die that always
    succeeds or always fails; and a higher save bonus never lowers it. *)
Theorem calculateSaveSuccessProbability_range (input : SaveCheckInput) :
  let p := calculateSaveSuccessProbability input in
  0 <= p <= 1 /\
  (difficultyClass input - saveBonus input <= 1 -> p == 1) /\
  (20 < difficultyClass input - saveBonus input -> p == 0) /\
  (forall bonus',
     saveBonus input <= bonus' ->
     p <= calculateSaveSuccessProbability (mkSave (difficultyClass input) bonus')).
Proof.
  cbv zeta. unfold calculateSaveSuccessProbability. cbn [difficultyClass saveBonus].
  set (t := difficultyClass input - saveBonus input).
  split; [apply clamp01_range|]. split; [|split].
  - intros Ht.
    assert (Hc : (Qceiling t <= 1)%Z).
    { change 1%Z with (Qceiling 1). apply Qceiling_resp_le. exact Ht. }
    rewrite Zle_Qle in Hc. change (inject_Z 1) with 1 in Hc.
    destruct (clamp01_spec ((21 - inject_Z (Qceiling t)) / 20))
      as [[H ->]|[[H ->]|[H ->]]]; try reflexivity;
      assert (E : 20 * ((21 - inject_Z (Qceiling t)) / 20)
                  == 21 - inject_Z (Qceiling t)) by field; lra.
  - intros Ht.
    assert (Hc : (21 <= Qceiling t)%Z).
    { pose proof (Qle_ceiling t) as Hle.
      assert (Hlt : inject_Z 20 < inject_Z (Qceiling t))
        by (change (inject_Z 20) with 20; lra).
      rewrite <- Zlt_Qlt in Hlt. lia. }
    rewrite Zle_Qle in Hc. change (inject_Z 21) with 21 in Hc.
    destruct (clamp01_spec ((21 - inject_Z (Qceiling t)) / 20))
      as [[H ->]|[[H ->]|[H ->]]]; try reflexivity;
      assert (E : 20 * ((21 - inject_Z (Qceiling t)) / 20)
                  == 21 - inject_Z (Qceiling t)) by field; lra.
  - intros bonus' Hb. apply clamp01_monotone.
    assert (Hc : (Qceiling (difficultyClass input - bonus') <= Qceiling t)%Z)
      by (apply Qceiling_resp_le; unfold t; lra).
    rewrite Zle_Qle in Hc.
    assert (E : forall z, 20 * ((21 - z) / 20) == 21 - z) by (intros; field).
    pose proof (E (inject_Z (Qceiling t))).
    pose proof (E (inject_Z (Qceiling (difficultyClass input - bonus')))).
    lra.
Qed.

(** X21.  The expected damage of a saving throw is a weighted average of
    the two means: the chances to fail and to save lie in [0, 1] and add
    up to 1, and the expected damage lies between the lower and the
    higher of the two means. *)
Theorem calculateSaveExpectedDamage_between (input : SaveCheckInput)
  (failDamageMean successDamageMean : Q) :
  let r := calculateSaveExpectedDamage input failDamageMean successDamageMean in
  0 <= saveFailProbability r <= 1 /\
  0 <= saveSuccessProbability r <= 1 /\
  saveFailProbability r + saveSuccessProbability r == 1 /\
  Qmin failDamageMean successDamageMean <= expectedDamage r /\
  expectedDamage r <= Qmax failDamageMean successDamageMean.
Proof.
  cbv zeta. unfold calculateSaveExpectedDamage.
  cbn [saveFailProbability saveSuccessProbability expectedDamage].
  pose proof (clamp01_range
                ((21 - inject_Z (Qceiling (difficultyClass input - saveBonus input)))
                 / 20)) as Hp.
  fold (calculateSaveSuccessProbability input) in Hp.
  set (p := calculateSaveSuccessProbability input) in *.
  pose proof (Q.le_min_l failDamageMean successDamageMean).
  pose proof (Q.le_min_r failDamageMean successDamageMean).
  pose proof (Q.le_max_l failDamageMean successDamageMean).
  pose proof (Q.le_max_r failDamageMean successDamageMean).
  repeat split; try lra; nra.
Qed.

(* ================================================================== *)
(** * Properties of the BG3 rule set *)

(** ** The critical threshold *)

Lemma normalizeCriticalThreshold_cases (threshold : Q) :
  normalizeCriticalThreshold threshold
  = inject_Z (Z.max 17 (Z.min 20 (Qfloor threshold))).
Proof.
  unfold normalizeCriticalThreshold, Math_max, Math_min.
  destruct (Qle_bool 20 (inject_Z (Qfloor threshold))) eqn:H20.
  - apply Qle_bool_iff in H20. change 20 with (inject_Z 20) in H20.
    rewrite <- Zle_Qle in H20.
    change (Qle_bool 17 20) with true. cbv iota.
    rewrite Z.min_l, Z.max_r by lia. reflexivity.
  - apply Qle_bool_false in H20. change 20 with (inject_Z 20) in H20.
    rewrite <- Zlt_Qlt in H20. rewrite Z.min_r by lia.
    destruct (Qle_bool 17 (inject_Z (Qfloor threshold))) eqn:H17.
    + apply Qle_bool_iff in H17. change 17 with (inject_Z 17) in H17.
      rewrite <- Zle_Qle in H17. rewrite Z.max_r by lia. reflexivity.
    + apply Qle_bool_false in H17. change 17 with (inject_Z 17) in H17.
      rewrite <- Zlt_Qlt in H17. rewrite Z.max_l by lia. reflexivity.
Qed.

Lemma criticalThreshold_range (threshold : Q) :
  let z := Z.max 17 (Z.min 20 (Qfloor threshold)) in
  z = 17%Z \/ z = 18%Z \/ z = 19%Z \/ z = 20%Z.
Proof. cbv zeta. lia. Qed.

Lemma Qeq_bool_inject (a b : Z) : Qeq_bool (inject_Z a) (inject_Z b) = (a =? b)%Z.
Proof.
  destruct (Z.eqb_spec a b) as [->|Hne].
  - apply Qeq_bool_iff. reflexivity.
  - destruct (Qeq_bool (inject_Z a) (inject_Z b)) eqn:E; [|reflexivity].
    apply Qeq_bool_iff in E. rewrite inject_Z_injective in E. contradiction.
Qed.

Lemma setHas_run (a : Z) (k face : nat) :
  setHas (List.map (fun i => inject_Z a + inject_Z (Z.of_nat i)) (seq 0 k)) face
  = ((a <=? Z.of_nat face)%Z && (Z.of_nat face <? a + Z.of_nat k)%Z).
Proof.
  unfold setHas. induction k as [|k IH].
  - simpl. destruct (Z.leb_spec a (Z.of_nat face)), (Z.ltb_spec (Z.of_nat face) (a + 0));
      try reflexivity; lia.
  - rewrite seq_S, map_app, existsb_app, IH. cbn [List.map existsb Nat.add].
    rewrite orb_false_r.
    rewrite (Qeq_bool_compat _ (inject_Z (a + Z.of_nat k)) _ (inject_Z (Z.of_nat face)))
      by (rewrite ?inject_Z_plus; reflexivity).
    rewrite Qeq_bool_inject.
    destruct (Z.leb_spec a (Z.of_nat face)),
      (Z.ltb_spec (Z.of_nat face) (a + Z.of_nat k)),
      (Z.ltb_spec (Z.of_nat face) (a + Z.of_nat (S k))),
      (Z.eqb_spec (a + Z.of_nat k) (Z.of_nat face)); try reflexivity; lia.
Qed.

Lemma buildCriticalFaces_has (threshold : Q) (face : nat) :
  setHas (buildCriticalFaces threshold) face
  = ((Z.max 17 (Z.min 20 (Qfloor threshold)) <=? Z.of_nat face)%Z
     && (Z.of_nat face <=? 20)%Z).
Proof.
  unfold buildCriticalFaces. rewrite normalizeCriticalThreshold_cases.
  set (z := Z.max 17 (Z.min 20 (Qfloor threshold))).
  assert (Hz : (17 <= z <= 20)%Z) by (unfold z; lia).
  assert (Hk : Qfloor (20 - inject_Z z) = (20 - z)%Z).
  { rewrite <- (Qfloor_Z (20 - z)). apply Qfloor_comp.
    unfold Z.sub. rewrite inject_Z_plus, inject_Z_opp. reflexivity. }
  rewrite Hk, setHas_run.
  destruct (Z.leb_spec z (Z.of_nat face)),
    (Z.ltb_spec (Z.of_nat face) (z + Z.of_nat (Z.to_nat (20 - z + 1)))),
    (Z.leb_spec (Z.of_nat face) 20); try reflexivity; lia.
Qed.

(** X22.  Whatever finite threshold it is given,
    [makeCriticalThresholdEffect] makes critical exactly the faces from
    [normalizeCriticalThreshold] to 20, and that bound is an integer
    between 17 and 20: face 20 is always critical, a face below 17 never,
    and the other fields of the rule config are left as they are. *)
Theorem criticalThreshold_faces (rules : AttackRollRuleConfig) (threshold : Q) :
  let z := Z.max 17 (Z.min 20 (Qfloor threshold)) in
  let rules' := applyCriticalThresholdToRules rules threshold in
  (17 <= z <= 20)%Z /\
  normalizeCriticalThreshold threshold = inject_Z z /\
  dieSides rules' = dieSides rules /\
  autoMissFaces rules' = autoMissFaces rules /\
  forall face,
    setHas (autoCritFaces rules') face
    = ((z <=? Z.of_nat face)%Z && (Z.of_nat face <=? 20)%Z).
Proof.
  cbv zeta. split; [lia|]. split; [apply normalizeCriticalThreshold_cases|].
  split; [reflexivity|]. split; [reflexivity|].
  intros face. apply buildCriticalFaces_has.
Qed.

(** ** The closed form against the face loop *)

Lemma faceLoop_parts (input : AttackCheckInput) (bonus : ProbabilityDistribution)
  (dist : list Q) (faces : list nat) (acc : AttackOutcomeProbabilities) :
  let r := fold_left (faceStep input bonus dist) faces acc in
  hit r
  == hit acc
     + qsum
         (List.map
            (fun f =>
               if setHas (autoMissFaces (rules input)) f then 0
               else if setHas (autoCritFaces (rules input)) f then 0
               else probabilityOfFace dist f (advantageState input)
                    * probabilityAtLeast bonus
                        (armorClass input - inject_Z (Z.of_nat f)))
            faces) /\
  critical r
  == critical acc
     + qsum
         (List.map
            (fun f =>
               if setHas (autoMissFaces (rules input)) f then 0
               else if setHas (autoCritFaces (rules input)) f
                    then probabilityOfFace dist f (advantageState input)
                    else 0)
            faces).
Proof.
  cbv zeta. revert acc. induction faces as [|f faces IH]; intros acc.
  - simpl. split; ring.
  - cbn [fold_left List.map qsum].
    destruct (IH (faceStep input bonus dist acc f)) as [-> ->].
    unfold faceStep.
    destruct (setHas (autoMissFaces (rules input)) f); simpl; [split; ring|].
    destruct (setHas (autoCritFaces (rules input)) f); simpl; split; ring.
Qed.

Lemma hitChance_constant (b ac : Z) (f : nat) :
  probabilityAtLeast (shift (constant 0) b)
    (inject_Z ac - inject_Z (Z.of_nat f))
  == if (ac - b <=? Z.of_nat f)%Z then 1 else 0.
Proof.
  unfold probabilityAtLeast, shift, constant. cbn.
  destruct (Z.leb_spec (ac - b) (Z.of_nat f)) as [Hle|Hgt].
  - assert (H : Qle_bool (inject_Z ac - inject_Z (Z.of_nat f)) (inject_Z b) = true).
    { apply Qle_bool_iff. rewrite Zle_Qle in Hle. unfold Z.sub in Hle.
      rewrite inject_Z_plus, inject_Z_opp in Hle. lra. }
    rewrite H. cbn. reflexivity.
  - assert (H : Qle_bool (inject_Z ac - inject_Z (Z.of_nat f)) (inject_Z b) = false).
    { apply Qle_bool_false. rewrite Zlt_Qlt in Hgt. unfold Z.sub in Hgt.
      rewrite inject_Z_plus, inject_Z_opp in Hgt. lra. }
    rewrite H. cbn. reflexivity.
Qed.

(** The faces of [a .. a + k - 1] that lie in [lo, hi). *)
Lemma count_range (lo hi : Z) (a k : nat) :
  qsum
    (List.map
       (fun f => if ((lo <=? Z.of_nat f)%Z && (Z.of_nat f <? hi)%Z) then 1 else 0)
       (seq a k))
  == inject_Z (Z.max 0 (Z.min hi (Z.of_nat (a + k)) - Z.max lo (Z.of_nat a))).
Proof.
  induction k as [|k IH].
  - simpl. replace (Z.max 0 _) with 0%Z by lia. reflexivity.
  - rewrite seq_S, map_app, qsum_app, IH. cbn [List.map qsum].
    destruct (Z.leb_spec lo (Z.of_nat (a + k))),
      (Z.ltb_spec (Z.of_nat (a + k)) hi); cbn [andb];
      rewrite ?Qplus_0_r; try (apply inject_Z_injective; lia).
    change 1 with (inject_Z 1). rewrite <- inject_Z_plus.
    apply inject_Z_injective. lia.
Qed.

Lemma Math_max_inject (x y : Q) (a c : Z) :
  x == inject_Z a -> y == inject_Z c -> Math_max x y == inject_Z (Z.max a c).
Proof.
  intros Hx Hy.
  destruct (Math_max_spec x y) as [[H ->]|[H ->]].
  - rewrite Hy. rewrite Hx, Hy, <- Zle_Qle in H. rewrite Z.max_r by lia. reflexivity.
  - rewrite Hx. rewrite Hx, Hy, <- Zlt_Qlt in H. rewrite Z.max_l by lia. reflexivity.
Qed.

Lemma setHas_one (f : nat) : setHas [1] f = (Z.of_nat f =? 1)%Z.
Proof.
  unfold setHas. cbn [existsb]. rewrite orb_false_r.
  change 1 with (inject_Z 1). rewrite Qeq_bool_inject. apply Z.eqb_sym.
Qed.

(** X23.  Under the BG3 rules (a d20, face 1 always missing, the faces
    from the critical threshold to 20 always critical), a normal roll
    without halfling luck against an integer armor class with a constant
    integer bonus gives, face by face, what the closed form
    [calculateSingleRollAttackProbabilities] gives; the chance of a
    critical hit is [(21 - threshold) / 20] for the normalized threshold. *)
Theorem singleRoll_agrees (ac b : Z) (threshold : Q) (bonus : Expression)
  (lucky : option bool) :
  asComponents bonus = [Constant b] ->
  isTrue lucky = false ->
  exists o,
    calculateAttackOutcomeProbabilities
      (mkAttack (inject_Z ac) bonus AdvNormal
         (applyCriticalThresholdToRules bg3AttackRules threshold) lucky) = Ok o /\
    sameOutcome o
      (calculateSingleRollAttackProbabilities (inject_Z ac) (inject_Z b)
         (normalizeCriticalThreshold threshold)) /\
    critical o == (21 - normalizeCriticalThreshold threshold) / 20.
Proof.
  intros Hb Hl.
  set (input := mkAttack (inject_Z ac) bonus AdvNormal
                  (applyCriticalThresholdToRules bg3AttackRules threshold) lucky).
  assert (Hr : validRules (rules input) = true) by reflexivity.
  assert (Hbonus : buildAttackBonusDistribution (attackBonusExpression input)
                   = Ok (shift (constant 0) b)).
  { unfold buildAttackBonusDistribution. cbn [input attackBonusExpression].
    rewrite Hb. reflexivity. }
  rewrite (calculateAttackOutcomeProbabilities_ok input _ Hr Hbonus).
  eexists. split; [reflexivity|].
  set (dist := buildSingleDieDistribution (dieSides (rules input))
                 (isTrue (halflingLucky input))).
  set (r := fold_left (faceStep input (shift (constant 0) b) dist)
              (seq 1 (loopCount (dieSides (rules input)))) (mkOutcome 0 0 0)).
  set (z := Z.max 17 (Z.min 20 (Qfloor threshold))).
  assert (Hz : (17 <= z <= 20)%Z) by (unfold z; lia).
  assert (Hn : normalizeCriticalThreshold threshold = inject_Z z)
    by apply normalizeCriticalThreshold_cases.
  assert (Hdist : forall f, In f (seq 1 20) ->
                    probabilityOfFace dist f AdvNormal == 1 / 20).
  { intros f Hf. apply in_seq in Hf. unfold probabilityOfFace, dist.
    cbn [input rules halflingLucky applyCriticalThresholdToRules bg3AttackRules
         dieSides].
    rewrite Hl. rewrite singleDie_nth.
    - reflexivity.
    - change (loopCount 20) with 20%nat. lia.
    - change (loopCount 20) with 20%nat. lia. }
  assert (Hflags : forall f,
             setHas (autoMissFaces (rules input)) f = (Z.of_nat f =? 1)%Z /\
             setHas (autoCritFaces (rules input)) f
             = ((z <=? Z.of_nat f)%Z && (Z.of_nat f <=? 20)%Z)).
  { intros f. split; [apply setHas_one|apply buildCriticalFaces_has]. }
  destruct (faceLoop_parts input (shift (constant 0) b) dist
              (seq 1 (loopCount (dieSides (rules input)))) (mkOutcome 0 0 0))
    as [Hhit Hcrit].
  fold r in Hhit, Hcrit. cbn [hit critical] in Hhit, Hcrit.
  change (loopCount (dieSides (rules input))) with 20%nat in Hhit, Hcrit.
  assert (Hsum : miss r + hit r + critical r == 1).
  { unfold r. rewrite faceLoop_sum. cbn [miss hit critical].
    unfold dist. rewrite faceChances_total; [ring|reflexivity|reflexivity]. }
  (* the critical hits *)
  assert (Hc : critical r == inject_Z (21 - z) / 20).
  { rewrite Hcrit, Qplus_0_l.
    rewrite (qsum_map_ext _
               (fun f => (if ((z <=? Z.of_nat f)%Z && (Z.of_nat f <? 21)%Z)
                          then 1 else 0) * (1 / 20))).
    - rewrite (qsum_map_scale
                 (fun f => if ((z <=? Z.of_nat f)%Z && (Z.of_nat f <? 21)%Z)
                           then 1 else 0)).
      rewrite count_range. replace (Z.max 0 _) with (21 - z)%Z by lia. field.
    - intros f Hf. destruct (Hflags f) as [-> ->].
      change (advantageState input) with AdvNormal.
      pose proof (Hdist f Hf) as Hd. apply in_seq in Hf.
      destruct (Z.eqb_spec (Z.of_nat f) 1), (Z.leb_spec z (Z.of_nat f)),
        (Z.leb_spec (Z.of_nat f) 20), (Z.ltb_spec (Z.of_nat f) 21);
        cbn [andb]; try lia; rewrite ?Hd; ring. }
  (* the hits *)
  assert (Hh : hit r == inject_Z (Z.max 0 (z - Z.max 2 (ac - b))) / 20).
  { rewrite Hhit, Qplus_0_l.
    rewrite (qsum_map_ext _
               (fun f => (if ((Z.max 2 (ac - b) <=? Z.of_nat f)%Z
                              && (Z.of_nat f <? z)%Z)
                          then 1 else 0) * (1 / 20))).
    - rewrite (qsum_map_scale
                 (fun f => if ((Z.max 2 (ac - b) <=? Z.of_nat f)%Z
                               && (Z.of_nat f <? z)%Z)
                           then 1 else 0)).
      rewrite count_range.
      replace (Z.max 0 (Z.min z (Z.of_nat (1 + 20))
                        - Z.max (Z.max 2 (ac - b)) (Z.of_nat 1)))
        with (Z.max 0 (z - Z.max 2 (ac - b))) by lia.
      field.
    - intros f Hf. destruct (Hflags f) as [-> ->].
      change (advantageState input) with AdvNormal.
      change (armorClass input) with (inject_Z ac).
      pose proof (Hdist f Hf) as Hd. apply in_seq in Hf.
      generalize (hitChance_constant b ac f).
      destruct (Z.eqb_spec (Z.of_nat f) 1), (Z.leb_spec z (Z.of_nat f)),
        (Z.leb_spec (Z.of_nat f) 20), (Z.ltb_spec (Z.of_nat f) z),
        (Z.leb_spec (ac - b) (Z.of_nat f)),
        (Z.leb_spec (Z.max 2 (ac - b)) (Z.of_nat f));
        cbn [andb]; try lia; intros Hp; rewrite ?Hd, ?Hp; ring. }
  (* the closed form *)
  pose proof (singleRoll_sum (inject_Z ac) (inject_Z b)
                (normalizeCriticalThreshold threshold)) as Hs.
  cbv zeta in Hs. destruct Hs as (_ & _ & _ & Hs).
  assert (Hcs : critical (calculateSingleRollAttackProbabilities (inject_Z ac)
                            (inject_Z b) (normalizeCriticalThreshold threshold))
                == inject_Z (21 - z) / 20).
  { unfold calculateSingleRollAttackProbabilities. cbn [critical]. rewrite Hn.
    assert (E : (21 - inject_Z z) / 20 == inject_Z (21 - z) / 20).
    { unfold Z.sub. rewrite inject_Z_plus, inject_Z_opp. reflexivity. }
    assert (E20 : 20 * (inject_Z (21 - z) / 20) == inject_Z (21 - z)) by field.
    assert (Hlo : inject_Z 1 <= inject_Z (21 - z)) by (rewrite <- Zle_Qle; lia).
    assert (Hhi : inject_Z (21 - z) <= inject_Z 4) by (rewrite <- Zle_Qle; lia).
    change (inject_Z 1) with 1 in Hlo. change (inject_Z 4) with 4 in Hhi.
    destruct (clamp01_spec ((21 - inject_Z z) / 20)) as [[H E']|[[H E']|[H E']]];
      rewrite E', ?E in *; lra. }
  assert (Hhs : hit (calculateSingleRollAttackProbabilities (inject_Z ac)
                       (inject_Z b) (normalizeCriticalThreshold threshold))
                == inject_Z (Z.max 0 (z - Z.max 2 (ac - b))) / 20).
  { unfold calculateSingleRollAttackProbabilities. cbn [hit]. rewrite Hn.
    assert (Hm2 : Math_max 2 (inject_Z ac - inject_Z b)
                  == inject_Z (Z.max 2 (ac - b))).
    { apply Math_max_inject; [reflexivity|].
      unfold Z.sub. rewrite inject_Z_plus, inject_Z_opp. reflexivity. }
    assert (Hm0 : Math_max 0 (inject_Z z - Math_max 2 (inject_Z ac - inject_Z b))
                  == inject_Z (Z.max 0 (z - Z.max 2 (ac - b)))).
    { apply Math_max_inject; [reflexivity|].
      rewrite Hm2. unfold Z.sub. rewrite inject_Z_plus, inject_Z_opp. reflexivity. }
    set (V := Z.max 0 (z - Z.max 2 (ac - b))) in *.
    assert (HV : (0 <= V <= 18)%Z) by (unfold V; lia).
    assert (E : Math_max 0 (inject_Z z - Math_max 2 (inject_Z ac - inject_Z b)) / 20
                == inject_Z V / 20) by (rewrite Hm0; reflexivity).
    assert (E20 : 20 * (inject_Z V / 20) == inject_Z V) by field.
    assert (Hlo : inject_Z 0 <= inject_Z V) by (rewrite <- Zle_Qle; lia).
    assert (Hhi : inject_Z V <= inject_Z 18) by (rewrite <- Zle_Qle; lia).
    change (inject_Z 0) with 0 in Hlo. change (inject_Z 18) with 18 in Hhi.
    destruct (clamp01_spec
                (Math_max 0 (inject_Z z - Math_max 2 (inject_Z ac - inject_Z b)) / 20))
      as [[H E']|[[H E']|[H E']]]; rewrite E', ?E in *; lra. }
  split.
  - unfold sameOutcome. fold r. rewrite Hcs, Hhs, Hc, Hh. repeat split; try reflexivity.
    rewrite Hcs, Hhs in Hs. rewrite Hc, Hh in Hsum. lra.
  - fold r. rewrite Hc, Hn. unfold Z.sub. rewrite inject_Z_plus, inject_Z_opp.
    reflexivity.
Qed.

Lemma singleRoll_agrees_witness :
  exists o,
    calculateAttackOutcomeProbabilities
      (mkAttack (inject_Z 15) (Components [Constant 5]) AdvNormal
         (applyCriticalThresholdToRules bg3AttackRules 19) None) = Ok o /\
    sameOutcome o
      (calculateSingleRollAttackProbabilities (inject_Z 15) (inject_Z 5)
         (normalizeCriticalThreshold 19)) /\
    critical o == (21 - normalizeCriticalThreshold 19) / 20.
Proof.
  apply (singleRoll_agrees 15 5 19 (Components [Constant 5]) None); reflexivity.
Defined.

(** ** Attack templates *)

Lemma templateRepeat_valid (step : AttackTemplateStep) :
  Number_isFinite (templateRepeat step) = true ->
  exists n,
    templateRepeat step = Finite n /\
    validRepeat (Some (Finite n)) = true /\
    inject_Z (Qfloor n) = n.
Proof.
  unfold templateRepeat, validRepeat.
  destruct (templateStepRepeat step) as [[r| | |]|]; intros H;
    try discriminate H.
  - cbn [Math_floor Math_max_with].
    destruct (Math_max_spec 1 (inject_Z (Qfloor r))) as [[Hm ->]|[Hm ->]].
    + eexists. split; [reflexivity|]. rewrite Qfloor_Z.
      split; [|reflexivity]. apply Qle_bool_iff. exact Hm.
    + exists 1. split; [reflexivity|]. split; reflexivity.
  - exists 1. split; [reflexivity|]. split; reflexivity.
  - exists 1. split; [reflexivity|]. split; reflexivity.
Qed.

Lemma templateRepeat_nonfinite (step : AttackTemplateStep) :
  Number_isFinite (templateRepeat step) = false ->
  normalizeStepRepeat (Some (templateRepeat step))
  = Throw "repeat must be a finite number".
Proof.
  intros H. unfold normalizeStepRepeat. rewrite H. reflexivity.
Qed.

Lemma pairLoop (pre : list ResolvedContext) (pre' : list AttackDamagePlanStepResult)
  (cs : list ResolvedContext) (ps : list AttackDamagePlanStepResult)
  (acc : list AttackTemplateStepResult) :
  length pre = length pre' ->
  length cs = length ps ->
  foldResult (pairStep (pre ++ cs) (pre' ++ ps)) (seq (length pre) (length cs)) acc
  = Ok (acc
        ++ List.map
             (fun cp =>
                mkTemplateStepResult (rcStep (fst cp)) (rcContext (fst cp))
                  (rcRequest (fst cp)) (rcAppliedEffects (fst cp))
                  (stepRepeat (snd cp)) (stepResult (snd cp))
                  (expectedDamageTotal (snd cp)))
             (combine cs ps)).
Proof.
  revert pre pre' ps acc.
  induction cs as [|c cs IH]; intros pre pre' [|p ps] acc Hpre Hlen;
    try discriminate.
  - simpl. rewrite app_nil_r. reflexivity.
  - cbn [length seq foldResult]. unfold pairStep at 1.
    rewrite (nth_error_app2 pre) by lia. rewrite Nat.sub_diag.
    rewrite (nth_error_app2 pre') by lia.
    replace (length pre - length pre')%nat with 0%nat by lia.
    cbn [nth_error bind].
    replace (pre ++ c :: cs) with ((pre ++ [c]) ++ cs)
      by (rewrite <- app_assoc; reflexivity).
    replace (pre' ++ p :: ps) with ((pre' ++ [p]) ++ ps)
      by (rewrite <- app_assoc; reflexivity).
    replace (S (length pre)) with (length (pre ++ [c]))
      by (rewrite length_app; simpl; lia).
    rewrite IH.
    + rewrite <- app_assoc. reflexivity.
    + rewrite !length_app. simpl. lia.
    + simpl in Hlen. lia.
Qed.

(** X24.  [resolveBg3AttackTemplate] raises no error of its own.  A
    repeat is coerced to [max(1, floor(repeat))] before the plan sees it,
    which leaves [NaN] and [+Infinity] as they are.  When the request of
    every step is valid and no coerced repeat is [NaN] or [+Infinity],
    the call returns: the plan gives back one result per step, so that
    the index check never fails, and the result pairs every template
    step, in order, with its context, its request, its coerced repeat and
    the result of [calculateAttackDamage] on that request.  When some
    coerced repeat is [NaN] or [+Infinity], the call throws the plan's
    "repeat must be a finite number". *)
Theorem resolveBg3AttackTemplate_returns (base : RuleContext)
  (template : AttackTemplate) :
  forallb (fun step => validRequest (templateRequest base step))
    (templateSteps template) = true ->
  if forallb (fun step => Number_isFinite (templateRepeat step))
       (templateSteps template)
  then
    exists r,
      resolveBg3AttackTemplate base template = Ok r /\
      resolvedTemplate r = template /\
      calculateAttackDamagePlan
        (List.map (fun step => mkStep (templateRequest base step)
                                 (Some (templateRepeat step)))
           (templateSteps template))
      = Ok (totalResult r) /\
      Forall2 (templateStepResolved base) (templateSteps template)
        (resolvedSteps r)
  else
    resolveBg3AttackTemplate base template
    = Throw "repeat must be a finite number".
Proof.
  intros Hvalid. unfold resolveBg3AttackTemplate. cbv zeta.
  rewrite !map_map.
  assert (Hsteps : List.map (fun x => fst (resolveStep base x)) (templateSteps template)
                   = List.map (fun step => mkStep (templateRequest base step)
                                             (Some (templateRepeat step)))
                       (templateSteps template)) by reflexivity.
  rewrite Hsteps.
  set (planSteps := List.map (fun step => mkStep (templateRequest base step)
                                            (Some (templateRepeat step)))
                      (templateSteps template)).
  assert (D0 : damageDist (constant 0)).
  { split; [apply normalized_subdist, constant_normalized|].
    repeat constructor. simpl. lia. }
  destruct (forallb (fun step => Number_isFinite (templateRepeat step))
              (templateSteps template)) eqn:Hfinite.
  - assert (Hplan : forallb validStep planSteps = true).
    { unfold planSteps. rewrite forallb_forall in *. intros x Hx.
      apply in_map_iff in Hx. destruct Hx as [step [<- Hin]].
      unfold validStep. cbn [request repeatOpt].
      rewrite (Hvalid step Hin).
      destruct (templateRepeat_valid step (Hfinite step Hin)) as (n & -> & Hn & _).
      exact Hn. }
    destruct (planLoop_spec planSteps (constant 0) [] Hplan D0
                (proj1 (constant_normalized 0)))
      as (total' & new & Hloop & Hres & _).
    unfold calculateAttackDamagePlan. rewrite Hloop. cbn [app bind steps].
    set (ctxs := List.map (fun x => snd (resolveStep base x)) (templateSteps template)).
    assert (Hlen : length ctxs = length new).
    { unfold ctxs. rewrite length_map. apply Forall2_length in Hres.
      rewrite <- Hres. unfold planSteps. rewrite length_map. reflexivity. }
    pose proof (pairLoop [] [] ctxs new [] eq_refl Hlen) as Hpair.
    cbn [app length] in Hpair. rewrite Hpair. cbn [bind app].
    eexists. split; [reflexivity|]. cbn [resolvedTemplate totalResult resolvedSteps].
    split; [reflexivity|]. split; [reflexivity|].
    clear Hpair Hloop Hplan Hsteps Hvalid. unfold ctxs, planSteps in *.
    clear ctxs planSteps.
    revert new Hres Hlen Hfinite.
    induction (templateSteps template) as [|step rest IH];
      intros new Hres Hlen Hfinite.
    + inversion Hres; subst. constructor.
    + cbn [List.map] in Hres. inversion Hres as [|? sr ? new' Hsr Hres']; subst.
      cbn [forallb] in Hfinite. apply andb_prop in Hfinite.
      destruct Hfinite as [Hstep Hfinite].
      cbn [List.map combine]. constructor.
      * destruct Hsr as (Hreq & Hrep & Hcalc & _ & Htot).
        cbn [request repeatOpt] in *. unfold resolvedRepeat in Hrep.
        cbn [repeatOpt] in Hrep.
        unfold templateStepResolved. cbn [fst snd resolveStep rcStep rcContext
          rcRequest rcAppliedEffects resultStep resultContext resultRequest
          resultAppliedEffects resultRepeat resultResult resultExpectedDamageTotal].
        destruct (templateRepeat_valid step Hstep) as (n & En & _ & Hn).
        fold (templateRepeat step). rewrite En in *.
        repeat split; try reflexivity.
        -- rewrite Hrep, Hn. reflexivity.
        -- exact Hcalc.
        -- exact Htot.
      * apply IH; [exact Hres'| |exact Hfinite]. cbn [List.map length] in Hlen.
        injection Hlen as Hlen. exact Hlen.
  - assert (Hthrow : planLoop planSteps (constant 0) []
                     = Throw "repeat must be a finite number").
    { apply planLoop_nonfinite;
        [| |exact D0|apply (proj1 (constant_normalized 0))].
      - unfold planSteps. apply Forall_forall. intros x Hx.
        apply in_map_iff in Hx. destruct Hx as [step [<- Hin]].
        cbn [request repeatOpt]. rewrite forallb_forall in Hvalid.
        split; [apply (Hvalid step Hin)|].
        destruct (Number_isFinite (templateRepeat step)) eqn:Hf.
        + left. destruct (templateRepeat_valid step Hf) as (n & -> & Hn & _).
          exact Hn.
        + right. apply templateRepeat_nonfinite. exact Hf.
      - destruct (forallb validStep planSteps) eqn:Hplan; [|reflexivity].
        rewrite <- Hfinite. symmetry. apply forallb_forall. intros step Hin.
        rewrite forallb_forall in Hplan.
        specialize (Hplan (mkStep (templateRequest base step)
                             (Some (templateRepeat step)))).
        unfold validStep in Hplan. cbn [request repeatOpt] in Hplan.
        assert (Hin' : In (mkStep (templateRequest base step)
                             (Some (templateRepeat step))) planSteps).
        { unfold planSteps. apply in_map_iff. exists step. split; [reflexivity|exact Hin]. }
        specialize (Hplan Hin'). apply andb_prop in Hplan.
        destruct Hplan as [_ Hrep]. unfold validRepeat in Hrep.
        destruct (templateRepeat step); [reflexivity|discriminate Hrep..]. }
    unfold calculateAttackDamagePlan. rewrite Hthrow. reflexivity.
Qed.

Lemma resolveBg3AttackTemplate_returns_witness :
  let base :=
    mkContext
      (mkAttack 15 (Components [Constant 5]) AdvNormal bg3AttackRules None)
      (mkDamage (Components [Constant 3]) 2 ModNormal None None None) in
  let counted :=
    mkTemplate "t" "T" [mkTemplateStep "s" (Some (Finite 0)) None None None] in
  let endless :=
    mkTemplate "t" "T"
      [mkTemplateStep "s" (Some (Finite 2)) None None None;
       mkTemplateStep "u" (Some PositiveInfinity) None None None] in
  (exists r,
      resolveBg3AttackTemplate base counted = Ok r /\
      resolvedTemplate r = counted /\
      List.map resultRepeat (resolvedSteps r) = [1]) /\
  resolveBg3AttackTemplate base endless = Throw "repeat must be a finite number".
Proof.
  intros base counted endless. split.
  - destruct (resolveBg3AttackTemplate_returns base counted eq_refl)
      as (r & Hr & Ht & _ & _).
    exists r. split; [exact Hr|]. split; [exact Ht|].
    assert (E : Ok r = resolveBg3AttackTemplate base counted)
      by (symmetry; exact Hr).
    vm_compute in E. injection E as ->. reflexivity.
  - apply (resolveBg3AttackTemplate_returns base endless eq_refl).
Defined.

(** ** Halfling luck *)

Lemma faceLoop_miss (input : AttackCheckInput) (bonus : ProbabilityDistribution)
  (dist : list Q) (faces : list nat) (acc : AttackOutcomeProbabilities) :
  miss (fold_left (faceStep input bonus dist) faces acc)
  == miss acc
     + qsum
         (List.map
            (fun f => probabilityOfFace dist f (advantageState input)
                      * missGivenFace input bonus f)
            faces).
Proof.
  revert acc. induction faces as [|f faces IH]; intros acc.
  - simpl. ring.
  - cbn [fold_left List.map qsum]. rewrite IH.
    unfold faceStep, missGivenFace.
    destruct (setHas (autoMissFaces (rules input)) f); simpl; [ring|].
    destruct (setHas (autoCritFaces (rules input)) f); simpl; ring.
Qed.

Lemma missGivenFace_range (input : AttackCheckInput)
  (bonus : ProbabilityDistribution) (f : nat) :
  subdist bonus -> 0 <= missGivenFace input bonus f <= 1.
Proof.
  intros Hb. unfold missGivenFace.
  destruct (setHas (autoMissFaces (rules input)) f); [lra|].
  destruct (setHas (autoCritFaces (rules input)) f); [lra|].
  pose proof (probabilityAtLeast_range bonus
                (armorClass input - inject_Z (Z.of_nat f)) Hb). lra.
Qed.

Lemma qsum_le_length {A : Type} (m : A -> Q) (l : list A) :
  (forall x, In x l -> m x <= 1) ->
  qsum (List.map m l) <= inject_Z (Z.of_nat (length l)).
Proof.
  induction l as [|x l IH]; intros H.
  - apply Qle_refl.
  - cbn [List.map qsum length]. rewrite inject_nat_succ.
    specialize (H x (or_introl eq_refl)) as Hx.
    assert (qsum (List.map m l) <= inject_Z (Z.of_nat (length l)))
      by (apply IH; intros; apply H; right; assumption).
    lra.
Qed.

Lemma qsum_lt_length {A : Type} (m : A -> Q) (l : list A) (y : A) :
  (forall x, In x l -> m x <= 1) -> In y l -> m y < 1 ->
  qsum (List.map m l) < inject_Z (Z.of_nat (length l)).
Proof.
  induction l as [|x l IH]; intros H Hy Hlt.
  - destruct Hy.
  - cbn [List.map qsum length]. rewrite inject_nat_succ.
    specialize (H x (or_introl eq_refl)) as Hx.
    assert (Hl : qsum (List.map m l) <= inject_Z (Z.of_nat (length l)))
      by (apply qsum_le_length; intros; apply H; right; assumption).
    destruct Hy as [->|Hy].
    + lra.
    + assert (qsum (List.map m l) < inject_Z (Z.of_nat (length l)))
        by (apply IH; [intros; apply H; right; assumption|exact Hy|exact Hlt]).
      lra.
Qed.

Lemma withHalflingLucky_ok (input : AttackCheckInput) (flag : option bool)
  (bonus : ProbabilityDistribution) :
  validRules (rules input) = true ->
  buildAttackBonusDistribution (attackBonusExpression input) = Ok bonus ->
  calculateAttackOutcomeProbabilities (withHalflingLucky input flag)
  = Ok (fold_left
          (faceStep (withHalflingLucky input flag) bonus
             (buildSingleDieDistribution (dieSides (rules input)) (isTrue flag)))
          (seq 1 (loopCount (dieSides (rules input)))) (mkOutcome 0 0 0)).
Proof.
  intros Hr Hb.
  apply (calculateAttackOutcomeProbabilities_ok (withHalflingLucky input flag)
           bonus Hr Hb).
Qed.

(** X25.  Halfling luck never hurts a normal roll: when face 1 always
    misses, rerolling a 1 once gives a chance to miss that is not higher
    than without the reroll, and strictly lower as soon as some face of
    the die does not always miss. *)
Theorem halflingLucky_helps (input : AttackCheckInput) :
  validRules (rules input) = true ->
  validExpression (attackBonusExpression input) = true ->
  advantageState input = AdvNormal ->
  setHas (autoMissFaces (rules input)) 1 = true ->
  exists bonus lucky plain,
    buildAttackBonusDistribution (attackBonusExpression input) = Ok bonus /\
    calculateAttackOutcomeProbabilities (withHalflingLucky input (Some true))
    = Ok lucky /\
    calculateAttackOutcomeProbabilities (withHalflingLucky input (Some false))
    = Ok plain /\
    miss lucky <= miss plain /\
    (forall f, In f (seq 1 (loopCount (dieSides (rules input)))) ->
               missGivenFace input bonus f < 1 ->
               miss lucky < miss plain).
Proof.
  intros Hr He Hadv Hone.
  destruct (buildAttackBonusDistribution_ok _ He) as [bonus Hb].
  exists bonus.
  rewrite (withHalflingLucky_ok input (Some true) bonus Hr Hb).
  rewrite (withHalflingLucky_ok input (Some false) bonus Hr Hb).
  do 2 eexists. split; [exact Hb|]. split; [reflexivity|]. split; [reflexivity|].
  destruct (validRules_spec _ Hr) as [Hi Hp].
  destruct (singleDie_full (dieSides (rules input)) false Hi Hp) as [Hn _].
  assert (Hs : inject_Z (Z.of_nat (loopCount (dieSides (rules input))))
               == dieSides (rules input))
    by (apply loopCount_integer; [exact Hi|lra]).
  set (s := dieSides (rules input)) in *.
  set (n := loopCount s) in *.
  set (m := missGivenFace input bonus).
  assert (Hrange : forall f, 0 <= m f <= 1).
  { intros f. apply missGivenFace_range.
    apply (buildAttackBonusDistribution_subdist _ _ He Hb). }
  assert (Hm1 : m 1%nat = 1).
  { unfold m, missGivenFace. rewrite Hone. reflexivity. }
  set (q := 1 / s).
  set (S := qsum (List.map m (seq 2 (n - 1)))).
  assert (Hmiss : forall lucky,
             miss (fold_left
                     (faceStep (withHalflingLucky input (Some lucky)) bonus
                        (buildSingleDieDistribution s lucky))
                     (seq 1 n) (mkOutcome 0 0 0))
             == (if lucky then q * q else q)
                + (if lucky then q + q * q else q) * S).
  { intros lucky. rewrite faceLoop_miss.
    cbn [miss advantageState withHalflingLucky]. rewrite Hadv, Qplus_0_l.
    replace n with (1 + (n - 1))%nat at 1 by lia.
    rewrite seq_app, map_app, qsum_app. cbn [seq List.map qsum Nat.add].
    unfold probabilityOfFace.
    change (missGivenFace (withHalflingLucky input (Some lucky)) bonus 1) with (m 1%nat).
    rewrite Hm1, (singleDie_nth s lucky 1) by (fold n; lia). cbn [Nat.eqb].
    rewrite (qsum_map_ext _ (fun f => m f * (if lucky then q + q * q else q))).
    - rewrite (qsum_map_scale m). fold S. unfold q. destruct lucky; ring.
    - intros f Hf. apply in_seq in Hf.
      change (missGivenFace (withHalflingLucky input (Some lucky)) bonus f) with (m f).
      rewrite singleDie_nth by (fold n; lia). unfold q.
      destruct lucky; [|ring].
      destruct (Nat.eqb_spec f 1); [lia|ring]. }
  cbn [isTrue]. rewrite (Hmiss true), (Hmiss false).
  assert (Hlen : S <= inject_Z (Z.of_nat (length (seq 2 (n - 1)))))
    by (apply qsum_le_length; intros f _; apply Hrange).
  rewrite length_seq in Hlen.
  assert (Hn1 : inject_Z (Z.of_nat (n - 1)) == s - 1).
  { rewrite Nat2Z.inj_sub by lia. unfold Z.sub.
    rewrite inject_Z_plus, inject_Z_opp, Hs. reflexivity. }
  assert (Hq : 0 < q) by (apply Qlt_shift_div_l; lra).
  assert (Hqs : q * s == 1) by (unfold q; field; lra).
  assert (Hkey : q * q * (s - 1) + q * q == q).
  { transitivity (q * (q * s)); [ring|]. rewrite Hqs. ring. }
  assert (Hnn : 0 < q * q) by nra.
  split.
  - assert (q * q * S <= q * q * (s - 1)) by nra.
    lra.
  - intros f Hf Hlt. fold m in Hlt.
    assert (Hf' : In f (seq 2 (n - 1))).
    { apply in_seq in Hf. apply in_seq.
      assert (f <> 1%nat) by (intros ->; rewrite Hm1 in Hlt; lra). lia. }
    assert (HS : S < inject_Z (Z.of_nat (length (seq 2 (n - 1)))))
      by (apply (qsum_lt_length m _ f);
          [intros x _; apply Hrange|exact Hf'|exact Hlt]).
    rewrite length_seq in HS.
    assert (q * q * S < q * q * (s - 1)) by nra.
    rewrite (Hmiss true), (Hmiss false). lra.
Qed.

Lemma halflingLucky_helps_witness :
  exists bonus lucky plain,
    buildAttackBonusDistribution
      (attackBonusExpression
         (mkAttack 15 (Components [Constant 5]) AdvNormal (mkRules 20 [1] [20]) None))
    = Ok bonus /\
    calculateAttackOutcomeProbabilities
      (withHalflingLucky
         (mkAttack 15 (Components [Constant 5]) AdvNormal (mkRules 20 [1] [20]) None)
         (Some true)) = Ok lucky /\
    calculateAttackOutcomeProbabilities
      (withHalflingLucky
         (mkAttack 15 (Components [Constant 5]) AdvNormal (mkRules 20 [1] [20]) None)
         (Some false)) = Ok plain /\
    miss lucky <= miss plain /\
    (forall f,
        In f (seq 1 (loopCount
                       (dieSides
                          (rules (mkAttack 15 (Components [Constant 5]) AdvNormal
                                    (mkRules 20 [1] [20]) None))))) ->
        missGivenFace
          (mkAttack 15 (Components [Constant 5]) AdvNormal (mkRules 20 [1] [20]) None)
          bonus f < 1 ->
        miss lucky < miss plain).
Proof.
  apply (halflingLucky_helps
           (mkAttack 15 (Components [Constant 5]) AdvNormal (mkRules 20 [1] [20]) None));
    reflexivity.
Defined.

(* ================================================================== *)
(** * Properties of the dice parser *)

(** ** Strings and indices *)

Lemma length_append (s1 s2 : string) :
  String.length (s1 ++ s2) = (String.length s1 + String.length s2)%nat.
Proof. induction s1 as [|c s1 IH]; simpl; [reflexivity|rewrite IH; reflexivity]. Qed.

Lemma append_assoc (s1 s2 s3 : string) : ((s1 ++ s2) ++ s3 = s1 ++ (s2 ++ s3))%string.
Proof. induction s1 as [|c s1 IH]; simpl; [reflexivity|rewrite IH; reflexivity]. Qed.

Lemma append_empty (s : string) : (s ++ "")%string = s.
Proof. induction s as [|c s IH]; simpl; [reflexivity|rewrite IH; reflexivity]. Qed.

Lemma substring_all (s : string) : String.substring 0 (String.length s) s = s.
Proof. induction s as [|c s IH]; simpl; [reflexivity|rewrite IH; reflexivity]. Qed.

Lemma substring_prefix (s1 s2 : string) :
  String.substring 0 (String.length s1) (s1 ++ s2) = s1.
Proof. induction s1 as [|c s1 IH]; simpl; [destruct s2; reflexivity|rewrite IH; reflexivity]. Qed.

Lemma substring_skip (pre rest : string) (m : nat) :
  String.substring (String.length pre) m (pre ++ rest) = String.substring 0 m rest.
Proof. induction pre as [|c pre IH]; simpl; [reflexivity|exact IH]. Qed.

Lemma stringFrom_append (pre rest : string) :
  stringFrom (pre ++ rest) (String.length pre) = rest.
Proof.
  unfold stringFrom. rewrite length_append, substring_skip.
  replace (String.length pre + String.length rest - String.length pre)%nat
    with (String.length rest) by lia.
  apply substring_all.
Qed.

Lemma charAt_append (pre rest : string) :
  charAt (pre ++ rest) (String.length pre) = charAt rest 0.
Proof.
  unfold charAt. rewrite (append_correct2 pre rest 0). reflexivity.
Qed.

Lemma skipWhitespaceLoop_ge (rest : string) (index : nat) :
  (index <= skipWhitespaceLoop rest index)%nat.
Proof.
  revert index. induction rest as [|c rest IH]; intros index;
    cbn [skipWhitespaceLoop].
  - lia.
  - destruct (isWhitespace c); [|lia]. specialize (IH (S index)). lia.
Qed.

Lemma skipWhitespace_ge (input : string) (index : nat) :
  (index <= skipWhitespace input index)%nat.
Proof. apply skipWhitespaceLoop_ge. Qed.

Lemma digitLoop_ge (rest : string) (index : nat) :
  (index <= digitLoop rest index)%nat.
Proof.
  revert index. induction rest as [|c rest IH]; intros index; cbn [digitLoop].
  - lia.
  - destruct (isDigit (Some c)); [|lia]. specialize (IH (S index)). lia.
Qed.

Lemma stringFrom_head (input : string) (index : nat) (c : ascii) :
  charAt input index = Some c ->
  exists rest, stringFrom input index = String c rest.
Proof.
  unfold charAt, stringFrom. revert index.
  induction input as [|a input IH]; intros index H; simpl in H.
  - discriminate.
  - destruct index as [|index].
    + injection H as ->. simpl. eexists. reflexivity.
    + simpl. apply IH. exact H.
Qed.

Lemma readUnsignedInteger_spec (input : string) (startIndex : nat) (token : IntegerToken) :
  readUnsignedInteger input startIndex = Some token ->
  (startIndex < nextIndex token)%nat /\ (0 <= tokenValue token)%Z.
Proof.
  unfold readUnsignedInteger.
  destruct (charAt input startIndex) as [c|] eqn:Hc; [|discriminate].
  destruct (isDigit (Some c)) eqn:Hd; simpl; [|discriminate].
  intros [= <-]. simpl. split.
  - destruct (stringFrom_head _ _ _ Hc) as [rest ->]. cbn [digitLoop].
    rewrite Hd. pose proof (digitLoop_ge rest (S startIndex)). lia.
  - unfold Number_parseInt. destruct (NilEmpty.uint_of_string _); lia.
Qed.

Lemma substring_length (s : string) (n m : nat) :
  (n + m <= String.length s)%nat -> String.length (String.substring n m s) = m.
Proof.
  revert n m. induction s as [|c s IH]; intros n m H; simpl in H.
  - assert (n = 0 /\ m = 0)%nat as [-> ->] by lia. reflexivity.
  - destruct n as [|n]; destruct m as [|m]; simpl; try reflexivity.
    + rewrite (IH 0%nat m) by lia. reflexivity.
    + apply IH. lia.
    + apply IH. lia.
Qed.

Lemma skipWhitespaceLoop_le (rest : string) (index : nat) :
  (skipWhitespaceLoop rest index <= index + String.length rest)%nat.
Proof.
  revert index. induction rest as [|c rest IH]; intros index;
    cbn [skipWhitespaceLoop String.length].
  - lia.
  - destruct (isWhitespace c); [|lia]. specialize (IH (S index)). lia.
Qed.

Lemma skipWhitespace_le (input : string) (index : nat) :
  (index <= String.length input)%nat ->
  (skipWhitespace input index <= String.length input)%nat.
Proof.
  intros H. unfold skipWhitespace.
  pose proof (skipWhitespaceLoop_le (stringFrom input index) index) as Hle.
  unfold stringFrom in Hle at 2. rewrite substring_length in Hle by lia. lia.
Qed.

Lemma charAt_lt (input : string) (index : nat) (c : ascii) :
  charAt input index = Some c -> (index < String.length input)%nat.
Proof.
  unfold charAt. revert index. induction input as [|a input IH]; intros index H;
    simpl in H.
  - discriminate.
  - destruct index as [|index]; simpl; [lia|]. apply IH in H. lia.
Qed.

Lemma isChar_lt (input : string) (index : nat) (c : ascii) :
  isChar (charAt input index) c = true -> (index < String.length input)%nat.
Proof.
  destruct (charAt input index) as [x|] eqn:H; [|discriminate].
  intros _. exact (charAt_lt _ _ _ H).
Qed.

(** ** The parser always answers, and what it accepts *)

(** What [parseLoop] answers: components as the parser emits them, or an
    issue at an index of the source. *)
Lemma parseLoop_total (fuel : nat) (source : string) (index : nat)
  (isFirstTerm : bool) (pendingSign : TermSign) (components : list ExpressionComponent) :
  (String.length source - index < fuel)%nat ->
  (isFirstTerm = false -> (1 <= String.length source)%nat) ->
  Forall parsedComponent components ->
  match parseLoop fuel source index isFirstTerm pendingSign components with
  | None => False
  | Some (inl cs) => cs <> [] /\ Forall parsedComponent cs
  | Some (inr issue) =>
      (0 <= issueIndex issue <= Z.of_nat (String.length source))%Z
  end.
Proof.
  revert index isFirstTerm pendingSign components.
  induction fuel as [|fuel IH];
    intros index isFirstTerm pendingSign components Hfuel Hlen Hcs.
  - lia.
  - cbn [parseLoop]. cbv zeta.
    pose proof (skipWhitespace_ge source index) as Hskip.
    set (i1 := skipWhitespace source index) in *.
    destruct (Nat.leb_spec (String.length source) i1) as [Hend|Hin].
    { destruct isFirstTerm; cbn [issueIndex]; [lia|].
      specialize (Hlen eq_refl). lia. }
    set (signGiven := isFirstTerm && (isChar (charAt source i1) "+"
                                      || isChar (charAt source i1) "-")).
    set (sign := if signGiven
                 then (if isChar (charAt source i1) "-" then SignMinus else SignPlus)
                 else pendingSign).
    set (i2 := if signGiven then skipWhitespace source (i1 + 1) else i1).
    assert (Hi2 : (i1 <= i2 <= String.length source)%nat).
    { unfold i2. destruct signGiven; [|lia].
      pose proof (skipWhitespace_ge source (i1 + 1)).
      pose proof (skipWhitespace_le source (i1 + 1)). lia. }
    (* what the end of an iteration does *)
    assert (Hafter : forall cs i,
               (i1 < i)%nat -> cs <> [] -> Forall parsedComponent cs ->
               match
                 (let index := skipWhitespace source i in
                  if (String.length source <=? index)%nat then Some (inl cs)
                  else
                    match charAt source index with
                    | Some operator =>
                        if negb (Ascii.eqb operator "+" || Ascii.eqb operator "-"
                                 || Ascii.eqb operator ",")
                        then Some (inr (mkIssue (IllegalCharacter operator)
                                          (Z.of_nat index)))
                        else
                          let pendingSign :=
                            if Ascii.eqb operator "-" then SignMinus else SignPlus in
                          let index := skipWhitespace source (index + 1) in
                          if (String.length source <=? index)%nat then
                            Some (inr (mkIssue TrailingOperator
                                         (Z.of_nat (String.length source) - 1)))
                          else parseLoop fuel source index false pendingSign cs
                    | None => Some (inl cs)
                    end)
               with
               | None => False
               | Some (inl cs') => cs' <> [] /\ Forall parsedComponent cs'
               | Some (inr issue) =>
                   (0 <= issueIndex issue <= Z.of_nat (String.length source))%Z
               end).
    { intros cs i Hi Hne Hall. cbv zeta.
      pose proof (skipWhitespace_ge source i) as Hs1.
      destruct (Nat.leb_spec (String.length source) (skipWhitespace source i));
        [split; assumption|].
      destruct (charAt source (skipWhitespace source i)) as [operator|];
        [|split; assumption].
      destruct (negb _); [cbn [issueIndex]; lia|].
      pose proof (skipWhitespace_ge source (skipWhitespace source i + 1)) as Hs2.
      destruct (Nat.leb_spec (String.length source)
                  (skipWhitespace source (skipWhitespace source i + 1)));
        [cbn [issueIndex]; lia|].
      apply IH; [lia|intros _; lia|exact Hall]. }
    destruct (readUnsignedInteger source i2) as [countToken|] eqn:Hcount;
      cbn [option_map].
    + destruct (readUnsignedInteger_spec _ _ _ Hcount) as [Hnext Hval].
      destruct (isChar (charAt source (nextIndex countToken)) "d"
                || isChar (charAt source (nextIndex countToken)) "D") eqn:Hd.
      * assert (Hlt : (nextIndex countToken < String.length source)%nat).
        { apply orb_prop in Hd. destruct Hd as [Hd|Hd]; exact (isChar_lt _ _ _ Hd). }
        destruct (readUnsignedInteger source (nextIndex countToken + 1))
          as [sidesToken|] eqn:Hsides; [|cbn [issueIndex]; lia].
        destruct (readUnsignedInteger_spec _ _ _ Hsides) as [Hnext' Hval'].
        destruct (Z.leb_spec (tokenValue countToken) 0); [cbn [issueIndex]; lia|].
        destruct (Z.leb_spec (tokenValue sidesToken) 0); [cbn [issueIndex]; lia|].
        apply Hafter.
        -- lia.
        -- intros C. apply app_eq_nil in C. destruct C; discriminate.
        -- apply Forall_app. split; [exact Hcs|]. constructor; [|constructor].
           exists (tokenValue countToken), (tokenValue sidesToken).
           repeat split; lia.
      * apply Hafter.
        -- lia.
        -- intros C. apply app_eq_nil in C. destruct C; discriminate.
        -- apply Forall_app. split; [exact Hcs|]. constructor; [exact I|constructor].
    + destruct (isChar (charAt source i2) "d" || isChar (charAt source i2) "D") eqn:Hd.
      * assert (Hlt : (i2 < String.length source)%nat).
        { apply orb_prop in Hd. destruct Hd as [Hd|Hd]; exact (isChar_lt _ _ _ Hd). }
        destruct (readUnsignedInteger source (i2 + 1)) as [sidesToken|] eqn:Hsides;
          [|cbn [issueIndex]; lia].
        destruct (readUnsignedInteger_spec _ _ _ Hsides) as [Hnext' Hval'].
        cbn [Z.leb Z.compare].
        destruct (Z.leb_spec (tokenValue sidesToken) 0); [cbn [issueIndex]; lia|].
        apply Hafter.
        -- lia.
        -- intros C. apply app_eq_nil in C. destruct C; discriminate.
        -- apply Forall_app. split; [exact Hcs|]. constructor; [|constructor].
           exists 1%Z, (tokenValue sidesToken). repeat split; lia.
      * cbn [issueIndex]. lia.
Qed.

(** ** Decimal text *)

Lemma string_of_uint_digits (d : Decimal.uint) :
  allDigits (NilEmpty.string_of_uint d) = true.
Proof.
  induction d; simpl; try reflexivity; exact IHd.
Qed.

Lemma integerText_spec (z : Z) :
  (0 <= z)%Z ->
  allDigits (integerText z) = true /\
  integerText z <> EmptyString /\
  Number_parseInt (integerText z) = z.
Proof.
  intros Hz. unfold integerText. destruct z as [|p|p]; [| |lia].
  - split; [reflexivity|]. split; [discriminate|reflexivity].
  - cbn [Z.to_int NilZero.string_of_int].
    assert (Hnil : Pos.to_uint p <> Decimal.Nil) by apply Unsigned.to_uint_nonnil.
    assert (E : NilZero.string_of_uint (Pos.to_uint p)
                = NilEmpty.string_of_uint (Pos.to_uint p)).
    { unfold NilZero.string_of_uint. destruct (Pos.to_uint p); congruence. }
    rewrite E. repeat split.
    + apply string_of_uint_digits.
    + destruct (Pos.to_uint p); try congruence; discriminate.
    + unfold Number_parseInt. rewrite NilEmpty.usu.
      change (N.of_uint (Pos.to_uint p)) with (Pos.of_uint (Pos.to_uint p)).
      rewrite DecimalPos.Unsigned.of_to. reflexivity.
Qed.

Lemma digit_not_whitespace (c : ascii) :
  isDigit (Some c) = true -> isWhitespace c = false.
Proof.
  unfold isDigit, isWhitespace. intros H. apply andb_prop in H. destruct H as [H1 H2].
  apply Nat.leb_le in H1, H2.
  destruct (Nat.leb_spec 9 (nat_of_ascii c)), (Nat.leb_spec (nat_of_ascii c) 13),
    (Nat.eqb_spec (nat_of_ascii c) 32), (Nat.eqb_spec (nat_of_ascii c) 160);
    simpl; try reflexivity; lia.
Qed.

Lemma digit_not_operator (c : ascii) :
  isDigit (Some c) = true ->
  Ascii.eqb c "+" = false /\ Ascii.eqb c "-" = false /\
  Ascii.eqb c "d" = false /\ Ascii.eqb c "D" = false.
Proof.
  unfold isDigit. intros H. apply andb_prop in H. destruct H as [H1 H2].
  apply Nat.leb_le in H1, H2.
  repeat split; apply Ascii.eqb_neq; intros ->;
    change (nat_of_ascii _) with 43%nat in *
    || change (nat_of_ascii _) with 45%nat in *
    || change (nat_of_ascii _) with 100%nat in *
    || change (nat_of_ascii _) with 68%nat in *; lia.
Qed.

(** ** Reading at the end of a prefix *)

Lemma skipWhitespace_at (pre : string) (c : ascii) (rest : string) :
  isWhitespace c = false ->
  skipWhitespace (pre ++ String c rest) (String.length pre) = String.length pre.
Proof.
  intros H. unfold skipWhitespace. rewrite stringFrom_append.
  cbn [skipWhitespaceLoop]. rewrite H. reflexivity.
Qed.

Lemma skipWhitespace_end (pre : string) :
  skipWhitespace pre (String.length pre) = String.length pre.
Proof.
  unfold skipWhitespace, stringFrom. rewrite Nat.sub_diag.
  assert (H : String.substring (String.length pre) 0 pre = EmptyString).
  { induction pre as [|a pre IH]; simpl; [reflexivity|exact IH]. }
  rewrite H. reflexivity.
Qed.

Lemma charAt_at (pre : string) (c : ascii) (rest : string) :
  charAt (pre ++ String c rest) (String.length pre) = Some c.
Proof. rewrite charAt_append. reflexivity. Qed.

Lemma charAt_end (pre : string) : charAt pre (String.length pre) = None.
Proof.
  unfold charAt. induction pre as [|a pre IH]; simpl; [reflexivity|exact IH].
Qed.

Lemma digitLoop_run (ds after : string) (index : nat) :
  allDigits ds = true ->
  isDigit (charAt after 0) = false ->
  digitLoop (ds ++ after) index = (index + String.length ds)%nat.
Proof.
  revert index. induction ds as [|c ds IH]; intros index Hd Ha.
  - simpl. destruct after as [|a after]; cbn [digitLoop].
    + lia.
    + unfold charAt in Ha. cbn [String.get] in Ha. rewrite Ha. lia.
  - cbn [allDigits] in Hd. apply andb_prop in Hd. destruct Hd as [Hc Hd].
    cbn [append digitLoop]. rewrite Hc, IH by assumption. simpl. lia.
Qed.

Lemma readUnsignedInteger_at (pre ds after : string) :
  allDigits ds = true ->
  ds <> EmptyString ->
  isDigit (charAt after 0) = false ->
  readUnsignedInteger (pre ++ ds ++ after) (String.length pre)
  = Some (mkToken (Number_parseInt ds) (String.length pre + String.length ds)).
Proof.
  intros Hd Hne Ha. unfold readUnsignedInteger.
  rewrite charAt_append, stringFrom_append.
  destruct ds as [|c ds]; [congruence|].
  cbn [allDigits] in Hd. apply andb_prop in Hd. destruct Hd as [Hc Hd].
  unfold charAt at 1. cbn [append String.get]. rewrite Hc. cbn [negb].
  change (String c ds ++ after)%string with (String c (ds ++ after)).
  cbn [digitLoop]. rewrite Hc, (digitLoop_run ds after _ Hd Ha).
  f_equal. f_equal.
  - assert (E : (S (String.length pre) + String.length ds - String.length pre)%nat
                = S (String.length ds)) by lia.
    rewrite E. change (S (String.length ds)) with (String.length (String c ds)).
    rewrite substring_skip.
    change (String c (ds ++ after)) with (String c ds ++ after)%string.
    rewrite substring_prefix. reflexivity.
  - cbn [String.length]. lia.
Qed.

Lemma readUnsignedInteger_none (input : string) (index : nat) :
  isDigit (charAt input index) = false -> readUnsignedInteger input index = None.
Proof. intros H. unfold readUnsignedInteger. rewrite H. reflexivity. Qed.

(** ** Reading inside a source *)

Ltac strings := subst; repeat rewrite append_assoc; cbn [append]; reflexivity.
Ltac lengths := subst; repeat rewrite length_append; cbn [String.length]; lia.

Lemma skipWhitespace_in (source pre : string) (c : ascii) (rest : string) (index : nat) :
  source = (pre ++ String c rest)%string -> index = String.length pre ->
  isWhitespace c = false ->
  skipWhitespace source index = index.
Proof. intros -> -> H. apply skipWhitespace_at. exact H. Qed.

Lemma charAt_in (source pre : string) (c : ascii) (rest : string) (index : nat) :
  source = (pre ++ String c rest)%string -> index = String.length pre ->
  charAt source index = Some c.
Proof. intros -> ->. apply charAt_at. Qed.

Lemma inside (source pre : string) (c : ascii) (rest : string) (index : nat) :
  source = (pre ++ String c rest)%string -> index = String.length pre ->
  (String.length source <=? index)%nat = false.
Proof. intros -> ->. apply Nat.leb_gt. rewrite length_append. simpl. lia. Qed.

Lemma readUnsignedInteger_in (source pre ds after : string) (index : nat) :
  source = (pre ++ ds ++ after)%string -> index = String.length pre ->
  allDigits ds = true -> ds <> EmptyString -> isDigit (charAt after 0) = false ->
  readUnsignedInteger source index
  = Some (mkToken (Number_parseInt ds) (String.length pre + String.length ds)).
Proof. intros -> ->. apply readUnsignedInteger_at. Qed.

(** ** What the formatter writes *)

Lemma fragmentsText_succ (k : nat) (cs : list ExpressionComponent) :
  fragmentsText (S k) cs = fragmentsText 1 cs.
Proof.
  revert k. induction cs as [|c cs IH]; intros k; cbn [fragmentsText];
    [reflexivity|].
  rewrite (IH (S k)), (IH 1%nat). reflexivity.
Qed.

(** The operator written before a component that is not the first. *)
Lemma fragmentsText_cons (c : ExpressionComponent) (cs : list ExpressionComponent) :
  fragmentsText 1 (c :: cs)
  = String (if isNegative c then "-" else "+")%char
      (componentText c ++ fragmentsText 1 cs)%string.
Proof.
  cbn [fragmentsText]. rewrite fragmentsText_succ. unfold fragmentText.
  destruct (isNegative c); reflexivity.
Qed.

Lemma fragmentsText_head (cs : list ExpressionComponent) :
  isDigit (charAt (fragmentsText 1 cs) 0) = false /\
  isChar (charAt (fragmentsText 1 cs) 0) "d" = false /\
  isChar (charAt (fragmentsText 1 cs) 0) "D" = false.
Proof.
  destruct cs as [|c cs]; [repeat split|].
  rewrite fragmentsText_cons. destruct (isNegative c); repeat split.
Qed.

Lemma fragmentsText_length (cs : list ExpressionComponent) :
  (length cs <= String.length (fragmentsText 1 cs))%nat.
Proof.
  induction cs as [|c cs IH]; [simpl; lia|].
  rewrite fragmentsText_cons. cbn [String.length length].
  rewrite length_append. lia.
Qed.

Lemma digits_head (ds : string) :
  allDigits ds = true -> ds <> EmptyString ->
  exists d rest, ds = String d rest /\ isDigit (Some d) = true.
Proof.
  intros H Hne. destruct ds as [|d rest]; [congruence|].
  cbn [allDigits] in H. apply andb_prop in H. destruct H as [H _].
  exists d, rest. split; [reflexivity|exact H].
Qed.

Lemma toInt_inject (n : Z) : toInt (inject_Z n) = n.
Proof. unfold toInt. apply Qfloor_Z. Qed.

Lemma componentText_head (c : ExpressionComponent) :
  parsedComponent c ->
  exists d rest, componentText c = String d rest /\ isDigit (Some d) = true.
Proof.
  destruct c as [count sides sign|value]; cbn [parsedComponent componentText].
  - intros (n & s & -> & -> & Hn & Hs). rewrite !toInt_inject.
    destruct (integerText_spec n) as (Hd & Hne & _); [lia|].
    destruct (digits_head _ Hd Hne) as (d & rest & -> & Hdig).
    exists d, (rest ++ "d" ++ integerText s)%string. split; [reflexivity|exact Hdig].
  - intros _. destruct (integerText_spec (Z.abs value)) as (Hd & Hne & _); [lia|].
    exact (digits_head _ Hd Hne).
Qed.

Lemma signed_signOf (value : Z) :
  signed (signOf (Constant value)) (Z.abs value) = value.
Proof.
  unfold signOf, isNegative, signed. destruct (Z.ltb_spec value 0); lia.
Qed.

Lemma signOf_dice (count sides : Q) (sign : TermSign) :
  signOf (Dice count sides sign) = sign.
Proof. destruct sign; reflexivity. Qed.

(** ** Parsing what the formatter wrote *)

(** One run of the loop over the text of the components [c :: cs], which
    starts at the end of [pre]; [lead] is the sign of a first term. *)
Lemma parseLoop_terms (fuel : nat) :
  forall (cs : list ExpressionComponent) (c : ExpressionComponent)
    (source pre lead : string) (index : nat) (first : bool) (pending : TermSign)
    (acc : list ExpressionComponent),
    Forall parsedComponent (c :: cs) ->
    (length cs < fuel)%nat ->
    source = (pre ++ lead ++ componentText c ++ fragmentsText 1 cs)%string ->
    index = String.length pre ->
    (lead = "" /\ pending = signOf c)
    \/ (lead = "-" /\ first = true /\ signOf c = SignMinus) ->
    parseLoop fuel source index first pending acc = Some (inl (acc ++ c :: cs)).
Proof.
  induction fuel as [|fuel IH];
    intros cs c source pre lead index first pending acc Hall Hfuel Hsrc Hidx Hlead;
    [lia|].
  inversion Hall as [|? ? Hc Hcs]; subst x l.
  destruct (componentText_head c Hc) as (d & brest & Hbody & Hd).
  pose proof (digit_not_whitespace d Hd) as Hdw.
  destruct (digit_not_operator d Hd) as (Hd1 & Hd2 & Hd3 & Hd4).
  destruct (fragmentsText_head cs) as (Ht1 & Ht2 & Ht3).
  set (tl := fragmentsText 1 cs) in *.
  cbn [parseLoop]. cbv zeta.
  assert (Hsrc2 : source = ((pre ++ lead) ++ componentText c ++ tl)%string) by strings.
  (* the sign of a first term *)
  assert (Hfirst : exists ch rest,
             source = (pre ++ String ch rest)%string /\ isWhitespace ch = false).
  { destruct Hlead as [[-> _]|[-> _]].
    - exists d, (brest ++ tl)%string. rewrite Hsrc, Hbody. split; [reflexivity|exact Hdw].
    - exists "-"%char, (componentText c ++ tl)%string. rewrite Hsrc.
      split; reflexivity. }
  destruct Hfirst as (ch & rest & Hch & Hchw).
  rewrite (skipWhitespace_in source pre ch rest index Hch Hidx Hchw).
  rewrite (inside source pre ch rest index Hch Hidx).
  set (sg := first && (isChar (charAt source index) "+"
                       || isChar (charAt source index) "-")).
  set (sign := if sg
               then (if isChar (charAt source index) "-" then SignMinus else SignPlus)
               else pending).
  set (i2 := if sg then skipWhitespace source (index + 1) else index).
  assert (Hsign : sign = signOf c /\ i2 = String.length (pre ++ lead)).
  { unfold sign, i2, sg.
    rewrite (charAt_in source pre ch rest index Hch Hidx).
    destruct Hlead as [[-> ->]|(-> & -> & ->)].
    - assert (ch = d) as ->.
      { rewrite Hsrc, Hbody in Hch. cbn [append] in Hch.
        apply (f_equal (fun s => charAt s (String.length pre))) in Hch.
        rewrite !charAt_at in Hch. congruence. }
      cbn [isChar]. rewrite Hd1, Hd2, andb_false_r.
      split; [reflexivity|lengths].
    - assert (ch = "-"%char) as ->.
      { rewrite Hsrc in Hch. cbn [append] in Hch.
        apply (f_equal (fun s => charAt s (String.length pre))) in Hch.
        rewrite !charAt_at in Hch. congruence. }
      cbn [isChar Ascii.eqb Bool.eqb orb andb]. split; [reflexivity|].
      rewrite (skipWhitespace_in source (pre ++ "-")%string d (brest ++ tl)%string);
        [lengths| |lengths|exact Hdw].
      rewrite Hsrc, Hbody. strings. }
  destruct Hsign as [Hsign Hi2]. clearbody sign i2. clear sg. subst sign i2.
  set (pre2 := (pre ++ lead)%string) in *.
  (* the end of the iteration *)
  assert (Hafter : forall comps i,
             comps = acc ++ [c] ->
             i = String.length (pre2 ++ componentText c) ->
             (let index := skipWhitespace source i in
              if (String.length source <=? index)%nat then Some (inl comps)
              else
                match charAt source index with
                | Some operator =>
                    if negb (Ascii.eqb operator "+" || Ascii.eqb operator "-"
                             || Ascii.eqb operator ",")
                    then Some (inr (mkIssue (IllegalCharacter operator)
                                      (Z.of_nat index)))
                    else
                      let pendingSign :=
                        if Ascii.eqb operator "-" then SignMinus else SignPlus in
                      let index := skipWhitespace source (index + 1) in
                      if (String.length source <=? index)%nat then
                        Some (inr (mkIssue TrailingOperator
                                     (Z.of_nat (String.length source) - 1)))
                      else parseLoop fuel source index false pendingSign comps
                | None => Some (inl comps)
                end)
             = Some (inl (acc ++ c :: cs))).
  { intros comps i -> ->. cbv zeta. unfold tl in *. clear tl.
    destruct cs as [|c' cs'].
    - cbn [fragmentsText] in Hsrc2. rewrite append_empty in Hsrc2.
      rewrite Hsrc2 at 1 2. rewrite skipWhitespace_end.
      rewrite Hsrc2 at 1. rewrite Nat.leb_refl. reflexivity.
    - inversion Hcs as [|? ? Hc' Hcs']; subst x l.
      destruct (componentText_head c' Hc') as (d' & brest' & Hbody' & Hd').
      rewrite fragmentsText_cons in Hsrc2.
      set (op := (if isNegative c' then "-" else "+")%char) in *.
      set (tl' := fragmentsText 1 cs') in *.
      set (p3 := (pre2 ++ componentText c)%string) in *.
      assert (Hsrc3 : source = (p3 ++ String op (componentText c' ++ tl'))%string).
      { rewrite Hsrc2. unfold p3. rewrite append_assoc. reflexivity. }
      assert (Hopw : isWhitespace op = false) by (unfold op; destruct (isNegative c'); reflexivity).
      rewrite (skipWhitespace_in source p3 op _ _ Hsrc3 eq_refl Hopw).
      rewrite (inside source p3 op _ _ Hsrc3 eq_refl).
      rewrite (charAt_in source p3 op _ _ Hsrc3 eq_refl).
      assert (Hop : negb (Ascii.eqb op "+" || Ascii.eqb op "-" || Ascii.eqb op ",") = false)
        by (unfold op; destruct (isNegative c'); reflexivity).
      rewrite Hop.
      assert (Hsrc4 : source = ((p3 ++ String op "") ++ String d' (brest' ++ tl'))%string).
      { rewrite Hsrc3, Hbody'. rewrite append_assoc. reflexivity. }
      assert (Hi4 : (String.length p3 + 1)%nat = String.length (p3 ++ String op ""))
        by lengths.
      rewrite (skipWhitespace_in source _ d' _ _ Hsrc4 Hi4 (digit_not_whitespace d' Hd')).
      rewrite (inside source _ d' _ _ Hsrc4 Hi4).
      rewrite (IH cs' c' source (p3 ++ String op "")%string "" (String.length p3 + 1)%nat
                 false (if Ascii.eqb op "-" then SignMinus else SignPlus)
                 (acc ++ [c])).
      + rewrite <- app_assoc. reflexivity.
      + exact Hcs.
      + cbn [length] in Hfuel. lia.
      + rewrite Hsrc3. rewrite append_assoc. reflexivity.
      + exact Hi4.
      + left. split; [reflexivity|]. unfold op, signOf.
        destruct (isNegative c'); reflexivity. }
  destruct c as [count sides sgn|value].
  - (* a dice term *)
    cbn [parsedComponent] in Hc. destruct Hc as (n & s & -> & -> & Hn & Hs).
    cbn [componentText] in *. rewrite !toInt_inject in *.
    destruct (integerText_spec n) as (Hnd & Hnne & Hnv); [lia|].
    destruct (integerText_spec s) as (Hsd & Hsne & Hsv); [lia|].
    rewrite (readUnsignedInteger_in source pre2 (integerText n)
               ("d" ++ integerText s ++ tl)%string (String.length pre2));
      [|rewrite Hsrc2; strings|reflexivity|exact Hnd|exact Hnne|reflexivity].
    cbn [option_map tokenValue nextIndex]. rewrite Hnv.
    rewrite (charAt_in source (pre2 ++ integerText n)%string "d" (integerText s ++ tl)%string
               (String.length pre2 + String.length (integerText n)));
      [|rewrite Hsrc2; strings|lengths].
    cbn [isChar Ascii.eqb Bool.eqb orb andb].
    rewrite (readUnsignedInteger_in source (pre2 ++ integerText n ++ "d")%string
               (integerText s) tl);
      [|rewrite Hsrc2; strings|lengths|exact Hsd|exact Hsne|exact Ht1].
    cbn [tokenValue nextIndex]. rewrite Hsv.
    destruct (Z.leb_spec n 0); [lia|]. destruct (Z.leb_spec s 0); [lia|].
    apply Hafter.
    + rewrite signOf_dice. reflexivity.
    + lengths.
  - (* a constant *)
    cbn [componentText] in *.
    destruct (integerText_spec (Z.abs value)) as (Hvd & Hvne & Hvv); [lia|].
    rewrite (readUnsignedInteger_in source pre2 (integerText (Z.abs value)) tl
               (String.length pre2));
      [|exact Hsrc2|reflexivity|exact Hvd|exact Hvne|exact Ht1].
    cbn [option_map tokenValue nextIndex]. rewrite Hvv.
    assert (Hnext : charAt source (String.length pre2
                                   + String.length (integerText (Z.abs value)))
                    = charAt tl 0).
    { rewrite Hsrc2, <- append_assoc, <- length_append. apply charAt_append. }
    rewrite Hnext, Ht2, Ht3. cbn [orb].
    apply Hafter.
    + rewrite signed_signOf. reflexivity.
    + lengths.
Qed.

(** ** The parser and the formatter together *)

(** The formatter on components whose numbers are integers. *)
Lemma formatComponent_text (c : ExpressionComponent) :
  parsedComponent c -> formatComponent c = Some (componentText c).
Proof.
  destruct c as [count sides sign|value];
    cbn [parsedComponent formatComponent componentText]; [|reflexivity].
  intros (n & s & -> & -> & _ & _). unfold numberText.
  rewrite !isInteger_inject_Z. reflexivity.
Qed.

Lemma formatFragments_text (k : nat) (cs : list ExpressionComponent) :
  Forall parsedComponent cs -> formatFragments k cs = Some (fragmentsText k cs).
Proof.
  intros H. revert k; induction H as [|c cs Hc H IH]; intros k;
    cbn [formatFragments fragmentsText].
  - reflexivity.
  - unfold formatFragment. rewrite (formatComponent_text c Hc), IH.
    destruct k; reflexivity.
Qed.

Lemma formatDiceExpression_text (cs : list ExpressionComponent) :
  Forall parsedComponent cs ->
  formatDiceExpression (Components cs) = Some (expressionText (Components cs)).
Proof.
  intros H. unfold formatDiceExpression, expressionText. cbn [asComponents].
  destruct cs as [|c cs]; [reflexivity|]. apply formatFragments_text. exact H.
Qed.

(** What a successful parse holds. *)
Lemma parseDiceExpression_success (input : string) (p : ParsedDiceExpression) :
  parseDiceExpression input = Some (ParseSuccess p) ->
  parsedSource p = input /\
  parsedNormalized p = expressionText (Components (parsedComponents p)) /\
  formatDiceExpression (Components (parsedComponents p))
  = Some (parsedNormalized p) /\
  parsedComponents p <> [] /\
  Forall parsedComponent (parsedComponents p).
Proof.
  unfold parseDiceExpression. intros H.
  pose proof (parseLoop_total (S (String.length input)) input 0 true SignPlus []) as Ht.
  destruct (parseLoop (S (String.length input)) input 0 true SignPlus [])
    as [[cs|issue]|]; [|discriminate|discriminate].
  destruct Ht as [Hne Hall]; [lia|discriminate|constructor|].
  rewrite (formatDiceExpression_text cs Hall) in H.
  injection H as <-. cbn [parsedSource parsedNormalized parsedComponents].
  split; [reflexivity|]. split; [reflexivity|].
  split; [apply formatDiceExpression_text; exact Hall|].
  split; assumption.
Qed.

(** The text of a non-empty list of components parses back to the list. *)
Lemma parse_format (c : ExpressionComponent) (cs : list ExpressionComponent) :
  Forall parsedComponent (c :: cs) ->
  parseDiceExpression (expressionText (Components (c :: cs)))
  = Some (ParseSuccess
            (mkParsed (expressionText (Components (c :: cs)))
               (expressionText (Components (c :: cs))) (c :: cs))).
Proof.
  intros Hall. unfold parseDiceExpression.
  set (text := expressionText (Components (c :: cs))).
  assert (Htext : text
                  = ("" ++ (if isNegative c then "-" else "")
                     ++ componentText c ++ fragmentsText 1 cs)%string).
  { unfold text, expressionText. cbn [asComponents fragmentsText].
    unfold fragmentText. destruct (isNegative c); reflexivity. }
  rewrite (parseLoop_terms (S (String.length text)) cs c text ""
             (if isNegative c then "-" else "") 0 true SignPlus []).
  - cbn [app]. rewrite (formatDiceExpression_text (c :: cs) Hall). reflexivity.
  - exact Hall.
  - pose proof (fragmentsText_length cs) as Hlen.
    rewrite Htext, !length_append. lia.
  - exact Htext.
  - reflexivity.
  - unfold signOf. destruct (isNegative c); [right|left]; repeat split.
Qed.


Lemma skipWhitespaceLoop_blank (s : string) (index : nat) :
  blank s = true -> skipWhitespaceLoop s index = (index + String.length s)%nat.
Proof.
  revert index. induction s as [|c s IH]; intros index H;
    cbn [skipWhitespaceLoop String.length].
  - lia.
  - cbn [blank] in H. apply andb_prop in H. destruct H as [Hc Hs].
    rewrite Hc, IH by exact Hs. lia.
Qed.

(** X26.  The parser always answers.  A success keeps the input as its
    source and holds at least one component; a failure reports an index
    between 0 and the length of the input. *)
Theorem parseDiceExpression_answers (input : string) :
  exists r,
    parseDiceExpression input = Some r /\
    match r with
    | ParseSuccess p => parsedSource p = input /\ parsedComponents p <> []
    | ParseFailure issue =>
        (0 <= issueIndex issue <= Z.of_nat (String.length input))%Z
    end.
Proof.
  destruct (parseDiceExpression input) as [[p|issue]|] eqn:H.
  - exists (ParseSuccess p). split; [reflexivity|].
    destruct (parseDiceExpression_success input p H) as (Hs & _ & _ & Hne & _).
    split; assumption.
  - exists (ParseFailure issue). split; [reflexivity|].
    unfold parseDiceExpression in H.
    pose proof (parseLoop_total (S (String.length input)) input 0 true SignPlus [])
      as Ht.
    destruct (parseLoop (S (String.length input)) input 0 true SignPlus [])
      as [[cs|issue']|]; try discriminate.
    + destruct (formatDiceExpression (Components cs)); discriminate H.
    + injection H as <-. apply Ht; [lia|discriminate|constructor].
  - exfalso. unfold parseDiceExpression in H.
    pose proof (parseLoop_total (S (String.length input)) input 0 true SignPlus [])
      as Ht.
    destruct (parseLoop (S (String.length input)) input 0 true SignPlus [])
      as [[cs|issue']|]; try discriminate.
    + destruct Ht as [_ Hall]; [lia|discriminate|constructor|].
      rewrite (formatDiceExpression_text cs Hall) in H. discriminate H.
    + apply Ht; [lia|discriminate|constructor].
Qed.

(** X27.  Formatting then parsing is the identity: a non-empty list of
    components, each an integer constant or a dice term of at least one
    die with at least one side, with numbers a [number] holds exactly,
    has a text, which parses to that list and is its own normalized
    form. *)
Theorem format_parse_round_trip (components : list ExpressionComponent) :
  components <> [] ->
  Forall parsedComponent components ->
  forallb safeComponent components = true ->
  exists text,
    formatDiceExpression (Components components) = Some text /\
    parseDiceExpression text
    = Some (ParseSuccess (mkParsed text text components)).
Proof.
  intros Hne Hall _. exists (expressionText (Components components)).
  split; [apply formatDiceExpression_text; exact Hall|].
  destruct components as [|c cs]; [congruence|].
  apply parse_format. exact Hall.
Qed.

Lemma format_parse_round_trip_witness :
  formatDiceExpression
    (Components [Dice 2 6 SignPlus; Constant (-3); Dice 1 4 SignMinus])
  = Some "2d6-3-1d4" /\
  parseDiceExpression "2d6-3-1d4"
  = Some (ParseSuccess
            (mkParsed "2d6-3-1d4" "2d6-3-1d4"
               [Dice 2 6 SignPlus; Constant (-3); Dice 1 4 SignMinus])).
Proof.
  destruct (format_parse_round_trip
              [Dice 2 6 SignPlus; Constant (-3); Dice 1 4 SignMinus])
    as (text & Ht & Hp).
  - discriminate.
  - repeat constructor.
    + exists 2%Z, 6%Z. repeat split; lia.
    + exists 1%Z, 4%Z. repeat split; lia.
  - reflexivity.
  - assert (E : Some text = Some "2d6-3-1d4") by (rewrite <- Ht; reflexivity).
    injection E as ->. split; [reflexivity|exact Hp].
Defined.

(** X28.  The normalized text of a parsed expression is a fixed point of
    the parser: when the numbers read are ones a [number] holds exactly,
    it parses, to the same components, and its own normalized text is
    itself. *)
Theorem normalized_parses_to_itself (input : string) (p : ParsedDiceExpression) :
  parseDiceExpression input = Some (ParseSuccess p) ->
  forallb safeComponent (parsedComponents p) = true ->
  parseDiceExpression (parsedNormalized p)
  = Some (ParseSuccess
            (mkParsed (parsedNormalized p) (parsedNormalized p) (parsedComponents p))).
Proof.
  intros H _.
  destruct (parseDiceExpression_success input p H) as (_ & Hn & _ & Hne & Hall).
  rewrite Hn. destruct (parsedComponents p) as [|c cs]; [congruence|].
  apply parse_format. exact Hall.
Qed.

Lemma normalized_parses_to_itself_witness :
  parseDiceExpression "2d6+3-1d4"
  = Some (ParseSuccess
            (mkParsed "2d6+3-1d4" "2d6+3-1d4"
               [Dice 2 6 SignPlus; Constant 3; Dice 1 4 SignMinus])).
Proof.
  apply (normalized_parses_to_itself " 2D6 ,3 - d4"
           (mkParsed " 2D6 ,3 - d4" "2d6+3-1d4"
              [Dice 2 6 SignPlus; Constant 3; Dice 1 4 SignMinus]));
    reflexivity.
Defined.



(** X30.  An input of whitespace only, the empty input among them, is
    rejected as an empty expression, at index 0. *)
Theorem blank_input_rejected (input : string) :
  blank input = true ->
  parseDiceExpression input = Some (ParseFailure (mkIssue EmptyExpression 0)).
Proof.
  intros H. unfold parseDiceExpression. cbn [parseLoop]. cbv zeta.
  assert (Hskip : skipWhitespace input 0 = String.length input).
  { unfold skipWhitespace, stringFrom. rewrite Nat.sub_0_r, substring_all.
    rewrite (skipWhitespaceLoop_blank input 0 H). reflexivity. }
  rewrite Hskip, Nat.leb_refl. reflexivity.
Qed.

Lemma blank_input_rejected_witness :
  parseDiceExpression "  " = Some (ParseFailure (mkIssue EmptyExpression 0)).
Proof. apply (blank_input_rejected "  "). reflexivity. Defined.

